(** * CuPADMAN: the distributed EMC iteration engine

    A shallow embedding of the reconstruction loop of [src/emc.py] (the
    stand-alone in-plane script), of [src/cupadman/emc.py] (the package
    engine, which adds memory-bounded frame blocks and streams) and of the
    CUDA kernels of [src/kernels.py].

    Conventions.
    - Python integers and C integer indices are [Z]; positions in a list
      are [nat].
    - Double-precision values are idealised as real numbers ([R]): the
      statements about them are about exact arithmetic.  Module [Doubles]
      alone keeps the stand-alone engine in IEEE binary64 arithmetic, for
      what depends on rounding.
    - Device and host arrays are lists; a matrix is the list of its rows.
    - An MPI run is the list of the per-rank local states, in rank order;
      a collective combines one contribution per rank. *)

From Stdlib Require Import ZArith List Bool Lia Reals Lra QArith Qround Permutation.
From Stdlib Require Floats Uint63.
Import ListNotations.

(* ================================================================== *)
(** * Part I. The embedding                                            *)
(* ================================================================== *)

(** ** Python and NumPy primitives *)

Module Py.

Open Scope Z_scope.

(** [len(range(start, stop, step))] for a positive step.  [step] is the
    communicator size, which MPI keeps at least 1; for a step that is not
    positive this model yields the empty range. *)
Definition range_len (start stop step : Z) : Z :=
  if (0 <? step) && (start <? stop) then (stop - start - 1) / step + 1 else 0.

(** [range(start, stop, step)]: element [i] is [start + i*step]. *)
Definition range (start stop step : Z) : list Z :=
  map (fun i => start + Z.of_nat i * step)
      (seq 0 (Z.to_nat (range_len start stop step))).

(** [enumerate(l)]. *)
Definition enumerate {A} (l : list A) : list (nat * A) :=
  combine (seq 0 (length l)) l.

(** [numpy.ndarray.astype('i4')] on a 64-bit integer: keep the low 32
    bits, read as a signed number. *)
Definition astype_i4 (v : Z) : Z := (v + 2 ^ 31) mod 2 ^ 32 - 2 ^ 31.

(** The stop bound of the slice [a[0:k]] on an array of length [n]:
    a negative [k] counts from the end, and the bound is clamped. *)
Definition slice_stop (k : Z) (n : nat) : nat :=
  if k <? 0 then Z.to_nat (Z.of_nat n + k) else Nat.min (Z.to_nat k) n.

(** [a[0:k] += 1]. *)
Definition incr_prefix (k : nat) (a : list Z) : list Z :=
  map (fun x => x + 1) (firstn k a) ++ skipn k a.

(** [sum] and [max] of a list of integers; [max] of an empty array
    raises. *)
Definition zsum (l : list Z) : Z := fold_right Z.add 0 l.

Definition zmax (l : list Z) : option Z :=
  match l with
  | [] => None
  | x :: xs => Some (fold_left Z.max xs x)
  end.

End Py.

(** ** Striping of orientations over ranks
    ([run_iteration], [_calculate_prob] and [_update_model] of both
    engines) *)

Module Striping.

Open Scope Z_scope.

(** [num_rot_p]: the number of rows of the local probability matrix. *)
Definition num_rot_p (num_rot num_proc rank : Z) : Z :=
  let n := num_rot / num_proc in
  if rank <? num_rot mod num_proc then n + 1 else n.

(** The orientations [r] the loops
    [for i, r in enumerate(range(self.rank, self.num_rot, self.num_proc))]
    visit, in order. *)
Definition owned (num_rot num_proc rank : Z) : list Z :=
  Py.range rank num_rot num_proc.

(** The design note's ownership predicate. *)
Definition owner (r rank num_proc : Z) : bool := r mod num_proc =? rank.

(** [argmax * num_proc + rank], then [astype('i4')]: the global index
    reported for local row [i]. *)
Definition global_index (num_proc rank : Z) (i : nat) : Z :=
  Py.astype_i4 (Z.of_nat i * num_proc + rank).

End Striping.

(** ** The work partitioner (package engine, [run_iteration]) *)

Module Partition.

Open Scope Z_scope.

Definition MEM_THRESH : Q := 8 # 10.

(** [mem_frac = num_rot_p*num_data*8 / (mem_size - dset.mem)]; dividing
    by zero raises. *)
Definition mem_frac (num_rot_p num_data mem_size dset_mem : Z) : option Q :=
  if mem_size - dset_mem =? 0 then None
  else Some (inject_Z (num_rot_p * num_data * 8) / inject_Z (mem_size - dset_mem))%Q.

(** [num_blocks = int(np.ceil(mem_frac / MEM_THRESH))]. *)
Definition num_blocks (num_rot_p num_data mem_size dset_mem : Z) : option Z :=
  match mem_frac num_rot_p num_data mem_size dset_mem with
  | None => None
  | Some f => Some (Qceiling (f / MEM_THRESH))
  end.

(** [block_sizes = np.array([num_data // num_blocks] * num_blocks)]
    followed by [block_sizes[0:num_data % num_blocks] += 1].  The floor
    division raises when [num_blocks] is zero; a negative repeat count
    gives the empty list. *)
Definition block_sizes (num_data num_blocks : Z) : option (list Z) :=
  if num_blocks =? 0 then None
  else
    let base := repeat (num_data / num_blocks) (Z.to_nat num_blocks) in
    Some (Py.incr_prefix (Py.slice_stop (num_data mod num_blocks) (length base)) base).

(** The [drange] pairs the block loop builds:
    [b_start = 0; for b in block_sizes: drange = (b_start, b_start + b); b_start += b]. *)
Fixpoint dranges (b_start : Z) (sizes : list Z) : list (Z * Z) :=
  match sizes with
  | [] => []
  | b :: rest => (b_start, b_start + b) :: dranges (b_start + b) rest
  end.

(** The schedule of one iteration: the block sizes, then the ranges. *)
Definition schedule (num_rot_p num_data mem_size dset_mem : Z)
  : option (list Z * list (Z * Z)) :=
  match num_blocks num_rot_p num_data mem_size dset_mem with
  | None => None
  | Some nb =>
      match block_sizes num_data nb with
      | None => None
      | Some sizes => Some (sizes, dranges 0 sizes)
      end
  end.

(** Bytes of the probability sub-matrix of a block of [b] frames. *)
Definition block_bytes (num_rot_p b : Z) : Z := num_rot_p * b * 8.

(** The budget [MEM_THRESH * (mem_size - dset.mem)]. *)
Definition budget (mem_size dset_mem : Z) : Q :=
  (MEM_THRESH * inject_Z (mem_size - dset_mem))%Q.

End Partition.

(** ** Arrays of doubles and of integers *)

Module Arr.

Open Scope R_scope.

(** [a[i]] on an array of doubles and on an array of integers.  Reading
    outside the array is undefined in CUDA; the model reads 0 there. *)
Definition rd (a : list R) (i : Z) : R :=
  if (i <? 0)%Z then 0 else nth (Z.to_nat i) a 0.

Definition rdz (a : list Z) (i : Z) : Z :=
  if (i <? 0)%Z then 0%Z else nth (Z.to_nat i) a 0%Z.

(** Position [i] of a list replaced by [v]; a list is left as it is when
    [i] is outside it. *)
Fixpoint set_nth {A} (i : nat) (v : A) (a : list A) : list A :=
  match a, i with
  | [], _ => []
  | _ :: rest, O => v :: rest
  | x :: rest, S j => x :: set_nth j v rest
  end.

(** [a[i] = v].  A store outside the array is undefined in CUDA; the
    model drops it. *)
Definition upd (i : Z) (v : R) (a : list R) : list R :=
  if (i <? 0)%Z then a else set_nth (Z.to_nat i) v a.

(** [atomicAdd(&a[i], v)]. *)
Definition atomicAdd (i : Z) (v : R) (a : list R) : list R :=
  upd i (rd a i + v) a.

(** The values [t = lo; t < lo + n; ++t] of a C loop. *)
Definition zrange (lo n : Z) : list Z :=
  map (fun k => (lo + Z.of_nat k)%Z) (seq 0 (Z.to_nat n)).

(** [a[:] = 0] and [zeros(n)]. *)
Definition zero_fill (a : list R) : list R := map (fun _ => 0) a.
Definition zeros (n : nat) : list R := repeat 0 n.

(** [a[s:e]] for [0 <= s <= e]. *)
Definition slice {A} (s e : Z) (a : list A) : list A :=
  firstn (Z.to_nat (e - s)) (skipn (Z.to_nat s) a).

(** Elementwise combination of two arrays of one shape. *)
Definition map2 {A B C} (f : A -> B -> C) (a : list A) (b : list B) : list C :=
  map (fun ab => f (fst ab) (snd ab)) (combine a b).

(** [sum] of an array. *)
Definition rsum (a : list R) : R := fold_left Rplus a 0.

(** [max] of a non-empty array, given as its head and tail. *)
Definition rmax1 (x : R) (xs : list R) : R := fold_left Rmax xs x.

(** The index of the first maximum of a non-empty array: [best] is the
    running maximum, found at index [best_i]; [i] is the index of the head
    of [l]. *)
Fixpoint argmax_from (best_i : nat) (best : R) (i : nat) (l : list R) : nat :=
  match l with
  | [] => best_i
  | x :: xs =>
      if Rlt_dec best x then argmax_from i x (S i) xs
      else argmax_from best_i best (S i) xs
  end.

(** A matrix is the list of its rows; [col d m] is column [d]. *)
Abbreviation matrix := (list (list R)).

Definition col (d : nat) (m : matrix) : list R := map (fun row => nth d row 0) m.

(** [m.max(0)], [m.argmax(axis=0)] for a matrix of [ncol] columns: both
    raise on a matrix without rows. *)
Definition max0 (ncol : nat) (m : matrix) : option (list R) :=
  match m with
  | [] => None
  | _ :: _ =>
      Some (map (fun d => match col d m with
                          | [] => 0
                          | x :: xs => rmax1 x xs
                          end) (seq 0 ncol))
  end.

Definition argmax0 (ncol : nat) (m : matrix) : option (list nat) :=
  match m with
  | [] => None
  | _ :: _ =>
      Some (map (fun d => match col d m with
                          | [] => O
                          | x :: xs => argmax_from 0 x 1 xs
                          end) (seq 0 ncol))
  end.

(** [m.sum(0)] and [m.sum(1)]. *)
Definition sum0 (ncol : nat) (m : matrix) : list R :=
  map (fun d => rsum (col d m)) (seq 0 ncol).

Definition sum1 (m : matrix) : list R := map rsum m.

(** [cp.empty((nrow, ncol))]: a fresh array of unspecified contents,
    given by [junk]. *)
Definition empty (junk : nat -> nat -> R) (nrow ncol : nat) : matrix :=
  map (fun i => map (junk i) (seq 0 ncol)) (seq 0 nrow).

End Arr.

(** ** The CUDA kernels of [kernels.py] *)

Module Kernels.

Import Arr.
Open Scope R_scope.

(** [blockDim.x * blockIdx.x + threadIdx.x]: unsigned 32-bit
    arithmetic. *)
Definition thread_index (blockDim blockIdx threadIdx : Z) : Z :=
  ((blockDim * blockIdx + threadIdx) mod 2 ^ 32)%Z.

(** A launch of [grid] blocks of [block] threads over a state [S]: the
    threads run one after the other, block by block.  (The device runs
    them concurrently; the threads of [calc_prob_all] write disjoint
    cells, and those of [merge_all] and [slice_merge] only add
    atomically.) *)
Definition launch {S} (grid block : Z) (thread : Z -> S -> S) (s : S) : S :=
  fold_left
    (fun s b =>
       fold_left (fun s t => thread (thread_index block b t) s) (zrange 0 block) s)
    (zrange 0 grid) s.

(** The same for a two-dimensional launch of [grid x grid] blocks of
    [block x block] threads; [int x] and [int y] are the unsigned sums
    converted to signed 32-bit integers. *)
Definition launch2 {S} (grid block : Z) (thread : Z -> Z -> S -> S) (s : S) : S :=
  launch grid block
    (fun x s => launch grid block
                  (fun y s => thread (Py.astype_i4 x) (Py.astype_i4 y) s) s) s.

(** [int(np.ceil(n/32.))]: the grid of a launch over [n] items. *)
Definition bsize (n : Z) : Z := (- ((- n) / 32))%Z.

(** The sparse frames as the kernels receive them. *)
Record frames := {
  ones : list Z;
  multi : list Z;
  o_acc : list Z;
  m_acc : list Z;
  p_o : list Z;
  p_m : list Z;
  c_m : list Z
}.

(** One thread of [calc_prob_all]. *)
Definition calc_prob_all_thread (lview : list R) (ndata : Z) (f : frames)
    (init : R) (scales : list R) (d : Z) (prob_r : list R) : list R :=
  if (ndata <=? d)%Z then prob_r
  else
    let prob_r := upd d (init * rd scales d) prob_r in
    let prob_r :=
      fold_left
        (fun prob_r t => upd d (rd prob_r d + rd lview (rdz (p_o f) t)) prob_r)
        (zrange (rdz (o_acc f) d) (rdz (ones f) d)) prob_r in
    fold_left
      (fun prob_r t =>
         upd d (rd prob_r d + rd lview (rdz (p_m f) t) * IZR (rdz (c_m f) t)) prob_r)
      (zrange (rdz (m_acc f) d) (rdz (multi f) d)) prob_r.

(** [kernels.calc_prob_all((grid,), (32,), (...))]. *)
Definition calc_prob_all (grid : Z) (lview : list R) (ndata : Z) (f : frames)
    (init : R) (scales : list R) (prob_r : list R) : list R :=
  launch grid 32 (calc_prob_all_thread lview ndata f init scales) prob_r.

(** One thread of [merge_all]. *)
Definition merge_all_thread (prob_r : list R) (ndata : Z) (f : frames)
    (d : Z) (view : list R) : list R :=
  if (ndata <=? d)%Z then view
  else
    let view :=
      fold_left
        (fun view t => atomicAdd (rdz (p_o f) t) (rd prob_r d) view)
        (zrange (rdz (o_acc f) d) (rdz (ones f) d)) view in
    fold_left
      (fun view t => atomicAdd (rdz (p_m f) t) (rd prob_r d * IZR (rdz (c_m f) t)) view)
      (zrange (rdz (m_acc f) d) (rdz (multi f) d)) view.

(** [kernels.merge_all((grid,), (32,), (...))]. *)
Definition merge_all (grid : Z) (prob_r : list R) (ndata : Z) (f : frames)
    (view : list R) : list R :=
  launch grid 32 (merge_all_thread prob_r ndata f) view.

(** [__double2int_rd]: round towards minus infinity. *)
Definition double2int_rd (v : R) : Z := Int_part v.

(** One thread of [slice_merge]; the state is [(model, mweights)].
    [int t] holds [x*size + y] in 32 bits. *)
Definition slice_merge_thread (view : list R) (angle : R) (size : Z)
    (x y : Z) (mw : list R * list R) : list R * list R :=
  if ((size - 1 <? x) || (size - 1 <? y))%Z then mw
  else
    let t := Py.astype_i4 (x * size + y) in
    let cen := (size ÷ 2)%Z in
    let ac := cos angle in
    let as_ := sin angle in
    let tx := IZR (x - cen) * ac - IZR (y - cen) * as_ + IZR cen in
    let ty := IZR (x - cen) * as_ + IZR (y - cen) * ac + IZR cen in
    let ix := double2int_rd tx in
    let iy := double2int_rd ty in
    if ((ix <? 0) || (size - 2 <? ix) || (iy <? 0) || (size - 2 <? iy))%Z then mw
    else
      let fx := tx - IZR ix in
      let fy := ty - IZR iy in
      let cx := 1 - fx in
      let cy := 1 - fy in
      let add (i : Z) (w : R) (mw : list R * list R) :=
        (atomicAdd i (rd view t * w) (fst mw), atomicAdd i w (snd mw)) in
      add ((ix + 1) * size + (iy + 1))%Z (fx * fy)
        (add (ix * size + (iy + 1))%Z (cx * fy)
           (add ((ix + 1) * size + iy)%Z (fx * cy)
              (add (ix * size + iy)%Z (cx * cy) mw))).

(** [kernels.slice_merge((grid,)*2, (32,)*2, (view, angle, size, model, mweights))]. *)
Definition slice_merge (grid : Z) (view : list R) (angle : R) (size : Z)
    (model mweights : list R) : list R * list R :=
  launch2 grid 32 (slice_merge_thread view angle size) (model, mweights).

End Kernels.

(** ** MPI collectives

    A collective over vectors of length [n] takes the list of the ranks'
    contributions, in rank order, and yields the combined vector. *)

Module MPI.

Import Arr.
Open Scope R_scope.

(** [Allreduce(..., op=MPI.MAX)] on doubles: every rank receives the
    elementwise maximum.  A communicator has at least one rank. *)
Definition Allreduce_MAX (n : nat) (contribs : list (list R)) : list R :=
  map (fun d => match col d contribs with
                | [] => 0
                | x :: xs => rmax1 x xs
                end) (seq 0 n).

(** [Allreduce(..., op=MPI.MAX)] on 32-bit integers. *)
Definition Allreduce_MAX_INT (n : nat) (contribs : list (list Z)) : list Z :=
  map (fun d => match map (fun v => nth d v 0%Z) contribs with
                | [] => 0%Z
                | x :: xs => fold_left Z.max xs x
                end) (seq 0 n).

(** [Allreduce(..., op=MPI.SUM)] and [Reduce(..., op=MPI.SUM)]: the
    elementwise sum (the latter is received by the root only). *)
Definition Allreduce_SUM (n : nat) (contribs : list (list R)) : list R :=
  sum0 n contribs.

Definition Reduce_SUM (n : nat) (contribs : list (list R)) : list R :=
  sum0 n contribs.

End MPI.

(** ** [_normalize_prob]: the distributed log-sum-exp

    Both engines run the same steps up to the last line; they differ in
    the floor applied there ([floor_step]).  The exponential, the sums
    and the quotient are those of the real numbers here;
    [Doubles.normalize_prob] has them as the code rounds them. *)

Module Normalize.

Import Arr.
Open Scope R_scope.

Definition P_MIN : R := 1 / 1000000.

(** [all (map f l)] for a step that may raise. *)
Fixpoint mapM {A B} (f : A -> option B) (l : list A) : option (list B) :=
  match l with
  | [] => Some []
  | x :: rest =>
      match f x, mapM f rest with
      | Some y, Some ys => Some (y :: ys)
      | _, _ => None
      end
  end.

(** [rmax_p = (self.prob.argmax(axis=0) * self.num_proc + self.rank).astype('i4')]. *)
Definition rmax_local (num_proc : Z) (ncol : nat) (rank : nat) (prob : matrix)
  : option (list Z) :=
  match argmax0 ncol prob with
  | None => None
  | Some am => Some (map (Striping.global_index num_proc (Z.of_nat rank)) am)
  end.

(** [rmax_p[max_exp_p != max_exp] = -1]. *)
Definition invalidate (rmax_p : list Z) (max_exp_p max_exp : list R) : list Z :=
  map2 (fun r mm => if Req_dec_T (fst mm) (snd mm) then r else (-1)%Z)
       rmax_p (combine max_exp_p max_exp).

(** [self.prob = cp.exp(self.prob - max_exp)]. *)
Definition exp_shift (max_exp : list R) (prob : matrix) : matrix :=
  map (fun row => map2 (fun p m => exp (p - m)) row max_exp) prob.

(** [self.prob /= cp.array(psum)]. *)
Definition divide (psum : list R) (prob : matrix) : matrix :=
  map (fun row => map2 Rdiv row psum) prob.

(** Lines 1 to 16 of [_normalize_prob], for all ranks at once: the
    matrices after the division by the global normaliser, and [rmax].
    [probs] holds the local matrix of every rank, each of [ncol]
    columns. *)
Definition normalize_upto_divide (num_proc : Z) (ncol : nat) (probs : list matrix)
  : option (list matrix * list Z) :=
  match mapM (max0 ncol) probs,
        mapM (fun rp => rmax_local num_proc ncol (fst rp) (snd rp)) (Py.enumerate probs) with
  | Some max_exp_p, Some rmax_p =>
      let max_exp := MPI.Allreduce_MAX ncol max_exp_p in
      let rmax_p := map2 (fun r mp => invalidate r mp max_exp) rmax_p max_exp_p in
      let rmax := MPI.Allreduce_MAX_INT ncol rmax_p in
      let probs := map (exp_shift max_exp) probs in
      let psum_p := map (sum0 ncol) probs in
      let psum := MPI.Allreduce_SUM ncol psum_p in
      Some (map (divide psum) probs, rmax)
  | _, _ => None
  end.

(** The last line, given the engine's floor. *)
Definition normalize_prob (floor_step : R -> R) (num_proc : Z) (ncol : nat)
    (probs : list matrix) : option (list matrix * list Z) :=
  match normalize_upto_divide num_proc ncol probs with
  | None => None
  | Some (probs, rmax) => Some (map (map (map floor_step)) probs, rmax)
  end.

(** [src/emc.py]: [self.prob[self.prob < P_MIN] = 0]. *)
Definition floor_zero (p : R) : R := if Rlt_dec p P_MIN then 0 else p.

(** [src/cupadman/emc.py]: [self.prob.clip(a_min=P_MIN, out=self.prob)]. *)
Definition floor_clip (p : R) : R := Rmax p P_MIN.

End Normalize.

(** ** [_normalize_model]: reduce to root, divide, broadcast
    (the same in both engines) *)

Module NormalizeModel.

Import Arr.
Open Scope R_scope.

(** [self.model[self.mweights > 0] /= self.mweights[self.mweights > 0]]. *)
Definition divide_supported (model mweights : list R) : list R :=
  map2 (fun m w => if Rlt_dec 0 w then m / w else m) model mweights.

(** [acc] holds [(dmodel, dmweights)] of every rank, each of [ncell]
    cells.  The result is the model every rank holds after the broadcast,
    and the weights the root holds. *)
Definition normalize_model (ncell : nat) (acc : list (list R * list R))
  : list R * list R :=
  let model := MPI.Reduce_SUM ncell (map fst acc) in
  let mweights := MPI.Reduce_SUM ncell (map snd acc) in
  (divide_supported model mweights, mweights).

End NormalizeModel.

(** ** The stand-alone engine of [src/emc.py] *)

Module Legacy.

Import Arr.
Open Scope R_scope.

Record Dataset := {
  num_data : Z;
  frames : Kernels.frames
}.

Record EMC := {
  num_proc : Z;
  size : Z;
  num_rot : Z;
  dset : Dataset;
  scales : list R
}.

Definition bsize_model (e : EMC) : Z := Kernels.bsize (size e).
Definition bsize_data (e : EMC) : Z := Kernels.bsize (num_data (dset e)).

(** [r/self.num_rot*2.*np.pi]. *)
Definition angle (e : EMC) (r : Z) : R := IZR r / IZR (num_rot e) * 2 * PI.

Section WithRender.

(** The render kernel as [_calculate_prob] launches it, with six
    arguments (the [slice_gen] of [kernels.py] takes seven).  Like that
    one it stores into every cell of its output buffer, so the view is a
    function of the model, the angle and the size. *)
Variable slice_gen : list R -> R -> Z -> list R.

(** [_calculate_prob] on one rank; [prob] is the local buffer. *)
Definition calculate_prob (e : EMC) (rank : Z) (model : list R) (prob : matrix)
  : matrix :=
  let msum := - rsum model in
  fold_left
    (fun prob ir =>
       let view := slice_gen model (angle e (snd ir)) (size e) in
       set_nth (fst ir)
         (Kernels.calc_prob_all (bsize_data e) view (num_data (dset e))
            (frames (dset e)) msum (scales e) (nth (fst ir) prob []))
         prob)
    (Py.enumerate (Striping.owned (num_rot e) (num_proc e) rank)) prob.

(** [_normalize_prob] on all ranks. *)
Definition normalize_prob (e : EMC) (probs : list matrix)
  : option (list matrix * list Z) :=
  Normalize.normalize_prob Normalize.floor_zero (num_proc e)
    (Z.to_nat (num_data (dset e))) probs.

(** The body of the loop of [_update_model] for one [(i, r)]; the state
    is [(view, (dmodel, dmweights))]. *)
Definition update_model_step (e : EMC) (prob : matrix) (p_norm : list R)
    (st : list R * (list R * list R)) (ir : nat * Z)
  : list R * (list R * list R) :=
  if Req_dec_T (nth (fst ir) p_norm 0) 0 then st
  else
    let view := zero_fill (fst st) in
    let view :=
      Kernels.merge_all (bsize_data e) (nth (fst ir) prob []) (num_data (dset e))
        (frames (dset e)) view in
    (view,
     Kernels.slice_merge (bsize_model e)
       (map (fun v => v / nth (fst ir) p_norm 0) view)
       (angle e (snd ir)) (size e) (fst (snd st)) (snd (snd st))).

(** [_update_model] on one rank. *)
Definition update_model (e : EMC) (rank : Z) (prob : matrix)
    (view dmodel dmweights : list R) : list R * (list R * list R) :=
  let p_norm := sum1 prob in
  fold_left (update_model_step e prob p_norm)
    (Py.enumerate (Striping.owned (num_rot e) (num_proc e) rank))
    (view, (zero_fill dmodel, zero_fill dmweights)).

(** The ranks of the communicator. *)
Definition ranks (e : EMC) : list Z := zrange 0 (num_proc e).

(** [run_iteration] on all ranks.  [model] is the model every rank holds,
    [mweights] the weights each rank holds; [junk] and [vjunk] give the
    contents of the arrays [cp.empty] hands to each rank.  The result is
    the broadcast model and the root's weights. *)
Definition run_iteration (e : EMC) (model : list R) (mweights : Z -> list R)
    (junk : Z -> nat -> nat -> R) (vjunk : Z -> nat -> R)
  : option (list R * list R) :=
  let probs :=
    map (fun rank =>
           let num_rot_p := Striping.num_rot_p (num_rot e) (num_proc e) rank in
           let prob := empty (junk rank) (Z.to_nat num_rot_p)
                         (Z.to_nat (num_data (dset e))) in
           calculate_prob e rank model prob)
        (ranks e) in
  match normalize_prob e probs with
  | None => None
  | Some (probs, rmax) =>
      let acc :=
        map (fun rp =>
               let view := map (vjunk (fst rp)) (seq 0 (Z.to_nat (size e ^ 2))) in
               snd (update_model e (fst rp) (snd rp) view model (mweights (fst rp))))
            (combine (ranks e) probs) in
      Some (NormalizeModel.normalize_model (length model) acc)
  end.

End WithRender.

End Legacy.

(** ** The package engine of [src/cupadman/emc.py] *)

Module Engine.

Import Arr.
Open Scope R_scope.

Record Dataset := {
  num_data : Z;
  mem : Z;
  frames : Kernels.frames;
  bg : list R
}.

(** The fields [run_iteration] and its steps read.  [num_rot] is the
    [self.num_rot] they read; the constructor of the package does not
    assign it (it builds [self.quat] from [num_div]), so it is an input
    here. *)
Record EMC := {
  num_streams : Z;
  num_proc : Z;
  mem_size : Z;
  size : Z;
  num_rot : Z;
  num_pix : Z;
  dset : Dataset;
  scales : list R
}.

(** The probability buffer [self.prob] with its shape; it starts as
    [cp.array([])], of shape [(0,)]. *)
Record buffer := {
  shape : list Z;
  data : matrix
}.

Definition initial_buffer : buffer := {| shape := [0%Z]; data := [] |}.

(** [if self.prob.shape != (num_rot_p, block_sizes.max()):
        self.prob = cp.empty((num_rot_p, block_sizes.max()), dtype='f8')]. *)
Definition ensure_buffer (old : buffer) (junk : nat -> nat -> R)
    (num_rot_p width : Z) : buffer :=
  if list_eq_dec Z.eq_dec (shape old) [num_rot_p; width] then old
  else {| shape := [num_rot_p; width];
          data := empty junk (Z.to_nat num_rot_p) (Z.to_nat width) |}.

(** The frames of a block: [ones[s:e]], [multi[s:e]], [ones_accum[s:e]],
    [multi_accum[s:e]] and the pooled arrays as they are. *)
Definition block_frames (s e : Z) (f : Kernels.frames) : Kernels.frames :=
  {| Kernels.ones := slice s e (Kernels.ones f);
     Kernels.multi := slice s e (Kernels.multi f);
     Kernels.o_acc := slice s e (Kernels.o_acc f);
     Kernels.m_acc := slice s e (Kernels.m_acc f);
     Kernels.p_o := Kernels.p_o f;
     Kernels.p_m := Kernels.p_m f;
     Kernels.c_m := Kernels.c_m f |}.

(** What a rank holds during the block loop. *)
Record rank_state := {
  prob : matrix;
  views : matrix;
  dmodel : list R;
  dmweights : list R
}.

Section WithKernels.

(** The render and back-projection kernels of the package engine take a
    quaternion and the detector; [kernels.py] holds the in-plane ones
    only.  Here they are functions of what the engine passes: the model
    and the orientation [r] for [slice_gen], which stores into every
    pixel of its view; the view, [r] and the accumulators for
    [slice_merge]. *)
Variable slice_gen : list R -> Z -> list R.
Variable slice_merge : list R -> Z -> list R * list R -> list R * list R.

Definition bsize_model (e : EMC) : Z := Kernels.bsize (num_pix e).

(** [_calculate_prob] on one rank, for the block [drange = (s, e_)];
    the state is [(views, prob)].  This is the loop for [num_streams] at
    least 1, as the statements about it assume: without a stream,
    [i % self.num_streams] raises on the first orientation. *)
Definition calculate_prob (e : EMC) (rank : Z) (model : list R) (drange : Z * Z)
    (st : rank_state) : rank_state :=
  let msum := - rsum model in
  let s := fst drange in
  let e_ := snd drange in
  let num_data_b := (e_ - s)%Z in
  let bsize_data := Kernels.bsize num_data_b in
  let vp :=
    fold_left
      (fun vp ir =>
         let snum := Z.to_nat (Z.of_nat (fst ir) mod num_streams e) in
         let views := set_nth snum (slice_gen (dmodel st) (snd ir)) (fst vp) in
         (views,
          set_nth (fst ir)
            (Kernels.calc_prob_all bsize_data (nth snum views []) num_data_b
               (block_frames s e_ (frames (dset e))) msum (slice s e_ (scales e))
               (nth (fst ir) (snd vp) []))
            (snd vp)))
      (Py.enumerate (Striping.owned (num_rot e) (num_proc e) rank))
      (views st, prob st) in
  {| prob := snd vp; views := fst vp; dmodel := dmodel st; dmweights := dmweights st |}.

(** [_normalize_prob] on all ranks, over a buffer of [ncol] columns. *)
Definition normalize_prob (e : EMC) (ncol : nat) (probs : list matrix)
  : option (list matrix * list Z) :=
  Normalize.normalize_prob Normalize.floor_clip (num_proc e) ncol probs.

(** The body of the loop of [_update_model] for one [(i, r)]; the state
    is [(views, (dmodel, dmweights))].  As in [calculate_prob],
    [num_streams] is at least 1; [bg] has one entry per pixel of the
    view, as the statements about the step assume (another shape raises
    at the subtraction). *)
Definition update_model_step (e : EMC) (drange : Z * Z) (prob : matrix)
    (p_norm : list R) (st : matrix * (list R * list R)) (ir : nat * Z)
  : matrix * (list R * list R) :=
  if Req_dec_T (nth (fst ir) p_norm 0) 0 then st
  else
    let s := fst drange in
    let e_ := snd drange in
    let num_data_b := (e_ - s)%Z in
    let snum := Z.to_nat (Z.of_nat (fst ir) mod num_streams e) in
    let view := zero_fill (nth snum (fst st) []) in
    let view :=
      Kernels.merge_all (Kernels.bsize num_data_b) (nth (fst ir) prob []) num_data_b
        (block_frames s e_ (frames (dset e))) view in
    let view := map2 (fun v b => v / nth (fst ir) p_norm 0 - b) view (bg (dset e)) in
    (set_nth snum view (fst st), slice_merge view (snd ir) (snd st)).

(** [_update_model] on one rank. *)
Definition update_model (e : EMC) (rank : Z) (drange : Z * Z) (st : rank_state)
  : rank_state :=
  let p_norm := sum1 (prob st) in
  let r :=
    fold_left (update_model_step e drange (prob st) p_norm)
      (Py.enumerate (Striping.owned (num_rot e) (num_proc e) rank))
      (views st, (zero_fill (dmodel st), zero_fill (dmweights st))) in
  {| prob := prob st; views := fst r;
     dmodel := fst (snd r); dmweights := snd (snd r) |}.

Definition ranks (e : EMC) : list Z := zrange 0 (num_proc e).

(** One turn of the block loop, on all ranks; [ncol] is the width of the
    buffers. *)
Definition block_step (e : EMC) (model : list R) (ncol : nat)
    (sts : list rank_state) (drange : Z * Z) : option (list rank_state) :=
  let sts := map (fun rs => calculate_prob e (fst rs) model drange (snd rs))
                 (combine (ranks e) sts) in
  match normalize_prob e ncol (map prob sts) with
  | None => None
  | Some (probs, rmax) =>
      Some (map (fun rsp =>
                   let st := snd (fst rsp) in
                   update_model e (fst (fst rsp)) drange
                     {| prob := snd rsp; views := views st;
                        dmodel := dmodel st; dmweights := dmweights st |})
                (combine (combine (ranks e) sts) probs))
  end.

(** The block loop. *)
Fixpoint run_blocks (e : EMC) (model : list R) (ncol : nat)
    (sts : list rank_state) (dranges : list (Z * Z)) : option (list rank_state) :=
  match dranges with
  | [] => Some sts
  | drange :: rest =>
      match block_step e model ncol sts drange with
      | None => None
      | Some sts => run_blocks e model ncol sts rest
      end
  end.

(** The schedule of a rank: its row count, its block sizes and ranges,
    and the buffer width [block_sizes.max()]. *)
Definition rank_schedule (e : EMC) (rank : Z) : option (Z * (list (Z * Z) * Z)) :=
  let num_rot_p := Striping.num_rot_p (num_rot e) (num_proc e) rank in
  match Partition.schedule num_rot_p (num_data (dset e)) (mem_size e) (mem (dset e)) with
  | None => None
  | Some (sizes, dranges) =>
      match Py.zmax sizes with
      | None => None
      | Some width => Some (num_rot_p, (dranges, width))
      end
  end.

(** Two ranks have the same block ranges. *)
Fixpoint same_blocks (a b : list (Z * Z)) : bool :=
  match a, b with
  | [], [] => true
  | x :: a, y :: b =>
      (fst x =? fst y)%Z && (snd x =? snd y)%Z && same_blocks a b
  | _, _ => false
  end.

(** [run_iteration] on all ranks.  [model] is the model every rank holds;
    [old] gives the buffer each rank kept, [mweights] its weights, [junk]
    and [vjunk] the contents of its fresh arrays.  The ranks take part in
    one collective per block, so they have to agree on the blocks; the
    model of a run where they do not is [None], as it is when a step
    raises.  The result is the broadcast model, the root's weights and
    the buffers the ranks keep. *)
Definition run_iteration (e : EMC) (model : list R) (mweights : Z -> list R)
    (old : Z -> buffer) (junk vjunk : Z -> nat -> nat -> R)
  : option (list R * list R * list buffer) :=
  match Normalize.mapM (rank_schedule e) (ranks e) with
  | None => None
  | Some [] => None
  | Some ((num_rot_p0, (dranges, width)) :: others) =>
      if forallb (fun s => same_blocks (fst (snd s)) dranges) others
      then
        let bufs :=
          map (fun rank =>
                 ensure_buffer (old rank) (junk rank)
                   (Striping.num_rot_p (num_rot e) (num_proc e) rank) width)
              (ranks e) in
        let sts :=
          map (fun rb =>
                 {| prob := data (snd rb);
                    views := empty (vjunk (fst rb)) (Z.to_nat (num_streams e))
                               (Z.to_nat (size e ^ 2));
                    dmodel := model;
                    dmweights := mweights (fst rb) |})
              (combine (ranks e) bufs) in
        match run_blocks e model (Z.to_nat width) sts dranges with
        | None => None
        | Some sts =>
            let mw := NormalizeModel.normalize_model (length model)
                        (map (fun st => (dmodel st, dmweights st)) sts) in
            Some (fst mw, snd mw,
                  map (fun bs => {| shape := shape (fst bs); data := prob (snd bs) |})
                      (combine bufs sts))
        end
      else None
  end.

End WithKernels.

End Engine.

(** ** Reading the photon file
    ([Dataset.__init__] and the scale factors of [EMC.__init__],
    [src/emc.py]) *)

Module Init.

Import Arr.
Open Scope Z_scope.

(** The datasets of the photon file that the constructor reads.
    [place_ones], [place_multi] and [count_multi] hold one array per
    frame; [ones] and [multi] may be absent from the file. *)
Record photons_file := {
  file_num_pix : list Z;
  file_place_ones : list (list Z);
  file_ones : option (list Z);
  file_place_multi : list (list Z);
  file_multi : option (list Z);
  file_count_multi : list (list Z)
}.

(** [a.cumsum()], in 64-bit integers. *)
Fixpoint cumsum_from (acc : Z) (a : list Z) : list Z :=
  match a with
  | [] => []
  | x :: rest => (acc + x) :: cumsum_from (acc + x) rest
  end.

Definition cumsum (a : list Z) : list Z := cumsum_from 0 a.

(** [cp.roll(a, 1)]: the last element comes first. *)
Definition roll1 {A} (a : list A) : list A :=
  skipn (length a - 1) a ++ firstn (length a - 1) a.

(** [a[0] = 0]; an empty array raises. *)
Definition set_first (a : list Z) : option (list Z) :=
  match a with
  | [] => None
  | _ :: rest => Some (0 :: rest)
  end.

(** [accum = cp.roll(a.cumsum(), 1); accum[0] = 0]. *)
Definition accum (a : list Z) : option (list Z) := set_first (roll1 (cumsum a)).

(** [np.hstack(rows)]; no row at all raises. *)
Definition hstack (rows : list (list Z)) : option (list Z) :=
  match rows with
  | [] => None
  | _ :: _ => Some (concat rows)
  end.

(** [[len(row) for row in rows]] followed by [astype('i4')]. *)
Definition row_lengths (rows : list (list Z)) : list Z :=
  map (fun row => Py.astype_i4 (Z.of_nat (length row))) rows.

(** [[len(rows[i]) for i in range(num_data)]] followed by
    [astype('i4')]: [rows[i]] raises when the file has fewer than
    [num_data] rows, and the rows from [num_data] on are not read. *)
Definition row_lengths_upto (num_data : nat) (rows : list (list Z))
  : option (list Z) :=
  if (length rows <? num_data)%nat then None
  else Some (row_lengths (firstn num_data rows)).

(** A bound [i] of a slice of an array of [n] cells: a negative bound
    counts from the end, and bounds are clamped to the array. *)
Definition clamp_index (i : Z) (n : nat) : nat :=
  if i <? 0 then Z.to_nat (Z.max 0 (Z.of_nat n + i)) else Nat.min (Z.to_nat i) n.

(** [a[s:e]] for any integers [s] and [e]. *)
Definition py_slice {A} (s e : Z) (a : list A) : list A :=
  let s' := clamp_index s (length a) in
  let e' := clamp_index e (length a) in
  firstn (e' - s') (skipn s' a).

(** [a + b] on two one-dimensional arrays: equal lengths, or one of them
    of length 1, which is broadcast; other shapes raise. *)
Definition broadcast_add (a b : list Z) : option (list Z) :=
  if (length a =? length b)%nat then Some (map2 Z.add a b)
  else
    match a, b with
    | [x], _ => Some (map (fun y => x + y) b)
    | _, [y] => Some (map (fun x => x + y) a)
    | _, _ => None
    end.

(** What the constructor leaves in the object. *)
Record Dataset := {
  num_pix : Z;
  data : Legacy.Dataset;
  mean_count : R;
  counts : option (list Z)
}.

(** [Dataset.__init__(photons_file, num_pix, need_scaling)].  [num_data]
    is the number of rows of [place_ones], so the lengths of its rows for
    [i in range(num_data)] are those of all its rows; [place_multi] is
    indexed over the same range. *)
Definition Dataset_init (f : photons_file) (num_pix : Z) (need_scaling : bool)
  : option Dataset :=
  match file_num_pix f with
  | [] => None
  | file_pix :: _ =>
      if negb (num_pix =? file_pix) then None
      else
        let num_data := Z.of_nat (length (file_place_ones f)) in
        let ones :=
          match file_ones f with
          | Some o => o
          | None => row_lengths (file_place_ones f)
          end in
        match accum ones, hstack (file_place_ones f) with
        | Some ones_accum, Some place_ones =>
            let multi :=
              match file_multi f with
              | Some m => Some m
              | None => row_lengths_upto (length (file_place_ones f))
                          (file_place_multi f)
              end in
            match multi with
            | None => None
            | Some multi =>
                match accum multi, hstack (file_place_multi f),
                      hstack (file_count_multi f) with
                | Some multi_accum, Some place_multi, Some count_multi =>
                    let mean_count :=
                      (IZR (Z.of_nat (length place_ones) + Py.zsum count_multi)
                       / IZR num_data)%R in
                    let counts :=
                      if need_scaling
                      then
                        match broadcast_add ones
                                (map (fun mm => Py.zsum (py_slice (snd mm) (snd mm + fst mm)
                                                           count_multi))
                                     (combine multi multi_accum)) with
                        | Some c => Some (Some c)
                        | None => None
                        end
                      else Some None in
                    match counts with
                    | None => None
                    | Some counts =>
                        Some {| num_pix := num_pix;
                                data :=
                                  {| Legacy.num_data := num_data;
                                     Legacy.frames :=
                                       {| Kernels.ones := ones;
                                          Kernels.multi := multi;
                                          Kernels.o_acc := ones_accum;
                                          Kernels.m_acc := multi_accum;
                                          Kernels.p_o := place_ones;
                                          Kernels.p_m := place_multi;
                                          Kernels.c_m := count_multi |} |};
                                mean_count := mean_count;
                                counts := counts |}
                    end
                | _, _, _ => None
                end
            end
        | _, _ => None
        end
  end.

(** [EMC.__init__]: the dataset of [size**2] pixels and the scale
    factors, [counts / mean_count] with scaling and ones without.  (The
    model it draws at random is an argument of [run_iteration].) *)
Definition EMC_init (num_proc size num_rot : Z) (f : photons_file)
    (need_scaling : bool) : option Legacy.EMC :=
  match Dataset_init f (size ^ 2) need_scaling with
  | None => None
  | Some ds =>
      let scales :=
        if need_scaling
        then
          match counts ds with
          | Some c => Some (map (fun c => (IZR c / mean_count ds)%R) c)
          | None => None
          end
        else Some (repeat 1%R (Z.to_nat (Legacy.num_data (data ds)))) in
      match scales with
      | None => None
      | Some scales =>
          Some {| Legacy.num_proc := num_proc; Legacy.size := size;
                  Legacy.num_rot := num_rot; Legacy.dset := data ds;
                  Legacy.scales := scales |}
      end
  end.

End Init.

(** ** The render kernel [slice_gen] of [kernels.py] *)

Module Render.

Import Arr.
Open Scope R_scope.

(** One thread of [slice_gen]; [int t] holds [x*size + y] in 32 bits. *)
Definition slice_gen_thread (model : list R) (angle scale : R) (size : Z)
    (bg : list R) (log_flag : Z) (x y : Z) (view : list R) : list R :=
  if ((size - 1 <? x) || (size - 1 <? y))%Z then view
  else
    let t := Py.astype_i4 (x * size + y) in
    let view := upd t (if (log_flag =? 0)%Z then 0 else - 1000) view in
    let cen := (size ÷ 2)%Z in
    let ac := cos angle in
    let as_ := sin angle in
    let tx := IZR (x - cen) * ac - IZR (y - cen) * as_ + IZR cen in
    let ty := IZR (x - cen) * as_ + IZR (y - cen) * ac + IZR cen in
    let ix := Kernels.double2int_rd tx in
    let iy := Kernels.double2int_rd ty in
    if ((ix <? 0) || (size - 2 <? ix) || (iy <? 0) || (size - 2 <? iy))%Z then view
    else
      let fx := tx - IZR ix in
      let fy := ty - IZR iy in
      let cx := 1 - fx in
      let cy := 1 - fy in
      let view :=
        upd t (rd model (ix * size + iy) * cx * cy
               + rd model ((ix + 1) * size + iy) * fx * cy
               + rd model (ix * size + (iy + 1)) * cx * fy
               + rd model ((ix + 1) * size + (iy + 1)) * fx * fy) view in
      let view := upd t (rd view t * scale) view in
      let view := upd t (rd view t + rd bg t) view in
      if (log_flag =? 0)%Z then view
      else if Rlt_dec (rd view t) (1 / 10 ^ 20) then upd t (- 1000) view
           else upd t (ln (rd view t)) view.

(** [kernels.slice_gen((grid,)*2, (32,)*2,
    (model, angle, scale, size, bg, log_flag, view))]. *)
Definition slice_gen (grid : Z) (model : list R) (angle scale : R) (size : Z)
    (bg : list R) (log_flag : Z) (view : list R) : list R :=
  Kernels.launch2 grid 32 (slice_gen_thread model angle scale size bg log_flag) view.

End Render.

(** ** The stand-alone engine in double precision

    [Arr], [Kernels], [MPI], [Normalize], [NormalizeModel] and [Legacy]
    once more for [src/emc.py], with the doubles of the code as IEEE
    binary64 numbers ([float]) instead of real numbers: every sum,
    difference, product and quotient is rounded to nearest, as the
    hardware rounds it.  [cp.exp] and the [cos] and [sin] of CUDA are
    library functions and are parameters, as is the render kernel.  A sum
    over an axis adds in index order and a collective in rank order.  The
    compiler may fuse a product and a sum of a kernel into one rounding;
    here each operation rounds. *)

Module Doubles.

Import PrimFloat FloatOps SpecFloat.
Import Arr.
Local Open Scope float_scope.

Abbreviation fmatrix := (list (list float)).

(** [1.e-6] and [np.pi]. *)
Definition P_MIN : float := 0x1.0c6f7a0b5ed8dp-20.
Definition PI : float := 0x1.921fb54442d18p+1.

(** An integer as a double; exact below 2^53. *)
Definition of_Z (z : Z) : float :=
  if (z <? 0)%Z then - of_uint63 (Uint63.of_Z (- z)) else of_uint63 (Uint63.of_Z z).

(** [__double2int_rd]: round towards minus infinity, to the bounds of
    [int] beyond them, and 0 for a NaN. *)
Definition double2int_rd (v : float) : Z :=
  match Prim2SF v with
  | S754_zero _ => 0%Z
  | S754_finite s m e =>
      Z.max (- 2 ^ 31) (Z.min (2 ^ 31 - 1) (Z.shiftl (if s then Z.neg m else Z.pos m) e))
  | S754_infinity s => if s then (- 2 ^ 31)%Z else (2 ^ 31 - 1)%Z
  | S754_nan => 0%Z
  end.

(** [a[i]], [a[i] = v] and [atomicAdd(&a[i], v)], as in [Arr]. *)
Definition rd (a : list float) (i : Z) : float :=
  if (i <? 0)%Z then 0 else nth (Z.to_nat i) a 0.

Definition upd (i : Z) (v : float) (a : list float) : list float :=
  if (i <? 0)%Z then a else set_nth (Z.to_nat i) v a.

Definition atomicAdd (i : Z) (v : float) (a : list float) : list float :=
  upd i (rd a i + v) a.

(** [a[:] = 0]. *)
Definition zero_fill (a : list float) : list float := map (fun _ => 0) a.

(** [sum] of an array, in index order, and [max] of a non-empty one. *)
Definition fsum (a : list float) : float :=
  match a with
  | [] => 0
  | x :: xs => fold_left add xs x
  end.

Definition fmax (a b : float) : float := if a <? b then b else a.

Definition fmax1 (x : float) (xs : list float) : float := fold_left fmax xs x.

Fixpoint argmax_from (best_i : nat) (best : float) (i : nat) (l : list float) : nat :=
  match l with
  | [] => best_i
  | x :: xs =>
      if best <? x then argmax_from i x (S i) xs
      else argmax_from best_i best (S i) xs
  end.

Definition col (d : nat) (m : fmatrix) : list float := map (fun row => nth d row 0) m.

(** [m.max(0)], [m.argmax(axis=0)], [m.sum(0)] and [m.sum(1)]; the first
    two raise on a matrix without rows. *)
Definition max0 (ncol : nat) (m : fmatrix) : option (list float) :=
  match m with
  | [] => None
  | _ :: _ =>
      Some (map (fun d => match col d m with
                          | [] => 0
                          | x :: xs => fmax1 x xs
                          end) (seq 0 ncol))
  end.

Definition argmax0 (ncol : nat) (m : fmatrix) : option (list nat) :=
  match m with
  | [] => None
  | _ :: _ =>
      Some (map (fun d => match col d m with
                          | [] => O
                          | x :: xs => argmax_from 0 x 1 xs
                          end) (seq 0 ncol))
  end.

Definition sum0 (ncol : nat) (m : fmatrix) : list float :=
  map (fun d => fsum (col d m)) (seq 0 ncol).

Definition sum1 (m : fmatrix) : list float := map fsum m.

(** [cp.empty((nrow, ncol))]. *)
Definition empty (junk : nat -> nat -> float) (nrow ncol : nat) : fmatrix :=
  map (fun i => map (junk i) (seq 0 ncol)) (seq 0 nrow).

(** One thread of [calc_prob_all], and the launch. *)
Definition calc_prob_all_thread (lview : list float) (ndata : Z) (f : Kernels.frames)
    (init : float) (scales : list float) (d : Z) (prob_r : list float) : list float :=
  if (ndata <=? d)%Z then prob_r
  else
    let prob_r := upd d (init * rd scales d) prob_r in
    let prob_r :=
      fold_left
        (fun prob_r t => upd d (rd prob_r d + rd lview (rdz (Kernels.p_o f) t)) prob_r)
        (zrange (rdz (Kernels.o_acc f) d) (rdz (Kernels.ones f) d)) prob_r in
    fold_left
      (fun prob_r t =>
         upd d (rd prob_r d + rd lview (rdz (Kernels.p_m f) t)
                              * of_Z (rdz (Kernels.c_m f) t)) prob_r)
      (zrange (rdz (Kernels.m_acc f) d) (rdz (Kernels.multi f) d)) prob_r.

Definition calc_prob_all (grid : Z) (lview : list float) (ndata : Z) (f : Kernels.frames)
    (init : float) (scales : list float) (prob_r : list float) : list float :=
  Kernels.launch grid 32 (calc_prob_all_thread lview ndata f init scales) prob_r.

(** One thread of [merge_all], and the launch. *)
Definition merge_all_thread (prob_r : list float) (ndata : Z) (f : Kernels.frames)
    (d : Z) (view : list float) : list float :=
  if (ndata <=? d)%Z then view
  else
    let view :=
      fold_left
        (fun view t => atomicAdd (rdz (Kernels.p_o f) t) (rd prob_r d) view)
        (zrange (rdz (Kernels.o_acc f) d) (rdz (Kernels.ones f) d)) view in
    fold_left
      (fun view t =>
         atomicAdd (rdz (Kernels.p_m f) t) (rd prob_r d * of_Z (rdz (Kernels.c_m f) t))
           view)
      (zrange (rdz (Kernels.m_acc f) d) (rdz (Kernels.multi f) d)) view.

Definition merge_all (grid : Z) (prob_r : list float) (ndata : Z) (f : Kernels.frames)
    (view : list float) : list float :=
  Kernels.launch grid 32 (merge_all_thread prob_r ndata f) view.

(** [Allreduce] with [MPI.MAX] and with [MPI.SUM], and [Reduce] with
    [MPI.SUM], on the ranks' contributions in rank order. *)
Definition Allreduce_MAX (n : nat) (contribs : list (list float)) : list float :=
  map (fun d => match col d contribs with
                | [] => 0
                | x :: xs => fmax1 x xs
                end) (seq 0 n).

Definition Allreduce_SUM (n : nat) (contribs : list (list float)) : list float :=
  sum0 n contribs.

Definition Reduce_SUM (n : nat) (contribs : list (list float)) : list float :=
  sum0 n contribs.

Record EMC := {
  num_proc : Z;
  size : Z;
  num_rot : Z;
  dset : Legacy.Dataset;
  scales : list float
}.

Definition bsize_model (e : EMC) : Z := Kernels.bsize (size e).
Definition bsize_data (e : EMC) : Z := Kernels.bsize (Legacy.num_data (dset e)).

(** [r/self.num_rot*2.*np.pi]. *)
Definition angle (e : EMC) (r : Z) : float := of_Z r / of_Z (num_rot e) * 2 * PI.

(** The ranks of the communicator. *)
Definition ranks (e : EMC) : list Z := zrange 0 (num_proc e).

Section WithLibrary.

(** [cp.exp], and [cos] and [sin] of the CUDA math library. *)
Variables exp cos sin : float -> float.

(** The render kernel as [_calculate_prob] launches it: the view is a
    function of the model, the angle and the size. *)
Variable slice_gen : list float -> float -> Z -> list float.

(** One thread of [slice_merge], and the launch. *)
Definition slice_merge_thread (view : list float) (angle : float) (size : Z)
    (x y : Z) (mw : list float * list float) : list float * list float :=
  if ((size - 1 <? x) || (size - 1 <? y))%Z then mw
  else
    let t := Py.astype_i4 (x * size + y) in
    let cen := (size ÷ 2)%Z in
    let ac := cos angle in
    let as_ := sin angle in
    let tx := of_Z (x - cen) * ac - of_Z (y - cen) * as_ + of_Z cen in
    let ty := of_Z (x - cen) * as_ + of_Z (y - cen) * ac + of_Z cen in
    let ix := double2int_rd tx in
    let iy := double2int_rd ty in
    if ((ix <? 0) || (size - 2 <? ix) || (iy <? 0) || (size - 2 <? iy))%Z then mw
    else
      let fx := tx - of_Z ix in
      let fy := ty - of_Z iy in
      let cx := 1 - fx in
      let cy := 1 - fy in
      let add (i : Z) (wx wy : float) (mw : list float * list float) :=
        (atomicAdd i (rd view t * wx * wy) (fst mw), atomicAdd i (wx * wy) (snd mw)) in
      add ((ix + 1) * size + (iy + 1))%Z fx fy
        (add (ix * size + (iy + 1))%Z cx fy
           (add ((ix + 1) * size + iy)%Z fx cy
              (add (ix * size + iy)%Z cx cy mw))).

Definition slice_merge (grid : Z) (view : list float) (angle : float) (size : Z)
    (model mweights : list float) : list float * list float :=
  Kernels.launch2 grid 32 (slice_merge_thread view angle size) (model, mweights).

(** [_calculate_prob] on one rank. *)
Definition calculate_prob (e : EMC) (rank : Z) (model : list float) (prob : fmatrix)
  : fmatrix :=
  let msum := - fsum model in
  fold_left
    (fun prob ir =>
       let view := slice_gen model (angle e (snd ir)) (size e) in
       set_nth (fst ir)
         (calc_prob_all (bsize_data e) view (Legacy.num_data (dset e))
            (Legacy.frames (dset e)) msum (scales e) (nth (fst ir) prob []))
         prob)
    (Py.enumerate (Striping.owned (num_rot e) (num_proc e) rank)) prob.

(** [_normalize_prob] on all ranks, as [Normalize.normalize_prob] with
    the floor of [src/emc.py]. *)
Definition rmax_local (num_proc : Z) (ncol : nat) (rank : nat) (prob : fmatrix)
  : option (list Z) :=
  match argmax0 ncol prob with
  | None => None
  | Some am => Some (map (Striping.global_index num_proc (Z.of_nat rank)) am)
  end.

Definition invalidate (rmax_p : list Z) (max_exp_p max_exp : list float) : list Z :=
  map2 (fun r mm => if fst mm =? snd mm then r else (-1)%Z)
       rmax_p (combine max_exp_p max_exp).

Definition exp_shift (max_exp : list float) (prob : fmatrix) : fmatrix :=
  map (fun row => map2 (fun p m => exp (p - m)) row max_exp) prob.

Definition divide (psum : list float) (prob : fmatrix) : fmatrix :=
  map (fun row => map2 div row psum) prob.

Definition floor_zero (p : float) : float := if p <? P_MIN then 0 else p.

Definition normalize_prob (e : EMC) (probs : list fmatrix)
  : option (list fmatrix * list Z) :=
  let ncol := Z.to_nat (Legacy.num_data (dset e)) in
  match Normalize.mapM (max0 ncol) probs,
        Normalize.mapM (fun rp => rmax_local (num_proc e) ncol (fst rp) (snd rp))
          (Py.enumerate probs) with
  | Some max_exp_p, Some rmax_p =>
      let max_exp := Allreduce_MAX ncol max_exp_p in
      let rmax_p := map2 (fun r mp => invalidate r mp max_exp) rmax_p max_exp_p in
      let rmax := MPI.Allreduce_MAX_INT ncol rmax_p in
      let probs := map (exp_shift max_exp) probs in
      let psum_p := map (sum0 ncol) probs in
      let psum := Allreduce_SUM ncol psum_p in
      Some (map (fun m => map (map floor_zero) (divide psum m)) probs, rmax)
  | _, _ => None
  end.

(** The body of the loop of [_update_model] for one [(i, r)], and the
    loop. *)
Definition update_model_step (e : EMC) (prob : fmatrix) (p_norm : list float)
    (st : list float * (list float * list float)) (ir : nat * Z)
  : list float * (list float * list float) :=
  if nth (fst ir) p_norm 0 =? 0 then st
  else
    let view := zero_fill (fst st) in
    let view :=
      merge_all (bsize_data e) (nth (fst ir) prob []) (Legacy.num_data (dset e))
        (Legacy.frames (dset e)) view in
    (view,
     slice_merge (bsize_model e)
       (map (fun v => v / nth (fst ir) p_norm 0) view)
       (angle e (snd ir)) (size e) (fst (snd st)) (snd (snd st))).

Definition update_model (e : EMC) (rank : Z) (prob : fmatrix)
    (view dmodel dmweights : list float) : list float * (list float * list float) :=
  let p_norm := sum1 prob in
  fold_left (update_model_step e prob p_norm)
    (Py.enumerate (Striping.owned (num_rot e) (num_proc e) rank))
    (view, (zero_fill dmodel, zero_fill dmweights)).

(** [_normalize_model]. *)
Definition divide_supported (model mweights : list float) : list float :=
  map2 (fun m w => if 0 <? w then m / w else m) model mweights.

Definition normalize_model (ncell : nat) (acc : list (list float * list float))
  : list float * list float :=
  let model := Reduce_SUM ncell (map fst acc) in
  let mweights := Reduce_SUM ncell (map snd acc) in
  (divide_supported model mweights, mweights).

(** [run_iteration] on all ranks, as [Legacy.run_iteration]. *)
Definition run_iteration (e : EMC) (model : list float) (mweights : Z -> list float)
    (junk : Z -> nat -> nat -> float) (vjunk : Z -> nat -> float)
  : option (list float * list float) :=
  let probs :=
    map (fun rank =>
           let num_rot_p := Striping.num_rot_p (num_rot e) (num_proc e) rank in
           let prob := empty (junk rank) (Z.to_nat num_rot_p)
                         (Z.to_nat (Legacy.num_data (dset e))) in
           calculate_prob e rank model prob)
        (ranks e) in
  match normalize_prob e probs with
  | None => None
  | Some (probs, rmax) =>
      let acc :=
        map (fun rp =>
               let view := map (vjunk (fst rp)) (seq 0 (Z.to_nat (size e ^ 2))) in
               snd (update_model e (fst rp) (snd rp) view model (mweights (fst rp))))
            (combine (ranks e) probs) in
      Some (normalize_model (length model) acc)
  end.

End WithLibrary.

End Doubles.

(* ================================================================== *)
(** * Part II. Derived notions                                         *)
(* ================================================================== *)

(** Notions the properties are stated and proved with: closed forms of
    what the kernels and the engines compute, and a few small runs. *)

Section Derived.

Import Arr.
Open Scope R_scope.

(** ** Kernels *)

(** The threads a launch runs, in the order of the model. *)
Definition thread_ids (grid block : Z) : list Z :=
  flat_map (fun b => map (Kernels.thread_index block b) (zrange 0 block)) (zrange 0 grid).

(** The log-likelihood thread [d] of [calc_prob_all] leaves in
    [prob_r[d]]. *)
Definition frame_logp (lview : list R) (f : Kernels.frames) (init : R)
    (scales : list R) (d : Z) : R :=
  fold_left
    (fun acc t => acc + rd lview (rdz (Kernels.p_m f) t) * IZR (rdz (Kernels.c_m f) t))
    (zrange (rdz (Kernels.m_acc f) d) (rdz (Kernels.multi f) d))
    (fold_left
       (fun acc t => acc + rd lview (rdz (Kernels.p_o f) t))
       (zrange (rdz (Kernels.o_acc f) d) (rdz (Kernels.ones f) d))
       (init * rd scales d)).

(** One pair of [atomicAdd]s of [slice_merge]: the cell, the view value
    and the interpolation weight.  The model cell receives their product,
    the weight cell the weight. *)
Definition apply_add (mw : list R * list R) (a : Z * R * R) : list R * list R :=
  (atomicAdd (fst (fst a)) (snd (fst a) * snd a) (fst mw),
   atomicAdd (fst (fst a)) (snd a) (snd mw)).

Definition apply_adds (l : list (Z * R * R)) (mw : list R * list R) : list R * list R :=
  fold_left apply_add l mw.

(** The additions of one thread of [slice_merge]. *)
Definition thread_adds (view : list R) (angle : R) (size x y : Z) : list (Z * R * R) :=
  if ((size - 1 <? x) || (size - 1 <? y))%Z then []
  else
    let t := Py.astype_i4 (x * size + y) in
    let cen := (size ÷ 2)%Z in
    let tx := IZR (x - cen) * cos angle - IZR (y - cen) * sin angle + IZR cen in
    let ty := IZR (x - cen) * sin angle + IZR (y - cen) * cos angle + IZR cen in
    let ix := Kernels.double2int_rd tx in
    let iy := Kernels.double2int_rd ty in
    if ((ix <? 0) || (size - 2 <? ix) || (iy <? 0) || (size - 2 <? iy))%Z then []
    else
      let fx := tx - IZR ix in
      let fy := ty - IZR iy in
      [((ix * size + iy)%Z, rd view t, (1 - fx) * (1 - fy));
       (((ix + 1) * size + iy)%Z, rd view t, fx * (1 - fy));
       ((ix * size + (iy + 1))%Z, rd view t, (1 - fx) * fy);
       (((ix + 1) * size + (iy + 1))%Z, rd view t, fx * fy)].

(** All additions of a launch of [slice_merge]. *)
Definition slice_adds (grid : Z) (view : list R) (angle : R) (size : Z)
  : list (Z * R * R) :=
  flat_map
    (fun x => flat_map
                (fun y => thread_adds view angle size (Py.astype_i4 x) (Py.astype_i4 y))
                (thread_ids grid 32))
    (thread_ids grid 32).

(** What an addition contributes to cell [c] of the model and of the
    weights. *)
Definition model_part (c : nat) (a : Z * R * R) : R :=
  if (fst (fst a) =? Z.of_nat c)%Z then snd (fst a) * snd a else 0.

Definition weight_part (c : nat) (a : Z * R * R) : R :=
  if (fst (fst a) =? Z.of_nat c)%Z then snd a else 0.

(** The accumulators that a list of additions builds from zero, cell by
    cell. *)
Definition accumulate (n : nat) (l : list (Z * R * R)) : list R * list R :=
  (map (fun c => rsum (map (model_part c) l)) (seq 0 n),
   map (fun c => rsum (map (weight_part c) l)) (seq 0 n)).

(** ** Matrices and [_normalize_prob] *)

(** All rows of a matrix have [ncol] cells. *)
Definition well_shaped (ncol : nat) (m : matrix) : Prop :=
  forall row, In row m -> length row = ncol.

(** The maxima of the columns, for a matrix that has a row. *)
Definition col_max (ncol : nat) (m : matrix) : list R :=
  map (fun d => match col d m with [] => 0 | x :: xs => rmax1 x xs end) (seq 0 ncol).

Definition col_argmax (ncol : nat) (m : matrix) : list nat :=
  map (fun d => match col d m with [] => O | x :: xs => argmax_from 0 x 1 xs end)
      (seq 0 ncol).

(** The shifted exponentials and the global normaliser the ranks reach. *)
Definition shifted (ncol : nat) (probs : list matrix) : list matrix :=
  map (Normalize.exp_shift (MPI.Allreduce_MAX ncol (map (col_max ncol) probs))) probs.

Definition normaliser (ncol : nat) (probs : list matrix) : list R :=
  MPI.Allreduce_SUM ncol (map (sum0 ncol) (shifted ncol probs)).

(** ** The stand-alone engine *)

(** The view [merge_all] accumulates for a probability row, from a
    zeroed buffer of [len] pixels. *)
Definition merged_view (e : Legacy.EMC) (row : list R) (len : nat) : list R :=
  Kernels.merge_all (Legacy.bsize_data e) row (Legacy.num_data (Legacy.dset e))
    (Legacy.frames (Legacy.dset e)) (zeros len).

(** The additions orientation [r] makes with the probability row [row]:
    none when its responsibility sum is zero. *)
Definition orientation_adds (e : Legacy.EMC) (len : nat) (row : list R) (r : Z)
  : list (Z * R * R) :=
  if Req_dec_T (rsum row) 0 then []
  else slice_adds (Legacy.bsize_model e)
         (map (fun v => v / rsum row) (merged_view e row len))
         (Legacy.angle e r) (Legacy.size e).

(** The additions of a rank in [_update_model]. *)
Definition rank_adds (e : Legacy.EMC) (rank : Z) (prob : matrix) (len : nat)
  : list (Z * R * R) :=
  flat_map (fun ir => orientation_adds e len (nth (fst ir) prob []) (snd ir))
    (Py.enumerate (Striping.owned (Legacy.num_rot e) (Legacy.num_proc e) rank)).

(** The local matrices after [_calculate_prob]. *)
Definition likelihoods (slice_gen : list R -> R -> Z -> list R) (e : Legacy.EMC)
    (model : list R) (junk : Z -> nat -> nat -> R) : list matrix :=
  map (fun rank =>
         Legacy.calculate_prob slice_gen e rank model
           (empty (junk rank)
              (Z.to_nat (Striping.num_rot_p (Legacy.num_rot e) (Legacy.num_proc e) rank))
              (Z.to_nat (Legacy.num_data (Legacy.dset e)))))
      (Legacy.ranks e).

(** All additions of the M-step, rank after rank, given the normalised
    matrices. *)
Definition all_adds (e : Legacy.EMC) (probs : list matrix) : list (Z * R * R) :=
  concat (map (fun rp => rank_adds e (fst rp) (snd rp) (Z.to_nat (Legacy.size e ^ 2)))
              (combine (Legacy.ranks e) probs)).

(** The log-likelihood row of orientation [r]. *)
Definition log_row (slice_gen : list R -> R -> Z -> list R) (e : Legacy.EMC)
    (model : list R) (r : Z) : list R :=
  map (fun j => frame_logp (slice_gen model (Legacy.angle e r) (Legacy.size e))
                  (Legacy.frames (Legacy.dset e)) (- rsum model) (Legacy.scales e)
                  (Z.of_nat j))
      (seq 0 (Z.to_nat (Legacy.num_data (Legacy.dset e)))).

(** The sum over all orientations of the likelihoods of frame [d], and
    the normalised, floored row of orientation [r]: a run on one rank
    computes these directly. *)
Definition likelihood_sum (slice_gen : list R -> R -> Z -> list R) (e : Legacy.EMC)
    (model : list R) (d : nat) : R :=
  rsum (map (fun r => exp (nth d (log_row slice_gen e model r) 0))
            (zrange 0 (Legacy.num_rot e))).

Definition norm_row (slice_gen : list R -> R -> Z -> list R) (e : Legacy.EMC)
    (model : list R) (r : Z) : list R :=
  map (fun d => Normalize.floor_zero
                  (exp (nth d (log_row slice_gen e model r) 0)
                   / likelihood_sum slice_gen e model d))
      (seq 0 (Z.to_nat (Legacy.num_data (Legacy.dset e)))).

(** The additions of orientation [r], and the model and weights the
    iteration ends with. *)
Definition reference_adds (slice_gen : list R -> R -> Z -> list R) (e : Legacy.EMC)
    (model : list R) (r : Z) : list (Z * R * R) :=
  orientation_adds e (Z.to_nat (Legacy.size e ^ 2)) (norm_row slice_gen e model r) r.

Definition reference_result (slice_gen : list R -> R -> Z -> list R) (e : Legacy.EMC)
    (model : list R) : list R * list R :=
  let mw := accumulate (length model)
              (flat_map (reference_adds slice_gen e model)
                 (zrange 0 (Legacy.num_rot e))) in
  (NormalizeModel.divide_supported (fst mw) (snd mw), snd mw).

(** The same run on [k] ranks. *)
Definition with_num_proc (e : Legacy.EMC) (k : Z) : Legacy.EMC :=
  {| Legacy.num_proc := k; Legacy.size := Legacy.size e;
     Legacy.num_rot := Legacy.num_rot e; Legacy.dset := Legacy.dset e;
     Legacy.scales := Legacy.scales e |}.

(** ** The package engine *)

(** A buffer holds a matrix of the shape it records. *)
Definition buffer_wf (b : Engine.buffer) : Prop :=
  forall n w, Engine.shape b = [n; w] ->
    length (Engine.data b) = Z.to_nat n /\ well_shaped (Z.to_nat w) (Engine.data b).

(** One turn of the loop of [_calculate_prob], and the loop over a
    stripe [l], on the state [(views, prob)]. *)
Definition estep_step (slice_gen : list R -> Z -> list R) (e : Engine.EMC)
    (model : list R) (drange : Z * Z) (dmodel : list R)
    (vp : matrix * matrix) (ir : nat * Z) : matrix * matrix :=
  let snum := Z.to_nat (Z.of_nat (fst ir) mod Engine.num_streams e) in
  let views := set_nth snum (slice_gen dmodel (snd ir)) (fst vp) in
  (views,
   set_nth (fst ir)
     (Kernels.calc_prob_all (Kernels.bsize (snd drange - fst drange))
        (nth snum views []) (snd drange - fst drange)
        (Engine.block_frames (fst drange) (snd drange)
           (Engine.frames (Engine.dset e)))
        (- rsum model)
        (slice (fst drange) (snd drange) (Engine.scales e))
        (nth (fst ir) (snd vp) []))
     (snd vp)).

Definition estep_loop (slice_gen : list R -> Z -> list R) (e : Engine.EMC)
    (model : list R) (drange : Z * Z) (dmodel : list R) (l : list Z)
    (vp : matrix * matrix) : matrix * matrix :=
  fold_left (estep_step slice_gen e model drange dmodel) (Py.enumerate l) vp.

(** ** Small runs *)

(** A dataset of one frame without photons, and a run of each engine on
    one rank with two orientations of a 2 x 2 model. *)
Definition one_empty_frame : Kernels.frames :=
  {| Kernels.ones := [0%Z]; Kernels.multi := [0%Z];
     Kernels.o_acc := [0%Z]; Kernels.m_acc := [0%Z];
     Kernels.p_o := []; Kernels.p_m := []; Kernels.c_m := [] |}.

Definition small_legacy_run : Legacy.EMC :=
  {| Legacy.num_proc := 1; Legacy.size := 2; Legacy.num_rot := 2;
     Legacy.dset := {| Legacy.num_data := 1; Legacy.frames := one_empty_frame |};
     Legacy.scales := [1] |}.

Definition small_engine_run : Engine.EMC :=
  {| Engine.num_streams := 4; Engine.num_proc := 1; Engine.mem_size := 1000;
     Engine.size := 2; Engine.num_rot := 2; Engine.num_pix := 4;
     Engine.dset := {| Engine.num_data := 1; Engine.mem := 100;
                       Engine.frames := one_empty_frame; Engine.bg := [0; 0; 0; 0] |};
     Engine.scales := [1] |}.

(** One rank, one orientation (angle 0), a 2 x 2 model, one frame without
    photons. *)
Definition corner_run : Legacy.EMC :=
  {| Legacy.num_proc := 1; Legacy.size := 2; Legacy.num_rot := 1;
     Legacy.dset := {| Legacy.num_data := 1; Legacy.frames := one_empty_frame |};
     Legacy.scales := [1] |}.

(** One rank with one orientation, three frames without photons, and 18
    bytes of free memory for a probability matrix of 24 bytes: two blocks
    of 2 and 1 frames over a buffer of 2 columns. *)
Definition three_empty_frames : Kernels.frames :=
  {| Kernels.ones := [0%Z; 0%Z; 0%Z]; Kernels.multi := [0%Z; 0%Z; 0%Z];
     Kernels.o_acc := [0%Z; 0%Z; 0%Z]; Kernels.m_acc := [0%Z; 0%Z; 0%Z];
     Kernels.p_o := []; Kernels.p_m := []; Kernels.c_m := [] |}.

Definition stale_run : Engine.EMC :=
  {| Engine.num_streams := 4; Engine.num_proc := 1; Engine.mem_size := 18;
     Engine.size := 2; Engine.num_rot := 1; Engine.num_pix := 4;
     Engine.dset := {| Engine.num_data := 3; Engine.mem := 0;
                       Engine.frames := three_empty_frames;
                       Engine.bg := [0; 0; 0; 0] |};
     Engine.scales := [1; 1; 1] |}.

End Derived.

(** ** Further notions and small inputs *)

Section DerivedMore.

Import Arr.
Open Scope R_scope.

(** The local matrices of two ranks with one row each, over two
    frames. *)
Definition two_rank_rows : list matrix := [[[0; 1]]; [[1; 0]]].

(** The local matrices of two ranks with two rows each, over one
    frame. *)
Definition two_rank_columns : list matrix := [[[0]; [1]]; [[2]; [3]]].

(** The cells of a pooled array that the loops
    [for (t = acc[d] ; t < acc[d] + len[d] ; ++t)] of [calc_prob_all] and
    [merge_all] read for frame [d]. *)
Definition frame_segment (pool acc len : list Z) (d : Z) : list Z :=
  map (rdz pool) (zrange (rdz acc d) (rdz len d)).

(** A photon file of two frames on four pixels, without [ones] and
    [multi] datasets: frame 0 has single photons in pixels 0 and 1 and two
    photons in pixel 3, frame 1 a single photon in pixel 2. *)
Definition two_frame_file : Init.photons_file :=
  {| Init.file_num_pix := [4%Z];
     Init.file_place_ones := [[0%Z; 1%Z]; [2%Z]];
     Init.file_ones := None;
     Init.file_place_multi := [[3%Z]; []];
     Init.file_multi := None;
     Init.file_count_multi := [[2%Z]; []] |}.

(** The threads of a two-dimensional launch, in the order of the model;
    [int x] and [int y] are the signed readings of the indices. *)
Definition thread_pairs (grid : Z) : list (Z * Z) :=
  flat_map (fun x => map (fun y => (Py.astype_i4 x, Py.astype_i4 y)) (thread_ids grid 32))
           (thread_ids grid 32).

(** The value thread [(x, y)] of [slice_gen] leaves in pixel [t] of the
    view, [t] being [x*size + y] in 32 bits. *)
Definition rendered_pixel (model : list R) (angle scale : R) (size : Z)
    (bg : list R) (log_flag : Z) (x y : Z) : R :=
  let t := Py.astype_i4 (x * size + y) in
  let cen := (size ÷ 2)%Z in
  let tx := IZR (x - cen) * cos angle - IZR (y - cen) * sin angle + IZR cen in
  let ty := IZR (x - cen) * sin angle + IZR (y - cen) * cos angle + IZR cen in
  let ix := Kernels.double2int_rd tx in
  let iy := Kernels.double2int_rd ty in
  if ((ix <? 0) || (size - 2 <? ix) || (iy <? 0) || (size - 2 <? iy))%Z
  then (if (log_flag =? 0)%Z then 0 else - 1000)
  else
    let fx := tx - IZR ix in
    let fy := ty - IZR iy in
    let v :=
      (rd model (ix * size + iy) * (1 - fx) * (1 - fy)
       + rd model ((ix + 1) * size + iy) * fx * (1 - fy)
       + rd model (ix * size + (iy + 1)) * (1 - fx) * fy
       + rd model ((ix + 1) * size + (iy + 1)) * fx * fy) * scale
      + rd bg t in
    if (log_flag =? 0)%Z then v
    else if Rlt_dec v (1 / 10 ^ 20) then - 1000 else ln v.

(** Thread [(x, y)] of [slice_merge] passes both guards: the pixel is in
    the view, and its rotated position has its four neighbours in the
    grid. *)
Definition lands (angle : R) (size x y : Z) : bool :=
  let cen := (size ÷ 2)%Z in
  let tx := IZR (x - cen) * cos angle - IZR (y - cen) * sin angle + IZR cen in
  let ty := IZR (x - cen) * sin angle + IZR (y - cen) * cos angle + IZR cen in
  let ix := Kernels.double2int_rd tx in
  let iy := Kernels.double2int_rd ty in
  negb ((size - 1 <? x) || (size - 1 <? y))%Z
  && negb ((ix <? 0) || (size - 2 <? ix) || (iy <? 0) || (size - 2 <? iy))%Z.


(** The same run of the package engine on [k] streams. *)
Definition with_num_streams (e : Engine.EMC) (k : Z) : Engine.EMC :=
  {| Engine.num_streams := k; Engine.num_proc := Engine.num_proc e;
     Engine.mem_size := Engine.mem_size e; Engine.size := Engine.size e;
     Engine.num_rot := Engine.num_rot e; Engine.num_pix := Engine.num_pix e;
     Engine.dset := Engine.dset e; Engine.scales := Engine.scales e |}.

(** The view buffers of a rank on [k] streams: [k] views of [npix]
    pixels. *)
Definition views_ready (npix : nat) (k : Z) (views : matrix) : Prop :=
  length views = Z.to_nat k /\ forall row, In row views -> length row = npix.

(** Two states of a rank that differ in their view buffers only. *)
Definition same_but_views (npix : nat) (k1 k2 : Z) (st1 st2 : Engine.rank_state)
  : Prop :=
  Engine.prob st1 = Engine.prob st2 /\
  Engine.dmodel st1 = Engine.dmodel st2 /\
  Engine.dmweights st1 = Engine.dmweights st2 /\
  views_ready npix k1 (Engine.views st1) /\ views_ready npix k2 (Engine.views st2).

(** One turn of the loop of [_calculate_prob] on the probability buffer
    alone, and one turn of the loop of [_update_model] on the
    accumulators alone, with the view that the turn renders or merges
    taken directly rather than through its stream's buffer. *)
Definition estep_prob_step (slice_gen : list R -> Z -> list R) (e : Engine.EMC)
    (model : list R) (drange : Z * Z) (dmodel : list R) (prob : matrix)
    (ir : nat * Z) : matrix :=
  set_nth (fst ir)
    (Kernels.calc_prob_all (Kernels.bsize (snd drange - fst drange))
       (slice_gen dmodel (snd ir)) (snd drange - fst drange)
       (Engine.block_frames (fst drange) (snd drange) (Engine.frames (Engine.dset e)))
       (- rsum model)
       (slice (fst drange) (snd drange) (Engine.scales e))
       (nth (fst ir) prob []))
    prob.

Definition mstep_acc_step
    (slice_merge : list R -> Z -> list R * list R -> list R * list R)
    (e : Engine.EMC) (npix : nat) (drange : Z * Z) (prob : matrix) (p_norm : list R)
    (acc : list R * list R) (ir : nat * Z) : list R * list R :=
  if Req_dec_T (nth (fst ir) p_norm 0) 0 then acc
  else
    slice_merge
      (map2 (fun v b => v / nth (fst ir) p_norm 0 - b)
         (Kernels.merge_all (Kernels.bsize (snd drange - fst drange))
            (nth (fst ir) prob []) (snd drange - fst drange)
            (Engine.block_frames (fst drange) (snd drange)
               (Engine.frames (Engine.dset e)))
            (zeros npix))
         (Engine.bg (Engine.dset e)))
      (snd ir) acc.

(** The product [sum_c a[c] * b[c]] of two arrays of one shape. *)
Definition dot (a b : list R) : R := rsum (map2 Rmult a b).

End DerivedMore.

(** ** A run of the stand-alone engine in double precision

    A 2x2 model, six orientations and one frame with one photon, at
    pixel 0.  The library functions are given by their values at the
    arguments this run passes them, each the double nearest to the exact
    value; the rendered view of orientation [r] holds at pixel 0 the
    logarithm of its intensity there, [-1000] where there is none. *)

Section DoublesExample.

Import PrimFloat.
Local Open Scope float_scope.

Definition one_photon_frame : Kernels.frames :=
  {| Kernels.ones := [1%Z]; Kernels.multi := [0%Z]; Kernels.o_acc := [0%Z];
     Kernels.m_acc := [0%Z]; Kernels.p_o := [0%Z]; Kernels.p_m := [];
     Kernels.c_m := [] |}.

Definition six_orientations (k : Z) : Doubles.EMC :=
  {| Doubles.num_proc := k; Doubles.size := 2; Doubles.num_rot := 6;
     Doubles.dset := {| Legacy.num_data := 1; Legacy.frames := one_photon_frame |};
     Doubles.scales := [1] |}.

Definition angle_2 : float := 0x1.0c152382d7365p+1.
Definition angle_3 : float := 0x1.921fb54442d18p+1.
Definition angle_5 : float := 0x1.4f1a6c638d03fp+2.

(** The log-likelihoods of the frame at orientations 0 and 3 (at
    orientation 2 it is 0, at the others -1000), and their exponentials
    [1.5535001679540347e-06] and [0.5534986144538669]. *)
Definition faint : float := -13.375.
Definition fair : float := -0x1.2ed89151d42dap-1.

Definition faint_term : float := 0x1.a103b7f9848e2p-20.
Definition fair_term : float := 0x1.1b642b9eebdd2p-1.

(** [exp]: 1 at 0, the two terms, and 0 at -1000, which is below the
    logarithm of the least positive double. *)
Definition exp_at (x : float) : float :=
  if x =? 0 then 1
  else if x =? faint then faint_term
  else if x =? fair then fair_term
  else 0.

(** The normaliser of the frame as one rank and as three ranks compute
    it: [1.553500167954035] and [1.5535001679540348]. *)
Definition psum_one_rank : float := 0x1.8db22fdfb16e3p+0.
Definition psum_three_ranks : float := 0x1.8db22fdfb16e2p+0.



Definition views_at (model : list float) (a : float) (size : Z) : list float :=
  [ if a =? 0 then faint
    else if a =? angle_2 then 0
    else if a =? angle_3 then fair
    else -1000 ;
    -1000; -1000; -1000 ].


(** The responsibilities of the ranks after [_normalize_prob]. *)
Definition six_orientations_prob (k : Z) : option (list Doubles.fmatrix * list Z) :=
  Doubles.normalize_prob exp_at (six_orientations k)
    (map (fun rank =>
            Doubles.calculate_prob views_at (six_orientations k) rank [0; 0; 0; 0]
              (Doubles.empty (fun _ _ => 0)
                 (Z.to_nat (Striping.num_rot_p 6 k rank)) 1))
         (Doubles.ranks (six_orientations k))).

End DoublesExample.

(* ================================================================== *)
(** * Part III. Properties                                             *)
(* ================================================================== *)

(** ** Striping *)

Section StripingFacts.

Open Scope Z_scope.

Lemma nth_map_lt {A B} (f : A -> B) (l : list A) (i : nat) (d : B) (d' : A) :
  (i < length l)%nat -> nth i (map f l) d = f (nth i l d').
Proof.
  revert i. induction l as [|x l IH]; intros i Hi; simpl in *; [lia|].
  destruct i as [|i]; [reflexivity|]. apply IH. lia.
Qed.

Lemma nth_map_seq {A} (f : nat -> A) (a n i : nat) (d : A) :
  (i < n)%nat -> nth i (map f (seq a n)) d = f (a + i)%nat.
Proof.
  revert a i. induction n as [|n IH]; intros a i Hi; [lia|].
  destruct i as [|i]; simpl.
  - now rewrite Nat.add_0_r.
  - rewrite IH by lia. f_equal. lia.
Qed.

Lemma range_len_nonneg (start stop step : Z) : 0 <= Py.range_len start stop step.
Proof.
  unfold Py.range_len.
  destruct (0 <? step) eqn:Hs; simpl; [|lia].
  destruct (start <? stop) eqn:Hl; [|lia].
  apply Z.ltb_lt in Hs, Hl.
  assert (0 <= (stop - start - 1) / step) by (apply Z.div_pos; lia).
  lia.
Qed.

Lemma range_length (start stop step : Z) :
  length (Py.range start stop step) = Z.to_nat (Py.range_len start stop step).
Proof. unfold Py.range. now rewrite length_map, length_seq. Qed.

Lemma range_nth (start stop step : Z) (i : nat) :
  (i < length (Py.range start stop step))%nat ->
  nth i (Py.range start stop step) 0 = start + Z.of_nat i * step.
Proof.
  intros Hi. rewrite range_length in Hi. unfold Py.range.
  now rewrite nth_map_seq by assumption.
Qed.

Lemma range_In (start stop step r : Z) :
  In r (Py.range start stop step) <->
  exists i : nat, (i < Z.to_nat (Py.range_len start stop step))%nat /\
                  r = start + Z.of_nat i * step.
Proof.
  unfold Py.range. rewrite in_map_iff. split.
  - intros (i & <- & Hi). apply in_seq in Hi. exists i. split; [lia|reflexivity].
  - intros (i & Hi & ->). exists i. split; [reflexivity|]. apply in_seq. lia.
Qed.

(** The length of the stripe is [num_rot_p]. *)
Lemma range_len_num_rot_p (num_rot num_proc rank : Z) :
  0 < num_proc -> 0 <= rank < num_proc -> 0 <= num_rot ->
  Py.range_len rank num_rot num_proc = Striping.num_rot_p num_rot num_proc rank.
Proof.
  intros HP Hr HN. unfold Py.range_len, Striping.num_rot_p.
  pose proof (Z.div_mod num_rot num_proc ltac:(lia)) as Hdm.
  pose proof (Z.mod_pos_bound num_rot num_proc HP) as Hm.
  assert (Hq : 0 <= num_rot / num_proc) by (apply Z.div_pos; lia).
  set (q := num_rot / num_proc) in *. set (m := num_rot mod num_proc) in *.
  replace (0 <? num_proc) with true by (symmetry; apply Z.ltb_lt; lia). simpl.
  destruct (rank <? m) eqn:Hrm.
  - apply Z.ltb_lt in Hrm.
    replace (rank <? num_rot) with true by (symmetry; apply Z.ltb_lt; nia).
    assert ((num_rot - rank - 1) / num_proc = q); [|lia].
    symmetry. apply Z.div_unique with (r := m - rank - 1); [lia|nia].
  - apply Z.ltb_ge in Hrm.
    destruct (rank <? num_rot) eqn:HrN.
    + apply Z.ltb_lt in HrN.
      assert ((num_rot - rank - 1) / num_proc = q - 1); [|lia].
      symmetry. apply Z.div_unique with (r := num_proc + m - rank - 1); [lia|nia].
    + apply Z.ltb_ge in HrN. nia.
Qed.

Lemma owned_length (num_rot num_proc rank : Z) :
  0 < num_proc -> 0 <= rank < num_proc -> 0 <= num_rot ->
  length (Striping.owned num_rot num_proc rank)
  = Z.to_nat (Striping.num_rot_p num_rot num_proc rank).
Proof.
  intros. unfold Striping.owned.
  now rewrite range_length, range_len_num_rot_p.
Qed.

Lemma owned_nth (num_rot num_proc rank : Z) (i : nat) :
  (i < length (Striping.owned num_rot num_proc rank))%nat ->
  nth i (Striping.owned num_rot num_proc rank) 0 = Z.of_nat i * num_proc + rank.
Proof. intros Hi. unfold Striping.owned in *. rewrite range_nth by assumption. lia. Qed.

(** Membership in the stripe is the ownership predicate. *)
Lemma owned_In (num_rot num_proc rank r : Z) :
  0 < num_proc -> 0 <= rank < num_proc -> 0 <= num_rot ->
  In r (Striping.owned num_rot num_proc rank) <->
  0 <= r < num_rot /\ Striping.owner r rank num_proc = true.
Proof.
  intros HP Hr HN. unfold Striping.owned, Striping.owner.
  rewrite range_In, Z.eqb_eq. unfold Py.range_len.
  replace (0 <? num_proc) with true by (symmetry; apply Z.ltb_lt; lia). simpl.
  split.
  - intros (i & Hi & ->).
    destruct (rank <? num_rot) eqn:HrN; [|simpl in Hi; lia].
    apply Z.ltb_lt in HrN.
    assert (Hd : 0 <= (num_rot - rank - 1) / num_proc) by (apply Z.div_pos; lia).
    assert (Z.of_nat i <= (num_rot - rank - 1) / num_proc) by lia.
    pose proof (Z.mul_div_le (num_rot - rank - 1) num_proc HP).
    split; [nia|].
    rewrite Z.mod_add by lia. apply Z.mod_small. lia.
  - intros ((Hr0 & HrN) & Hmod).
    pose proof (Z.div_mod r num_proc ltac:(lia)) as Hdm. rewrite Hmod in Hdm.
    assert (Hq : 0 <= r / num_proc) by (apply Z.div_pos; lia).
    exists (Z.to_nat (r / num_proc)). split; [|lia].
    replace (rank <? num_rot) with true by (symmetry; apply Z.ltb_lt; nia).
    assert (r / num_proc <= (num_rot - rank - 1) / num_proc); [|lia].
    apply Z.div_le_lower_bound; [lia|]. nia.
Qed.

(** Without wrap-around the reported index is [i*num_proc + rank]. *)
Lemma astype_i4_small (v : Z) : - 2 ^ 31 <= v < 2 ^ 31 -> Py.astype_i4 v = v.
Proof. intros Hv. unfold Py.astype_i4. rewrite Z.mod_small; lia. Qed.

Lemma stripes_disjoint (num_proc rank rank' : Z) (i j : nat) :
  0 < num_proc -> 0 <= rank < num_proc -> 0 <= rank' < num_proc ->
  Z.of_nat i * num_proc + rank = Z.of_nat j * num_proc + rank' ->
  i = j /\ rank = rank'.
Proof.
  intros HP Hr Hr' He.
  assert (Hm : (Z.of_nat i * num_proc + rank) mod num_proc
               = (Z.of_nat j * num_proc + rank') mod num_proc) by now rewrite He.
  rewrite !(Z.add_comm (_ * _)), !Z.mod_add, !Z.mod_small in Hm by lia.
  subst rank'. split; [|reflexivity]. nia.
Qed.

End StripingFacts.

(** ** Arrays *)

Section ArrayFacts.

Import Arr.
Open Scope R_scope.

Lemma length_map2 {A B C} (f : A -> B -> C) (a : list A) (b : list B) :
  length (map2 f a b) = Nat.min (length a) (length b).
Proof. unfold map2. now rewrite length_map, length_combine. Qed.

Lemma nth_map2 {A B C} (f : A -> B -> C) (a : list A) (b : list B)
    (i : nat) (da : A) (db : B) (dc : C) :
  (i < length a)%nat -> (i < length b)%nat ->
  nth i (map2 f a b) dc = f (nth i a da) (nth i b db).
Proof.
  revert b i. induction a as [|x a IH]; intros [|y b] i Ha Hb; simpl in *; try lia.
  destruct i as [|i]; [reflexivity|]. apply IH; lia.
Qed.

Lemma rmax1_upper (xs : list R) (x y : R) : In y (x :: xs) -> y <= rmax1 x xs.
Proof.
  unfold rmax1. revert x y. induction xs as [|z xs IH]; intros x y Hy; simpl in *.
  - destruct Hy as [->|[]]. lra.
  - destruct Hy as [->|[->|Hy]].
    + eapply Rle_trans; [apply (Rmax_l y z)|]. apply IH. now left.
    + eapply Rle_trans; [apply (Rmax_r x y)|]. apply IH. now left.
    + apply IH. now right.
Qed.

Lemma rmax1_In (xs : list R) (x : R) : In (rmax1 x xs) (x :: xs).
Proof.
  unfold rmax1. revert x. induction xs as [|z xs IH]; intros x; simpl.
  - now left.
  - destruct (IH (Rmax x z)) as [He|Hin].
    + rewrite <- He. unfold Rmax. destruct (Rle_dec x z); [right; now left|now left].
    + right. now right.
Qed.

(** The maximum of a non-empty array is characterised by membership and
    by being an upper bound. *)
Lemma rmax1_unique (xs : list R) (x m : R) :
  In m (x :: xs) -> (forall y, In y (x :: xs) -> y <= m) -> rmax1 x xs = m.
Proof.
  intros Hin Hub. apply Rle_antisym.
  - apply Hub, rmax1_In.
  - now apply rmax1_upper.
Qed.

(** [argmax_from] returns a position of the maximum. *)
Lemma argmax_from_spec (l pre : list R) (best_i : nat) (best : R) :
  (best_i < length pre)%nat -> nth best_i pre 0 = best ->
  (forall y, In y pre -> y <= best) ->
  let k := argmax_from best_i best (length pre) l in
  (k < length (pre ++ l))%nat /\
  (forall y, In y (pre ++ l) -> y <= nth k (pre ++ l) 0).
Proof.
  revert pre best_i best. induction l as [|x l IH]; intros pre best_i best Hi Hb Hub; simpl.
  - rewrite app_nil_r. split; [assumption|]. rewrite Hb. exact Hub.
  - replace (pre ++ x :: l) with ((pre ++ [x]) ++ l) by now rewrite <- app_assoc.
    replace (S (length pre)) with (length (pre ++ [x])) by (rewrite length_app; simpl; lia).
    destruct (Rlt_dec best x) as [Hlt|Hge].
    + apply IH.
      * rewrite length_app. simpl. lia.
      * now rewrite app_nth2, Nat.sub_diag by lia.
      * intros y Hy. apply in_app_or in Hy. destruct Hy as [Hy|[->|[]]]; [|lra].
        apply Hub in Hy. lra.
    + apply IH.
      * rewrite length_app. simpl. lia.
      * now rewrite app_nth1 by assumption.
      * intros y Hy. apply in_app_or in Hy. destruct Hy as [Hy|[->|[]]]; [|lra].
        now apply Hub.
Qed.

Lemma argmax_from_head (x : R) (xs : list R) :
  let k := argmax_from 0 x 1 xs in
  (k < length (x :: xs))%nat /\ nth k (x :: xs) 0 = rmax1 x xs.
Proof.
  destruct (argmax_from_spec xs [x] 0 x) as [Hk Hub];
    [simpl; lia|reflexivity|intros y [->|[]]; lra|].
  simpl in *. split; [assumption|].
  symmetry. apply rmax1_unique; [|exact Hub].
  apply (nth_In (x :: xs)). simpl. assumption.
Qed.

Lemma length_col (d : nat) (m : matrix) : length (col d m) = length m.
Proof. apply length_map. Qed.

Lemma nth_col (d i : nat) (m : matrix) :
  nth i (col d m) 0 = nth d (nth i m []) 0.
Proof.
  unfold col. destruct (Nat.lt_ge_cases i (length m)) as [Hi|Hi].
  - now rewrite nth_map_lt with (d' := []).
  - rewrite (nth_overflow (map _ m)) by now rewrite length_map.
    rewrite (nth_overflow m) by assumption. now destruct d.
Qed.

End ArrayFacts.

(** ** C7: the stripe of a rank and the index it reports *)

Section StripeTheorem.

Import Arr.
Open Scope Z_scope.

(** C7.  For a rank of a communicator of [num_proc] ranks, the loop
    [enumerate(range(rank, num_rot, num_proc))] visits exactly the
    orientations [r] below [num_rot] with [r mod num_proc = rank]; it
    visits [num_rot_p] of them and the one at position [i] is
    [i*num_proc + rank].  The index [rmax_p] reports for a frame is the
    orientation at the position of the local arg-max, a row that attains
    the column maximum, and two different ranks never report the same
    index.  (The index is stored in 32 bits, so the orientation count is
    taken below [2^31].) *)
Theorem stripe_is_residue_class (num_rot num_proc rank : Z) :
  0 < num_proc -> 0 <= rank < num_proc -> 0 <= num_rot <= 2 ^ 31 ->
  let stripe := Striping.owned num_rot num_proc rank in
  (forall r, In r stripe <->
             0 <= r < num_rot /\ Striping.owner r rank num_proc = true) /\
  length stripe = Z.to_nat (Striping.num_rot_p num_rot num_proc rank) /\
  (forall i, (i < length stripe)%nat -> nth i stripe 0 = Z.of_nat i * num_proc + rank) /\
  (forall (ncol : nat) (prob : matrix),
      length prob = length stripe -> prob <> [] ->
      exists am,
        argmax0 ncol prob = Some am /\
        Normalize.rmax_local num_proc ncol (Z.to_nat rank) prob
        = Some (map (fun i => nth i stripe 0) am) /\
        forall d, (d < ncol)%nat ->
          (nth d am O < length stripe)%nat /\
          forall j, (j < length prob)%nat ->
            (nth d (nth j prob []) 0 <= nth d (nth (nth d am O) prob []) 0)%R) /\
  (forall rank' i j,
      0 <= rank' < num_proc -> rank <> rank' ->
      Z.of_nat i * num_proc + rank <> Z.of_nat j * num_proc + rank').
Proof.
  intros HP Hr HN stripe. subst stripe.
  split; [intros r; apply owned_In; lia|].
  split; [apply owned_length; lia|].
  split; [intros i Hi; now apply owned_nth|].
  split.
  - intros ncol prob Hlen Hne.
    destruct prob as [|row0 prob]; [congruence|].
    eexists. split; [reflexivity|].
    assert (Ham : forall d, (d < ncol)%nat ->
              let k := nth d (map (fun d => match col d (row0 :: prob) with
                                            | [] => O
                                            | x :: xs => argmax_from 0 x 1 xs
                                            end) (seq 0 ncol)) O in
              (k < length (row0 :: prob))%nat /\
              nth k (col d (row0 :: prob)) 0%R
              = rmax1 (nth d row0 0%R) (col d prob)).
    { intros d Hd. cbv zeta. rewrite nth_map_seq by assumption. simpl.
      destruct (argmax_from_head (nth d row0 0%R) (col d prob)) as [Hk He].
      simpl in Hk. rewrite length_col in Hk. split; [exact Hk|exact He]. }
    split.
    + unfold Normalize.rmax_local. cbn [argmax0]. f_equal.
      apply nth_ext with (d := 0) (d' := 0); [now rewrite !length_map|].
      intros d Hd. rewrite length_map, length_map, length_seq in Hd.
      set (am := map _ (seq 0 ncol)) in *.
      assert (Hlam : (d < length am)%nat) by (unfold am; now rewrite length_map, length_seq).
      rewrite !nth_map_lt with (d' := O) by exact Hlam.
      destruct (Ham d Hd) as [Hk _]. cbv zeta in Hk. fold am in Hk.
      rewrite Hlen in Hk.
      rewrite owned_nth by assumption.
      unfold Striping.global_index. rewrite Z2Nat.id by lia.
      apply astype_i4_small.
      assert (Hin : In (nth (nth d am O) (Striping.owned num_rot num_proc rank) 0)
                       (Striping.owned num_rot num_proc rank)) by now apply nth_In.
      rewrite owned_nth in Hin by assumption.
      apply owned_In in Hin; lia.
    + intros d Hd. destruct (Ham d Hd) as [Hk He]. cbv zeta in Hk, He.
      split; [now rewrite <- Hlen|].
      intros j Hj. rewrite <- !nth_col.
      rewrite He. apply rmax1_upper.
      change (nth d row0 0%R :: col d prob) with (col d (row0 :: prob)).
      apply nth_In. now rewrite length_col.
  - intros rank' i j Hr' Hne He.
    apply stripes_disjoint in He; [|lia..]. now destruct He.
Qed.

(** Scenario B of the design: 8 orientations on 2 ranks. *)
Lemma stripe_is_residue_class_witness :
  Striping.owned 8 2 0 = [0; 2; 4; 6] /\ Striping.owned 8 2 1 = [1; 3; 5; 7] /\
  (forall r, In r (Striping.owned 8 2 1) <->
             0 <= r < 8 /\ Striping.owner r 1 2 = true).
Proof.
  split; [reflexivity|]. split; [reflexivity|].
  apply (stripe_is_residue_class 8 2 1); lia.
Defined.

End StripeTheorem.

(** ** The work partitioner *)

Section PartitionFacts.

Open Scope Z_scope.

Lemma zsum_app (a b : list Z) : Py.zsum (a ++ b) = Py.zsum a + Py.zsum b.
Proof. unfold Py.zsum. induction a as [|x a IH]; simpl; lia. Qed.

Lemma zsum_repeat (x : Z) (n : nat) : Py.zsum (repeat x n) = Z.of_nat n * x.
Proof. unfold Py.zsum. induction n as [|n IH]; simpl repeat; simpl fold_right; lia. Qed.

Lemma firstn_repeat {A} (x : A) (k n : nat) :
  (k <= n)%nat -> firstn k (repeat x n) = repeat x k.
Proof.
  revert n. induction k as [|k IH]; intros [|n] Hk; simpl; try lia; try reflexivity.
  f_equal. apply IH. lia.
Qed.

Lemma skipn_repeat {A} (x : A) (k n : nat) :
  skipn k (repeat x n) = repeat x (n - k).
Proof.
  revert n. induction k as [|k IH]; intros [|n]; simpl; try reflexivity.
  apply IH.
Qed.

Lemma map_repeat {A B} (f : A -> B) (x : A) (n : nat) :
  map f (repeat x n) = repeat (f x) n.
Proof. induction n as [|n IH]; simpl; [reflexivity|now f_equal]. Qed.

(** The block sizes in closed form: [num_data mod num_blocks] blocks of
    one frame more, then the rest. *)
Lemma block_sizes_closed (num_data num_blocks : Z) :
  0 < num_blocks ->
  Partition.block_sizes num_data num_blocks
  = Some (repeat (num_data / num_blocks + 1) (Z.to_nat (num_data mod num_blocks))
          ++ repeat (num_data / num_blocks)
               (Z.to_nat num_blocks - Z.to_nat (num_data mod num_blocks))).
Proof.
  intros Hnb. unfold Partition.block_sizes.
  replace (num_blocks =? 0) with false by (symmetry; apply Z.eqb_neq; lia).
  pose proof (Z.mod_pos_bound num_data num_blocks Hnb) as Hm.
  cbv zeta. f_equal. unfold Py.incr_prefix, Py.slice_stop.
  replace (num_data mod num_blocks <? 0) with false by (symmetry; apply Z.ltb_ge; lia).
  rewrite repeat_length, Nat.min_l by lia.
  rewrite firstn_repeat by lia. now rewrite skipn_repeat, map_repeat.
Qed.

Lemma dranges_length (s : Z) (sizes : list Z) :
  length (Partition.dranges s sizes) = length sizes.
Proof. revert s. induction sizes as [|b l IH]; intros s; simpl; [reflexivity|now rewrite IH]. Qed.

(** Block [i] starts where the blocks before it end. *)
Lemma dranges_nth (s : Z) (sizes : list Z) (i : nat) :
  (i < length sizes)%nat ->
  nth i (Partition.dranges s sizes) (0, 0)
  = (s + Py.zsum (firstn i sizes), s + Py.zsum (firstn i sizes) + nth i sizes 0).
Proof.
  revert s i. induction sizes as [|b l IH]; intros s i Hi; simpl in Hi; [lia|].
  destruct i as [|i]; simpl.
  - f_equal; lia.
  - rewrite IH by lia. unfold Py.zsum. simpl. f_equal; lia.
Qed.

Lemma zsum_firstn_S (l : list Z) (i : nat) :
  (i < length l)%nat ->
  Py.zsum (firstn (S i) l) = Py.zsum (firstn i l) + nth i l 0.
Proof.
  revert i. induction l as [|x l IH]; intros i Hi; simpl in Hi; [lia|].
  destruct i as [|i].
  - unfold Py.zsum. simpl. lia.
  - specialize (IH i ltac:(lia)).
    rewrite !firstn_cons.
    change (Py.zsum (x :: firstn (S i) l)) with (x + Py.zsum (firstn (S i) l)).
    change (Py.zsum (x :: firstn i l)) with (x + Py.zsum (firstn i l)).
    rewrite IH. simpl nth. lia.
Qed.

Lemma zsum_firstn_nonneg (l : list Z) (j : nat) :
  (forall b, In b l -> 0 <= b) -> 0 <= Py.zsum (firstn j l).
Proof.
  revert j. induction l as [|x l IH]; intros j Hl.
  - rewrite firstn_nil. unfold Py.zsum. simpl. lia.
  - destruct j as [|j]; [unfold Py.zsum; simpl; lia|].
    assert (0 <= x) by (apply Hl; now left).
    assert (0 <= Py.zsum (firstn j l)) by (apply IH; intros; apply Hl; now right).
    unfold Py.zsum in *. simpl. lia.
Qed.

(** Ranges of non-negative sizes cover [s, s + sum) once. *)
Lemma dranges_cover (sizes : list Z) (s d : Z) :
  (forall b, In b sizes -> 0 <= b) ->
  s <= d < s + Py.zsum sizes ->
  exists i, (i < length sizes)%nat /\
    (fst (nth i (Partition.dranges s sizes) (0, 0)) <= d
     < snd (nth i (Partition.dranges s sizes) (0, 0))) /\
    forall j, (j < length sizes)%nat ->
      fst (nth j (Partition.dranges s sizes) (0, 0)) <= d
      < snd (nth j (Partition.dranges s sizes) (0, 0)) -> j = i.
Proof.
  revert s. induction sizes as [|b l IH]; intros s Hpos Hd.
  - unfold Py.zsum in Hd. simpl in Hd. lia.
  - assert (Hb : 0 <= b) by (apply Hpos; now left).
    assert (Hl : forall b, In b l -> 0 <= b) by (intros; apply Hpos; now right).
    unfold Py.zsum in Hd. simpl in Hd. fold (Py.zsum l) in Hd.
    destruct (Z_lt_ge_dec d (s + b)) as [Hlt|Hge].
    + exists O. simpl. split; [lia|]. split; [lia|].
      intros [|j] Hj Hin; [reflexivity|]. exfalso. simpl in Hin.
      rewrite dranges_nth in Hin by (simpl in Hj; lia). simpl in Hin.
      pose proof (zsum_firstn_nonneg l j Hl). lia.
    + destruct (IH (s + b) Hl ltac:(lia)) as (i & Hi & Hin & Huniq).
      exists (S i). simpl. split; [lia|]. split; [exact Hin|].
      intros [|j] Hj Hjn; simpl in Hjn; [lia|]. f_equal. apply Huniq; [lia|exact Hjn].
Qed.

End PartitionFacts.

(** ** C9: the block sizes and ranges *)

Section PartitionTheorem.

Open Scope Z_scope.

(** C9.  For [num_data] frames in [num_blocks >= 1] blocks the
    partitioner yields [num_blocks] sizes; block [i] has
    [num_data // num_blocks] frames, plus one when
    [i < num_data mod num_blocks]; any two sizes differ by at most 1;
    the sizes sum to [num_data]; the ranges are contiguous from 0 to
    [num_data], and every frame index lies in exactly one of them. *)
Theorem block_sizes_balanced_partition (num_data num_blocks : Z) :
  0 <= num_data -> 0 < num_blocks ->
  exists sizes,
    Partition.block_sizes num_data num_blocks = Some sizes /\
    length sizes = Z.to_nat num_blocks /\
    (forall i, (i < length sizes)%nat ->
       nth i sizes 0
       = num_data / num_blocks
         + (if Z.of_nat i <? num_data mod num_blocks then 1 else 0)) /\
    (forall a b, In a sizes -> In b sizes -> Z.abs (a - b) <= 1) /\
    Py.zsum sizes = num_data /\
    let ranges := Partition.dranges 0 sizes in
    length ranges = length sizes /\
    (forall i, (i < length sizes)%nat ->
       snd (nth i ranges (0, 0)) - fst (nth i ranges (0, 0)) = nth i sizes 0) /\
    fst (nth O ranges (0, 0)) = 0 /\
    (forall i, (S i < length sizes)%nat ->
       fst (nth (S i) ranges (0, 0)) = snd (nth i ranges (0, 0))) /\
    snd (nth (length sizes - 1) ranges (0, 0)) = num_data /\
    (forall d, 0 <= d < num_data ->
       exists i, (i < length ranges)%nat /\
         (fst (nth i ranges (0, 0)) <= d < snd (nth i ranges (0, 0))) /\
         forall j, (j < length ranges)%nat ->
           fst (nth j ranges (0, 0)) <= d < snd (nth j ranges (0, 0)) -> j = i).
Proof.
  intros HD Hnb.
  pose proof (Z.mod_pos_bound num_data num_blocks Hnb) as Hm.
  pose proof (Z.div_mod num_data num_blocks ltac:(lia)) as Hdm.
  assert (Hq : 0 <= num_data / num_blocks) by (apply Z.div_pos; lia).
  set (q := num_data / num_blocks) in *. set (m := num_data mod num_blocks) in *.
  eexists. split; [now apply block_sizes_closed|].
  fold q m.
  set (sizes := repeat (q + 1) (Z.to_nat m) ++ repeat q (Z.to_nat num_blocks - Z.to_nat m)).
  assert (Hlen : length sizes = Z.to_nat num_blocks)
    by (unfold sizes; rewrite length_app, !repeat_length; lia).
  assert (Hnth : forall i, (i < length sizes)%nat ->
            nth i sizes 0 = q + (if Z.of_nat i <? m then 1 else 0)).
  { intros i Hi. unfold sizes. destruct (Z.of_nat i <? m) eqn:Him.
    - apply Z.ltb_lt in Him. rewrite app_nth1 by (rewrite repeat_length; lia).
      apply nth_repeat_lt. lia.
    - apply Z.ltb_ge in Him. rewrite app_nth2 by (rewrite repeat_length; lia).
      rewrite nth_repeat_lt; [lia|]. rewrite repeat_length. lia. }
  assert (Hin : forall a, In a sizes -> a = q \/ a = q + 1).
  { intros a Ha. unfold sizes in Ha. apply in_app_or in Ha.
    destruct Ha as [Ha|Ha]; apply repeat_spec in Ha; lia. }
  assert (Hsum : Py.zsum sizes = num_data).
  { unfold sizes. rewrite zsum_app, !zsum_repeat. nia. }
  split; [exact Hlen|]. split; [exact Hnth|].
  split; [intros a b Ha Hb; apply Hin in Ha, Hb; lia|].
  split; [exact Hsum|].
  cbv zeta.
  split; [apply dranges_length|].
  split; [intros i Hi; rewrite dranges_nth by assumption; cbn [fst snd]; lia|].
  split.
  { destruct sizes as [|b l] eqn:Hs; [simpl in Hlen; lia|]. reflexivity. }
  split; [intros i Hi; rewrite !dranges_nth by lia; cbn [fst snd]|].
  { rewrite zsum_firstn_S by lia. lia. }
  split.
  { rewrite dranges_nth by lia. cbn [snd].
    rewrite Z.add_0_l, <- zsum_firstn_S by lia.
    replace (S (length sizes - 1)) with (length sizes) by lia.
    now rewrite firstn_all. }
  intros d Hd. rewrite dranges_length.
  apply dranges_cover; [|lia].
  intros b Hb. apply Hin in Hb. lia.
Qed.

(** Ten frames in three blocks: sizes 4, 3, 3. *)
Lemma block_sizes_balanced_partition_witness :
  Partition.block_sizes 10 3 = Some [4; 3; 3] /\
  exists sizes, Partition.block_sizes 10 3 = Some sizes /\ length sizes = 3%nat.
Proof.
  split; [reflexivity|].
  destruct (block_sizes_balanced_partition 10 3) as (sizes & H1 & H2 & _); [lia|lia|].
  exists sizes. split; [exact H1|exact H2].
Defined.

End PartitionTheorem.

(** ** C5: the memory of a block against the budget *)

Section BudgetTheorem.

Open Scope Z_scope.

(** What [num_blocks] is when it is positive: the available memory and
    the matrix size are positive, and [num_blocks] is at least the ratio
    [10 * num_rot_p * num_data / available]. *)
Lemma num_blocks_positive (n a : Z) :
  a <> 0 -> 0 <= n ->
  0 < Qceiling ((inject_Z (n * 8) / inject_Z a) / Partition.MEM_THRESH)%Q ->
  0 < a /\ 0 < n /\
  10 * n <= Qceiling ((inject_Z (n * 8) / inject_Z a) / Partition.MEM_THRESH)%Q * a.
Proof.
  intros Ha Hn. unfold Partition.MEM_THRESH.
  set (x := ((inject_Z (n * 8) / inject_Z a) / (8 # 10))%Q).
  pose proof (Qle_ceiling x) as Hle. pose proof (Qceiling_lt x) as Hlt.
  set (nb := Qceiling x) in *. intros Hnb. unfold x in Hle, Hlt.
  destruct a as [|p|p]; [lia| |];
    unfold Qle, Qlt, Qdiv, Qmult, Qinv, inject_Z in *; cbn [Qnum Qden] in *;
    rewrite ?Pos2Z.inj_mul in *;
    assert (0 <= (nb - 1) * Z.pos p) by nia; lia.
Qed.

Lemma block_sizes_negative (num_data nb : Z) :
  nb < 0 -> Partition.block_sizes num_data nb = Some [].
Proof.
  intros Hnb. unfold Partition.block_sizes.
  replace (nb =? 0) with false by (symmetry; apply Z.eqb_neq; lia).
  replace (Z.to_nat nb) with O by lia. cbn [repeat length].
  unfold Py.incr_prefix. now rewrite firstn_nil, skipn_nil.
Qed.

(** The claim as stated fails on a 16 GiB device with a 1 GiB dataset,
    10000 owned orientations and 644245 frames: the first of the four
    blocks holds 161062 frames, and its sub-matrix of 12884960000 bytes
    is above the budget of 0.8 * 15 GiB = 12884901888 bytes. *)
Lemma block_over_budget :
  Partition.schedule 10000 644245 17179869184 1073741824
  = Some ([161062; 161061; 161061; 161061],
          [(0, 161062); (161062, 322123); (322123, 483184); (483184, 644245)]) /\
  (Partition.budget 17179869184 1073741824
   < inject_Z (Partition.block_bytes 10000 161062))%Q.
Proof. split; vm_compute; reflexivity. Qed.

(** C5, amended.  Every block the partitioner yields is within one frame
    column of the budget: its sub-matrix is smaller than
    [MEM_THRESH * (mem_size - dset.mem)] plus the [num_rot_p * 8] bytes of
    one frame; and when [num_blocks] divides [num_data] it is within the
    budget itself. *)
Theorem block_within_budget_plus_one_frame
    (num_rot_p num_data mem_size dset_mem : Z) (sizes : list Z)
    (ranges : list (Z * Z)) (b : Z) :
  0 <= num_rot_p -> 0 <= num_data ->
  Partition.schedule num_rot_p num_data mem_size dset_mem = Some (sizes, ranges) ->
  In b sizes ->
  (inject_Z (Partition.block_bytes num_rot_p b)
   < Partition.budget mem_size dset_mem + inject_Z (num_rot_p * 8))%Q /\
  (num_data mod Z.of_nat (length sizes) = 0 ->
   (inject_Z (Partition.block_bytes num_rot_p b)
    <= Partition.budget mem_size dset_mem)%Q).
Proof.
  intros HN HD Hs Hb. unfold Partition.schedule, Partition.num_blocks, Partition.mem_frac in Hs.
  destruct (mem_size - dset_mem =? 0) eqn:Ha; [discriminate|].
  apply Z.eqb_neq in Ha.
  set (a := mem_size - dset_mem) in *.
  set (nb := Qceiling _) in Hs.
  destruct (Z.lt_trichotomy nb 0) as [Hneg|[Hz|Hpos]].
  - rewrite block_sizes_negative in Hs by assumption.
    injection Hs as <- <-. destruct Hb.
  - unfold Partition.block_sizes in Hs. rewrite Hz in Hs. discriminate.
  - rewrite block_sizes_closed in Hs by assumption. injection Hs as <- <-.
    destruct (num_blocks_positive (num_rot_p * num_data) a Ha ltac:(nia) Hpos)
      as (Hapos & Hnd & Hle).
    fold nb in Hle.
    pose proof (Z.mod_pos_bound num_data nb Hpos) as Hm.
    pose proof (Z.div_mod num_data nb ltac:(lia)) as Hdm.
    assert (Hq : 0 <= num_data / nb) by (apply Z.div_pos; lia).
    set (q := num_data / nb) in *. set (m := num_data mod nb) in *.
    assert (Hlen : Z.of_nat (length (repeat (q + 1) (Z.to_nat m)
                                     ++ repeat q (Z.to_nat nb - Z.to_nat m))) = nb)
      by (rewrite length_app, !repeat_length; lia).
    rewrite Hlen. fold m.
    assert (Hbq : (b = q + 1 /\ 0 < m) \/ b = q).
    { apply in_app_or in Hb. destruct Hb as [Hb|Hb].
      - left. split; [exact (repeat_spec _ _ _ Hb)|].
        destruct (Z.eq_dec m 0) as [Hm0|Hm0]; [|lia].
        rewrite Hm0 in Hb. destruct Hb.
      - right. exact (repeat_spec _ _ _ Hb). }
    assert (Hnpos : 0 < num_rot_p) by nia.
    unfold Partition.budget, Partition.MEM_THRESH, Partition.block_bytes.
    fold a. destruct a as [|p|p]; try lia.
    unfold Qle, Qlt, Qplus, Qmult, inject_Z. cbn [Qnum Qden].
    split.
    + assert (10 * num_rot_p * (b - 1) < Z.pos p); [|lia].
      assert ((b - 1) * nb < num_data) by (destruct Hbq as [[-> ?]| ->]; nia).
      nia.
    + intros Hm0.
      assert (10 * num_rot_p * b <= Z.pos p); [|lia].
      assert (b * nb = num_data) by (destruct Hbq as [[-> ?]| ->]; nia).
      nia.
Qed.

(** The amended bound at the input of [block_over_budget]. *)
Lemma block_within_budget_plus_one_frame_witness :
  (inject_Z (Partition.block_bytes 10000 161062)
   < Partition.budget 17179869184 1073741824 + inject_Z (10000 * 8))%Q.
Proof.
  apply (block_within_budget_plus_one_frame 10000 644245 17179869184 1073741824
           [161062; 161061; 161061; 161061]
           [(0, 161062); (161062, 322123); (322123, 483184); (483184, 644245)]
           161062);
    [lia|lia|vm_compute; reflexivity|now left].
Defined.

End BudgetTheorem.

(** ** The kernels *)

Section KernelFacts.

Import Arr.
Open Scope R_scope.

Lemma length_set_nth {A} (i : nat) (v : A) (a : list A) :
  length (set_nth i v a) = length a.
Proof.
  revert i. induction a as [|x a IH]; intros [|i]; simpl; try reflexivity.
  now rewrite IH.
Qed.

Lemma nth_set_nth {A} (i j : nat) (v d : A) (a : list A) :
  nth j (set_nth i v a) d
  = if (j =? i)%nat && (i <? length a)%nat then v else nth j a d.
Proof.
  revert i j. induction a as [|x a IH]; intros i j.
  - destruct i; simpl; rewrite andb_false_r; reflexivity.
  - destruct i as [|i], j as [|j]; simpl; try reflexivity.
    rewrite IH. reflexivity.
Qed.

Lemma set_nth_set_nth {A} (i : nat) (v w : A) (a : list A) :
  set_nth i v (set_nth i w a) = set_nth i v a.
Proof.
  revert i. induction a as [|x a IH]; intros [|i]; simpl; try reflexivity.
  now rewrite IH.
Qed.

Lemma length_upd (i : Z) (v : R) (a : list R) : length (upd i v a) = length a.
Proof. unfold upd. destruct (i <? 0)%Z; [reflexivity|apply length_set_nth]. Qed.

Lemma length_atomicAdd (i : Z) (v : R) (a : list R) :
  length (atomicAdd i v a) = length a.
Proof. apply length_upd. Qed.

Lemma rd_nth (a : list R) (i : Z) : (0 <= i)%Z -> rd a i = nth (Z.to_nat i) a 0.
Proof. intros Hi. unfold rd. now replace (i <? 0)%Z with false by (symmetry; apply Z.ltb_ge; lia). Qed.

Lemma upd_set_nth (a : list R) (i : Z) (v : R) :
  (0 <= i)%Z -> upd i v a = set_nth (Z.to_nat i) v a.
Proof. intros Hi. unfold upd. now replace (i <? 0)%Z with false by (symmetry; apply Z.ltb_ge; lia). Qed.

(** A store leaves every other cell as it was. *)
Lemma nth_upd_other (a : list R) (i : Z) (v : R) (j : nat) :
  Z.of_nat j <> i -> nth j (upd i v a) 0 = nth j a 0.
Proof.
  intros Hne. unfold upd. destruct (i <? 0)%Z eqn:Hi; [reflexivity|].
  apply Z.ltb_ge in Hi. rewrite nth_set_nth.
  replace (j =? Z.to_nat i)%nat with false by (symmetry; apply Nat.eqb_neq; lia).
  reflexivity.
Qed.

Lemma fold_left_map {A B S} (f : S -> B -> S) (g : A -> B) (l : list A) (s : S) :
  fold_left f (map g l) s = fold_left (fun s x => f s (g x)) l s.
Proof. revert s. induction l as [|x l IH]; intros s; simpl; [reflexivity|apply IH]. Qed.

Lemma fold_left_flat_map {A B S} (f : S -> B -> S) (g : A -> list B) (l : list A) (s : S) :
  fold_left f (flat_map g l) s = fold_left (fun s x => fold_left f (g x) s) l s.
Proof.
  revert s. induction l as [|x l IH]; intros s; simpl; [reflexivity|].
  now rewrite fold_left_app, IH.
Qed.

Lemma fold_left_pointwise {A S} (f g : S -> A -> S) (l : list A) (s : S) :
  (forall s x, f s x = g s x) -> fold_left f l s = fold_left g l s.
Proof.
  intros He. revert s. induction l as [|x l IH]; intros s; simpl; [reflexivity|].
  now rewrite He, IH.
Qed.

Lemma launch_fold {S} (grid block : Z) (thread : Z -> S -> S) (s : S) :
  Kernels.launch grid block thread s
  = fold_left (fun s d => thread d s) (thread_ids grid block) s.
Proof.
  unfold Kernels.launch, thread_ids. rewrite fold_left_flat_map.
  apply fold_left_pointwise. intros s' b. now rewrite fold_left_map.
Qed.

Lemma thread_index_range (block b t : Z) :
  (0 <= Kernels.thread_index block b t < 2 ^ 32)%Z.
Proof. unfold Kernels.thread_index. apply Z.mod_pos_bound. lia. Qed.

Lemma thread_ids_nonneg (grid block d : Z) :
  In d (thread_ids grid block) -> (0 <= d < 2 ^ 32)%Z.
Proof.
  unfold thread_ids. rewrite in_flat_map. intros (b & _ & Hd).
  apply in_map_iff in Hd. destruct Hd as (t & <- & _). apply thread_index_range.
Qed.

Lemma zrange_In (lo n x : Z) : In x (zrange lo n) <-> (lo <= x < lo + n)%Z.
Proof.
  unfold zrange. rewrite in_map_iff. split.
  - intros (k & <- & Hk). apply in_seq in Hk. lia.
  - intros Hx. exists (Z.to_nat (x - lo)). split; [lia|]. apply in_seq. lia.
Qed.

(** Without wrap-around a grid of [grid] blocks of 32 threads runs every
    index below [32 * grid]. *)
Lemma thread_ids_cover (grid d : Z) :
  (32 * grid <= 2 ^ 32)%Z -> (0 <= d < 32 * grid)%Z -> In d (thread_ids grid 32).
Proof.
  intros Hg Hd. unfold thread_ids. apply in_flat_map.
  exists (d / 32)%Z.
  pose proof (Z.div_mod d 32 ltac:(lia)) as Hdm.
  pose proof (Z.mod_pos_bound d 32 ltac:(lia)) as Hm.
  assert (0 <= d / 32)%Z by (apply Z.div_pos; lia).
  split; [apply zrange_In; lia|].
  apply in_map_iff. exists (d mod 32)%Z. split; [|apply zrange_In; lia].
  unfold Kernels.thread_index. rewrite <- Hdm. apply Z.mod_small. lia.
Qed.

Lemma bsize_bounds (n : Z) : (0 <= n)%Z -> (n <= 32 * Kernels.bsize n < n + 32)%Z.
Proof.
  intros Hn. unfold Kernels.bsize.
  pose proof (Z.div_mod (- n) 32 ltac:(lia)).
  pose proof (Z.mod_pos_bound (- n) 32 ltac:(lia)). lia.
Qed.

(** A thread beyond the frame count does nothing. *)
Lemma calc_prob_all_thread_idle (lview : list R) (ndata : Z) (f : Kernels.frames)
    (init : R) (scales : list R) (d : Z) (prob_r : list R) :
  (ndata <= d)%Z ->
  Kernels.calc_prob_all_thread lview ndata f init scales d prob_r = prob_r.
Proof.
  intros Hd. unfold Kernels.calc_prob_all_thread.
  now replace (ndata <=? d)%Z with true by (symmetry; apply Z.leb_le; lia).
Qed.

Lemma merge_all_thread_idle (prob_r : list R) (ndata : Z) (f : Kernels.frames)
    (d : Z) (view : list R) :
  (ndata <= d)%Z -> Kernels.merge_all_thread prob_r ndata f d view = view.
Proof.
  intros Hd. unfold Kernels.merge_all_thread.
  now replace (ndata <=? d)%Z with true by (symmetry; apply Z.leb_le; lia).
Qed.

Lemma fold_upd_own (d : Z) (g : R -> Z -> R) (ts : list Z) (a : list R) (v : R) :
  (0 <= d)%Z -> (Z.to_nat d < length a)%nat ->
  fold_left (fun s t => upd d (g (rd s d) t) s) ts (upd d v a)
  = upd d (fold_left g ts v) a.
Proof.
  intros Hd Hlen. revert v. induction ts as [|t ts IH]; intros v; simpl; [reflexivity|].
  rewrite <- IH. f_equal.
  rewrite (rd_nth _ d Hd), !(upd_set_nth _ d _ Hd), nth_set_nth, Nat.eqb_refl.
  replace (Z.to_nat d <? length a)%nat with true by (symmetry; apply Nat.ltb_lt; lia).
  simpl. now rewrite set_nth_set_nth.
Qed.

Lemma calc_prob_all_thread_eq (lview : list R) (ndata : Z) (f : Kernels.frames)
    (init : R) (scales : list R) (d : Z) (prob_r : list R) :
  (0 <= d < ndata)%Z -> (Z.to_nat d < length prob_r)%nat ->
  Kernels.calc_prob_all_thread lview ndata f init scales d prob_r
  = upd d (frame_logp lview f init scales d) prob_r.
Proof.
  intros Hd Hlen. unfold Kernels.calc_prob_all_thread, frame_logp.
  replace (ndata <=? d)%Z with false by (symmetry; apply Z.leb_gt; lia).
  rewrite (fold_upd_own d (fun acc t => acc + rd lview (rdz (Kernels.p_o f) t)))
    by (assumption || lia).
  rewrite (fold_upd_own d
             (fun acc t => acc + rd lview (rdz (Kernels.p_m f) t)
                                 * IZR (rdz (Kernels.c_m f) t)))
    by (assumption || lia).
  reflexivity.
Qed.

Lemma length_calc_prob_all_thread (lview : list R) (ndata : Z) (f : Kernels.frames)
    (init : R) (scales : list R) (d : Z) (prob_r : list R) :
  length (Kernels.calc_prob_all_thread lview ndata f init scales d prob_r)
  = length prob_r.
Proof.
  unfold Kernels.calc_prob_all_thread. destruct (ndata <=? d)%Z; [reflexivity|].
  set (s0 := upd d _ prob_r).
  assert (H0 : length s0 = length prob_r) by apply length_upd.
  assert (Hfold : forall (g : list R -> Z -> R) ts s,
             length (fold_left (fun s t => upd d (g s t) s) ts s) = length s).
  { intros g ts. induction ts as [|t ts IH]; intros s; simpl; [reflexivity|].
    now rewrite IH, length_upd. }
  rewrite (Hfold (fun s t => rd s d + rd lview (rdz (Kernels.p_m f) t)
                                      * IZR (rdz (Kernels.c_m f) t))).
  now rewrite (Hfold (fun s t => rd s d + rd lview (rdz (Kernels.p_o f) t))).
Qed.

(** A thread of [calc_prob_all] changes no cell but its own. *)
Lemma calc_prob_all_thread_other (lview : list R) (ndata : Z) (f : Kernels.frames)
    (init : R) (scales : list R) (d : Z) (prob_r : list R) (j : nat) :
  Z.of_nat j <> d ->
  nth j (Kernels.calc_prob_all_thread lview ndata f init scales d prob_r) 0
  = nth j prob_r 0.
Proof.
  intros Hne. unfold Kernels.calc_prob_all_thread. destruct (ndata <=? d)%Z; [reflexivity|].
  assert (Hfold : forall (g : list R -> Z -> R) ts s,
             nth j (fold_left (fun s t => upd d (g s t) s) ts s) 0 = nth j s 0).
  { intros g ts. induction ts as [|t ts IH]; intros s; simpl; [reflexivity|].
    now rewrite IH, nth_upd_other. }
  rewrite (Hfold (fun s t => rd s d + rd lview (rdz (Kernels.p_m f) t)
                                      * IZR (rdz (Kernels.c_m f) t))).
  rewrite (Hfold (fun s t => rd s d + rd lview (rdz (Kernels.p_o f) t))).
  now apply nth_upd_other.
Qed.

(** What a run of threads of [calc_prob_all] leaves in cell [j]. *)
Lemma calc_prob_all_fold_nth (lview : list R) (ndata : Z) (f : Kernels.frames)
    (init : R) (scales : list R) (ds : list Z) (prob_r : list R) (j : nat) :
  (forall d, In d ds -> 0 <= d)%Z -> (j < length prob_r)%nat ->
  nth j (fold_left (fun s d => Kernels.calc_prob_all_thread lview ndata f init scales d s)
           ds prob_r) 0
  = if (Z.of_nat j <? ndata)%Z && existsb (Z.eqb (Z.of_nat j)) ds
    then frame_logp lview f init scales (Z.of_nat j)
    else nth j prob_r 0.
Proof.
  revert prob_r. induction ds as [|d ds IH]; intros prob_r Hds Hj; simpl.
  - now rewrite andb_false_r.
  - rewrite IH; [|intros; apply Hds; now right
                 |now rewrite length_calc_prob_all_thread].
    assert (Hd0 : (0 <= d)%Z) by (apply Hds; now left).
    destruct (Z.of_nat j <? ndata)%Z eqn:Hjn; simpl.
    + destruct (existsb (Z.eqb (Z.of_nat j)) ds) eqn:Hex.
      * now rewrite orb_true_r.
      * rewrite orb_false_r. destruct (Z.of_nat j =? d)%Z eqn:Hjd.
        -- apply Z.eqb_eq in Hjd. subst d. apply Z.ltb_lt in Hjn.
           rewrite calc_prob_all_thread_eq by lia.
           rewrite upd_set_nth, nth_set_nth by lia.
           rewrite Nat2Z.id, Nat.eqb_refl.
           now replace (j <? length prob_r)%nat with true by (symmetry; apply Nat.ltb_lt; lia).
        -- apply Z.eqb_neq in Hjd. now apply calc_prob_all_thread_other.
    + apply Z.ltb_ge in Hjn.
      destruct (Z.eq_dec (Z.of_nat j) d) as [<-|Hne].
      * now rewrite calc_prob_all_thread_idle.
      * now apply calc_prob_all_thread_other.
Qed.

Lemma length_calc_prob_all (grid : Z) (lview : list R) (ndata : Z) (f : Kernels.frames)
    (init : R) (scales : list R) (prob_r : list R) :
  length (Kernels.calc_prob_all grid lview ndata f init scales prob_r) = length prob_r.
Proof.
  unfold Kernels.calc_prob_all. rewrite launch_fold.
  generalize (thread_ids grid 32). intros ds. revert prob_r.
  induction ds as [|d ds IH]; intros prob_r; simpl; [reflexivity|].
  now rewrite IH, length_calc_prob_all_thread.
Qed.

(** The launch over a grid that covers the frames: cell [j] holds the
    log-likelihood of frame [j] when [j] is a frame, and is untouched
    otherwise. *)
Lemma calc_prob_all_nth (grid : Z) (lview : list R) (ndata : Z) (f : Kernels.frames)
    (init : R) (scales : list R) (prob_r : list R) (j : nat) :
  (32 * grid <= 2 ^ 32)%Z -> (ndata <= 32 * grid)%Z -> (j < length prob_r)%nat ->
  nth j (Kernels.calc_prob_all grid lview ndata f init scales prob_r) 0
  = if (Z.of_nat j <? ndata)%Z then frame_logp lview f init scales (Z.of_nat j)
    else nth j prob_r 0.
Proof.
  intros Hg Hn Hj. unfold Kernels.calc_prob_all. rewrite launch_fold.
  rewrite calc_prob_all_fold_nth;
    [|intros d Hd; now apply thread_ids_nonneg in Hd|assumption].
  destruct (Z.of_nat j <? ndata)%Z eqn:Hjn; [|reflexivity]. simpl.
  apply Z.ltb_lt in Hjn.
  assert (Hin : In (Z.of_nat j) (thread_ids grid 32)) by (apply thread_ids_cover; lia).
  assert (Hex : existsb (Z.eqb (Z.of_nat j)) (thread_ids grid 32) = true).
  { apply existsb_exists. exists (Z.of_nat j). split; [assumption|apply Z.eqb_refl]. }
  now rewrite Hex.
Qed.

(** Threads that do nothing may be left out of a run. *)
Lemma fold_left_filter_idle {S} (thread : Z -> S -> S) (keep : Z -> bool)
    (ds : list Z) (s : S) :
  (forall d s, keep d = false -> thread d s = s) ->
  fold_left (fun s d => thread d s) ds s
  = fold_left (fun s d => thread d s) (filter keep ds) s.
Proof.
  intros Hidle. revert s. induction ds as [|d ds IH]; intros s; simpl; [reflexivity|].
  destruct (keep d) eqn:Hk; simpl; [apply IH|].
  rewrite Hidle by assumption. apply IH.
Qed.

End KernelFacts.

(** ** C10: grid rounding *)

Section GridRounding.

Import Arr.
Open Scope R_scope.

(** C10.  A thread of [calc_prob_all] or [merge_all] whose index is at
    least [ndata] returns without a store.  Hence, whatever the grid, a
    launch of [calc_prob_all] keeps the length of [prob_r] and leaves every
    cell [j >= ndata] as it was, and a launch of [merge_all] adds to the
    view what the threads of some frames [0 <= d < ndata] add, and nothing
    else. *)
Theorem threads_beyond_ndata_idle (lview : list R) (ndata : Z) (f : Kernels.frames)
    (init : R) (scales : list R) (prob_r view : list R) (grid : Z) :
  (forall d, (ndata <= d)%Z ->
     Kernels.calc_prob_all_thread lview ndata f init scales d prob_r = prob_r /\
     Kernels.merge_all_thread prob_r ndata f d view = view) /\
  length (Kernels.calc_prob_all grid lview ndata f init scales prob_r)
  = length prob_r /\
  (forall j, (ndata <= Z.of_nat j)%Z ->
     nth j (Kernels.calc_prob_all grid lview ndata f init scales prob_r) 0
     = nth j prob_r 0) /\
  (exists ds,
     (forall d, In d ds -> (0 <= d < ndata)%Z) /\
     Kernels.merge_all grid prob_r ndata f view
     = fold_left (fun v d => Kernels.merge_all_thread prob_r ndata f d v) ds view).
Proof.
  split; [intros d Hd; split;
          [now apply calc_prob_all_thread_idle|now apply merge_all_thread_idle]|].
  split; [apply length_calc_prob_all|].
  split.
  - intros j Hj. unfold Kernels.calc_prob_all. rewrite launch_fold.
    generalize (thread_ids grid 32). intros ds. revert prob_r.
    induction ds as [|d ds IH]; intros prob_r; simpl; [reflexivity|].
    rewrite IH. destruct (Z.eq_dec (Z.of_nat j) d) as [<-|Hne].
    + now rewrite calc_prob_all_thread_idle.
    + now apply calc_prob_all_thread_other.
  - exists (filter (fun d => negb (ndata <=? d)%Z) (thread_ids grid 32)). split.
    + intros d Hd. apply filter_In in Hd. destruct Hd as [Hin Hlt].
      apply thread_ids_nonneg in Hin. apply negb_true_iff, Z.leb_gt in Hlt. lia.
    + unfold Kernels.merge_all. rewrite launch_fold.
      apply (fold_left_filter_idle (Kernels.merge_all_thread prob_r ndata f)).
      intros d s Hk. apply negb_false_iff, Z.leb_le in Hk.
      now apply merge_all_thread_idle.
Qed.

End GridRounding.

(** ** Sums over arrays and matrices *)

Section SumFacts.

Import Arr.
Open Scope R_scope.

Lemma fold_left_Rplus_acc (l : list R) (a : R) :
  fold_left Rplus l a = a + fold_left Rplus l 0.
Proof.
  revert a. induction l as [|x l IH]; intros a; simpl; [lra|].
  rewrite (IH (a + x)), (IH (0 + x)). lra.
Qed.

Lemma rsum_nil : rsum [] = 0.
Proof. reflexivity. Qed.

Lemma rsum_cons (x : R) (l : list R) : rsum (x :: l) = x + rsum l.
Proof. unfold rsum. simpl. rewrite fold_left_Rplus_acc. lra. Qed.

Lemma rsum_app (a b : list R) : rsum (a ++ b) = rsum a + rsum b.
Proof.
  induction a as [|x a IH]; simpl; [rewrite rsum_nil; lra|].
  rewrite !rsum_cons, IH. lra.
Qed.

Lemma rsum_map_div (c : R) (l : list R) :
  rsum (map (fun v => v / c) l) = rsum l / c.
Proof.
  induction l as [|x l IH]; simpl; [rewrite rsum_nil; lra|].
  rewrite !rsum_cons, IH. lra.
Qed.

Lemma rsum_map_mult (c : R) (l : list R) :
  rsum (map (fun v => v * c) l) = rsum l * c.
Proof.
  induction l as [|x l IH]; simpl; [rewrite rsum_nil; lra|].
  rewrite !rsum_cons, IH. lra.
Qed.

Lemma rsum_pos (l : list R) :
  l <> [] -> (forall x, In x l -> 0 < x) -> 0 < rsum l.
Proof.
  induction l as [|x l IH]; intros Hne Hpos; [congruence|].
  rewrite rsum_cons. assert (0 < x) by (apply Hpos; now left).
  destruct l as [|y l]; [rewrite rsum_nil; lra|].
  assert (0 < rsum (y :: l)); [|lra].
  apply IH; [discriminate|]. intros z Hz. apply Hpos. now right.
Qed.

Lemma rsum_nonneg (l : list R) : (forall x, In x l -> 0 <= x) -> 0 <= rsum l.
Proof.
  induction l as [|x l IH]; intros Hpos; [rewrite rsum_nil; lra|].
  rewrite rsum_cons. assert (0 <= x) by (apply Hpos; now left).
  assert (0 <= rsum l); [|lra]. apply IH. intros z Hz. apply Hpos. now right.
Qed.

(** A sum of non-negative terms that is zero has only zero terms. *)
Lemma rsum_zero_terms (l : list R) :
  (forall x, In x l -> 0 <= x) -> rsum l = 0 -> forall x, In x l -> x = 0.
Proof.
  induction l as [|y l IH]; intros Hpos Hs x Hx; [destruct Hx|].
  rewrite rsum_cons in Hs.
  assert (0 <= y) by (apply Hpos; now left).
  assert (0 <= rsum l) by (apply rsum_nonneg; intros z Hz; apply Hpos; now right).
  destruct Hx as [<-|Hx]; [lra|]. apply IH; [|lra|assumption].
  intros z Hz. apply Hpos. now right.
Qed.

Lemma rsum_all_zero (l : list R) : (forall x, In x l -> x = 0) -> rsum l = 0.
Proof.
  induction l as [|y l IH]; intros Hz; [apply rsum_nil|].
  rewrite rsum_cons, IH, (Hz y) by (try (now left); intros; apply Hz; now right). lra.
Qed.

(** Termwise bounds carry over to the sums. *)
Lemma rsum_map_bounds (f g : R -> R) (lo hi : R) (l : list R) :
  (forall x, In x l -> f x + lo <= g x <= f x + hi) ->
  rsum (map f l) + INR (length l) * lo <= rsum (map g l)
  <= rsum (map f l) + INR (length l) * hi.
Proof.
  induction l as [|x l IH]; intros Hb.
  - simpl map. simpl length. rewrite rsum_nil. simpl. lra.
  - change (map f (x :: l)) with (f x :: map f l).
    change (map g (x :: l)) with (g x :: map g l).
    change (length (x :: l)) with (S (length l)).
    rewrite !rsum_cons, S_INR.
    pose proof (Hb x (or_introl eq_refl)).
    assert (Hl : forall y, In y l -> f y + lo <= g y <= f y + hi)
      by (intros; apply Hb; now right).
    specialize (IH Hl). lra.
Qed.

Lemma rsum_Permutation (a b : list R) : Permutation a b -> rsum a = rsum b.
Proof.
  induction 1 as [|x a b _ IH|x y a|a b c _ IH1 _ IH2].
  - reflexivity.
  - now rewrite !rsum_cons, IH.
  - rewrite !rsum_cons. lra.
  - now rewrite IH1.
Qed.

Lemma rsum_concat (ls : list (list R)) : rsum (concat ls) = rsum (map rsum ls).
Proof.
  induction ls as [|l ls IH]; simpl; [reflexivity|].
  now rewrite rsum_app, rsum_cons, IH.
Qed.

Lemma col_app (d : nat) (a b : matrix) : col d (a ++ b) = col d a ++ col d b.
Proof. apply map_app. Qed.

Lemma col_concat (d : nat) (ms : list matrix) :
  col d (concat ms) = concat (map (col d) ms).
Proof. unfold col. apply concat_map. Qed.

(** A row-wise combination with a vector acts on a column through the
    vector's cell. *)
Lemma col_map_map2 (f : R -> R -> R) (vec : list R) (d ncol : nat) (m : matrix) :
  well_shaped ncol m -> (d < ncol)%nat -> (d < length vec)%nat ->
  col d (map (fun row => map2 f row vec) m)
  = map (fun v => f v (nth d vec 0)) (col d m).
Proof.
  intros Hm Hd Hv. unfold col. rewrite !map_map. apply map_ext_in.
  intros row Hrow. apply nth_map2; [rewrite (Hm row Hrow); lia|assumption].
Qed.

Lemma col_map_map (f : R -> R) (d ncol : nat) (m : matrix) :
  well_shaped ncol m -> (d < ncol)%nat ->
  col d (map (map f) m) = map f (col d m).
Proof.
  intros Hm Hd. unfold col. rewrite !map_map. apply map_ext_in.
  intros row Hrow. apply nth_map_lt. rewrite (Hm row Hrow). lia.
Qed.

Lemma well_shaped_map_map2 (f : R -> R -> R) (vec : list R) (ncol : nat) (m : matrix) :
  well_shaped ncol m -> length vec = ncol ->
  well_shaped ncol (map (fun row => map2 f row vec) m).
Proof.
  intros Hm Hv row Hrow. apply in_map_iff in Hrow. destruct Hrow as (r & <- & Hr).
  rewrite length_map2, (Hm r Hr), Hv. apply Nat.min_id.
Qed.

Lemma well_shaped_concat (ncol : nat) (ms : list matrix) :
  (forall m, In m ms -> well_shaped ncol m) -> well_shaped ncol (concat ms).
Proof.
  intros H row Hrow. apply in_concat in Hrow. destruct Hrow as (m & Hm & Hr).
  exact (H m Hm row Hr).
Qed.

Lemma nth_sum0 (ncol d : nat) (m : matrix) :
  (d < ncol)%nat -> nth d (sum0 ncol m) 0 = rsum (col d m).
Proof. intros Hd. unfold sum0. now rewrite nth_map_seq. Qed.

Lemma length_sum0 (ncol : nat) (m : matrix) : length (sum0 ncol m) = ncol.
Proof. unfold sum0. now rewrite length_map, length_seq. Qed.

End SumFacts.

(** ** [_normalize_prob] *)

Section NormalizeFacts.

Import Arr.
Open Scope R_scope.

Lemma mapM_total {A B} (f : A -> option B) (g : A -> B) (l : list A) :
  (forall x, In x l -> f x = Some (g x)) -> Normalize.mapM f l = Some (map g l).
Proof.
  induction l as [|x l IH]; intros H; simpl; [reflexivity|].
  rewrite (H x (or_introl eq_refl)), IH; [reflexivity|].
  intros y Hy. apply H. now right.
Qed.

Lemma mapM_None {A B} (f : A -> option B) (l : list A) (x : A) :
  In x l -> f x = None -> Normalize.mapM f l = None.
Proof.
  induction l as [|y l IH]; intros Hin Hx; [destruct Hin|]. simpl.
  destruct Hin as [->|Hin]; [now rewrite Hx|].
  rewrite (IH Hin Hx). now destruct (f y).
Qed.

Lemma enumerate_In {A} (l : list A) (i : nat) (x : A) :
  In (i, x) (Py.enumerate l) -> In x l.
Proof. unfold Py.enumerate. intros H. now apply in_combine_r in H. Qed.

Lemma max0_some (ncol : nat) (m : matrix) : m <> [] -> max0 ncol m = Some (col_max ncol m).
Proof. destruct m; [congruence|reflexivity]. Qed.

Lemma argmax0_some (ncol : nat) (m : matrix) :
  m <> [] -> argmax0 ncol m = Some (col_argmax ncol m).
Proof. destruct m; [congruence|reflexivity]. Qed.

(** When every rank owns a row, [_normalize_prob] returns, with these
    matrices. *)
Lemma normalize_upto_divide_some (num_proc : Z) (ncol : nat) (probs : list matrix) :
  (forall m, In m probs -> m <> []) ->
  exists rmax,
    Normalize.normalize_upto_divide num_proc ncol probs
    = Some (map (Normalize.divide (normaliser ncol probs)) (shifted ncol probs), rmax).
Proof.
  intros Hne. unfold Normalize.normalize_upto_divide.
  rewrite (mapM_total (max0 ncol) (col_max ncol)) by (intros; apply max0_some; auto).
  rewrite (mapM_total _ (fun rp => map (Striping.global_index num_proc (Z.of_nat (fst rp)))
                                       (col_argmax ncol (snd rp)))).
  - eexists. reflexivity.
  - intros [i m] Him. apply enumerate_In in Him. unfold Normalize.rmax_local. cbn [fst snd].
    now rewrite argmax0_some by auto.
Qed.

Lemma normalize_upto_divide_none (num_proc : Z) (ncol : nat) (probs : list matrix) :
  In [] probs -> Normalize.normalize_upto_divide num_proc ncol probs = None.
Proof.
  intros Hin. unfold Normalize.normalize_upto_divide.
  now rewrite (mapM_None (max0 ncol) probs [] Hin eq_refl).
Qed.

Lemma length_Allreduce_MAX (n : nat) (c : list (list R)) :
  length (MPI.Allreduce_MAX n c) = n.
Proof. unfold MPI.Allreduce_MAX. now rewrite length_map, length_seq. Qed.

Lemma shifted_shape (ncol : nat) (probs : list matrix) (m : matrix) :
  (forall m, In m probs -> well_shaped ncol m) ->
  In m (shifted ncol probs) -> well_shaped ncol m.
Proof.
  intros Hs Hm. unfold shifted in Hm. apply in_map_iff in Hm.
  destruct Hm as (m0 & <- & Hm0). unfold Normalize.exp_shift.
  apply well_shaped_map_map2; [auto|apply length_Allreduce_MAX].
Qed.

(** The normaliser of a frame is the sum of the shifted exponentials of
    all orientations of all ranks. *)
Lemma normaliser_nth (ncol d : nat) (probs : list matrix) :
  (d < ncol)%nat ->
  nth d (normaliser ncol probs) 0 = rsum (col d (concat (shifted ncol probs))).
Proof.
  intros Hd. unfold normaliser, MPI.Allreduce_SUM. rewrite nth_sum0 by assumption.
  rewrite col_concat, rsum_concat. f_equal.
  unfold col at 1. rewrite !map_map. apply map_ext. intros m. now apply nth_sum0.
Qed.

Lemma shifted_positive (ncol d : nat) (probs : list matrix) (x : R) :
  (forall m, In m probs -> well_shaped ncol m) -> (d < ncol)%nat ->
  In x (col d (concat (shifted ncol probs))) -> 0 < x.
Proof.
  intros Hs Hd Hx. rewrite col_concat in Hx. apply in_concat in Hx.
  destruct Hx as (c & Hc & Hx). apply in_map_iff in Hc. destruct Hc as (m & <- & Hm).
  unfold shifted in Hm. apply in_map_iff in Hm. destruct Hm as (m0 & <- & Hm0).
  unfold Normalize.exp_shift in Hx.
  rewrite (col_map_map2 _ _ d ncol) in Hx;
    [|auto|assumption|now rewrite length_Allreduce_MAX].
  apply in_map_iff in Hx. destruct Hx as (v & <- & _). apply exp_pos.
Qed.

Lemma normaliser_positive (ncol d : nat) (probs : list matrix) :
  (forall m, In m probs -> well_shaped ncol m) ->
  probs <> [] -> (forall m, In m probs -> m <> []) -> (d < ncol)%nat ->
  0 < nth d (normaliser ncol probs) 0.
Proof.
  intros Hs Hp Hne Hd. rewrite normaliser_nth by assumption.
  apply rsum_pos; [|intros x Hx; eapply shifted_positive; eauto].
  destruct probs as [|m probs]; [congruence|].
  destruct m as [|row m]; [exfalso; apply (Hne []); [now left|reflexivity]|].
  unfold shifted. simpl. discriminate.
Qed.

Lemma length_normaliser (ncol : nat) (probs : list matrix) :
  length (normaliser ncol probs) = ncol.
Proof. apply length_sum0. Qed.

(** A column of the divided matrices, over all ranks. *)
Lemma divided_col (ncol d : nat) (probs : list matrix) :
  (forall m, In m probs -> well_shaped ncol m) -> (d < ncol)%nat ->
  col d (concat (map (Normalize.divide (normaliser ncol probs)) (shifted ncol probs)))
  = map (fun v => v / nth d (normaliser ncol probs) 0)
        (col d (concat (shifted ncol probs))).
Proof.
  intros Hs Hd. rewrite !col_concat, !map_map, concat_map, map_map.
  f_equal. apply map_ext_in. intros m Hm. unfold Normalize.divide.
  apply (col_map_map2 Rdiv _ d ncol);
    [eapply shifted_shape; eauto|assumption|now rewrite length_normaliser].
Qed.

Lemma divided_shape (ncol : nat) (probs : list matrix) (m : matrix) :
  (forall m, In m probs -> well_shaped ncol m) ->
  In m (map (Normalize.divide (normaliser ncol probs)) (shifted ncol probs)) ->
  well_shaped ncol m.
Proof.
  intros Hs Hm. apply in_map_iff in Hm. destruct Hm as (m0 & <- & Hm0).
  unfold Normalize.divide. apply well_shaped_map_map2; [|apply length_normaliser].
  eapply shifted_shape; eauto.
Qed.

(** After the division the responsibilities of a frame sum to 1. *)
Lemma divided_sums_to_one (ncol d : nat) (probs : list matrix) :
  (forall m, In m probs -> well_shaped ncol m) ->
  probs <> [] -> (forall m, In m probs -> m <> []) -> (d < ncol)%nat ->
  rsum (col d (concat (map (Normalize.divide (normaliser ncol probs))
                           (shifted ncol probs)))) = 1.
Proof.
  intros Hs Hp Hne Hd. rewrite divided_col, rsum_map_div by assumption.
  rewrite <- normaliser_nth by assumption.
  pose proof (normaliser_positive ncol d probs Hs Hp Hne Hd). field. lra.
Qed.

Lemma divided_positive (ncol d : nat) (probs : list matrix) (x : R) :
  (forall m, In m probs -> well_shaped ncol m) ->
  probs <> [] -> (forall m, In m probs -> m <> []) -> (d < ncol)%nat ->
  In x (col d (concat (map (Normalize.divide (normaliser ncol probs))
                           (shifted ncol probs)))) -> 0 < x.
Proof.
  intros Hs Hp Hne Hd Hx. rewrite divided_col in Hx by assumption.
  apply in_map_iff in Hx. destruct Hx as (v & <- & Hv).
  apply Rdiv_lt_0_compat; [eapply shifted_positive; eauto|].
  now apply normaliser_positive.
Qed.

Lemma P_MIN_pos : 0 < Normalize.P_MIN.
Proof. unfold Normalize.P_MIN. lra. Qed.

Lemma floor_clip_bounds (x : R) :
  0 <= x -> x + 0 <= Normalize.floor_clip x <= x + Normalize.P_MIN.
Proof.
  intros Hx. unfold Normalize.floor_clip, Rmax. pose proof P_MIN_pos.
  destruct (Rle_dec x Normalize.P_MIN); lra.
Qed.

Lemma floor_zero_bounds (x : R) :
  0 <= x -> x + - Normalize.P_MIN <= Normalize.floor_zero x <= x + 0.
Proof.
  intros Hx. unfold Normalize.floor_zero. pose proof P_MIN_pos.
  destruct (Rlt_dec x Normalize.P_MIN); lra.
Qed.

End NormalizeFacts.

(** ** C1 and C2: the sum and the floor of the responsibilities *)

Section NormalizeTheorems.

Import Arr.
Open Scope R_scope.

Lemma exp_neg_small : exp (- 10000000) < 1 / 10000000.
Proof.
  replace (-10000000) with (Ropp 10000000) by lra.
  rewrite exp_Ropp. pose proof (exp_ineq1 10000000 ltac:(lra)) as H.
  pose proof (exp_pos 10000000) as Hp.
  unfold Rdiv. rewrite Rmult_1_l.
  apply Rinv_lt_contravar; [|lra].
  apply Rmult_lt_0_compat; lra.
Qed.

(** The floor applied to all matrices acts on a column of the stacked
    matrix cell by cell. *)
Lemma floored_col (f : R -> R) (ncol d : nat) (ms : list matrix) :
  (forall m, In m ms -> well_shaped ncol m) -> (d < ncol)%nat ->
  col d (concat (map (map (map f)) ms)) = map f (col d (concat ms)).
Proof.
  intros Hs Hd. rewrite <- concat_map.
  apply (col_map_map f d ncol); [|assumption]. now apply well_shaped_concat.
Qed.

Lemma length_concat_rows {A B} (F : list A -> list B) (ms : list (list A)) :
  (forall m, length (F m) = length m) ->
  length (concat (map F ms)) = length (concat ms).
Proof.
  intros HF. induction ms as [|m ms IH]; simpl; [reflexivity|].
  now rewrite !length_app, HF, IH.
Qed.

(** One rank, two orientations, one frame, with log-likelihoods 0 and
    -10^7: the second responsibility is far below the floor, the clip
    raises it to 1e-6, and the frame's responsibilities sum to more than
    1 + 9e-7. *)
Lemma clipped_sum_exceeds_one :
  exists out rmax,
    Normalize.normalize_prob Normalize.floor_clip 1 1 [[[0]; [- 10000000]]]
    = Some (out, rmax) /\
    1 + 9 / 10000000 < rsum (col 0 (concat out)).
Proof.
  unfold Normalize.normalize_prob.
  destruct (normalize_upto_divide_some 1 1 [[[0]; [- 10000000]]]) as [rmax ->];
    [intros m [<-|[]]; discriminate|].
  eexists. eexists. split; [reflexivity|].
  assert (Hs : forall m, In m [[[0]; [- 10000000]]] -> well_shaped 1 m).
  { intros m [<-|[]] row [<-|[<-|[]]]; reflexivity. }
  rewrite (floored_col _ 1 0) by (try lia; intros m Hm; eapply divided_shape; eauto).
  rewrite divided_col by (auto; lia).
  rewrite normaliser_nth by lia.
  assert (Hmax : Rmax 0 (- 10000000) = 0) by (apply Rmax_left; lra).
  unfold shifted, Normalize.exp_shift, MPI.Allreduce_MAX, col_max.
  cbn [map seq col nth concat app map2 combine fst snd rmax1 fold_left].
  rewrite !Hmax, !rsum_cons, rsum_nil.
  replace (0 - 0) with 0 by lra. replace (- 10000000 - 0) with (- 10000000) by lra.
  rewrite exp_0. set (x := exp (- 10000000)).
  assert (Hx : 0 < x < 1 / 10000000) by (split; [apply exp_pos|apply exp_neg_small]).
  unfold Normalize.floor_clip, Normalize.P_MIN.
  assert (H1 : 1 / (1 + (x + 0)) <= Rmax (1 / (1 + (x + 0))) (1 / 1000000)) by apply Rmax_l.
  assert (H2 : 1 / 1000000 <= Rmax (x / (1 + (x + 0))) (1 / 1000000)) by apply Rmax_r.
  assert (H3 : 1 - x <= 1 / (1 + (x + 0))).
  { apply Rmult_le_reg_r with (r := 1 + (x + 0)); [lra|].
    unfold Rdiv. rewrite Rmult_assoc, Rinv_l by lra. nra. }
  lra.
Qed.

(** C1, amended.  When every rank owns an orientation, [_normalize_prob]
    returns, and for every frame [d] the responsibilities of all
    orientations of all ranks sum to 1 after the division by the global
    normaliser.  The last line then moves the sum: the clip of the
    package engine raises it, by at most [P_MIN] per orientation; the
    zeroing of the stand-alone script lowers it, by at most [P_MIN] per
    orientation. *)
Theorem responsibilities_sum_to_one_before_floor
    (num_proc : Z) (ncol : nat) (probs : list matrix) :
  probs <> [] ->
  (forall m, In m probs -> m <> [] /\ well_shaped ncol m) ->
  exists divided rmax,
    Normalize.normalize_upto_divide num_proc ncol probs = Some (divided, rmax) /\
    Normalize.normalize_prob Normalize.floor_clip num_proc ncol probs
    = Some (map (map (map Normalize.floor_clip)) divided, rmax) /\
    Normalize.normalize_prob Normalize.floor_zero num_proc ncol probs
    = Some (map (map (map Normalize.floor_zero)) divided, rmax) /\
    forall d, (d < ncol)%nat ->
      rsum (col d (concat divided)) = 1 /\
      1 <= rsum (col d (concat (map (map (map Normalize.floor_clip)) divided)))
        <= 1 + INR (length (concat probs)) * Normalize.P_MIN /\
      1 - INR (length (concat probs)) * Normalize.P_MIN
        <= rsum (col d (concat (map (map (map Normalize.floor_zero)) divided)))
        <= 1.
Proof.
  intros Hp Hall.
  assert (Hne : forall m, In m probs -> m <> []) by (intros m Hm; now apply Hall).
  assert (Hs : forall m, In m probs -> well_shaped ncol m) by (intros m Hm; now apply Hall).
  destruct (normalize_upto_divide_some num_proc ncol probs Hne) as [rmax He].
  eexists. exists rmax. split; [exact He|].
  unfold Normalize.normalize_prob. rewrite He.
  split; [reflexivity|]. split; [reflexivity|].
  intros d Hd.
  set (divided := map (Normalize.divide (normaliser ncol probs)) (shifted ncol probs)).
  assert (Hds : forall m, In m divided -> well_shaped ncol m)
    by (intros m Hm; eapply divided_shape; eauto).
  assert (Hsum : rsum (col d (concat divided)) = 1) by now apply divided_sums_to_one.
  assert (Hlen : length (col d (concat divided)) = length (concat probs)).
  { rewrite length_col. unfold divided, shifted, Normalize.divide, Normalize.exp_shift.
    rewrite map_map. apply length_concat_rows. intros m. now rewrite !length_map. }
  assert (Hpos : forall x, In x (col d (concat divided)) -> 0 <= x)
    by (intros x Hx; left; exact (divided_positive ncol d probs x Hs Hp Hne Hd Hx)).
  split; [exact Hsum|].
  rewrite !(floored_col _ ncol d) by assumption.
  pose proof (rsum_map_bounds (fun x => x) Normalize.floor_clip 0 Normalize.P_MIN
                (col d (concat divided))
                (fun x Hx => floor_clip_bounds x (Hpos x Hx))) as Hc.
  pose proof (rsum_map_bounds (fun x => x) Normalize.floor_zero (- Normalize.P_MIN) 0
                (col d (concat divided))
                (fun x Hx => floor_zero_bounds x (Hpos x Hx))) as Hz.
  rewrite map_id, Hsum, Hlen in Hc, Hz. lra.
Qed.

(** Scenario B's shape: two ranks with two orientations each, one frame. *)
Lemma responsibilities_sum_to_one_before_floor_witness :
  exists divided rmax,
    Normalize.normalize_upto_divide 2 1 [[[0]; [1]]; [[2]; [3]]] = Some (divided, rmax) /\
    rsum (col 0 (concat divided)) = 1.
Proof.
  destruct (responsibilities_sum_to_one_before_floor 2 1 [[[0]; [1]]; [[2]; [3]]])
    as (divided & rmax & He & _ & _ & Hd).
  - discriminate.
  - intros m [<-|[<-|[]]]; (split; [discriminate|]);
      intros row [<-|[<-|[]]]; reflexivity.
  - exists divided, rmax. split; [exact He|]. apply (Hd O). lia.
Defined.

(** On the input of [clipped_sum_exceeds_one] the stand-alone script
    leaves a responsibility of 0, below the floor. *)
Lemma zeroed_entry_below_floor :
  exists out rmax,
    Legacy.normalize_prob small_legacy_run [[[0]; [- 10000000]]] = Some (out, rmax) /\
    nth 0 (nth 1 (nth 0 out []) []) 0 = 0 /\
    nth 0 (nth 1 (nth 0 out []) []) 0 < Normalize.P_MIN.
Proof.
  unfold Legacy.normalize_prob, Normalize.normalize_prob, small_legacy_run.
  cbn [Legacy.num_proc Legacy.dset Legacy.num_data].
  change (Z.to_nat 1) with 1%nat.
  destruct (normalize_upto_divide_some 1 1 [[[0]; [- 10000000]]]) as [rmax ->];
    [intros m [<-|[]]; discriminate|].
  eexists. eexists. split; [reflexivity|].
  assert (Hmax : Rmax 0 (- 10000000) = 0) by (apply Rmax_left; lra).
  unfold normaliser, shifted, Normalize.divide, Normalize.exp_shift,
    MPI.Allreduce_MAX, MPI.Allreduce_SUM, sum0, col_max.
  cbn [map seq col nth concat app map2 combine fst snd rmax1 fold_left].
  rewrite !Hmax, !rsum_cons, !rsum_nil.
  replace (- 10000000 - 0) with (- 10000000) by lra.
  replace (0 - 0) with 0 by lra. rewrite exp_0. set (x := exp (- 10000000)).
  assert (Hx : 0 < x < 1 / 10000000) by (split; [apply exp_pos|apply exp_neg_small]).
  assert (Hlt : x / (1 + (x + 0) + 0) < Normalize.P_MIN).
  { unfold Normalize.P_MIN. apply Rmult_lt_reg_r with (r := 1 + (x + 0) + 0); [lra|].
    unfold Rdiv at 1. rewrite Rmult_assoc, Rinv_l by lra. nra. }
  unfold Normalize.floor_zero.
  destruct (Rlt_dec (x / (1 + (x + 0) + 0)) Normalize.P_MIN) as [_|Hn]; [|contradiction].
  split; [reflexivity|apply P_MIN_pos].
Qed.

(** C2, amended.  When every rank owns an orientation, [_normalize_prob]
    returns; in the package engine every entry of every rank's matrix is
    then at least [P_MIN]; in the stand-alone script every entry is 0 or
    at least [P_MIN], so none lies strictly between 0 and [P_MIN]. *)
Theorem entries_floored (e : Engine.EMC) (l : Legacy.EMC) (ncol : nat)
    (probs : list matrix) :
  (forall m, In m probs -> m <> []) ->
  (exists out rmax,
     Engine.normalize_prob e ncol probs = Some (out, rmax) /\
     forall m row p, In m out -> In row m -> In p row -> Normalize.P_MIN <= p) /\
  (exists out rmax,
     Legacy.normalize_prob l probs = Some (out, rmax) /\
     forall m row p, In m out -> In row m -> In p row ->
       p = 0 \/ Normalize.P_MIN <= p).
Proof.
  intros Hne. split.
  - unfold Engine.normalize_prob, Normalize.normalize_prob.
    destruct (normalize_upto_divide_some (Engine.num_proc e) ncol probs Hne) as [rmax ->].
    eexists. exists rmax. split; [reflexivity|].
    intros m row p Hm Hrow Hp.
    apply in_map_iff in Hm. destruct Hm as (m0 & <- & _).
    apply in_map_iff in Hrow. destruct Hrow as (row0 & <- & _).
    apply in_map_iff in Hp. destruct Hp as (p0 & <- & _).
    unfold Normalize.floor_clip. apply Rmax_r.
  - unfold Legacy.normalize_prob, Normalize.normalize_prob.
    destruct (normalize_upto_divide_some (Legacy.num_proc l)
                (Z.to_nat (Legacy.num_data (Legacy.dset l))) probs Hne) as [rmax ->].
    eexists. exists rmax. split; [reflexivity|].
    intros m row p Hm Hrow Hp.
    apply in_map_iff in Hm. destruct Hm as (m0 & <- & _).
    apply in_map_iff in Hrow. destruct Hrow as (row0 & <- & _).
    apply in_map_iff in Hp. destruct Hp as (p0 & <- & _).
    unfold Normalize.floor_zero.
    destruct (Rlt_dec p0 Normalize.P_MIN); [now left|right; lra].
Qed.

Lemma entries_floored_witness :
  (exists out rmax,
     Engine.normalize_prob small_engine_run 1 [[[0]; [- 10000000]]] = Some (out, rmax) /\
     forall m row p, In m out -> In row m -> In p row -> Normalize.P_MIN <= p) /\
  (exists out rmax,
     Legacy.normalize_prob small_legacy_run [[[0]; [- 10000000]]] = Some (out, rmax) /\
     forall m row p, In m out -> In row m -> In p row ->
       p = 0 \/ Normalize.P_MIN <= p).
Proof.
  apply (entries_floored small_engine_run small_legacy_run 1 [[[0]; [- 10000000]]]).
  intros m [<-|[]]. discriminate.
Defined.

End NormalizeTheorems.

(** ** The M-step: back-projection as a list of atomic additions *)

Section MergeFacts.

Import Arr.
Open Scope R_scope.

Lemma slice_merge_thread_adds (view : list R) (angle : R) (size x y : Z)
    (mw : list R * list R) :
  Kernels.slice_merge_thread view angle size x y mw
  = apply_adds (thread_adds view angle size x y) mw.
Proof.
  unfold Kernels.slice_merge_thread, thread_adds.
  destruct ((size - 1 <? x) || (size - 1 <? y))%Z; [reflexivity|].
  cbv zeta.
  destruct ((_ <? 0) || _ || _ || _)%Z; reflexivity.
Qed.

Lemma slice_merge_adds (grid : Z) (view : list R) (angle : R) (size : Z)
    (model mweights : list R) :
  Kernels.slice_merge grid view angle size model mweights
  = apply_adds (slice_adds grid view angle size) (model, mweights).
Proof.
  unfold Kernels.slice_merge, Kernels.launch2, apply_adds, slice_adds.
  rewrite launch_fold, fold_left_flat_map.
  apply fold_left_pointwise. intros s x.
  rewrite launch_fold, fold_left_flat_map.
  apply fold_left_pointwise. intros s' y.
  apply slice_merge_thread_adds.
Qed.

(** Interpolation weights are not negative. *)
Lemma thread_adds_weight (view : list R) (angle : R) (size x y : Z) (a : Z * R * R) :
  In a (thread_adds view angle size x y) -> 0 <= snd a.
Proof.
  unfold thread_adds.
  destruct ((size - 1 <? x) || (size - 1 <? y))%Z; [intros []|].
  cbv zeta.
  destruct ((_ <? 0) || _ || _ || _)%Z; [intros []|].
  unfold Kernels.double2int_rd.
  set (tx := _ - _ + _). set (ty := _ + _ + IZR (size ÷ 2)).
  destruct (base_Int_part tx) as [Hx1 Hx2]. destruct (base_Int_part ty) as [Hy1 Hy2].
  intros [<-|[<-|[<-|[<-|[]]]]]; cbn [snd]; apply Rmult_le_pos; lra.
Qed.

Lemma slice_adds_weight (grid : Z) (view : list R) (angle : R) (size : Z)
    (a : Z * R * R) :
  In a (slice_adds grid view angle size) -> 0 <= snd a.
Proof.
  unfold slice_adds. intros H. apply in_flat_map in H. destruct H as (x & _ & H).
  apply in_flat_map in H. destruct H as (y & _ & H).
  eapply thread_adds_weight; eauto.
Qed.

(** What one addition, and a list of additions, leaves in cell [c]. *)
Lemma nth_atomicAdd (i : Z) (v : R) (a : list R) (c : nat) :
  (c < length a)%nat ->
  nth c (atomicAdd i v a) 0 = nth c a 0 + (if (i =? Z.of_nat c)%Z then v else 0).
Proof.
  intros Hc. unfold atomicAdd. destruct (i =? Z.of_nat c)%Z eqn:Hic.
  - apply Z.eqb_eq in Hic. subst i.
    rewrite upd_set_nth, rd_nth, nth_set_nth by lia.
    rewrite Nat2Z.id, Nat.eqb_refl.
    now replace (c <? length a)%nat with true by (symmetry; apply Nat.ltb_lt; lia).
  - apply Z.eqb_neq in Hic. rewrite nth_upd_other by lia. lra.
Qed.

Lemma length_apply_adds (l : list (Z * R * R)) (mw : list R * list R) :
  length (fst (apply_adds l mw)) = length (fst mw) /\
  length (snd (apply_adds l mw)) = length (snd mw).
Proof.
  unfold apply_adds. revert mw. induction l as [|a l IH]; intros mw; simpl; [auto|].
  destruct (IH (apply_add mw a)) as [H1 H2]. rewrite H1, H2.
  unfold apply_add. cbn [fst snd]. now rewrite !length_atomicAdd.
Qed.

Lemma apply_adds_nth (l : list (Z * R * R)) (mw : list R * list R) (c : nat) :
  ((c < length (fst mw))%nat ->
   nth c (fst (apply_adds l mw)) 0 = nth c (fst mw) 0 + rsum (map (model_part c) l)) /\
  ((c < length (snd mw))%nat ->
   nth c (snd (apply_adds l mw)) 0 = nth c (snd mw) 0 + rsum (map (weight_part c) l)).
Proof.
  unfold apply_adds. revert mw. induction l as [|a l IH]; intros mw.
  - simpl. rewrite rsum_nil. split; intros; lra.
  - cbn [fold_left map]. rewrite !rsum_cons.
    destruct (IH (apply_add mw a)) as [H1 H2].
    unfold apply_add in H1, H2 |- *. cbn [fst snd] in *.
    rewrite !length_atomicAdd in *.
    split; intros Hc.
    + rewrite (H1 Hc), nth_atomicAdd by assumption. unfold model_part. lra.
    + rewrite (H2 Hc), nth_atomicAdd by assumption. unfold weight_part. lra.
Qed.

Lemma apply_adds_app (l1 l2 : list (Z * R * R)) (mw : list R * list R) :
  apply_adds (l1 ++ l2) mw = apply_adds l2 (apply_adds l1 mw).
Proof. unfold apply_adds. apply fold_left_app. Qed.

Lemma length_zero_fill (a : list R) : length (zero_fill a) = length a.
Proof. apply length_map. Qed.

Lemma nth_zero_fill (a : list R) (c : nat) : nth c (zero_fill a) 0 = 0.
Proof.
  unfold zero_fill. destruct (Nat.lt_ge_cases c (length a)).
  - now rewrite nth_map_lt with (d' := 0).
  - apply nth_overflow. now rewrite length_map.
Qed.

Lemma zero_fill_zeros (a : list R) : zero_fill a = zeros (length a).
Proof. unfold zero_fill, zeros. induction a; simpl; [reflexivity|now f_equal]. Qed.

Lemma length_merge_all (grid : Z) (prob_r : list R) (ndata : Z) (f : Kernels.frames)
    (view : list R) :
  length (Kernels.merge_all grid prob_r ndata f view) = length view.
Proof.
  unfold Kernels.merge_all. rewrite launch_fold.
  generalize (thread_ids grid 32). intros ds. revert view.
  induction ds as [|d ds IH]; intros view; simpl; [reflexivity|].
  rewrite IH. unfold Kernels.merge_all_thread. destruct (ndata <=? d)%Z; [reflexivity|].
  assert (Hfold : forall (g : Z -> Z) (h : Z -> R) ts v,
             length (fold_left (fun v t => atomicAdd (g t) (h t) v) ts v) = length v).
  { intros g h ts. induction ts as [|t ts IHt]; intros v; simpl; [reflexivity|].
    now rewrite IHt, length_atomicAdd. }
  now rewrite !Hfold.
Qed.

(** Folding over [enumerate l] a step that reads position [i] only
    through [nth i] is folding over [l]. *)
Lemma combine_app_eq {A B} (a a' : list A) (b b' : list B) :
  length a = length b -> combine (a ++ a') (b ++ b') = combine a b ++ combine a' b'.
Proof.
  revert b. induction a as [|x a IH]; intros [|y b] H; simpl in *; try lia.
  - reflexivity.
  - f_equal. apply IH. lia.
Qed.

Lemma enumerate_app {A} (l : list A) (x : A) :
  Py.enumerate (l ++ [x]) = Py.enumerate l ++ [(length l, x)].
Proof.
  unfold Py.enumerate. rewrite length_app. simpl length.
  rewrite seq_app. simpl. now rewrite combine_app_eq by now rewrite length_seq.
Qed.

Lemma enumerate_In_nth {A} (l : list A) (i : nat) (x d : A) :
  In (i, x) (Py.enumerate l) -> (i < length l)%nat /\ nth i l d = x.
Proof.
  induction l as [|y l IH] using rev_ind; [intros []|].
  rewrite enumerate_app. intros H. apply in_app_or in H.
  rewrite length_app. simpl length. destruct H as [H|[H|[]]].
  - destruct (IH H) as [Hi Hx]. split; [lia|]. now rewrite app_nth1.
  - injection H as <- <-. split; [lia|]. now rewrite app_nth2, Nat.sub_diag by lia.
Qed.

Lemma flat_map_ext_in {A B} (f g : A -> list B) (l : list A) :
  (forall x, In x l -> f x = g x) -> flat_map f l = flat_map g l.
Proof.
  induction l as [|x l IH]; intros H; simpl; [reflexivity|].
  rewrite (H x (or_introl eq_refl)), IH; [reflexivity|].
  intros y Hy. apply H. now right.
Qed.

Lemma fold_left_ext_in {A S} (f g : S -> A -> S) (l : list A) (s : S) :
  (forall s x, In x l -> f s x = g s x) -> fold_left f l s = fold_left g l s.
Proof.
  revert s. induction l as [|x l IH]; intros s H; simpl; [reflexivity|].
  rewrite (H s x (or_introl eq_refl)). apply IH. intros s' y Hy. apply H. now right.
Qed.

Lemma nth_sum1 (m : matrix) (i : nat) : nth i (sum1 m) 0 = rsum (nth i m []).
Proof.
  unfold sum1. destruct (Nat.lt_ge_cases i (length m)).
  - now rewrite nth_map_lt with (d' := []).
  - rewrite !nth_overflow; [reflexivity|assumption|now rewrite length_map].
Qed.

End MergeFacts.

(** ** The M-step of the stand-alone engine *)

Section LegacyMStep.

Import Arr.
Open Scope R_scope.

Variable e : Legacy.EMC.

Lemma update_model_step_adds (prob : matrix) (st : list R * (list R * list R))
    (ir : nat * Z) :
  let st' := Legacy.update_model_step e prob (sum1 prob) st ir in
  length (fst st') = length (fst st) /\
  snd st' = apply_adds (orientation_adds e (length (fst st)) (nth (fst ir) prob []) (snd ir))
              (snd st).
Proof.
  unfold Legacy.update_model_step, orientation_adds. rewrite nth_sum1.
  destruct (Req_dec_T (rsum (nth (fst ir) prob [])) 0) as [Hz|Hnz]; cbn [fst snd].
  - split; reflexivity.
  - rewrite length_merge_all, length_zero_fill. split; [reflexivity|].
    rewrite slice_merge_adds, zero_fill_zeros. unfold merged_view.
    now destruct (snd st).
Qed.

Lemma update_model_adds (rank : Z) (prob : matrix) (view dmodel dmweights : list R) :
  snd (Legacy.update_model e rank prob view dmodel dmweights)
  = apply_adds (rank_adds e rank prob (length view))
      (zero_fill dmodel, zero_fill dmweights).
Proof.
  unfold Legacy.update_model, rank_adds.
  generalize (Py.enumerate (Striping.owned (Legacy.num_rot e) (Legacy.num_proc e) rank)).
  intros l. generalize (zero_fill dmodel, zero_fill dmweights). intros mw.
  revert view mw. induction l as [|ir l IH]; intros view mw; [reflexivity|].
  cbn [fold_left flat_map]. rewrite apply_adds_app.
  destruct (update_model_step_adds prob (view, mw) ir) as [Hlen Hsnd].
  cbv zeta in Hlen, Hsnd. cbn [fst snd] in Hlen, Hsnd.
  destruct (Legacy.update_model_step e prob (sum1 prob) (view, mw) ir) as [view' mw'].
  cbn [fst snd] in Hlen, Hsnd. subst mw'. rewrite IH, Hlen. reflexivity.
Qed.

End LegacyMStep.

(** ** Reduction of the accumulators *)

Section ReduceFacts.

Import Arr.
Open Scope R_scope.

Lemma nth_zeros (n c : nat) : nth c (zeros n) 0 = 0.
Proof.
  unfold zeros. destruct (Nat.lt_ge_cases c n).
  - now apply nth_repeat_lt.
  - apply nth_overflow. now rewrite repeat_length.
Qed.

Lemma length_zeros (n : nat) : length (zeros n) = n.
Proof. apply repeat_length. Qed.

(** The sum over the ranks of what each rank accumulated from zero is
    what all additions together accumulate. *)
Lemma reduce_accumulators (n : nat) (ls : list (list (Z * R * R))) :
  let acc := map (fun l => apply_adds l (zeros n, zeros n)) ls in
  (MPI.Reduce_SUM n (map fst acc), MPI.Reduce_SUM n (map snd acc))
  = accumulate n (concat ls).
Proof.
  cbv zeta. unfold MPI.Reduce_SUM, sum0, accumulate.
  f_equal; apply map_ext_in; intros c Hc; apply in_seq in Hc;
    rewrite concat_map, rsum_concat; f_equal;
    unfold col; rewrite !map_map; apply map_ext; intros l.
  - destruct (apply_adds_nth l (zeros n, zeros n) c) as [H _].
    cbn [fst snd] in H. rewrite H by (rewrite length_zeros; lia).
    rewrite nth_zeros. lra.
  - destruct (apply_adds_nth l (zeros n, zeros n) c) as [_ H].
    cbn [fst snd] in H. rewrite H by (rewrite length_zeros; lia).
    rewrite nth_zeros. lra.
Qed.

Lemma accumulate_Permutation (n : nat) (l l' : list (Z * R * R)) :
  Permutation l l' -> accumulate n l = accumulate n l'.
Proof.
  intros Hp. unfold accumulate.
  f_equal; apply map_ext; intros c; apply rsum_Permutation; now apply Permutation_map.
Qed.

(** A cell without weight holds no intensity. *)
Lemma accumulate_zero_weight (n c : nat) (l : list (Z * R * R)) :
  (forall a, In a l -> 0 <= snd a) -> (c < n)%nat ->
  nth c (snd (accumulate n l)) 0 = 0 -> nth c (fst (accumulate n l)) 0 = 0.
Proof.
  intros Hw Hc. unfold accumulate. cbn [fst snd]. rewrite !nth_map_seq by assumption.
  cbn [Nat.add]. intros Hz. apply rsum_all_zero.
  intros x Hx. apply in_map_iff in Hx. destruct Hx as (a & <- & Ha).
  assert (Hwa : weight_part c a = 0).
  { apply (rsum_zero_terms (map (weight_part c) l)); [|assumption|now apply in_map].
    intros y Hy. apply in_map_iff in Hy. destruct Hy as (b & <- & Hb).
    unfold weight_part. destruct (_ =? _)%Z; [now apply Hw|lra]. }
  unfold model_part, weight_part in *. destruct (_ =? _)%Z; [|reflexivity].
  rewrite Hwa. lra.
Qed.

Lemma accumulate_weight_nonneg (n c : nat) (l : list (Z * R * R)) :
  (forall a, In a l -> 0 <= snd a) -> 0 <= nth c (snd (accumulate n l)) 0.
Proof.
  intros Hw. unfold accumulate. cbn [snd].
  destruct (Nat.lt_ge_cases c n).
  - rewrite nth_map_seq by assumption. apply rsum_nonneg.
    intros y Hy. apply in_map_iff in Hy. destruct Hy as (b & <- & Hb).
    unfold weight_part. destruct (_ =? _)%Z; [now apply Hw|lra].
  - rewrite nth_overflow; [lra|]. now rewrite length_map, length_seq.
Qed.

Lemma length_accumulate (n : nat) (l : list (Z * R * R)) :
  length (fst (accumulate n l)) = n /\ length (snd (accumulate n l)) = n.
Proof. unfold accumulate. cbn [fst snd]. now rewrite !length_map, !length_seq. Qed.

Lemma nth_divide_supported (model mweights : list R) (c : nat) :
  (c < length model)%nat -> (c < length mweights)%nat ->
  nth c (NormalizeModel.divide_supported model mweights) 0
  = if Rlt_dec 0 (nth c mweights 0) then nth c model 0 / nth c mweights 0
    else nth c model 0.
Proof.
  intros Hm Hw. unfold NormalizeModel.divide_supported.
  now rewrite nth_map2 with (da := 0) (db := 0).
Qed.

End ReduceFacts.

(** ** One iteration of the stand-alone engine, on all ranks *)

Section LegacyRun.

Import Arr.
Open Scope R_scope.

Variable slice_gen : list R -> R -> Z -> list R.
Variable e : Legacy.EMC.
Variable model : list R.
Variable mweights : Z -> list R.
Variable junk : Z -> nat -> nat -> R.
Variable vjunk : Z -> nat -> R.

Hypothesis mweights_shape : forall rank, length (mweights rank) = length model.

(** The iteration returns when the normalisation does, with the
    accumulated additions divided where there is weight. *)
Lemma run_iteration_accumulate :
  Legacy.run_iteration slice_gen e model mweights junk vjunk
  = match Legacy.normalize_prob e (likelihoods slice_gen e model junk) with
    | None => None
    | Some (probs, rmax) =>
        let mw := accumulate (length model) (all_adds e probs) in
        Some (NormalizeModel.divide_supported (fst mw) (snd mw), snd mw)
    end.
Proof.
  unfold Legacy.run_iteration. fold (likelihoods slice_gen e model junk).
  destruct (Legacy.normalize_prob e (likelihoods slice_gen e model junk)) as [[probs rmax]|]; [|reflexivity].
  cbv zeta. f_equal. unfold NormalizeModel.normalize_model.
  set (acc := map _ (combine (Legacy.ranks e) probs)).
  assert (Hacc : acc = map (fun l => apply_adds l (zeros (length model), zeros (length model)))
                         (map (fun rp => rank_adds e (fst rp) (snd rp)
                                           (Z.to_nat (Legacy.size e ^ 2)))
                              (combine (Legacy.ranks e) probs))).
  { unfold acc. rewrite map_map. apply map_ext. intros [rank prob]. cbn [fst snd].
    rewrite update_model_adds, !zero_fill_zeros, mweights_shape.
    now rewrite length_map, length_seq. }
  rewrite Hacc.
  pose proof (reduce_accumulators (length model)
                (map (fun rp => rank_adds e (fst rp) (snd rp) (Z.to_nat (Legacy.size e ^ 2)))
                     (combine (Legacy.ranks e) probs))) as Hred.
  cbv zeta in Hred. fold (all_adds e probs) in Hred.
  pose proof (f_equal fst Hred) as Hm. pose proof (f_equal snd Hred) as Hw.
  cbn [fst snd] in Hm, Hw. now rewrite Hm, Hw.
Qed.

Lemma all_adds_weight (probs : list matrix) (a : Z * R * R) :
  In a (all_adds e probs) -> 0 <= snd a.
Proof.
  unfold all_adds. intros H. apply in_concat in H. destruct H as (l & Hl & Ha).
  apply in_map_iff in Hl. destruct Hl as ([rank prob] & <- & _).
  unfold rank_adds in Ha. apply in_flat_map in Ha. destruct Ha as (ir & _ & Ha).
  unfold orientation_adds in Ha. destruct (Req_dec_T _ 0); [destruct Ha|].
  eapply slice_adds_weight; eauto.
Qed.

Lemma length_calculate_prob (rank : Z) (prob : matrix) :
  length (Legacy.calculate_prob slice_gen e rank model prob) = length prob.
Proof.
  unfold Legacy.calculate_prob.
  generalize (Py.enumerate (Striping.owned (Legacy.num_rot e) (Legacy.num_proc e) rank)).
  intros l. revert prob. induction l as [|ir l IH]; intros prob; simpl; [reflexivity|].
  now rewrite IH, length_set_nth.
Qed.

Lemma length_empty (j : nat -> nat -> R) (nrow ncol : nat) :
  length (empty j nrow ncol) = nrow.
Proof. unfold empty. now rewrite length_map, length_seq. Qed.

Lemma ranks_In (rank : Z) :
  In rank (Legacy.ranks e) <-> (0 <= rank < Legacy.num_proc e)%Z.
Proof. unfold Legacy.ranks. rewrite zrange_In. lia. Qed.

(** Every rank owns an orientation when there are at least as many
    orientations as ranks. *)
Lemma num_rot_p_positive (rank : Z) :
  (0 < Legacy.num_proc e <= Legacy.num_rot e)%Z -> (0 <= rank < Legacy.num_proc e)%Z ->
  (0 < Striping.num_rot_p (Legacy.num_rot e) (Legacy.num_proc e) rank)%Z.
Proof.
  intros HP Hr. unfold Striping.num_rot_p.
  assert (1 <= Legacy.num_rot e / Legacy.num_proc e)%Z
    by (apply Z.div_le_lower_bound; lia).
  destruct (_ <? _)%Z; lia.
Qed.

Lemma likelihoods_nonempty (m : matrix) :
  (0 < Legacy.num_proc e <= Legacy.num_rot e)%Z -> In m (likelihoods slice_gen e model junk) -> m <> [].
Proof.
  intros HP Hm. unfold likelihoods in Hm. apply in_map_iff in Hm.
  destruct Hm as (rank & <- & Hr). apply ranks_In in Hr.
  pose proof (num_rot_p_positive rank HP Hr).
  intros He. apply (f_equal (@length _)) in He.
  rewrite length_calculate_prob, length_empty in He. simpl in He. lia.
Qed.

(** The iteration returns, and a cell whose summed weight is zero holds
    zero. *)
Lemma run_iteration_zero_weight :
  (0 < Legacy.num_proc e <= Legacy.num_rot e)%Z ->
  exists model' mweights',
    Legacy.run_iteration slice_gen e model mweights junk vjunk
    = Some (model', mweights') /\
    length model' = length model /\ length mweights' = length model /\
    forall c, (c < length model)%nat ->
      0 <= nth c mweights' 0 /\
      (nth c mweights' 0 = 0 -> nth c model' 0 = 0).
Proof.
  intros HP. rewrite run_iteration_accumulate.
  unfold Legacy.normalize_prob, Normalize.normalize_prob.
  destruct (normalize_upto_divide_some (Legacy.num_proc e)
              (Z.to_nat (Legacy.num_data (Legacy.dset e))) (likelihoods slice_gen e model junk)) as [rmax ->];
    [intros m Hm; now apply likelihoods_nonempty|].
  cbv zeta. eexists. eexists. split; [reflexivity|].
  set (probs := map _ (map _ _)).
  destruct (length_accumulate (length model) (all_adds e probs)) as [Hlm Hlw].
  split; [|split; [exact Hlw|]].
  - unfold NormalizeModel.divide_supported. rewrite length_map2, Hlm, Hlw. apply Nat.min_id.
  - intros c Hc. split; [apply accumulate_weight_nonneg, all_adds_weight|].
    intros Hz. rewrite nth_divide_supported by lia. rewrite Hz.
    destruct (Rlt_dec 0 0) as [Hlt|_]; [lra|].
    apply accumulate_zero_weight; [apply all_adds_weight|assumption|assumption].
Qed.

End LegacyRun.

(** ** C3: cells without interpolation weight *)

Section ZeroWeightTheorem.

Import Arr.
Open Scope R_scope.

Lemma some_pair_inv {A B} (a c : A) (b d : B) :
  Some (a, b) = Some (c, d) -> a = c /\ b = d.
Proof. intros H. injection H as -> ->. now split. Qed.

(** Frames without photons add nothing to a view. *)
Lemma merge_all_no_photons (grid : Z) (prob_r : list R) (ndata : Z)
    (f : Kernels.frames) (view : list R) :
  (forall d, (rdz (Kernels.ones f) d <= 0)%Z /\ (rdz (Kernels.multi f) d <= 0)%Z) ->
  Kernels.merge_all grid prob_r ndata f view = view.
Proof.
  intros Hf. unfold Kernels.merge_all. rewrite launch_fold.
  generalize (thread_ids grid 32). intros ds.
  induction ds as [|d ds IH]; simpl; [reflexivity|].
  replace (Kernels.merge_all_thread prob_r ndata f d view) with view; [exact IH|].
  unfold Kernels.merge_all_thread. destruct (ndata <=? d)%Z; [reflexivity|].
  destruct (Hf d) as [Ho Hm]. unfold zrange.
  replace (Z.to_nat (rdz (Kernels.ones f) d)) with O by lia.
  replace (Z.to_nat (rdz (Kernels.multi f) d)) with O by lia.
  reflexivity.
Qed.

Lemma rd_zeros_div (n : nat) (p : R) (t : Z) :
  rd (map (fun v => v / p) (zeros n)) t = 0.
Proof.
  unfold rd. destruct (t <? 0)%Z; [reflexivity|].
  destruct (Nat.lt_ge_cases (Z.to_nat t) n) as [Hlt|Hge].
  - rewrite nth_map_lt with (d' := 0) by now rewrite length_zeros.
    rewrite nth_zeros. unfold Rdiv. apply Rmult_0_l.
  - apply nth_overflow. now rewrite length_map, length_zeros.
Qed.

Lemma thread_adds_value (view : list R) (angle : R) (size x y : Z) (a : Z * R * R) :
  In a (thread_adds view angle size x y) ->
  snd (fst a) = rd view (Py.astype_i4 (x * size + y)).
Proof.
  unfold thread_adds.
  destruct ((size - 1 <? x) || (size - 1 <? y))%Z; [intros []|].
  cbv zeta. destruct ((_ <? 0) || _ || _ || _)%Z; [intros []|].
  intros [<-|[<-|[<-|[<-|[]]]]]; reflexivity.
Qed.

(** C3, amended.  When there are at least as many orientations as ranks,
    one iteration of the stand-alone engine returns, and every model cell
    whose summed interpolation weight is zero holds 0 afterwards,
    whatever it held before: the accumulators are zeroed at the start of
    [_update_model] and such a cell received zero-weight additions only.
    When no frame has a photon, the model is 0 in every cell after the
    iteration. *)
Theorem zero_weight_cells_hold_zero
    (slice_gen : list R -> R -> Z -> list R) (e : Legacy.EMC) (model : list R)
    (mweights : Z -> list R) (junk : Z -> nat -> nat -> R) (vjunk : Z -> nat -> R) :
  (forall rank, length (mweights rank) = length model) ->
  (0 < Legacy.num_proc e <= Legacy.num_rot e)%Z ->
  exists model' mweights',
    Legacy.run_iteration slice_gen e model mweights junk vjunk
    = Some (model', mweights') /\
    length model' = length model /\
    (forall c, (c < length model)%nat ->
       nth c mweights' 0 = 0 -> nth c model' 0 = 0) /\
    ((forall d, (rdz (Kernels.ones (Legacy.frames (Legacy.dset e))) d <= 0)%Z /\
                (rdz (Kernels.multi (Legacy.frames (Legacy.dset e))) d <= 0)%Z) ->
     forall c, (c < length model)%nat -> nth c model' 0 = 0).
Proof.
  intros Hshape HP.
  destruct (run_iteration_zero_weight slice_gen e model mweights junk vjunk Hshape HP)
    as (model' & mweights' & Hrun & Hlen & Hlw & Hcells).
  exists model', mweights'. split; [exact Hrun|]. split; [exact Hlen|].
  split; [intros c Hc; now apply Hcells|].
  intros Hempty c Hc.
  rewrite run_iteration_accumulate in Hrun by assumption.
  destruct (Legacy.normalize_prob e _) as [[probs rmax]|]; [|discriminate].
  cbv zeta in Hrun. apply some_pair_inv in Hrun. destruct Hrun as [<- <-].
  destruct (length_accumulate (length model)
              (all_adds e probs)) as [Hlm Hlw'].
  assert (Hm0 : nth c (fst (accumulate (length model)
                              (all_adds e probs))) 0 = 0).
  { unfold accumulate. cbn [fst]. rewrite nth_map_seq by assumption. cbn [Nat.add].
    apply rsum_all_zero. intros x Hx. apply in_map_iff in Hx.
    destruct Hx as (a & <- & Ha).
    assert (Hv : snd (fst a) = 0).
    { unfold all_adds in Ha. apply in_concat in Ha. destruct Ha as (l & Hl & Ha).
      apply in_map_iff in Hl. destruct Hl as ([rank prob] & <- & _).
      unfold rank_adds in Ha. apply in_flat_map in Ha. destruct Ha as (ir & _ & Ha).
      unfold orientation_adds in Ha. destruct (Req_dec_T _ 0); [destruct Ha|].
      unfold slice_adds in Ha. apply in_flat_map in Ha. destruct Ha as (x & _ & Ha).
      apply in_flat_map in Ha. destruct Ha as (y & _ & Ha).
      apply thread_adds_value in Ha. rewrite Ha. unfold merged_view.
      rewrite merge_all_no_photons by exact Hempty.
      apply rd_zeros_div. }
    unfold model_part. rewrite Hv. destruct (_ =? _)%Z; [apply Rmult_0_l|reflexivity]. }
  rewrite nth_divide_supported by lia. rewrite Hm0.
  destruct (Rlt_dec 0 _); [|reflexivity]. unfold Rdiv. apply Rmult_0_l.
Qed.

Lemma zero_weight_cells_hold_zero_witness :
  exists model' mweights',
    Legacy.run_iteration (fun _ _ _ => [0; 0; 0; 0]) corner_run [5; 5; 5; 5]
      (fun _ => [0; 0; 0; 0]) (fun _ _ _ => 0) (fun _ _ => 0)
    = Some (model', mweights') /\
    length model' = 4%nat.
Proof.
  destruct (zero_weight_cells_hold_zero (fun _ _ _ => [0; 0; 0; 0]) corner_run
              [5; 5; 5; 5] (fun _ => [0; 0; 0; 0]) (fun _ _ _ => 0) (fun _ _ => 0))
    as (model' & mweights' & Hrun & Hlen & _).
  - intros rank. reflexivity.
  - simpl. lia.
  - exists model', mweights'. split; [exact Hrun|exact Hlen].
Defined.

Lemma Int_part_IZR (z : Z) : Int_part (IZR z) = z.
Proof. symmetry. apply Int_part_spec. lra. Qed.

(** At angle 0 on a 2 x 2 model no thread adds weight to the corner
    cell 3. *)
Lemma corner_gets_no_weight (view : list R) (x y : Z) (a : Z * R * R) :
  In a (thread_adds view (Legacy.angle corner_run 0) 2 x y) -> weight_part 3 a = 0.
Proof.
  unfold Legacy.angle, corner_run. cbn [Legacy.num_rot].
  replace (0 / 1 * 2 * PI) with 0 by (unfold Rdiv; ring).
  unfold thread_adds. rewrite cos_0, sin_0.
  destruct ((2 - 1 <? x) || (2 - 1 <? y))%Z eqn:Hg1; [intros []|].
  cbv zeta. change (2 ÷ 2)%Z with 1%Z.
  replace (IZR (x - 1) * 1 - IZR (y - 1) * 0 + 1) with (IZR x)
    by (rewrite !minus_IZR; ring).
  replace (IZR (x - 1) * 0 + IZR (y - 1) * 1 + 1) with (IZR y)
    by (rewrite !minus_IZR; ring).
  unfold Kernels.double2int_rd. rewrite !Int_part_IZR.
  destruct ((x <? 0) || (2 - 2 <? x) || (y <? 0) || (2 - 2 <? y))%Z eqn:Hg2; [intros []|].
  apply orb_false_iff in Hg2. destruct Hg2 as [Hg2 Hy2].
  apply orb_false_iff in Hg2. destruct Hg2 as [Hg2 Hy1].
  apply orb_false_iff in Hg2. destruct Hg2 as [Hx1 Hx2].
  apply Z.ltb_ge in Hx1, Hx2, Hy1, Hy2.
  assert (x = 0%Z) by lia. assert (y = 0%Z) by lia. subst x y.
  intros [<-|[<-|[<-|[<-|[]]]]]; unfold weight_part; cbn [fst snd];
    try reflexivity.
  change ((0 + 1) * 2 + (0 + 1) =? Z.of_nat 3)%Z with true. cbv iota. ring.
Qed.

(** The claim as stated fails on [corner_run] with a model of fives: the
    corner cell 3 ends with summed weight 0 and holds 0, not the 5 it held
    before. *)
Lemma zero_weight_cell_loses_prior_value :
  exists model' mweights',
    Legacy.run_iteration (fun _ _ _ => [0; 0; 0; 0]) corner_run [5; 5; 5; 5]
      (fun _ => [0; 0; 0; 0]) (fun _ _ _ => 0) (fun _ _ => 0)
    = Some (model', mweights') /\
    nth 3 mweights' 0 = 0 /\ nth 3 model' 0 = 0 /\ nth 3 [5; 5; 5; 5] 0 = 5.
Proof.
  destruct (run_iteration_zero_weight (fun _ _ _ => [0; 0; 0; 0]) corner_run
              [5; 5; 5; 5] (fun _ => [0; 0; 0; 0]) (fun _ _ _ => 0) (fun _ _ => 0))
    as (model' & mweights' & Hrun & _ & _ & Hcells);
    [intros rank; reflexivity|simpl; lia|].
  exists model', mweights'. split; [exact Hrun|].
  assert (Hw : nth 3 mweights' 0 = 0).
  { rewrite run_iteration_accumulate in Hrun by (intros; reflexivity).
    destruct (Legacy.normalize_prob corner_run _) as [[probs rmax]|]; [|discriminate].
    cbv zeta in Hrun. apply some_pair_inv in Hrun. destruct Hrun as [_ <-].
    unfold accumulate. cbn [snd]. change (length [5; 5; 5; 5]) with 4%nat.
    rewrite nth_map_seq by lia. cbn [Nat.add].
    apply rsum_all_zero. intros w Hin. apply in_map_iff in Hin.
    destruct Hin as (a & <- & Ha).
    unfold all_adds in Ha. apply in_concat in Ha. destruct Ha as (l & Hl & Ha).
    apply in_map_iff in Hl. destruct Hl as ([rank prob] & <- & Hrp).
    apply in_combine_l in Hrp. destruct Hrp as [<-|[]].
    cbn [fst snd] in Ha. unfold rank_adds in Ha.
    change (Py.enumerate _) with [(O, 0%Z)] in Ha.
    cbn [flat_map fst snd] in Ha. rewrite app_nil_r in Ha.
    unfold orientation_adds in Ha. destruct (Req_dec_T _ 0); [destruct Ha|].
    unfold slice_adds in Ha. apply in_flat_map in Ha. destruct Ha as (x & _ & Ha).
    apply in_flat_map in Ha. destruct Ha as (y & _ & Ha).
    eapply corner_gets_no_weight. exact Ha. }
  split; [exact Hw|]. split; [|reflexivity].
  apply Hcells; [simpl; lia|exact Hw].
Qed.

End ZeroWeightTheorem.

(** ** C8: orientations without responsibility *)

Section SkipTheorem.

Import Arr.
Open Scope R_scope.




End SkipTheorem.

(** ** The stripes of all ranks together *)

Section StripesPartition.

Import Arr.
Open Scope Z_scope.

Lemma NoDup_map_injective {A B} (f : A -> B) (l : list A) :
  (forall a b, f a = f b -> a = b) -> NoDup l -> NoDup (map f l).
Proof.
  intros Hinj. induction 1 as [|x l Hx _ IH]; simpl; constructor; [|exact IH].
  intros Hin. apply in_map_iff in Hin. destruct Hin as (y & Hy & Hyl).
  apply Hinj in Hy. now subst y.
Qed.

Lemma zrange_NoDup (lo n : Z) : NoDup (zrange lo n).
Proof.
  unfold zrange. apply NoDup_map_injective; [|apply seq_NoDup].
  intros a b H. lia.
Qed.

Lemma range_NoDup (start stop step : Z) : 0 < step -> NoDup (Py.range start stop step).
Proof.
  intros Hs. unfold Py.range. apply NoDup_map_injective; [|apply seq_NoDup].
  intros a b H. nia.
Qed.

(** The stripes of distinct ranks hold each orientation once. *)
Lemma stripes_NoDup (num_rot num_proc : Z) (ranks : list Z) :
  0 < num_proc -> 0 <= num_rot -> NoDup ranks ->
  (forall rank, In rank ranks -> 0 <= rank < num_proc) ->
  NoDup (concat (map (Striping.owned num_rot num_proc) ranks)).
Proof.
  intros HP HN Hnd. induction Hnd as [|rank ranks Hnotin _ IH]; intros Hr; [constructor|].
  cbn [map concat]. apply NoDup_app.
  - apply range_NoDup. exact HP.
  - apply IH. intros q Hq. apply Hr. now right.
  - intros r Hrin Hin. apply in_concat in Hin. destruct Hin as (l & Hl & Hrl).
    apply in_map_iff in Hl. destruct Hl as (q & <- & Hq).
    apply owned_In in Hrin; [|try lia; apply Hr; now left..].
    apply owned_In in Hrl; [|try lia; apply Hr; now right..].
    unfold Striping.owner in *. destruct Hrin as [_ H1], Hrl as [_ H2].
    apply Z.eqb_eq in H1, H2. apply Hnotin. now replace rank with q by lia.
Qed.

(** Rank after rank, the stripes are a rearrangement of
    [0, ..., num_rot - 1]. *)
Lemma stripes_Permutation (num_rot num_proc : Z) :
  0 < num_proc -> 0 <= num_rot ->
  Permutation (concat (map (Striping.owned num_rot num_proc) (zrange 0 num_proc)))
              (zrange 0 num_rot).
Proof.
  intros HP HN. apply NoDup_Permutation.
  - apply stripes_NoDup; [lia|lia|apply zrange_NoDup|].
    intros rank Hrank. apply zrange_In in Hrank. lia.
  - apply zrange_NoDup.
  - intros r. rewrite zrange_In. split.
    + intros Hin. apply in_concat in Hin. destruct Hin as (l & Hl & Hrl).
      apply in_map_iff in Hl. destruct Hl as (rank & <- & Hrank).
      apply zrange_In in Hrank. apply owned_In in Hrl; lia.
    + intros Hr. apply in_concat. exists (Striping.owned num_rot num_proc (r mod num_proc)).
      pose proof (Z.mod_pos_bound r num_proc HP).
      split.
      * apply in_map. apply zrange_In. lia.
      * apply owned_In; [lia..|]. split; [lia|]. unfold Striping.owner. apply Z.eqb_refl.
Qed.

Lemma Permutation_flat_map_list {A B} (g : A -> list B) (l l' : list A) :
  Permutation l l' -> Permutation (flat_map g l) (flat_map g l').
Proof.
  induction 1 as [|x l l' _ IH|x y l|l l' l'' _ IH1 _ IH2]; simpl.
  - constructor.
  - now apply Permutation_app_head.
  - rewrite !app_assoc. apply Permutation_app_tail, Permutation_app_comm.
  - eapply Permutation_trans; eauto.
Qed.

Lemma flat_map_concat_map {A B} (g : A -> list B) (ls : list (list A)) :
  concat (map (flat_map g) ls) = flat_map g (concat ls).
Proof.
  induction ls as [|l ls IH]; simpl; [reflexivity|].
  now rewrite flat_map_app, IH.
Qed.

Lemma flat_map_enumerate {A B} (g : A -> list B) (l : list A) :
  flat_map (fun ir => g (snd ir)) (Py.enumerate l) = flat_map g l.
Proof.
  induction l as [|x l IH] using rev_ind; [reflexivity|].
  now rewrite enumerate_app, !flat_map_app, IH.
Qed.

Lemma combine_map_self {A B} (h : A -> B) (l : list A) :
  combine l (map h l) = map (fun x => (x, h x)) l.
Proof. induction l as [|x l IH]; simpl; [reflexivity|now f_equal]. Qed.

End StripesPartition.

(** ** The E-step of the stand-alone engine in closed form *)

Section LegacyEStep.

Import Arr.
Open Scope R_scope.

(** A loop over [enumerate l] that rewrites row [i] from the element at
    position [i]. *)
Lemma fold_enumerate_rows {A B} (g : B -> A -> A) (l : list B) (m : list A)
    (d : A) (dl : B) :
  (length l <= length m)%nat ->
  let res := fold_left (fun m ir => set_nth (fst ir) (g (snd ir) (nth (fst ir) m d)) m)
               (Py.enumerate l) m in
  length res = length m /\
  forall j, nth j res d
            = if (j <? length l)%nat then g (nth j l dl) (nth j m d) else nth j m d.
Proof.
  induction l as [|x l IH] using rev_ind; intros Hlen; cbv zeta.
  - simpl. split; [reflexivity|]. intros j. reflexivity.
  - rewrite length_app in Hlen. simpl in Hlen.
    destruct (IH ltac:(lia)) as [IHlen IHnth]. cbv zeta in IHlen, IHnth.
    rewrite enumerate_app, fold_left_app. cbn [fold_left fst snd].
    set (res := fold_left _ (Py.enumerate l) m) in *.
    split; [now rewrite length_set_nth|].
    intros j. rewrite nth_set_nth, IHlen, length_app. simpl length.
    destruct (Nat.eq_dec j (length l)) as [->|Hne].
    + rewrite Nat.eqb_refl.
      replace (length l <? length m)%nat with true by (symmetry; apply Nat.ltb_lt; lia).
      replace (length l <? length l + 1)%nat with true by (symmetry; apply Nat.ltb_lt; lia).
      cbn [andb]. rewrite IHnth, Nat.ltb_irrefl.
      now rewrite app_nth2, Nat.sub_diag by lia.
    + replace (j =? length l)%nat with false by (symmetry; apply Nat.eqb_neq; lia).
      cbn [andb]. rewrite IHnth.
      destruct (j <? length l)%nat eqn:Hj.
      * apply Nat.ltb_lt in Hj.
        replace (j <? length l + 1)%nat with true by (symmetry; apply Nat.ltb_lt; lia).
        now rewrite app_nth1 by assumption.
      * apply Nat.ltb_ge in Hj.
        now replace (j <? length l + 1)%nat with false by (symmetry; apply Nat.ltb_ge; lia).
Qed.

(** A launch of [calc_prob_all] over a row of exactly [ndata] cells
    leaves the log-likelihoods of the frames, whatever the row held. *)
Lemma calc_prob_all_row (lview : list R) (ndata : Z) (f : Kernels.frames)
    (init : R) (scales : list R) (prob_r : list R) :
  (0 <= ndata <= 2 ^ 32 - 32)%Z -> length prob_r = Z.to_nat ndata ->
  Kernels.calc_prob_all (Kernels.bsize ndata) lview ndata f init scales prob_r
  = map (fun j => frame_logp lview f init scales (Z.of_nat j)) (seq 0 (Z.to_nat ndata)).
Proof.
  intros Hn Hlen. pose proof (bsize_bounds ndata ltac:(lia)) as Hb.
  apply nth_ext with (d := 0) (d' := 0).
  - now rewrite length_calc_prob_all, length_map, length_seq.
  - intros j Hj. rewrite length_calc_prob_all in Hj.
    rewrite calc_prob_all_nth by lia.
    replace (Z.of_nat j <? ndata)%Z with true by (symmetry; apply Z.ltb_lt; lia).
    now rewrite nth_map_seq by lia.
Qed.

Variable slice_gen : list R -> R -> Z -> list R.
Variable e : Legacy.EMC.
Variable model : list R.

Lemma length_log_row (r : Z) :
  length (log_row slice_gen e model r) = Z.to_nat (Legacy.num_data (Legacy.dset e)).
Proof. unfold log_row. now rewrite length_map, length_seq. Qed.

Lemma nth_empty (j : nat -> nat -> R) (nrow ncol i : nat) :
  (i < nrow)%nat -> nth i (empty j nrow ncol) [] = map (j i) (seq 0 ncol).
Proof. intros Hi. unfold empty. now rewrite nth_map_seq. Qed.

(** [_calculate_prob] fills the rows of a rank with the log-likelihood
    rows of its stripe, whatever the fresh buffer held. *)
Lemma calculate_prob_rows (rank : Z) (junk : nat -> nat -> R) :
  (0 <= Legacy.num_data (Legacy.dset e) <= 2 ^ 32 - 32)%Z ->
  (0 < Legacy.num_proc e)%Z -> (0 <= rank < Legacy.num_proc e)%Z ->
  (0 <= Legacy.num_rot e)%Z ->
  Legacy.calculate_prob slice_gen e rank model
    (empty junk
       (Z.to_nat (Striping.num_rot_p (Legacy.num_rot e) (Legacy.num_proc e) rank))
       (Z.to_nat (Legacy.num_data (Legacy.dset e))))
  = map (log_row slice_gen e model) (Striping.owned (Legacy.num_rot e) (Legacy.num_proc e) rank).
Proof.
  intros Hnd HP Hr HN. unfold Legacy.calculate_prob.
  set (stripe := Striping.owned (Legacy.num_rot e) (Legacy.num_proc e) rank).
  assert (Hrows : Z.to_nat (Striping.num_rot_p (Legacy.num_rot e) (Legacy.num_proc e) rank)
                  = length stripe)
    by (unfold stripe; now rewrite owned_length by lia).
  rewrite Hrows. set (buf := empty junk _ _).
  assert (Hlen : length buf = length stripe) by (unfold buf; apply length_empty).
  destruct (fold_enumerate_rows
              (fun r row =>
                 Kernels.calc_prob_all (Legacy.bsize_data e)
                   (slice_gen model (Legacy.angle e r) (Legacy.size e))
                   (Legacy.num_data (Legacy.dset e)) (Legacy.frames (Legacy.dset e))
                   (- rsum model) (Legacy.scales e) row)
              stripe buf [] 0%Z ltac:(lia)) as [Hl Hn].
  cbv zeta in Hl, Hn.
  apply nth_ext with (d := []) (d' := []).
  - now rewrite Hl, length_map.
  - intros i Hi. rewrite Hl in Hi. rewrite Hn.
    replace (i <? length stripe)%nat with true by (symmetry; apply Nat.ltb_lt; lia).
    rewrite nth_map_lt with (d' := 0%Z) by lia.
    unfold Legacy.bsize_data. rewrite calc_prob_all_row; [reflexivity|lia|].
    unfold buf. rewrite nth_empty by lia.
    now rewrite length_map, length_seq.
Qed.

End LegacyEStep.

(** ** One iteration in exact arithmetic does not depend on the number of ranks *)

Section LegacyRefinement.

Import Arr.
Open Scope R_scope.

Variable slice_gen : list R -> R -> Z -> list R.
Variable e : Legacy.EMC.
Variable model : list R.

Hypothesis num_data_range :
  (0 <= Legacy.num_data (Legacy.dset e) <= 2 ^ 32 - 32)%Z.
Hypothesis ranks_own : (0 < Legacy.num_proc e <= Legacy.num_rot e)%Z.

Let ncol := Z.to_nat (Legacy.num_data (Legacy.dset e)).
Let stripe := Striping.owned (Legacy.num_rot e) (Legacy.num_proc e).
Let lrow := log_row slice_gen e model.

Lemma likelihoods_rows (junk : Z -> nat -> nat -> R) :
  likelihoods slice_gen e model junk = map (fun rank => map lrow (stripe rank)) (Legacy.ranks e).
Proof.
  unfold likelihoods. apply map_ext_in. intros rank Hr. apply ranks_In in Hr.
  apply calculate_prob_rows; lia.
Qed.

Let rows : list matrix := map (fun rank => map lrow (stripe rank)) (Legacy.ranks e).

Lemma rows_shape (m : matrix) : In m rows -> well_shaped ncol m.
Proof.
  intros Hm row Hrow. unfold rows in Hm. apply in_map_iff in Hm.
  destruct Hm as (rank & <- & _). apply in_map_iff in Hrow.
  destruct Hrow as (r & <- & _). apply length_log_row.
Qed.

Lemma rows_concat : concat rows = map lrow (concat (map stripe (Legacy.ranks e))).
Proof. unfold rows. now rewrite concat_map, map_map. Qed.

Lemma shifted_col (ncol' d : nat) (probs : list matrix) :
  (forall m, In m probs -> well_shaped ncol' m) -> (d < ncol')%nat ->
  col d (concat (shifted ncol' probs))
  = map (fun v => exp (v - nth d (MPI.Allreduce_MAX ncol' (map (col_max ncol') probs)) 0))
        (col d (concat probs)).
Proof.
  intros Hs Hd. unfold shifted. rewrite !col_concat, !map_map, concat_map, map_map.
  f_equal. apply map_ext_in. intros m Hm. unfold Normalize.exp_shift.
  apply (col_map_map2 (fun p m => exp (p - m)) _ d ncol');
    [auto|assumption|now rewrite length_Allreduce_MAX].
Qed.

Lemma num_rot_positive : (0 < Legacy.num_rot e)%Z.
Proof. lia. Qed.

Lemma likelihood_sum_positive (d : nat) : 0 < likelihood_sum slice_gen e model d.
Proof.
  unfold likelihood_sum. apply rsum_pos.
  - pose proof num_rot_positive. unfold zrange.
    destruct (Z.to_nat (Legacy.num_rot e)) eqn:Hn; [lia|]. discriminate.
  - intros x Hx. apply in_map_iff in Hx. destruct Hx as (r & <- & _). apply exp_pos.
Qed.

(** The global normaliser is the likelihood sum, scaled by the shift. *)
Lemma normaliser_closed (d : nat) :
  (d < ncol)%nat ->
  nth d (normaliser ncol rows) 0
  = likelihood_sum slice_gen e model d
    * exp (- nth d (MPI.Allreduce_MAX ncol (map (col_max ncol) rows)) 0).
Proof.
  intros Hd. rewrite normaliser_nth by assumption.
  rewrite (shifted_col ncol d rows rows_shape Hd).
  set (M := nth d (MPI.Allreduce_MAX ncol (map (col_max ncol) rows)) 0).
  rewrite rows_concat. unfold col. rewrite !map_map.
  rewrite (rsum_Permutation _ _
             (Permutation_map _ (stripes_Permutation (Legacy.num_rot e) (Legacy.num_proc e)
                                   ltac:(lia) ltac:(lia)))).
  unfold likelihood_sum. rewrite <- rsum_map_mult, map_map. f_equal.
  apply map_ext. intros r. unfold lrow. unfold Rminus. now rewrite exp_plus.
Qed.

(** After [_normalize_prob] the row of orientation [r] is [norm_row r],
    on whatever rank it lives. *)
Lemma normalized_row (r : Z) :
  map Normalize.floor_zero
    (map2 Rdiv
       (map2 (fun p m => exp (p - m)) (lrow r)
          (MPI.Allreduce_MAX ncol (map (col_max ncol) rows)))
       (normaliser ncol rows))
  = norm_row slice_gen e model r.
Proof.
  apply nth_ext with (d := 0) (d' := 0).
  - unfold norm_row. rewrite !length_map, !length_map2, length_seq.
    unfold lrow. rewrite length_log_row, length_Allreduce_MAX, length_normaliser.
    fold ncol. lia.
  - intros d Hd. rewrite !length_map, !length_map2 in Hd.
    unfold lrow in Hd. rewrite length_log_row, length_Allreduce_MAX, length_normaliser in Hd.
    fold ncol in Hd. assert (Hd' : (d < ncol)%nat) by lia.
    rewrite nth_map_lt with (d' := 0)
      by (rewrite !length_map2; unfold lrow;
          rewrite length_log_row, length_Allreduce_MAX, length_normaliser; fold ncol; lia).
    rewrite nth_map2 with (da := 0) (db := 0)
      by (rewrite ?length_map2; unfold lrow;
          rewrite ?length_log_row, ?length_Allreduce_MAX, ?length_normaliser; fold ncol; lia).
    rewrite nth_map2 with (da := 0) (db := 0)
      by (unfold lrow; rewrite ?length_log_row, ?length_Allreduce_MAX; fold ncol; lia).
    unfold norm_row. rewrite nth_map_seq by (fold ncol; lia). cbn [Nat.add].
    f_equal. rewrite normaliser_closed by assumption.
    set (M := nth d (MPI.Allreduce_MAX ncol (map (col_max ncol) rows)) 0).
    pose proof (likelihood_sum_positive d) as HZ.
    pose proof (exp_pos (- M)) as HM.
    unfold lrow, Rminus. rewrite exp_plus. field. split; lra.
Qed.

Lemma normalize_prob_rows :
  exists rmax,
    Legacy.normalize_prob e rows
    = Some (map (fun rank => map (norm_row slice_gen e model) (stripe rank)) (Legacy.ranks e), rmax).
Proof.
  unfold Legacy.normalize_prob, Normalize.normalize_prob. fold ncol.
  destruct (normalize_upto_divide_some (Legacy.num_proc e) ncol rows) as [rmax ->].
  - intros m Hm. unfold rows in Hm. rewrite <- (likelihoods_rows (fun _ _ _ => 0)) in Hm.
    eapply likelihoods_nonempty; eauto.
  - exists rmax. f_equal. f_equal.
    unfold shifted, Normalize.divide, Normalize.exp_shift.
    rewrite !map_map.
    match goal with |- map ?F rows = _ => set (perrank := F) end.
    unfold rows. rewrite map_map. apply map_ext. intros rank. unfold perrank.
    rewrite !map_map. apply map_ext. intros r. apply normalized_row.
Qed.

(** All additions of the ranks are a rearrangement of the additions of
    the orientations in order. *)
Lemma all_adds_Permutation :
  Permutation
    (all_adds e (map (fun rank => map (norm_row slice_gen e model) (stripe rank)) (Legacy.ranks e)))
    (flat_map (reference_adds slice_gen e model) (zrange 0 (Legacy.num_rot e))).
Proof.
  unfold all_adds. rewrite combine_map_self, map_map. cbn [fst snd].
  rewrite (map_ext _ (fun rank => flat_map (reference_adds slice_gen e model) (stripe rank))).
  - rewrite <- (map_map stripe (flat_map (reference_adds slice_gen e model))), flat_map_concat_map.
    apply Permutation_flat_map_list. apply stripes_Permutation; lia.
  - intros rank. unfold rank_adds. fold (stripe rank).
    rewrite <- (flat_map_enumerate (reference_adds slice_gen e model)).
    apply flat_map_ext_in. intros [i r] Hir.
    apply (enumerate_In_nth _ _ _ 0%Z) in Hir. destruct Hir as [Hi Hr].
    cbn [fst snd]. unfold reference_adds.
    now rewrite nth_map_lt with (d' := 0%Z), Hr by assumption.
Qed.

(** One iteration on [num_proc] ranks returns the reference result. *)
Lemma run_iteration_reference (mweights : Z -> list R)
    (junk : Z -> nat -> nat -> R) (vjunk : Z -> nat -> R) :
  (forall rank, length (mweights rank) = length model) ->
  Legacy.run_iteration slice_gen e model mweights junk vjunk = Some (reference_result slice_gen e model).
Proof.
  intros Hshape. rewrite run_iteration_accumulate by assumption.
  rewrite likelihoods_rows. fold rows.
  destruct normalize_prob_rows as [rmax ->]. cbv zeta.
  unfold reference_result. now rewrite (accumulate_Permutation _ _ _ all_adds_Permutation).
Qed.

End LegacyRefinement.

Section ProcessCountTheorem.

Import Arr.
Open Scope R_scope.

Lemma reference_result_num_proc (slice_gen : list R -> R -> Z -> list R)
    (e : Legacy.EMC) (model : list R) (k : Z) :
  reference_result slice_gen (with_num_proc e k) model
  = reference_result slice_gen (with_num_proc e 1) model.
Proof. reflexivity. Qed.

(** Over the real numbers, one iteration of the stand-alone engine on
    [k] ranks, [k] dividing [num_rot], and one iteration on a single rank
    both return, with the same model (and the same summed weights on the
    root), whatever the fresh buffers of the ranks hold.  This is a fact
    of exact arithmetic only: the two runs add the same terms in a
    different grouping, and the doubles of the code round each sum (see
    [Doubles] and the run of [six_orientations]).  (The frame count is
    within what a grid of 32-bit thread indices covers.) *)
Theorem process_count_invariance_exact
    (slice_gen : list R -> R -> Z -> list R) (e : Legacy.EMC) (model : list R)
    (k : Z) (mweights_k mweights_1 : Z -> list R)
    (junk_k junk_1 : Z -> nat -> nat -> R) (vjunk_k vjunk_1 : Z -> nat -> R) :
  (0 <= Legacy.num_data (Legacy.dset e) <= 2 ^ 32 - 32)%Z ->
  (0 < Legacy.num_rot e)%Z -> (0 < k)%Z -> (k | Legacy.num_rot e)%Z ->
  (forall rank, length (mweights_k rank) = length model) ->
  (forall rank, length (mweights_1 rank) = length model) ->
  exists model' mweights',
    Legacy.run_iteration slice_gen (with_num_proc e k) model mweights_k junk_k vjunk_k
    = Some (model', mweights') /\
    Legacy.run_iteration slice_gen (with_num_proc e 1) model mweights_1 junk_1 vjunk_1
    = Some (model', mweights').
Proof.
  intros Hnd HN Hk Hdiv Hsk Hs1.
  assert (Hle : (k <= Legacy.num_rot e)%Z) by (apply Z.divide_pos_le; assumption).
  exists (fst (reference_result slice_gen (with_num_proc e 1) model)),
         (snd (reference_result slice_gen (with_num_proc e 1) model)).
  rewrite <- surjective_pairing. split.
  - rewrite <- (reference_result_num_proc slice_gen e model k).
    apply run_iteration_reference; cbn [with_num_proc Legacy.num_data Legacy.dset
                                         Legacy.num_proc Legacy.num_rot]; auto; lia.
  - apply run_iteration_reference; cbn [with_num_proc Legacy.num_data Legacy.dset
                                         Legacy.num_proc Legacy.num_rot]; auto; lia.
Qed.

End ProcessCountTheorem.

Section ProcessCountWitness.

Import Arr.
Open Scope R_scope.

(** Two orientations on two ranks against the same run on one rank. *)
Lemma process_count_invariance_exact_example :
  exists model' mweights',
    Legacy.run_iteration (fun _ _ _ => [0; 0; 0; 0]) (with_num_proc small_legacy_run 2)
      [5; 5; 5; 5] (fun _ => [0; 0; 0; 0]) (fun _ _ _ => 0) (fun _ _ => 0)
    = Some (model', mweights') /\
    Legacy.run_iteration (fun _ _ _ => [0; 0; 0; 0]) (with_num_proc small_legacy_run 1)
      [5; 5; 5; 5] (fun _ => [1; 1; 1; 1]) (fun _ _ _ => 1) (fun _ _ => 1)
    = Some (model', mweights').
Proof.
  apply (process_count_invariance_exact (fun _ _ _ => [0; 0; 0; 0]) small_legacy_run
           [5; 5; 5; 5] 2 (fun _ => [0; 0; 0; 0]) (fun _ => [1; 1; 1; 1])
           (fun _ _ _ => 0) (fun _ _ _ => 1) (fun _ _ => 0) (fun _ _ => 1)).
  - simpl. lia.
  - simpl. lia.
  - lia.
  - exists 1%Z. reflexivity.
  - intros rank. reflexivity.
  - intros rank. reflexivity.
Defined.

End ProcessCountWitness.

(** ** Stripes and column maxima *)

Section StripesAndMaxima.

Import Arr.
Open Scope R_scope.

Lemma length_zrange (lo n : Z) : length (zrange lo n) = Z.to_nat n.
Proof. unfold zrange. now rewrite length_map, length_seq. Qed.


(** The local maximum of column [d] is an entry of the column, found at
    the local arg-max, and bounds the column. *)
Lemma col_max_argmax (ncol d : nat) (m : matrix) :
  m <> [] -> (d < ncol)%nat ->
  let i := nth d (col_argmax ncol m) O in
  (i < length m)%nat /\
  nth d (nth i m []) 0 = nth d (col_max ncol m) 0 /\
  forall i', (i' < length m)%nat -> nth d (nth i' m []) 0 <= nth d (col_max ncol m) 0.
Proof.
  intros Hne Hd. unfold col_argmax, col_max. cbv zeta.
  rewrite !nth_map_seq by assumption. cbn [Nat.add].
  pose proof (length_col d m) as Hlen.
  destruct (col d m) as [|x xs] eqn:Hc.
  { destruct m; [congruence|simpl in Hlen; discriminate]. }
  pose proof (argmax_from_head x xs) as [Hk Hv]. rewrite <- Hlen.
  split; [exact Hk|]. split.
  - rewrite <- nth_col, Hc. exact Hv.
  - intros i' Hi'. rewrite <- nth_col, Hc. apply rmax1_upper.
    apply nth_In. exact Hi'.
Qed.

Lemma length_col_max (ncol : nat) (m : matrix) : length (col_max ncol m) = ncol.
Proof. unfold col_max. now rewrite length_map, length_seq. Qed.

(** The global maximum of column [d] is the local maximum of some rank,
    and bounds the local maxima of all. *)
Lemma global_max_attained (ncol d : nat) (probs : list matrix) :
  probs <> [] -> (d < ncol)%nat ->
  (exists k, (k < length probs)%nat /\
     nth d (col_max ncol (nth k probs [])) 0
     = nth d (MPI.Allreduce_MAX ncol (map (col_max ncol) probs)) 0) /\
  (forall k, (k < length probs)%nat ->
     nth d (col_max ncol (nth k probs [])) 0
     <= nth d (MPI.Allreduce_MAX ncol (map (col_max ncol) probs)) 0).
Proof.
  intros Hne Hd. unfold MPI.Allreduce_MAX.
  rewrite nth_map_seq by assumption. cbn [Nat.add].
  pose proof (length_col d (map (col_max ncol) probs)) as Hlen.
  rewrite length_map in Hlen.
  assert (Hnth : forall k, (k < length probs)%nat ->
            nth k (col d (map (col_max ncol) probs)) 0
            = nth d (col_max ncol (nth k probs [])) 0).
  { intros k Hk. rewrite nth_col. now rewrite (nth_map_lt _ _ k _ []). }
  destruct (col d (map (col_max ncol) probs)) as [|y ys] eqn:Hc.
  { destruct probs; [congruence|simpl in Hlen; discriminate]. }
  split.
  - destruct (In_nth _ _ 0 (rmax1_In ys y)) as (k & Hk & Hv).
    exists k. rewrite Hlen in Hk. split; [exact Hk|]. now rewrite <- Hnth.
  - intros k Hk. rewrite <- Hnth by assumption. apply rmax1_upper.
    apply nth_In. now rewrite Hlen.
Qed.

End StripesAndMaxima.

(** ** C4: what of an iteration does not depend on the number of ranks *)

Section EStepRefinement.

Import Arr.
Open Scope R_scope.

Variable slice_gen : list R -> R -> Z -> list R.
Variable e : Legacy.EMC.
Variable model : list R.
Variable k : Z.

Hypothesis num_data_range :
  (0 <= Legacy.num_data (Legacy.dset e) <= 2 ^ 32 - 32)%Z.
Hypothesis orientations : (0 < Legacy.num_rot e)%Z.
Hypothesis ranks_positive : (0 < k)%Z.
Hypothesis ranks_divide : (k | Legacy.num_rot e)%Z.

Let ncol := Z.to_nat (Legacy.num_data (Legacy.dset e)).
Let lrow := log_row slice_gen e model.







End EStepRefinement.

Section ProcessCountEStep.

Import Arr.
Open Scope R_scope.



End ProcessCountEStep.

Section ProcessCountDoubles.

Import PrimFloat.
Local Open Scope float_scope.

(** The normaliser of the frame of [six_orientations] is the sum of
    the six terms [faint_term; 0; 1; fair_term; 0; 0].  One rank gets
    [psum_one_rank], whether it adds in index order, in reverse order,
    neighbours first, or in a tree of stride 4; three ranks, which hold
    orientations 0 and 3, 1 and 4, 2 and 5, get [psum_three_ranks], in
    any order of the ranks. *)
Lemma six_orientations_normaliser :
  let a := [faint_term; 0; 1; fair_term; 0; 0] in
  Doubles.sum0 1 (map (fun x => [x]) a) = [psum_one_rank] /\
  Doubles.fsum (rev a) = psum_one_rank /\
  Doubles.fsum [faint_term + 0; 1 + fair_term; 0 + 0] = psum_one_rank /\
  Doubles.fsum [Doubles.fsum [faint_term; 0; 1]; Doubles.fsum [0; 0; fair_term]]
  = psum_one_rank /\
  Doubles.Allreduce_SUM 1 [[faint_term + fair_term]; [0 + 0]; [1 + 0]]
  = [psum_three_ranks] /\
  Doubles.fsum [1 + 0; 0 + 0; faint_term + fair_term] = psum_three_ranks /\
  Doubles.fsum [0 + 0; faint_term + fair_term; 1 + 0] = psum_three_ranks.
Proof. cbv zeta. repeat split; vm_compute; reflexivity. Qed.

(** The responsibilities of the two runs.  The quotient of the faint
    term is below [P_MIN] after the division by the sum of one rank and
    is [P_MIN] itself after the division by the sum of three: line 134
    zeroes the first and keeps the second. *)
Lemma six_orientations_responsibilities :
  six_orientations_prob 1
  = Some ([[[0]; [0]; [1 / psum_one_rank]; [fair_term / psum_one_rank]; [0]; [0]]],
          [2%Z]) /\
  six_orientations_prob 3
  = Some ([[[faint_term / psum_three_ranks]; [fair_term / psum_three_ranks]];
           [[0]; [0]];
           [[1 / psum_three_ranks]; [0]]],
          [2%Z]) /\
  (faint_term / psum_one_rank <? Doubles.P_MIN) = true /\
  faint_term / psum_three_ranks = Doubles.P_MIN.
Proof. repeat split; vm_compute; reflexivity. Qed.


End ProcessCountDoubles.

(** ** The probability buffer of the package engine *)

Section EngineBuffer.

Import Arr.
Open Scope R_scope.

Variable slice_gen : list R -> Z -> list R.
Variable slice_merge : list R -> Z -> list R * list R -> list R * list R.
Variable e : Engine.EMC.
Variable model : list R.

Lemma initial_buffer_wf : buffer_wf Engine.initial_buffer.
Proof. intros n w H. discriminate. Qed.

Lemma ensure_buffer_shape (old : Engine.buffer) (junk : nat -> nat -> R) (n w : Z) :
  buffer_wf old ->
  Engine.shape (Engine.ensure_buffer old junk n w) = [n; w] /\
  length (Engine.data (Engine.ensure_buffer old junk n w)) = Z.to_nat n /\
  well_shaped (Z.to_nat w) (Engine.data (Engine.ensure_buffer old junk n w)).
Proof.
  intros Hwf. unfold Engine.ensure_buffer.
  destruct (list_eq_dec Z.eq_dec (Engine.shape old) [n; w]) as [Heq|Hne].
  - split; [exact Heq|]. now apply Hwf.
  - cbn [Engine.shape Engine.data]. split; [reflexivity|]. split; [apply length_empty|].
    intros row Hrow. unfold empty in Hrow. apply in_map_iff in Hrow.
    destruct Hrow as (i & <- & _). now rewrite length_map, length_seq.
Qed.

Lemma estep_loop_snoc (drange : Z * Z) (dmodel : list R) (l : list Z) (r : Z)
    (vp : matrix * matrix) :
  estep_loop slice_gen e model drange dmodel (l ++ [r]) vp
  = estep_step slice_gen e model drange dmodel (estep_loop slice_gen e model drange dmodel l vp) (length l, r).
Proof. unfold estep_loop. now rewrite enumerate_app, fold_left_app. Qed.

Lemma calculate_prob_loop (rank : Z) (drange : Z * Z) (st : Engine.rank_state) :
  Engine.calculate_prob slice_gen e rank model drange st
  = let vp := estep_loop slice_gen e model drange (Engine.dmodel st)
                (Striping.owned (Engine.num_rot e) (Engine.num_proc e) rank)
                (Engine.views st, Engine.prob st) in
    {| Engine.prob := snd vp; Engine.views := fst vp;
       Engine.dmodel := Engine.dmodel st; Engine.dmweights := Engine.dmweights st |}.
Proof. reflexivity. Qed.

(** Two runs of the loop from the same views and from buffers of one
    shape: the views stay equal, the rows the loop has visited are equal,
    the other rows are as they were. *)
Lemma estep_loop_related (drange : Z * Z) (dmodel : list R) (l : list Z)
    (views prob1 prob2 : matrix) :
  (0 <= snd drange - fst drange <= 2 ^ 32 - 32)%Z ->
  (forall i, (i < length l)%nat ->
     length (nth i prob1 []) = Z.to_nat (snd drange - fst drange) /\
     length (nth i prob2 []) = Z.to_nat (snd drange - fst drange)) ->
  (length l <= length prob1)%nat -> (length l <= length prob2)%nat ->
  let r1 := estep_loop slice_gen e model drange dmodel l (views, prob1) in
  let r2 := estep_loop slice_gen e model drange dmodel l (views, prob2) in
  fst r1 = fst r2 /\
  length (snd r1) = length prob1 /\ length (snd r2) = length prob2 /\
  (forall i, (i < length l)%nat -> nth i (snd r1) [] = nth i (snd r2) []) /\
  (forall i, (length l <= i)%nat ->
     nth i (snd r1) [] = nth i prob1 [] /\ nth i (snd r2) [] = nth i prob2 []).
Proof.
  intros Hnd. induction l as [|r l IH] using rev_ind; intros Hrows Hl1 Hl2; cbv zeta.
  - unfold estep_loop. simpl. repeat split; try reflexivity. intros i Hi. simpl in Hi. lia.
  - rewrite length_app in Hrows, Hl1, Hl2. simpl length in Hrows, Hl1, Hl2.
    destruct IH as (Hv & Hlen1 & Hlen2 & Hvis & Hrest);
      [intros i Hi; apply Hrows; lia|lia|lia|].
    rewrite !estep_loop_snoc.
    set (r1 := estep_loop slice_gen e model drange dmodel l (views, prob1)) in *.
    set (r2 := estep_loop slice_gen e model drange dmodel l (views, prob2)) in *.
    unfold estep_step. cbn [fst snd]. rewrite <- Hv. rewrite !length_set_nth, length_app. simpl length.
    split; [reflexivity|]. split; [exact Hlen1|]. split; [exact Hlen2|].
    destruct (Hrest (length l) (le_n _)) as [Hr1 Hr2].
    destruct (Hrows (length l) ltac:(lia)) as [Hw1 Hw2].
    split.
    + intros i Hi. rewrite !nth_set_nth, Hlen1, Hlen2.
      destruct (Nat.eq_dec i (length l)) as [->|Hne].
      * rewrite Nat.eqb_refl.
        replace (length l <? length prob1)%nat with true by (symmetry; apply Nat.ltb_lt; lia).
        replace (length l <? length prob2)%nat with true by (symmetry; apply Nat.ltb_lt; lia).
        cbn [andb]. rewrite !calc_prob_all_row; try reflexivity; try assumption.
        -- now rewrite Hr2.
        -- now rewrite Hr1.
      * replace (i =? length l)%nat with false by (symmetry; apply Nat.eqb_neq; lia).
        cbn [andb]. apply Hvis. lia.
    + intros i Hi. rewrite !nth_set_nth.
      replace (i =? length l)%nat with false by (symmetry; apply Nat.eqb_neq; lia).
      cbn [andb]. apply Hrest. lia.
Qed.

(** When the block is as wide as the buffers, [_calculate_prob] leaves
    the same state from any two buffers of that shape. *)
Lemma calculate_prob_overwrites (rank : Z) (drange : Z * Z) (st1 st2 : Engine.rank_state) :
  (0 <= snd drange - fst drange <= 2 ^ 32 - 32)%Z ->
  Engine.views st1 = Engine.views st2 ->
  Engine.dmodel st1 = Engine.dmodel st2 ->
  Engine.dmweights st1 = Engine.dmweights st2 ->
  length (Engine.prob st1)
  = length (Striping.owned (Engine.num_rot e) (Engine.num_proc e) rank) ->
  length (Engine.prob st2)
  = length (Striping.owned (Engine.num_rot e) (Engine.num_proc e) rank) ->
  well_shaped (Z.to_nat (snd drange - fst drange)) (Engine.prob st1) ->
  well_shaped (Z.to_nat (snd drange - fst drange)) (Engine.prob st2) ->
  Engine.calculate_prob slice_gen e rank model drange st1
  = Engine.calculate_prob slice_gen e rank model drange st2.
Proof.
  intros Hnd Hv Hm Hw Hl1 Hl2 Hs1 Hs2. rewrite !calculate_prob_loop. cbv zeta.
  rewrite <- Hv, <- Hm, <- Hw.
  destruct (estep_loop_related drange (Engine.dmodel st1)
              (Striping.owned (Engine.num_rot e) (Engine.num_proc e) rank)
              (Engine.views st1) (Engine.prob st1) (Engine.prob st2) Hnd)
    as (Hfst & Hlen1 & Hlen2 & Hvis & _); [|lia|lia|].
  - intros i Hi. split; [apply Hs1|apply Hs2]; apply nth_In; lia.
  - cbv zeta in Hfst, Hlen1, Hlen2, Hvis. rewrite <- Hfst. f_equal.
    apply nth_ext with (d := []) (d' := []); [lia|].
    intros i Hi. apply Hvis. lia.
Qed.

End EngineBuffer.

(** ** C6: what the probability buffer held does not matter *)

Section BufferTheorem.

Import Arr.
Open Scope R_scope.

Lemma fold_left_Zmax_bound (l : list Z) (x : Z) :
  (forall y, In y l -> (y <= x)%Z) -> fold_left Z.max l x = x.
Proof.
  induction l as [|y l IH]; intros H; simpl; [reflexivity|].
  rewrite Z.max_l by (apply H; now left). apply IH. intros z Hz. apply H. now right.
Qed.

Lemma mapM_cons_inv {A B} (f : A -> option B) (l : list A) (y : B) (ys : list B) :
  Normalize.mapM f l = Some (y :: ys) -> exists x xs, l = x :: xs /\ f x = Some y.
Proof.
  destruct l as [|x xs]; simpl; [discriminate|].
  destruct (f x) as [y'|] eqn:Hfx; [|discriminate].
  destruct (Normalize.mapM f xs); [|discriminate].
  intros H. injection H as -> _. exists x, xs. now split.
Qed.

(** The first block of a schedule starts at 0 and is as wide as the
    buffer. *)
Lemma rank_schedule_first (e : Engine.EMC) (rank n w : Z) (dr : list (Z * Z)) :
  (0 <= Engine.num_data (Engine.dset e))%Z ->
  Engine.rank_schedule e rank = Some (n, (dr, w)) ->
  n = Striping.num_rot_p (Engine.num_rot e) (Engine.num_proc e) rank /\
  (0 <= w <= Engine.num_data (Engine.dset e))%Z /\
  exists rest, dr = (0%Z, w) :: rest.
Proof.
  intros HD. unfold Engine.rank_schedule, Partition.schedule.
  destruct (Partition.num_blocks _ _ _ _) as [nb|]; [|discriminate].
  set (D := Engine.num_data (Engine.dset e)) in *.
  destruct (Z.lt_trichotomy nb 0) as [Hneg|[Hz|Hpos]].
  - rewrite block_sizes_negative by assumption. discriminate.
  - unfold Partition.block_sizes. rewrite Hz. discriminate.
  - rewrite block_sizes_closed by assumption.
    pose proof (Z.mod_pos_bound D nb Hpos) as Hm.
    pose proof (Z.div_mod D nb ltac:(lia)) as Hdm.
    assert (Hq : (0 <= D / nb)%Z) by (apply Z.div_pos; lia).
    set (q := (D / nb)%Z) in *. set (m := (D mod nb)%Z) in *.
    destruct (Z.to_nat m) as [|m'] eqn:Hmn.
    + destruct (Z.to_nat nb - 0)%nat as [|nb'] eqn:Hnb; [lia|].
      cbn [repeat app Py.zmax Partition.dranges].
      rewrite fold_left_Zmax_bound
        by (intros y Hy; apply repeat_spec in Hy; lia).
      intros H. injection H as <- <- <-. split; [reflexivity|].
      split; [nia|]. eexists. reflexivity.
    + cbn [repeat app Py.zmax Partition.dranges].
      rewrite fold_left_Zmax_bound
        by (intros y Hy; apply in_app_or in Hy;
            destruct Hy as [Hy|Hy]; apply repeat_spec in Hy; lia).
      intros H. injection H as <- <- <-. split; [reflexivity|].
      split; [nia|]. eexists. reflexivity.
Qed.

Lemma map_combine_shape {S T} (F : list Z -> S -> T) (bufs : list Engine.buffer)
    (sts : list S) :
  map (fun bs => F (Engine.shape (fst bs)) (snd bs)) (combine bufs sts)
  = map (fun ss => F (fst ss) (snd ss)) (combine (map Engine.shape bufs) sts).
Proof.
  revert sts. induction bufs as [|b bufs IH]; intros [|s sts]; simpl; try reflexivity.
  now rewrite IH.
Qed.

Lemma engine_ranks_In (e : Engine.EMC) (rank : Z) :
  In rank (Engine.ranks e) <-> (0 <= rank < Engine.num_proc e)%Z.
Proof. unfold Engine.ranks. rewrite zrange_In. lia. Qed.

(** C6, amended.  The probability buffer is not zero-initialised: a
    buffer of a new shape is allocated with unspecified contents, one of
    the needed shape is kept as it is.  What it holds does not matter all
    the same: the first block of the schedule is as wide as the buffer,
    and its E-step stores a log-likelihood into every cell of every owned
    row before the first normalisation.  So one iteration yields the same
    model, weights and buffers from any two well-formed old buffers and
    any two contents of the fresh ones. *)
Theorem buffer_contents_do_not_matter
    (slice_gen : list R -> Z -> list R)
    (slice_merge : list R -> Z -> list R * list R -> list R * list R)
    (e : Engine.EMC) (model : list R) (mweights : Z -> list R)
    (old1 old2 : Z -> Engine.buffer) (junk1 junk2 vjunk : Z -> nat -> nat -> R) :
  (0 < Engine.num_proc e)%Z -> (0 <= Engine.num_rot e)%Z ->
  (0 <= Engine.num_data (Engine.dset e) <= 2 ^ 32 - 32)%Z ->
  (forall rank, buffer_wf (old1 rank)) -> (forall rank, buffer_wf (old2 rank)) ->
  Engine.run_iteration slice_gen slice_merge e model mweights old1 junk1 vjunk
  = Engine.run_iteration slice_gen slice_merge e model mweights old2 junk2 vjunk.
Proof.
  intros HP HN HD Hwf1 Hwf2. unfold Engine.run_iteration.
  destruct (Normalize.mapM (Engine.rank_schedule e) (Engine.ranks e))
    as [[|[n0 [dr w]] others]|] eqn:Hs; try reflexivity.
  destruct (forallb _ others); [|reflexivity].
  apply mapM_cons_inv in Hs. destruct Hs as (rank0 & ranks' & _ & Hs0).
  apply rank_schedule_first in Hs0; [|lia].
  destruct Hs0 as (_ & Hw & rest & ->).
  set (nrp := fun rank => Striping.num_rot_p (Engine.num_rot e) (Engine.num_proc e) rank).
  set (buf := fun (old : Z -> Engine.buffer) (junk : Z -> nat -> nat -> R) rank =>
                Engine.ensure_buffer (old rank) (junk rank) (nrp rank) w).
  set (st_of := fun (old : Z -> Engine.buffer) (junk : Z -> nat -> nat -> R) rank =>
                  {| Engine.prob := Engine.data (buf old junk rank);
                     Engine.views := empty (vjunk rank) (Z.to_nat (Engine.num_streams e))
                                       (Z.to_nat (Engine.size e ^ 2));
                     Engine.dmodel := model;
                     Engine.dmweights := mweights rank |}).
  assert (Hsts : forall old junk,
            map (fun rb =>
                   {| Engine.prob := Engine.data (snd rb);
                      Engine.views := empty (vjunk (fst rb))
                                        (Z.to_nat (Engine.num_streams e))
                                        (Z.to_nat (Engine.size e ^ 2));
                      Engine.dmodel := model;
                      Engine.dmweights := mweights (fst rb) |})
                (combine (Engine.ranks e) (map (buf old junk) (Engine.ranks e)))
            = map (st_of old junk) (Engine.ranks e)).
  { intros old junk. now rewrite combine_map_self, map_map. }
  fold (buf old1 junk1) (buf old2 junk2). rewrite !Hsts.
  assert (Hstep : Engine.block_step slice_gen slice_merge e model (Z.to_nat w)
                    (map (st_of old1 junk1) (Engine.ranks e)) (0%Z, w)
                  = Engine.block_step slice_gen slice_merge e model (Z.to_nat w)
                      (map (st_of old2 junk2) (Engine.ranks e)) (0%Z, w)).
  { assert (HE : map (fun rs => Engine.calculate_prob slice_gen e (fst rs) model
                                   (0%Z, w) (snd rs))
                     (combine (Engine.ranks e) (map (st_of old1 junk1) (Engine.ranks e)))
                 = map (fun rs => Engine.calculate_prob slice_gen e (fst rs) model
                                     (0%Z, w) (snd rs))
                     (combine (Engine.ranks e) (map (st_of old2 junk2) (Engine.ranks e))));
      [|unfold Engine.block_step; cbv zeta; now rewrite HE].
    rewrite !combine_map_self, !map_map. cbn [fst snd]. apply map_ext_in.
    intros rank Hr. apply engine_ranks_In in Hr.
    destruct (ensure_buffer_shape (old1 rank) (junk1 rank) (nrp rank) w (Hwf1 rank))
      as (_ & Hl1 & Hs1).
    destruct (ensure_buffer_shape (old2 rank) (junk2 rank) (nrp rank) w (Hwf2 rank))
      as (_ & Hl2 & Hs2).
    apply calculate_prob_overwrites; cbn [fst snd st_of Engine.prob Engine.views
                                            Engine.dmodel Engine.dmweights];
      try reflexivity; rewrite ?Z.sub_0_r; try assumption; try lia.
    - unfold buf. rewrite Hl1. unfold nrp. now rewrite owned_length by lia.
    - unfold buf. rewrite Hl2. unfold nrp. now rewrite owned_length by lia. }
  cbn [Engine.run_blocks]. rewrite Hstep.
  set (first_block := Engine.block_step slice_gen slice_merge e model (Z.to_nat w)
                        (map (st_of old2 junk2) (Engine.ranks e)) (0%Z, w)).
  clearbody first_block. destruct first_block as [sts|]; [|reflexivity].
  set (blocks := Engine.run_blocks slice_gen slice_merge e model (Z.to_nat w) sts rest).
  clearbody blocks. destruct blocks as [sts'|]; [|reflexivity].
  f_equal. f_equal.
  rewrite (map_combine_shape (fun sh st => {| Engine.shape := sh;
                                              Engine.data := Engine.prob st |})).
  rewrite (map_combine_shape (fun sh st => {| Engine.shape := sh;
                                              Engine.data := Engine.prob st |})
             (map (buf old2 junk2) (Engine.ranks e))).
  f_equal. f_equal. rewrite !map_map. apply map_ext. intros rank. unfold buf.
  destruct (ensure_buffer_shape (old1 rank) (junk1 rank) (nrp rank) w (Hwf1 rank)) as [-> _].
  now destruct (ensure_buffer_shape (old2 rank) (junk2 rank) (nrp rank) w (Hwf2 rank))
    as [-> _].
Qed.

End BufferTheorem.

Section StaleColumn.

Import Arr.
Open Scope R_scope.

(** With a single orientation every responsibility is 1 after
    [_normalize_prob], in every column of the buffer. *)
Lemma normalize_single_row (num_proc : Z) (a b : R) :
  exists rmax,
    Normalize.normalize_prob Normalize.floor_clip num_proc 2 [[[a; b]]]
    = Some ([[[1; 1]]], rmax).
Proof.
  unfold Normalize.normalize_prob.
  destruct (normalize_upto_divide_some num_proc 2 [[[a; b]]]) as [rmax ->];
    [intros m [<-|[]]; discriminate|].
  exists rmax. f_equal. f_equal.
  unfold normaliser, shifted, Normalize.divide, Normalize.exp_shift,
    MPI.Allreduce_MAX, MPI.Allreduce_SUM, sum0, col_max.
  cbn [map seq col nth concat app map2 combine fst snd rmax1 fold_left].
  rewrite !rsum_cons, !rsum_nil.
  replace (a - a) with 0 by lra. replace (b - b) with 0 by lra. rewrite exp_0.
  assert (H1 : Normalize.floor_clip (1 / (1 + 0 + 0)) = 1).
  { unfold Normalize.floor_clip, Normalize.P_MIN.
    replace (1 / (1 + 0 + 0)) with 1 by (unfold Rdiv; rewrite Rplus_0_r, Rplus_0_r, Rinv_1; ring).
    apply Rmax_left. lra. }
  now rewrite H1.
Qed.

Lemma stale_run_calculate_prob (slice_gen : list R -> Z -> list R) (model : list R)
    (drange : Z * Z) (st : Engine.rank_state) (a b : R) :
  Engine.prob st = [[a; b]] ->
  exists a' b',
    Engine.prob (Engine.calculate_prob slice_gen stale_run 0 model drange st)
    = [[a'; b']].
Proof.
  intros Hp. unfold Engine.calculate_prob.
  change (Py.enumerate _) with [(O, 0%Z)].
  cbn [fold_left fst snd Engine.prob]. rewrite Hp. cbn [nth set_nth].
  match goal with |- context [Kernels.calc_prob_all ?g ?v ?n ?f ?i ?s [a; b]] =>
    pose proof (length_calc_prob_all g v n f i s [a; b]) as Hlen;
    destruct (Kernels.calc_prob_all g v n f i s [a; b]) as [|a' [|b' [|c l]]];
    try discriminate Hlen
  end.
  exists a', b'. reflexivity.
Qed.

(** In every block of [stale_run] the M-step sees the row [1; 1]. *)
Lemma stale_run_block_step (slice_gen : list R -> Z -> list R)
    (slice_merge : list R -> Z -> list R * list R -> list R * list R)
    (model : list R) (drange : Z * Z) (st : Engine.rank_state) (a b : R) :
  Engine.prob st = [[a; b]] ->
  exists st',
    Engine.block_step slice_gen slice_merge stale_run model 2 [st] drange = Some [st'] /\
    Engine.prob st' = [[1; 1]].
Proof.
  intros Hp. unfold Engine.block_step. cbv zeta.
  change (Engine.ranks stale_run) with [0%Z]. cbn [combine map fst snd].
  destruct (stale_run_calculate_prob slice_gen model drange st a b Hp) as (a' & b' & ->).
  unfold Engine.normalize_prob.
  destruct (normalize_single_row (Engine.num_proc stale_run) a' b') as [rmax Hn].
  eexists. rewrite Hn. cbn [combine map fst snd]. split; reflexivity.
Qed.

(** The claim as stated fails on [stale_run].  The fresh buffer holds
    what the allocator left (here 7 in each cell), not zeros; the second
    block, [(2, 3)], has one frame, and after its normalisation the buffer
    row is [1; 1]: column 1 is the renormalised responsibility of the first
    block's frame 1.  Its M-step divides by the row sum 2, where the
    responsibilities of the block's frame sum to 1. *)
Lemma stale_column_in_responsibility_sum :
  Engine.rank_schedule stale_run 0 = Some (1%Z, ([(0%Z, 2%Z); (2%Z, 3%Z)], 2%Z)) /\
  Engine.data (Engine.ensure_buffer Engine.initial_buffer (fun _ _ => 7) 1 2)
  = [[7; 7]] /\
  exists model' mweights',
    Engine.run_iteration (fun _ _ => [0; 0; 0; 0]) (fun _ _ mw => mw) stale_run
      [5; 5; 5; 5] (fun _ => [0; 0; 0; 0]) (fun _ => Engine.initial_buffer)
      (fun _ _ _ => 7) (fun _ _ _ => 0)
    = Some (model', mweights',
            [{| Engine.shape := [1%Z; 2%Z]; Engine.data := [[1; 1]] |}]) /\
    sum1 [[1; 1]] = [2] /\ rsum (firstn 1 [1; 1]) = 1.
Proof.
  assert (Hsched : Engine.rank_schedule stale_run 0
                   = Some (1%Z, ([(0%Z, 2%Z); (2%Z, 3%Z)], 2%Z)))
    by (vm_compute; reflexivity).
  assert (Hbuf : forall junk,
             Engine.ensure_buffer Engine.initial_buffer junk 1 2
             = {| Engine.shape := [1%Z; 2%Z];
                  Engine.data := [[junk O O; junk O 1%nat]] |}).
  { intros junk. unfold Engine.ensure_buffer.
    destruct (list_eq_dec Z.eq_dec (Engine.shape Engine.initial_buffer) [1%Z; 2%Z]);
      [discriminate|reflexivity]. }
  split; [exact Hsched|]. split; [now rewrite Hbuf|].
  unfold Engine.run_iteration.
  change (Engine.ranks stale_run) with [0%Z].
  cbn [Normalize.mapM]. rewrite Hsched. cbn [forallb map combine fst snd].
  change (Striping.num_rot_p (Engine.num_rot stale_run) (Engine.num_proc stale_run) 0)
    with 1%Z.
  rewrite Hbuf. cbn [Engine.data Engine.shape Engine.run_blocks].
  change (Z.to_nat 2) with 2%nat.
  match goal with
  | |- context [Engine.block_step ?sg ?sm stale_run ?m 2 [?st] (0%Z, 2%Z)] =>
      destruct (stale_run_block_step sg sm m (0%Z, 2%Z) st 7 7 eq_refl)
        as (st1 & -> & Hp1)
  end.
  destruct (stale_run_block_step (fun _ _ => [0; 0; 0; 0]) (fun _ _ mw => mw)
              [5; 5; 5; 5] (2%Z, 3%Z) st1 1 1 Hp1) as (st2 & -> & Hp2).
  cbn [map combine fst snd]. rewrite Hp2.
  eexists. eexists. split; [reflexivity|].
  unfold sum1. cbn [map firstn]. rewrite !rsum_cons, rsum_nil.
  split; [f_equal; lra|lra].
Qed.

(** The iteration of [stale_run] from two different fillings of the
    fresh buffer. *)
Lemma buffer_contents_do_not_matter_witness :
  Engine.run_iteration (fun _ _ => [0; 0; 0; 0]) (fun _ _ mw => mw) stale_run
    [5; 5; 5; 5] (fun _ => [0; 0; 0; 0]) (fun _ => Engine.initial_buffer)
    (fun _ _ _ => 7) (fun _ _ _ => 0)
  = Engine.run_iteration (fun _ _ => [0; 0; 0; 0]) (fun _ _ mw => mw) stale_run
      [5; 5; 5; 5] (fun _ => [0; 0; 0; 0]) (fun _ => Engine.initial_buffer)
      (fun _ _ _ => 0) (fun _ _ _ => 0).
Proof.
  apply (buffer_contents_do_not_matter (fun _ _ => [0; 0; 0; 0]) (fun _ _ mw => mw)
           stale_run [5; 5; 5; 5] (fun _ => [0; 0; 0; 0])
           (fun _ => Engine.initial_buffer) (fun _ => Engine.initial_buffer)
           (fun _ _ _ => 7) (fun _ _ _ => 0) (fun _ _ _ => 0)).
  - simpl. lia.
  - simpl. lia.
  - simpl. lia.
  - intros rank. apply initial_buffer_wf.
  - intros rank. apply initial_buffer_wf.
Defined.

End StaleColumn.

(* ================================================================== *)
(** * Part IV. Further properties of the code                          *)
(* ================================================================== *)

(** ** Rows, ranks and orientations *)

Section RowsAndRanks.

Import Arr.
Open Scope Z_scope.

Lemma length_concat_map {A B} (f : A -> list B) (l : list A) :
  Z.of_nat (length (concat (map f l)))
  = Py.zsum (map (fun a => Z.of_nat (length (f a))) l).
Proof.
  induction l as [|a l IH]; [reflexivity|].
  cbn [map concat]. rewrite length_app, Nat2Z.inj_add, IH. reflexivity.
Qed.

Lemma num_rot_p_nonneg (num_rot num_proc rank : Z) :
  0 < num_proc -> 0 <= num_rot -> 0 <= Striping.num_rot_p num_rot num_proc rank.
Proof.
  intros HP HN. unfold Striping.num_rot_p.
  assert (0 <= num_rot / num_proc) by (apply Z.div_pos; lia).
  destruct (_ <? _); lia.
Qed.

(** X1.  The loops of the ranks of a communicator visit every
    orientation below [num_rot] once: the stripes of ranks [0] to
    [num_proc - 1], one after the other, are a rearrangement of
    [0, ..., num_rot - 1].  The local matrix [run_iteration] allocates has
    one row per visited orientation ([num_rot_p] is the length of the
    stripe), and the row counts of all ranks add up to [num_rot]. *)
Theorem stripes_partition_orientations (num_rot num_proc : Z) :
  0 < num_proc -> 0 <= num_rot ->
  Permutation (concat (map (Striping.owned num_rot num_proc) (zrange 0 num_proc)))
              (zrange 0 num_rot) /\
  (forall rank, 0 <= rank < num_proc ->
     Z.of_nat (length (Striping.owned num_rot num_proc rank))
     = Striping.num_rot_p num_rot num_proc rank) /\
  Py.zsum (map (Striping.num_rot_p num_rot num_proc) (zrange 0 num_proc)) = num_rot.
Proof.
  intros HP HN.
  pose proof (stripes_Permutation num_rot num_proc HP HN) as Hperm.
  assert (Hlen : forall rank, 0 <= rank < num_proc ->
            Z.of_nat (length (Striping.owned num_rot num_proc rank))
            = Striping.num_rot_p num_rot num_proc rank).
  { intros rank Hr. rewrite owned_length by lia.
    apply Z2Nat.id. now apply num_rot_p_nonneg. }
  split; [exact Hperm|]. split; [exact Hlen|].
  apply Permutation_length in Hperm.
  apply (f_equal Z.of_nat) in Hperm.
  rewrite length_concat_map, length_zrange, Z2Nat.id in Hperm by lia.
  etransitivity; [|exact Hperm]. f_equal.
  apply map_ext_in. intros rank Hr. apply zrange_In in Hr.
  symmetry. apply Hlen. lia.
Qed.

(** Eight orientations on three ranks: rows 3, 3 and 2. *)
Lemma stripes_partition_orientations_witness :
  Permutation (concat (map (Striping.owned 8 3) (zrange 0 3))) (zrange 0 8) /\
  (forall rank, 0 <= rank < 3 ->
     Z.of_nat (length (Striping.owned 8 3 rank)) = Striping.num_rot_p 8 3 rank) /\
  Py.zsum (map (Striping.num_rot_p 8 3) (zrange 0 3)) = 8.
Proof. apply (stripes_partition_orientations 8 3); lia. Defined.

End RowsAndRanks.

(** ** More ranks than orientations *)

Section EmptyStripe.

Import Arr.
Open Scope R_scope.

Variable slice_gen : list R -> R -> Z -> list R.

(** X2.  The stand-alone engine completes an iteration exactly when
    every rank owns an orientation.  With more ranks than orientations
    the last rank allocates a matrix without rows, and [prob.max(0)] of
    [_normalize_prob] raises on it; with [num_proc <= num_rot] every step
    of the iteration returns. *)
Theorem run_iteration_raises_iff_rank_without_orientation
    (e : Legacy.EMC) (model : list R) (mweights : Z -> list R)
    (junk : Z -> nat -> nat -> R) (vjunk : Z -> nat -> R) :
  (0 <= Legacy.num_data (Legacy.dset e) <= 2 ^ 32 - 32)%Z ->
  (0 < Legacy.num_proc e)%Z -> (0 <= Legacy.num_rot e)%Z ->
  (forall rank, length (mweights rank) = length model) ->
  (Legacy.run_iteration slice_gen e model mweights junk vjunk = None
   <-> (Legacy.num_rot e < Legacy.num_proc e)%Z).
Proof.
  intros Hnd HP HN Hshape. split.
  - intros Hnone.
    destruct (Z_lt_le_dec (Legacy.num_rot e) (Legacy.num_proc e)) as [Hlt|Hle];
      [exact Hlt|].
    rewrite (run_iteration_reference slice_gen e model Hnd (conj HP Hle)
               mweights junk vjunk Hshape) in Hnone.
    discriminate.
  - intros Hlt. rewrite run_iteration_accumulate by exact Hshape.
    unfold Legacy.normalize_prob, Normalize.normalize_prob.
    rewrite normalize_upto_divide_none; [reflexivity|].
    unfold likelihoods. apply in_map_iff.
    exists (Legacy.num_proc e - 1)%Z. split.
    + apply length_zero_iff_nil.
      rewrite length_calculate_prob, length_empty.
      unfold Striping.num_rot_p.
      rewrite Z.div_small, Z.mod_small by lia.
      destruct (Z.ltb_spec (Legacy.num_proc e - 1) (Legacy.num_rot e)); [lia|].
      reflexivity.
    + apply ranks_In. lia.
Qed.

End EmptyStripe.

Section EmptyStripeWitness.

Import Arr.
Open Scope R_scope.

(** Two ranks for the one orientation of [corner_run]: the run raises. *)
Lemma run_iteration_raises_iff_rank_without_orientation_witness :
  Legacy.run_iteration (fun _ _ _ => [0; 0; 0; 0]) (with_num_proc corner_run 2)
    [5; 5; 5; 5] (fun _ => [0; 0; 0; 0]) (fun _ _ _ => 0) (fun _ _ => 0) = None
  <-> (Legacy.num_rot (with_num_proc corner_run 2)
       < Legacy.num_proc (with_num_proc corner_run 2))%Z.
Proof.
  apply (run_iteration_raises_iff_rank_without_orientation
           (fun _ _ _ => [0; 0; 0; 0]) (with_num_proc corner_run 2)
           [5; 5; 5; 5] (fun _ => [0; 0; 0; 0]) (fun _ _ _ => 0) (fun _ _ => 0)).
  - simpl. lia.
  - simpl. lia.
  - simpl. lia.
  - intros rank. reflexivity.
Defined.

End EmptyStripeWitness.

(** ** When the package engine has a schedule *)

Section ScheduleExists.

Import Arr.
Open Scope Z_scope.

Lemma num_blocks_of_work (n a : Z) :
  0 < a -> 0 < n ->
  0 < Qceiling ((inject_Z (n * 8) / inject_Z a) / Partition.MEM_THRESH)%Q.
Proof.
  intros Ha Hn. unfold Partition.MEM_THRESH.
  set (x := ((inject_Z (n * 8) / inject_Z a) / (8 # 10))%Q).
  pose proof (Qle_ceiling x) as Hle. set (nb := Qceiling x) in *.
  unfold x in Hle.
  destruct a as [|p|p]; [lia| |lia].
  unfold Qle, Qdiv, Qmult, Qinv, inject_Z in Hle; cbn [Qnum Qden] in Hle.
  rewrite ?Pos2Z.inj_mul in Hle. nia.
Qed.

Lemma zmax_some (l : list Z) : l <> [] -> exists w, Py.zmax l = Some w.
Proof. destruct l as [|x l]; [congruence|]. intros _. eexists. reflexivity. Qed.

(** With free memory, an owned orientation and a frame, a rank has a
    schedule; and only then. *)
Lemma rank_schedule_of_work (e : Engine.EMC) (rank : Z) :
  Engine.mem (Engine.dset e) < Engine.mem_size e ->
  0 < Striping.num_rot_p (Engine.num_rot e) (Engine.num_proc e) rank ->
  0 < Engine.num_data (Engine.dset e) ->
  exists s, Engine.rank_schedule e rank = Some s.
Proof.
  intros Hm HR HD. unfold Engine.rank_schedule, Partition.schedule, Partition.num_blocks,
    Partition.mem_frac.
  set (R_ := Striping.num_rot_p (Engine.num_rot e) (Engine.num_proc e) rank) in *.
  set (D := Engine.num_data (Engine.dset e)) in *.
  set (a := Engine.mem_size e - Engine.mem (Engine.dset e)).
  destruct (Z.eqb_spec a 0) as [Ha|Ha]; [unfold a in Ha; lia|].
  set (nb := Qceiling ((inject_Z (R_ * D * 8) / inject_Z a) / Partition.MEM_THRESH)%Q).
  assert (Hpos : 0 < nb) by (apply num_blocks_of_work; unfold a; nia).
  rewrite block_sizes_closed by assumption.
  set (sizes := repeat (D / nb + 1) (Z.to_nat (D mod nb))
                ++ repeat (D / nb) (Z.to_nat nb - Z.to_nat (D mod nb))).
  destruct (zmax_some sizes) as [w Hw].
  { intros Hnil. apply (f_equal (@length _)) in Hnil. unfold sizes in Hnil.
    rewrite length_app, !repeat_length in Hnil. simpl in Hnil.
    pose proof (Z.mod_pos_bound D nb Hpos). lia. }
  rewrite Hw. eexists. reflexivity.
Qed.

Lemma work_of_rank_schedule (e : Engine.EMC) (rank : Z) (s : Z * (list (Z * Z) * Z)) :
  0 <= Striping.num_rot_p (Engine.num_rot e) (Engine.num_proc e) rank ->
  0 <= Engine.num_data (Engine.dset e) ->
  Engine.rank_schedule e rank = Some s ->
  Engine.mem (Engine.dset e) < Engine.mem_size e /\
  0 < Striping.num_rot_p (Engine.num_rot e) (Engine.num_proc e) rank /\
  0 < Engine.num_data (Engine.dset e).
Proof.
  intros HR HD. unfold Engine.rank_schedule, Partition.schedule, Partition.num_blocks,
    Partition.mem_frac.
  set (R_ := Striping.num_rot_p (Engine.num_rot e) (Engine.num_proc e) rank) in *.
  set (D := Engine.num_data (Engine.dset e)) in *.
  set (a := Engine.mem_size e - Engine.mem (Engine.dset e)).
  destruct (Z.eqb_spec a 0) as [Ha|Ha]; [discriminate|].
  set (nb := Qceiling ((inject_Z (R_ * D * 8) / inject_Z a) / Partition.MEM_THRESH)%Q).
  assert (HRD : 0 <= R_ * D) by nia.
  destruct (Z.lt_trichotomy nb 0) as [Hneg|[Hz|Hpos]].
  - rewrite block_sizes_negative by assumption. discriminate.
  - unfold Partition.block_sizes. rewrite Hz. discriminate.
  - destruct (num_blocks_positive (R_ * D) a Ha HRD Hpos) as (Ha' & Hn & _).
    intros _. unfold a in Ha'. nia.
Qed.

(** X3.  A rank of the package engine gets a block schedule exactly when
    the device has memory left besides the dataset, the rank owns an
    orientation and the dataset has a frame.  Otherwise [run_iteration]
    raises before the first block: on the division by
    [mem_size - dset.mem] when that is zero, on [num_data // num_blocks]
    when [num_blocks] is zero, and on [block_sizes.max()] of an empty
    array when [num_blocks] is negative. *)
Theorem rank_schedule_iff_memory_and_work (e : Engine.EMC) (rank : Z) :
  0 <= Striping.num_rot_p (Engine.num_rot e) (Engine.num_proc e) rank ->
  0 <= Engine.num_data (Engine.dset e) ->
  ((exists s, Engine.rank_schedule e rank = Some s)
   <-> Engine.mem (Engine.dset e) < Engine.mem_size e /\
       0 < Striping.num_rot_p (Engine.num_rot e) (Engine.num_proc e) rank /\
       0 < Engine.num_data (Engine.dset e)).
Proof.
  intros HR HD. split.
  - intros [s Hs]. exact (work_of_rank_schedule e rank s HR HD Hs).
  - intros (Hm & HR' & HD'). now apply rank_schedule_of_work.
Qed.

(** The run of [stale_run] has 18 bytes free, one orientation and three
    frames. *)
Lemma rank_schedule_iff_memory_and_work_witness :
  (exists s, Engine.rank_schedule stale_run 0 = Some s)
  <-> Engine.mem (Engine.dset stale_run) < Engine.mem_size stale_run /\
      0 < Striping.num_rot_p (Engine.num_rot stale_run) (Engine.num_proc stale_run) 0 /\
      0 < Engine.num_data (Engine.dset stale_run).
Proof.
  apply (rank_schedule_iff_memory_and_work stale_run 0).
  - vm_compute. discriminate.
  - vm_compute. discriminate.
Defined.

End ScheduleExists.

(** ** The most likely orientation [rmax] *)

Section MostLikely.

Import Arr.
Open Scope R_scope.

Lemma fold_Zmax_In (xs : list Z) (x : Z) : In (fold_left Z.max xs x) (x :: xs).
Proof.
  revert x. induction xs as [|y xs IH]; intros x; [now left|].
  cbn [fold_left]. destruct (IH (Z.max x y)) as [H|H].
  - destruct (Z.max_spec x y) as [[_ Hm]|[_ Hm]].
    + right. left. lia.
    + left. lia.
  - right. right. exact H.
Qed.

Lemma fold_Zmax_upper (xs : list Z) (x y : Z) :
  In y (x :: xs) -> (y <= fold_left Z.max xs x)%Z.
Proof.
  revert x y. induction xs as [|z xs IH]; intros x y Hy.
  - destruct Hy as [->|[]]. cbn. lia.
  - cbn [fold_left].
    assert (Hm : (Z.max x z <= fold_left Z.max xs (Z.max x z))%Z)
      by (apply IH; now left).
    destruct Hy as [->|[->|Hy]]; [lia|lia|].
    apply IH. now right.
Qed.

Lemma enumerate_length {A} (l : list A) : length (Py.enumerate l) = length l.
Proof. unfold Py.enumerate. rewrite length_combine, length_seq. lia. Qed.

Lemma enumerate_nth {A} (l : list A) (k : nat) (d : A) :
  (k < length l)%nat -> nth k (Py.enumerate l) (O, d) = (k, nth k l d).
Proof.
  intros Hk. unfold Py.enumerate. rewrite combine_nth by now rewrite length_seq.
  now rewrite seq_nth.
Qed.

(** What [_normalize_prob] reports as [rmax]. *)
Lemma normalize_upto_divide_rmax (num_proc : Z) (ncol : nat) (probs : list matrix) :
  (forall m, In m probs -> m <> []) ->
  Normalize.normalize_upto_divide num_proc ncol probs
  = Some (map (Normalize.divide (normaliser ncol probs)) (shifted ncol probs),
          MPI.Allreduce_MAX_INT ncol
            (map2 (fun r mp =>
                     Normalize.invalidate r mp
                       (MPI.Allreduce_MAX ncol (map (col_max ncol) probs)))
               (map (fun rp => map (Striping.global_index num_proc (Z.of_nat (fst rp)))
                                   (col_argmax ncol (snd rp)))
                    (Py.enumerate probs))
               (map (col_max ncol) probs))).
Proof.
  intros Hne. unfold Normalize.normalize_upto_divide.
  rewrite (mapM_total (max0 ncol) (col_max ncol)) by (intros; apply max0_some; auto).
  rewrite (mapM_total _ (fun rp => map (Striping.global_index num_proc (Z.of_nat (fst rp)))
                                       (col_argmax ncol (snd rp)))).
  - reflexivity.
  - intros [i m] Him. apply enumerate_In in Him. unfold Normalize.rmax_local. cbn [fst snd].
    now rewrite argmax0_some by auto.
Qed.

Lemma length_col_argmax (ncol : nat) (m : matrix) : length (col_argmax ncol m) = ncol.
Proof. unfold col_argmax. now rewrite length_map, length_seq. Qed.

(** The entry of rank [k] for frame [d] in the integer reduction: its
    global arg-max where its local maximum is the global one, -1
    elsewhere. *)
Lemma rmax_contribution (num_proc : Z) (ncol d k : nat) (probs : list matrix) :
  (d < ncol)%nat -> (k < length probs)%nat ->
  nth d (nth k (map2 (fun r mp =>
                        Normalize.invalidate r mp
                          (MPI.Allreduce_MAX ncol (map (col_max ncol) probs)))
                  (map (fun rp => map (Striping.global_index num_proc (Z.of_nat (fst rp)))
                                      (col_argmax ncol (snd rp)))
                       (Py.enumerate probs))
                  (map (col_max ncol) probs)) []) 0%Z
  = if Req_dec_T (nth d (col_max ncol (nth k probs [])) 0)
                 (nth d (MPI.Allreduce_MAX ncol (map (col_max ncol) probs)) 0)
    then Striping.global_index num_proc (Z.of_nat k)
           (nth d (col_argmax ncol (nth k probs [])) O)
    else (-1)%Z.
Proof.
  intros Hd Hk.
  rewrite (nth_map2 _ _ _ k [] [] [])
    by (rewrite length_map, ?enumerate_length; assumption).
  rewrite (nth_map_lt _ _ k _ (O, [])) by (now rewrite enumerate_length).
  rewrite (nth_map_lt _ _ k _ []) by assumption.
  rewrite enumerate_nth by assumption. cbn [fst snd].
  unfold Normalize.invalidate.
  rewrite (nth_map2 _ _ _ d 0%Z (0, 0) 0%Z).
  - rewrite combine_nth by (now rewrite length_col_max, length_Allreduce_MAX).
    cbn [fst snd]. rewrite (nth_map_lt _ _ d _ O) by (now rewrite length_col_argmax).
    reflexivity.
  - now rewrite length_map, length_col_argmax.
  - rewrite length_combine, length_col_max, length_Allreduce_MAX. lia.
Qed.

Lemma global_index_small (num_proc : Z) (k i : nat) (m : matrix) :
  (Z.of_nat k < num_proc)%Z -> (i < length m)%nat ->
  (Z.of_nat (length m) * num_proc <= 2 ^ 31)%Z ->
  Striping.global_index num_proc (Z.of_nat k) i
  = (Z.of_nat i * num_proc + Z.of_nat k)%Z.
Proof.
  intros Hk Hi Hb. unfold Striping.global_index. apply astype_i4_small. nia.
Qed.

(** X4.  [rmax] names a most likely orientation.  When every rank holds
    a row, [_normalize_prob] of either engine returns, and for every
    frame [d] the index [rmax[d]] is [i * num_proc + rank] for a row [i]
    of a rank whose log-likelihood for [d] is the largest of all rows of
    all ranks.  (The indices fit the 32-bit integers of the reduction.) *)
Theorem rmax_is_most_likely (floor_step : R -> R) (num_proc : Z) (ncol : nat)
    (probs : list matrix) (d : nat) :
  probs <> [] -> (forall m, In m probs -> m <> []) ->
  num_proc = Z.of_nat (length probs) ->
  (forall m, In m probs -> (Z.of_nat (length m) * num_proc <= 2 ^ 31)%Z) ->
  (d < ncol)%nat ->
  exists out rmax rank i,
    Normalize.normalize_prob floor_step num_proc ncol probs = Some (out, rmax) /\
    (rank < length probs)%nat /\ (i < length (nth rank probs []))%nat /\
    nth d rmax 0%Z = (Z.of_nat i * num_proc + Z.of_nat rank)%Z /\
    forall rank' i',
      (rank' < length probs)%nat -> (i' < length (nth rank' probs []))%nat ->
      nth d (nth i' (nth rank' probs []) []) 0
      <= nth d (nth i (nth rank probs []) []) 0.
Proof.
  intros Hne Hrows Hnp Hfit Hd.
  unfold Normalize.normalize_prob. rewrite normalize_upto_divide_rmax by assumption.
  set (gmax := MPI.Allreduce_MAX ncol (map (col_max ncol) probs)).
  set (contrib := map2 _ _ _).
  assert (Hc : forall k, (k < length probs)%nat ->
            nth d (nth k contrib []) 0%Z
            = if Req_dec_T (nth d (col_max ncol (nth k probs [])) 0) (nth d gmax 0)
              then Striping.global_index num_proc (Z.of_nat k)
                     (nth d (col_argmax ncol (nth k probs [])) O)
              else (-1)%Z).
  { intros k Hk. apply rmax_contribution; assumption. }
  assert (Hlen : length contrib = length probs).
  { unfold contrib. rewrite length_map2, !length_map, enumerate_length. lia. }
  assert (Hgi : forall k, (k < length probs)%nat ->
            Striping.global_index num_proc (Z.of_nat k)
              (nth d (col_argmax ncol (nth k probs [])) O)
            = (Z.of_nat (nth d (col_argmax ncol (nth k probs [])) O) * num_proc
               + Z.of_nat k)%Z /\
            (nth d (col_argmax ncol (nth k probs [])) O
             < length (nth k probs []))%nat /\
            nth d (nth (nth d (col_argmax ncol (nth k probs [])) O) (nth k probs []) []) 0
            = nth d (col_max ncol (nth k probs [])) 0).
  { intros k Hk.
    assert (Hin : In (nth k probs []) probs) by (now apply nth_In).
    destruct (col_max_argmax ncol d (nth k probs []) (Hrows _ Hin) Hd) as (Hi & Hv & _).
    split; [|split; assumption].
    apply (global_index_small num_proc k _ (nth k probs [])); [lia|exact Hi|auto]. }
  destruct (global_max_attained ncol d probs Hne Hd) as ((ks & Hks & Hgs) & Hup).
  fold gmax in Hgs, Hup.
  set (zs := map (fun v => nth d v 0%Z) contrib).
  assert (Hzs : forall k, (k < length probs)%nat ->
            nth k zs 0%Z = nth d (nth k contrib []) 0%Z).
  { intros k Hk. unfold zs. rewrite (nth_map_lt _ _ k _ []) by lia. reflexivity. }
  assert (Hzlen : length zs = length probs) by (unfold zs; now rewrite length_map).
  assert (Hr : nth d (MPI.Allreduce_MAX_INT ncol contrib) 0%Z
               = match zs with [] => 0%Z | x :: xs => fold_left Z.max xs x end).
  { unfold MPI.Allreduce_MAX_INT. now rewrite nth_map_seq by assumption. }
  destruct zs as [|x xs] eqn:Hz.
  { destruct probs; [congruence|simpl in Hzlen; discriminate]. }
  (* the contribution of the rank holding the global maximum *)
  assert (Hbest : (0 <= fold_left Z.max xs x)%Z).
  { assert (Hin : In (nth ks (x :: xs) 0%Z) (x :: xs))
      by (apply nth_In; rewrite Hzlen; exact Hks).
    apply fold_Zmax_upper in Hin. rewrite Hzs, Hc in Hin by assumption.
    destruct (Req_dec_T _ _) as [_|Hn]; [|contradiction].
    destruct (Hgi ks Hks) as (Hv & _). rewrite Hv in Hin. lia. }
  destruct (In_nth _ _ 0%Z (fold_Zmax_In xs x)) as (k & Hk & Hv).
  rewrite Hzlen in Hk. rewrite Hzs, Hc in Hv by assumption.
  destruct (Req_dec_T _ _) as [Heq|_]; [|lia].
  destruct (Hgi k Hk) as (Hidx & Hi & Hent).
  eexists. eexists. exists k, (nth d (col_argmax ncol (nth k probs [])) O).
  split; [reflexivity|]. split; [exact Hk|]. split; [exact Hi|]. split.
  - rewrite Hr, <- Hv. exact Hidx.
  - intros k' i' Hk' Hi'. rewrite Hent, Heq.
    assert (Hin : In (nth k' probs []) probs) by (now apply nth_In).
    destruct (col_max_argmax ncol d (nth k' probs []) (Hrows _ Hin) Hd) as (_ & _ & Hle).
    etransitivity; [apply Hle; exact Hi'|]. apply Hup. exact Hk'.
Qed.

End MostLikely.

Section MostLikelyWitness.

Import Arr.
Open Scope R_scope.

(** Two ranks with one row each and two frames; the first frame. *)
Lemma rmax_is_most_likely_witness :
  exists out rmax rank i,
    Normalize.normalize_prob Normalize.floor_zero 2 2 two_rank_rows
    = Some (out, rmax) /\
    (rank < length two_rank_rows)%nat /\
    (i < length (nth rank two_rank_rows []))%nat /\
    nth 0 rmax 0%Z = (Z.of_nat i * 2 + Z.of_nat rank)%Z /\
    forall rank' i',
      (rank' < length two_rank_rows)%nat ->
      (i' < length (nth rank' two_rank_rows []))%nat ->
      nth 0 (nth i' (nth rank' two_rank_rows []) []) 0
      <= nth 0 (nth i (nth rank two_rank_rows []) []) 0.
Proof.
  apply (rmax_is_most_likely Normalize.floor_zero 2 2 two_rank_rows 0).
  - discriminate.
  - intros m [<-|[<-|[]]]; discriminate.
  - reflexivity.
  - intros m [<-|[<-|[]]]; simpl; lia.
  - lia.
Defined.

End MostLikelyWitness.

(** ** The sign of the new model *)

Section NonNegative.

Import Arr.
Open Scope R_scope.

Lemma rd_nonneg (a : list R) (i : Z) : (forall c, 0 <= nth c a 0) -> 0 <= rd a i.
Proof. intros Ha. unfold rd. destruct (i <? 0)%Z; [lra|apply Ha]. Qed.

Lemma atomicAdd_nonneg (i : Z) (v : R) (a : list R) :
  0 <= v -> (forall c, 0 <= nth c a 0) -> forall c, 0 <= nth c (atomicAdd i v a) 0.
Proof.
  intros Hv Ha c. destruct (Nat.lt_ge_cases c (length a)) as [Hc|Hc].
  - rewrite nth_atomicAdd by assumption. specialize (Ha c).
    destruct (i =? Z.of_nat c)%Z; lra.
  - rewrite nth_overflow by (now rewrite length_atomicAdd). lra.
Qed.

Lemma fold_atomicAdd_nonneg {A} (idx : A -> Z) (val : A -> R) (l : list A) (a : list R) :
  (forall t, In t l -> 0 <= val t) -> (forall c, 0 <= nth c a 0) ->
  forall c, 0 <= nth c (fold_left (fun a t => atomicAdd (idx t) (val t) a) l a) 0.
Proof.
  revert a. induction l as [|t l IH]; intros a Hv Ha; [exact Ha|].
  cbn [fold_left]. apply IH.
  - intros t' Ht'. apply Hv. now right.
  - apply atomicAdd_nonneg; [apply Hv; now left|exact Ha].
Qed.

(** [merge_all] adds non-negative amounts when the responsibilities and
    the photon counts are non-negative. *)
Lemma merge_all_nonneg (grid : Z) (prob_r : list R) (ndata : Z) (f : Kernels.frames)
    (view : list R) :
  (forall c, 0 <= nth c prob_r 0) ->
  (forall t, (0 <= rdz (Kernels.c_m f) t)%Z) ->
  (forall c, 0 <= nth c view 0) ->
  forall c, 0 <= nth c (Kernels.merge_all grid prob_r ndata f view) 0.
Proof.
  intros Hp Hc. unfold Kernels.merge_all. rewrite launch_fold.
  generalize (thread_ids grid 32). intros ds. revert view.
  induction ds as [|d ds IH]; intros view Hv; [exact Hv|].
  cbn [fold_left]. apply IH. unfold Kernels.merge_all_thread.
  destruct (ndata <=? d)%Z; [exact Hv|].
  apply (fold_atomicAdd_nonneg (fun t => rdz (Kernels.p_m f) t)
           (fun t => rd prob_r d * IZR (rdz (Kernels.c_m f) t))).
  - intros t _. apply Rmult_le_pos; [now apply rd_nonneg|]. apply IZR_le, Hc.
  - apply (fold_atomicAdd_nonneg (fun t => rdz (Kernels.p_o f) t) (fun _ => rd prob_r d)).
    + intros t _. now apply rd_nonneg.
    + exact Hv.
Qed.

Lemma zeros_nonneg (n c : nat) : 0 <= nth c (zeros n) 0.
Proof.
  unfold zeros. destruct (Nat.lt_ge_cases c n) as [Hc|Hc].
  - rewrite nth_repeat_lt by assumption. lra.
  - rewrite nth_overflow by (now rewrite repeat_length). lra.
Qed.

Lemma nth_nonneg_of_In (a : list R) : (forall x, In x a -> 0 <= x) -> forall c, 0 <= nth c a 0.
Proof.
  intros Ha c. destruct (Nat.lt_ge_cases c (length a)) as [Hc|Hc].
  - apply Ha. now apply nth_In.
  - rewrite nth_overflow by assumption. lra.
Qed.

Lemma floor_zero_nonneg (x : R) : 0 <= x -> 0 <= Normalize.floor_zero x.
Proof. intros Hx. unfold Normalize.floor_zero. destruct (Rlt_dec _ _); lra. Qed.

(** Every addition of [slice_merge] carries a value of its view. *)
Lemma slice_adds_value (grid : Z) (view : list R) (angle : R) (size : Z) (a : Z * R * R) :
  In a (slice_adds grid view angle size) -> exists t, snd (fst a) = rd view t.
Proof.
  intros Ha. unfold slice_adds in Ha.
  apply in_flat_map in Ha. destruct Ha as (x & _ & Ha).
  apply in_flat_map in Ha. destruct Ha as (y & _ & Ha).
  eexists. eapply thread_adds_value. exact Ha.
Qed.

(** With non-negative responsibilities and photon counts the additions
    of an orientation carry non-negative values. *)
Lemma orientation_adds_value (e : Legacy.EMC) (len : nat) (row : list R) (r : Z)
    (a : Z * R * R) :
  (forall t, (0 <= rdz (Kernels.c_m (Legacy.frames (Legacy.dset e))) t)%Z) ->
  (forall x, In x row -> 0 <= x) ->
  In a (orientation_adds e len row r) -> 0 <= snd (fst a) /\ 0 <= snd a.
Proof.
  intros Hc Hrow Ha. unfold orientation_adds in Ha.
  destruct (Req_dec_T (rsum row) 0) as [|Hn]; [destruct Ha|].
  split; [|eapply slice_adds_weight; exact Ha].
  apply slice_adds_value in Ha. destruct Ha as [t ->].
  assert (Hs : 0 < rsum row) by (pose proof (rsum_nonneg row Hrow); lra).
  apply rd_nonneg. intros c. apply nth_nonneg_of_In.
  intros x Hx. apply in_map_iff in Hx. destruct Hx as (v & <- & Hv).
  apply In_nth with (d := 0) in Hv. destruct Hv as (k & _ & <-).
  apply Rmult_le_pos; [|left; now apply Rinv_0_lt_compat].
  unfold merged_view. apply merge_all_nonneg; [now apply nth_nonneg_of_In|exact Hc|].
  apply zeros_nonneg.
Qed.

Lemma accumulate_model_nonneg (n c : nat) (l : list (Z * R * R)) :
  (forall a, In a l -> 0 <= snd (fst a) /\ 0 <= snd a) ->
  0 <= nth c (fst (accumulate n l)) 0.
Proof.
  intros Hl. unfold accumulate. cbn [fst].
  destruct (Nat.lt_ge_cases c n) as [Hc|Hc].
  - rewrite nth_map_seq by assumption. apply rsum_nonneg.
    intros x Hx. apply in_map_iff in Hx. destruct Hx as (a & <- & Ha).
    unfold model_part. destruct (Hl a Ha) as [Hv Hw].
    destruct (_ =? _)%Z; [now apply Rmult_le_pos|lra].
  - rewrite nth_overflow by (now rewrite length_map, length_seq). lra.
Qed.

End NonNegative.

Section NonNegativeTheorem.

Import Arr.
Open Scope R_scope.

(** X6.  An iteration of the stand-alone engine yields a model without
    negative intensities, whatever the model it starts from and whatever
    the render kernel computes: the accumulators start at zero, and every
    addition is a product of responsibilities, photon counts and
    interpolation weights, none of which is negative.  The summed weights
    are non-negative as well. *)
Theorem new_model_is_nonnegative
    (slice_gen : list R -> R -> Z -> list R) (e : Legacy.EMC) (model : list R)
    (mweights : Z -> list R) (junk : Z -> nat -> nat -> R) (vjunk : Z -> nat -> R) :
  (0 <= Legacy.num_data (Legacy.dset e) <= 2 ^ 32 - 32)%Z ->
  (0 < Legacy.num_proc e <= Legacy.num_rot e)%Z ->
  (forall rank, length (mweights rank) = length model) ->
  (forall t, (0 <= rdz (Kernels.c_m (Legacy.frames (Legacy.dset e))) t)%Z) ->
  exists model' mweights',
    Legacy.run_iteration slice_gen e model mweights junk vjunk
    = Some (model', mweights') /\
    forall c, 0 <= nth c model' 0 /\ 0 <= nth c mweights' 0.
Proof.
  intros Hnd HP Hshape Hc.
  rewrite (run_iteration_reference slice_gen e model Hnd HP mweights junk vjunk Hshape).
  unfold reference_result.
  set (adds := flat_map (reference_adds slice_gen e model) (zrange 0 (Legacy.num_rot e))).
  assert (Hadds : forall a, In a adds -> 0 <= snd (fst a) /\ 0 <= snd a).
  { intros a Ha. unfold adds in Ha. apply in_flat_map in Ha.
    destruct Ha as (r & _ & Ha). unfold reference_adds in Ha.
    eapply orientation_adds_value; [exact Hc| |exact Ha].
    intros x Hx. unfold norm_row in Hx. apply in_map_iff in Hx.
    destruct Hx as (d & <- & _). apply floor_zero_nonneg.
    apply Rmult_le_pos; [left; apply exp_pos|].
    left. apply Rinv_0_lt_compat. now apply likelihood_sum_positive. }
  eexists. eexists. split; [reflexivity|]. intros c.
  assert (Hm : 0 <= nth c (fst (accumulate (length model) adds)) 0)
    by now apply accumulate_model_nonneg.
  assert (Hw : 0 <= nth c (snd (accumulate (length model) adds)) 0).
  { apply accumulate_weight_nonneg. intros a Ha. now apply Hadds. }
  split; [|exact Hw].
  destruct (length_accumulate (length model) adds) as [Hl1 Hl2].
  destruct (Nat.lt_ge_cases c (length model)) as [Hlt|Hge].
  - rewrite nth_divide_supported by lia.
    destruct (Rlt_dec _ _) as [Hpos|_]; [|exact Hm].
    apply Rmult_le_pos; [exact Hm|]. left. now apply Rinv_0_lt_compat.
  - rewrite nth_overflow; [lra|].
    unfold NormalizeModel.divide_supported. rewrite length_map2. lia.
Qed.

(** The run of [small_legacy_run] from a model with a negative cell. *)
Lemma new_model_is_nonnegative_witness :
  exists model' mweights',
    Legacy.run_iteration (fun _ _ _ => [0; 0; 0; 0]) small_legacy_run [5; - 5; 5; 5]
      (fun _ => [0; 0; 0; 0]) (fun _ _ _ => 0) (fun _ _ => 0)
    = Some (model', mweights') /\
    forall c, 0 <= nth c model' 0 /\ 0 <= nth c mweights' 0.
Proof.
  apply (new_model_is_nonnegative (fun _ _ _ => [0; 0; 0; 0]) small_legacy_run
           [5; - 5; 5; 5] (fun _ => [0; 0; 0; 0]) (fun _ _ _ => 0) (fun _ _ => 0)).
  - simpl. lia.
  - simpl. lia.
  - intros rank. reflexivity.
  - intros t. unfold rdz. simpl. destruct (t <? 0)%Z; [lia|].
    destruct (Z.to_nat t); simpl; lia.
Defined.

End NonNegativeTheorem.

(** ** Reading the photon file *)

Section PhotonFile.

Import Arr.
Open Scope Z_scope.

Lemma length_cumsum_from (acc : Z) (a : list Z) :
  length (Init.cumsum_from acc a) = length a.
Proof.
  revert acc. induction a as [|x a IH]; intros acc; [reflexivity|].
  cbn [Init.cumsum_from length]. now rewrite IH.
Qed.

(** The running sum: cell [k] holds the sum of the first [k + 1]
    cells. *)
Lemma nth_cumsum_from (acc : Z) (a : list Z) (k : nat) :
  (k < length a)%nat ->
  nth k (Init.cumsum_from acc a) 0 = acc + Py.zsum (firstn (S k) a).
Proof.
  revert acc k. induction a as [|x a IH]; intros acc k Hk; [simpl in Hk; lia|].
  destruct k as [|k].
  - cbn. lia.
  - cbn [Init.cumsum_from nth]. simpl in Hk. rewrite IH by lia.
    cbn [firstn Py.zsum fold_right]. unfold Py.zsum. lia.
Qed.

Lemma length_roll1 {A} (a : list A) : length (Init.roll1 a) = length a.
Proof.
  unfold Init.roll1. rewrite length_app, length_skipn, length_firstn. lia.
Qed.

(** Rolling by one moves cell [k] to cell [k + 1]. *)
Lemma nth_roll1_succ {A} (a : list A) (k : nat) (d : A) :
  (S k < length a)%nat -> nth (S k) (Init.roll1 a) d = nth k a d.
Proof.
  intros Hk. unfold Init.roll1.
  rewrite app_nth2 by (rewrite length_skipn; lia).
  rewrite length_skipn.
  replace (S k - (length a - (length a - 1)))%nat with k by lia.
  rewrite nth_firstn.
  destruct (Nat.ltb_spec k (length a - 1)); [reflexivity|lia].
Qed.

(** [accum] succeeds on a non-empty array, and cell [d] of the result is
    the sum of the cells before [d]: the exclusive running sum. *)
Lemma accum_some (a : list Z) :
  a <> [] ->
  exists acc, Init.accum a = Some acc /\ length acc = length a /\
    forall d, (d < length a)%nat -> nth d acc 0 = Py.zsum (firstn d a).
Proof.
  intros Ha. unfold Init.accum, Init.cumsum.
  pose proof (length_roll1 (Init.cumsum_from 0 a)) as Hlen.
  rewrite length_cumsum_from in Hlen.
  assert (Hn : forall k, (S k < length a)%nat ->
            nth (S k) (Init.roll1 (Init.cumsum_from 0 a)) 0 = Py.zsum (firstn (S k) a)).
  { intros k Hk. rewrite nth_roll1_succ by (now rewrite length_cumsum_from).
    rewrite nth_cumsum_from by lia. lia. }
  destruct (Init.roll1 (Init.cumsum_from 0 a)) as [|x rest] eqn:Hr.
  { destruct a; [congruence|simpl in Hlen; discriminate]. }
  cbn [Init.set_first]. eexists. split; [reflexivity|]. split; [exact Hlen|].
  intros [|k] Hd; [reflexivity|]. cbn [nth]. apply (Hn k Hd).
Qed.

Lemma accum_none (a : list Z) : a = [] -> Init.accum a = None.
Proof. intros ->. reflexivity. Qed.

Lemma length_row_lengths (rows : list (list Z)) :
  length (Init.row_lengths rows) = length rows.
Proof. unfold Init.row_lengths. apply length_map. Qed.

Lemma length_In_concat {A} (rows : list (list A)) (row : list A) :
  In row rows -> (length row <= length (concat rows))%nat.
Proof.
  induction rows as [|r rows IH]; intros Hin; [destruct Hin|].
  cbn [concat]. rewrite length_app. destruct Hin as [->|Hin]; [lia|].
  specialize (IH Hin). lia.
Qed.

(** Row lengths that fit 32 bits are stored as they are. *)
Lemma nth_row_lengths (rows : list (list Z)) (d : nat) :
  Z.of_nat (length (concat rows)) < 2 ^ 31 -> (d < length rows)%nat ->
  nth d (Init.row_lengths rows) 0 = Z.of_nat (length (nth d rows [])).
Proof.
  intros Hb Hd. unfold Init.row_lengths.
  rewrite (nth_map_lt _ _ d _ []) by assumption.
  apply astype_i4_small.
  pose proof (length_In_concat rows (nth d rows []) (nth_In _ _ Hd)). lia.
Qed.

Lemma firstn_snoc {A} (l : list A) (d : nat) (x : A) :
  (d < length l)%nat -> firstn (S d) l = firstn d l ++ [nth d l x].
Proof.
  revert d. induction l as [|y l IH]; intros d Hd; [simpl in Hd; lia|].
  destruct d as [|d]; [reflexivity|].
  simpl in Hd. cbn [firstn nth app]. f_equal. apply IH. lia.
Qed.

Lemma zsum_firstn_row_lengths (rows : list (list Z)) (d : nat) :
  Z.of_nat (length (concat rows)) < 2 ^ 31 -> (d <= length rows)%nat ->
  Py.zsum (firstn d (Init.row_lengths rows)) = Z.of_nat (length (concat (firstn d rows))).
Proof.
  intros Hb. induction d as [|d IH]; intros Hd; [reflexivity|].
  rewrite zsum_firstn_S by (rewrite length_row_lengths; lia).
  rewrite IH, nth_row_lengths by lia.
  rewrite (firstn_snoc rows d []) by lia.
  rewrite concat_app, length_app. cbn [concat]. rewrite app_nil_r. lia.
Qed.

Lemma concat_split {A} (rows : list (list A)) (d : nat) :
  (d < length rows)%nat ->
  concat rows = concat (firstn d rows) ++ nth d rows [] ++ concat (skipn (S d) rows).
Proof.
  revert d. induction rows as [|r rows IH]; intros d Hd; [simpl in Hd; lia|].
  destruct d as [|d]; [reflexivity|].
  simpl in Hd. cbn [firstn concat nth skipn]. rewrite <- app_assoc. f_equal.
  apply IH. lia.
Qed.

(** Reading a pooled array from the end of [a] for the length of [b]
    yields [b]. *)
Lemma segment_of_pool (a b c : list Z) :
  map (rdz (a ++ b ++ c)) (zrange (Z.of_nat (length a)) (Z.of_nat (length b))) = b.
Proof.
  unfold zrange. rewrite Nat2Z.id, map_map.
  apply nth_ext with (d := 0) (d' := 0); [now rewrite length_map, length_seq|].
  intros k Hk. rewrite length_map, length_seq in Hk.
  rewrite nth_map_seq by assumption. cbn [Nat.add].
  unfold rdz. destruct (Z.ltb_spec (Z.of_nat (length a) + Z.of_nat k) 0); [lia|].
  replace (Z.to_nat (Z.of_nat (length a) + Z.of_nat k)) with (length a + k)%nat by lia.
  rewrite app_nth2 by lia. replace (length a + k - length a)%nat with k by lia.
  now rewrite app_nth1 by assumption.
Qed.

Lemma length_concat_firstn {A B} (rows : list (list A)) (others : list (list B)) (d : nat) :
  map (@length B) others = map (@length A) rows ->
  length (concat (firstn d others)) = length (concat (firstn d rows)).
Proof.
  revert others d. induction rows as [|r rows IH]; intros [|o others] d Hl;
    try discriminate; [now rewrite !firstn_nil|].
  destruct d as [|d]; [reflexivity|].
  cbn [map] in Hl. injection Hl as Ho Hl.
  cbn [firstn concat]. rewrite !length_app, Ho. f_equal. now apply IH.
Qed.

Lemma length_nth_aligned {A B} (rows : list (list A)) (others : list (list B)) (d : nat) :
  map (@length B) others = map (@length A) rows ->
  length (nth d others []) = length (nth d rows []).
Proof.
  intros Hl.
  assert (Hlen : length others = length rows).
  { apply (f_equal (@length _)) in Hl. now rewrite !length_map in Hl. }
  apply (f_equal (fun l => nth d l O)) in Hl.
  destruct (Nat.lt_ge_cases d (length rows)) as [Hd|Hd].
  - now rewrite !(nth_map_lt _ _ d _ []) in Hl by lia.
  - now rewrite !nth_overflow by lia.
Qed.

Lemma rdz_of_nat (a : list Z) (d : nat) : rdz a (Z.of_nat d) = nth d a 0.
Proof.
  unfold rdz. destruct (Z.ltb_spec (Z.of_nat d) 0); [lia|]. now rewrite Nat2Z.id.
Qed.

(** Round trip of a ragged array through the pooled layout: with the
    lengths of [rows] and their exclusive running sum, the segment of
    frame [d] in the pool of an array [others] with rows of the same
    lengths is row [d] of [others]. *)
Lemma pooled_segment (rows others : list (list Z)) (acc : list Z) (d : nat) :
  Z.of_nat (length (concat rows)) < 2 ^ 31 ->
  map (@length Z) others = map (@length Z) rows ->
  (d < length rows)%nat ->
  nth d acc 0 = Py.zsum (firstn d (Init.row_lengths rows)) ->
  frame_segment (concat others) acc (Init.row_lengths rows) (Z.of_nat d)
  = nth d others [].
Proof.
  intros Hb Hl Hd Hacc. unfold frame_segment.
  rewrite !rdz_of_nat.
  rewrite Hacc, zsum_firstn_row_lengths, nth_row_lengths by (assumption || lia).
  assert (Hd' : (d < length others)%nat).
  { apply (f_equal (@length _)) in Hl. rewrite !length_map in Hl. lia. }
  rewrite <- (length_concat_firstn rows others d Hl).
  rewrite <- (length_nth_aligned rows others d Hl).
  rewrite (concat_split others d Hd').
  apply segment_of_pool.
Qed.

Lemma hstack_some (rows : list (list Z)) : rows <> [] -> Init.hstack rows = Some (concat rows).
Proof. destruct rows; [congruence|reflexivity]. Qed.

(** With a row per frame, [range(num_data)] reads every row. *)
Lemma row_lengths_upto_all (rows : list (list Z)) (n : nat) :
  length rows = n -> Init.row_lengths_upto n rows = Some (Init.row_lengths rows).
Proof.
  intros <-. unfold Init.row_lengths_upto.
  now rewrite Nat.ltb_irrefl, firstn_all.
Qed.

(** What the constructor builds from a file without [ones] and [multi]
    datasets, whose three ragged arrays have a row per frame. *)
Lemma Dataset_init_from_rows (f : Init.photons_file) (num_pix : Z) (need_scaling : bool)
    (rest : list Z) :
  Init.file_ones f = None -> Init.file_multi f = None ->
  Init.file_num_pix f = num_pix :: rest ->
  Init.file_place_ones f <> [] ->
  length (Init.file_place_multi f) = length (Init.file_place_ones f) ->
  length (Init.file_count_multi f) = length (Init.file_place_ones f) ->
  exists oacc macc,
    (forall d, (d < length (Init.file_place_ones f))%nat ->
       nth d oacc 0 = Py.zsum (firstn d (Init.row_lengths (Init.file_place_ones f))) /\
       nth d macc 0 = Py.zsum (firstn d (Init.row_lengths (Init.file_place_multi f)))) /\
    length macc = length (Init.file_place_ones f) /\
    Init.Dataset_init f num_pix need_scaling
    = Some {| Init.num_pix := num_pix;
              Init.data :=
                {| Legacy.num_data := Z.of_nat (length (Init.file_place_ones f));
                   Legacy.frames :=
                     {| Kernels.ones := Init.row_lengths (Init.file_place_ones f);
                        Kernels.multi := Init.row_lengths (Init.file_place_multi f);
                        Kernels.o_acc := oacc;
                        Kernels.m_acc := macc;
                        Kernels.p_o := concat (Init.file_place_ones f);
                        Kernels.p_m := concat (Init.file_place_multi f);
                        Kernels.c_m := concat (Init.file_count_multi f) |} |};
              Init.mean_count :=
                (IZR (Z.of_nat (length (concat (Init.file_place_ones f)))
                      + Py.zsum (concat (Init.file_count_multi f)))
                 / IZR (Z.of_nat (length (Init.file_place_ones f))))%R;
              Init.counts :=
                if need_scaling
                then Some (map2 Z.add (Init.row_lengths (Init.file_place_ones f))
                             (map (fun mm =>
                                     Py.zsum (Init.py_slice (snd mm) (snd mm + fst mm)
                                                (concat (Init.file_count_multi f))))
                                  (combine (Init.row_lengths (Init.file_place_multi f))
                                           macc)))
                else None |}.
Proof.
  intros Ho Hm Hpix Hne Hlm Hlc.
  assert (Hnm : Init.file_place_multi f <> []).
  { intros H. rewrite H in Hlm. destruct (Init.file_place_ones f); [congruence|discriminate]. }
  assert (Hnc : Init.file_count_multi f <> []).
  { intros H. rewrite H in Hlc. destruct (Init.file_place_ones f); [congruence|discriminate]. }
  destruct (accum_some (Init.row_lengths (Init.file_place_ones f))) as (oacc & Hoa & Hol & Hod).
  { intros H. apply (f_equal (@length _)) in H. rewrite length_row_lengths in H.
    destruct (Init.file_place_ones f); [congruence|discriminate]. }
  destruct (accum_some (Init.row_lengths (Init.file_place_multi f))) as (macc & Hma & Hml & Hmd).
  { intros H. apply (f_equal (@length _)) in H. rewrite length_row_lengths in H.
    destruct (Init.file_place_multi f); [congruence|discriminate]. }
  rewrite length_row_lengths in Hol, Hml, Hod, Hmd.
  exists oacc, macc.
  split; [intros d Hd; split; [apply Hod|apply Hmd]; lia|].
  split; [lia|].
  unfold Init.Dataset_init. rewrite Hpix, Z.eqb_refl, Ho, Hm. cbn [negb].
  rewrite (row_lengths_upto_all _ _ Hlm).
  rewrite Hoa, Hma, !hstack_some by assumption.
  destruct need_scaling; [|reflexivity].
  unfold Init.broadcast_add.
  rewrite length_map, length_combine, Hml, !length_row_lengths, Nat.min_id, Hlm,
    Nat.eqb_refl.
  reflexivity.
Qed.

End PhotonFile.

Section PhotonFileTheorems.

Import Arr.
Open Scope Z_scope.

(** X7.  Round trip of the photon file through the pooled layout.  For
    a file without [ones] and [multi] datasets whose three ragged arrays
    have a row per frame, with [count_multi] row by row as long as
    [place_multi], the constructor returns, and for every frame [d] the
    cells of [place_ones], [place_multi] and [count_multi] that the
    kernels read between [accum[d]] and [accum[d] + len[d]] are the rows
    [d] of the file's arrays.  (The pooled arrays have fewer than 2^31
    cells, so the 32-bit row lengths do not wrap.) *)
Theorem photon_file_round_trip (f : Init.photons_file) (num_pix : Z)
    (need_scaling : bool) (rest : list Z) :
  Init.file_ones f = None -> Init.file_multi f = None ->
  Init.file_num_pix f = num_pix :: rest ->
  Init.file_place_ones f <> [] ->
  length (Init.file_place_multi f) = length (Init.file_place_ones f) ->
  map (@length Z) (Init.file_count_multi f) = map (@length Z) (Init.file_place_multi f) ->
  Z.of_nat (length (concat (Init.file_place_ones f))) < 2 ^ 31 ->
  Z.of_nat (length (concat (Init.file_place_multi f))) < 2 ^ 31 ->
  exists ds,
    Init.Dataset_init f num_pix need_scaling = Some ds /\
    Legacy.num_data (Init.data ds) = Z.of_nat (length (Init.file_place_ones f)) /\
    forall d, (d < length (Init.file_place_ones f))%nat ->
      frame_segment (Kernels.p_o (Legacy.frames (Init.data ds)))
        (Kernels.o_acc (Legacy.frames (Init.data ds)))
        (Kernels.ones (Legacy.frames (Init.data ds))) (Z.of_nat d)
      = nth d (Init.file_place_ones f) [] /\
      frame_segment (Kernels.p_m (Legacy.frames (Init.data ds)))
        (Kernels.m_acc (Legacy.frames (Init.data ds)))
        (Kernels.multi (Legacy.frames (Init.data ds))) (Z.of_nat d)
      = nth d (Init.file_place_multi f) [] /\
      frame_segment (Kernels.c_m (Legacy.frames (Init.data ds)))
        (Kernels.m_acc (Legacy.frames (Init.data ds)))
        (Kernels.multi (Legacy.frames (Init.data ds))) (Z.of_nat d)
      = nth d (Init.file_count_multi f) [].
Proof.
  intros Ho Hm Hpix Hne Hlm Hlc Hbo Hbm.
  assert (Hlc' : length (Init.file_count_multi f) = length (Init.file_place_ones f)).
  { apply (f_equal (@length _)) in Hlc. rewrite !length_map in Hlc. lia. }
  destruct (Dataset_init_from_rows f num_pix need_scaling rest Ho Hm Hpix Hne Hlm Hlc')
    as (oacc & macc & Hacc & _ & ->).
  eexists. split; [reflexivity|].
  cbn [Init.data Legacy.num_data Legacy.frames Kernels.ones Kernels.multi Kernels.o_acc
       Kernels.m_acc Kernels.p_o Kernels.p_m Kernels.c_m].
  split; [reflexivity|]. intros d Hd. destruct (Hacc d Hd) as [Hod Hmd].
  split; [|split].
  - apply pooled_segment; auto.
  - apply pooled_segment; auto. lia.
  - apply pooled_segment; auto. lia.
Qed.

(** The file [two_frame_file]. *)
Lemma photon_file_round_trip_witness :
  exists ds,
    Init.Dataset_init two_frame_file 4 true = Some ds /\
    Legacy.num_data (Init.data ds) = 2 /\
    frame_segment (Kernels.p_o (Legacy.frames (Init.data ds)))
      (Kernels.o_acc (Legacy.frames (Init.data ds)))
      (Kernels.ones (Legacy.frames (Init.data ds))) 1
    = [2].
Proof.
  destruct (photon_file_round_trip two_frame_file 4 true [])
    as (ds & Hds & Hn & Hseg); try reflexivity.
  - discriminate.
  - exists ds. split; [exact Hds|]. split; [exact Hn|].
    apply (Hseg 1%nat). simpl. lia.
Defined.

(** X8.  What the constructor rejects.  Without scaling it returns
    exactly when the file's pixel count is the requested one, the file
    has a frame in each of [place_ones], [place_multi] and [count_multi],
    a [ones] or [multi] dataset, where present, is not empty, and, where
    [multi] is absent, [place_multi] has a row for every row of
    [place_ones], since [place_multi[i]] is read for [i] in
    [range(num_data)].  On a file without frames it raises:
    [ones_accum[0] = 0] fails on the empty array, and [np.hstack] has
    nothing to concatenate. *)
Theorem Dataset_init_needs_frames (f : Init.photons_file) (num_pix : Z) :
  (exists ds, Init.Dataset_init f num_pix false = Some ds)
  <-> (exists rest, Init.file_num_pix f = num_pix :: rest) /\
      Init.file_place_ones f <> [] /\ Init.file_place_multi f <> [] /\
      Init.file_count_multi f <> [] /\
      Init.file_ones f <> Some [] /\ Init.file_multi f <> Some [] /\
      (Init.file_multi f = None ->
       (length (Init.file_place_ones f) <= length (Init.file_place_multi f))%nat).
Proof.
  unfold Init.Dataset_init. split.
  - intros [ds H].
    destruct (Init.file_num_pix f) as [|p rest]; [discriminate|].
    destruct (Z.eqb_spec num_pix p) as [<-|]; [|discriminate]. cbn [negb] in H.
    destruct (Init.accum _) as [oacc|] eqn:Hoa; [|discriminate].
    destruct (Init.hstack (Init.file_place_ones f)) as [po|] eqn:Hpo; [|discriminate].
    destruct (match Init.file_multi f with
              | Some m => Some m
              | None => Init.row_lengths_upto (length (Init.file_place_ones f))
                          (Init.file_place_multi f)
              end) as [multi|] eqn:Hmu; [|discriminate].
    destruct (Init.accum multi) as [macc|] eqn:Hma; [|discriminate].
    destruct (Init.hstack (Init.file_place_multi f)) as [pm|] eqn:Hpm; [|discriminate].
    destruct (Init.hstack (Init.file_count_multi f)) as [cm|] eqn:Hcm; [|discriminate].
    split; [now exists rest|].
    split; [intros E; rewrite E in Hpo; discriminate|].
    split; [intros E; rewrite E in Hpm; discriminate|].
    split; [intros E; rewrite E in Hcm; discriminate|].
    split; [intros E; rewrite E in Hoa; discriminate|].
    split.
    + intros E. rewrite E in Hmu. injection Hmu as <-. discriminate.
    + intros E. rewrite E in Hmu. unfold Init.row_lengths_upto in Hmu.
      destruct (Nat.ltb_spec (length (Init.file_place_multi f))
                  (length (Init.file_place_ones f))); [discriminate|lia].
  - intros ((rest & Hpix) & Hpo & Hpm & Hcm & Ho & Hm & Hrows).
    rewrite Hpix, Z.eqb_refl. cbn [negb].
    destruct (accum_some (match Init.file_ones f with
                          | Some o => o
                          | None => Init.row_lengths (Init.file_place_ones f)
                          end)) as (oacc & -> & _).
    { destruct (Init.file_ones f) as [o|]; [congruence|].
      intros E. apply (f_equal (@length _)) in E. rewrite length_row_lengths in E.
      destruct (Init.file_place_ones f); [congruence|discriminate]. }
    rewrite !hstack_some by assumption.
    destruct (Init.file_multi f) as [m|].
    + destruct (accum_some m) as (macc & -> & _); [congruence|].
      eexists. reflexivity.
    + specialize (Hrows eq_refl). unfold Init.row_lengths_upto.
      replace (length (Init.file_place_multi f) <? length (Init.file_place_ones f))%nat
        with false by (symmetry; apply Nat.ltb_ge; lia).
      destruct (accum_some (Init.row_lengths
                              (firstn (length (Init.file_place_ones f))
                                 (Init.file_place_multi f)))) as (macc & -> & _).
      { intros E. apply (f_equal (@length _)) in E.
        rewrite length_row_lengths, length_firstn, Nat.min_l in E by lia.
        destruct (Init.file_place_ones f); [congruence|discriminate]. }
      eexists. reflexivity.
Qed.

End PhotonFileTheorems.

Section FrameLikelihood.

Import Arr.
Open Scope R_scope.

Lemma fold_add_rsum {A} (g : A -> R) (l : list A) (a : R) :
  fold_left (fun acc t => acc + g t) l a = a + rsum (map g l).
Proof.
  revert a. induction l as [|t l IH]; intros a.
  - cbn [fold_left map]. rewrite rsum_nil. lra.
  - cbn [fold_left map]. rewrite IH, rsum_cons. lra.
Qed.

Lemma combine_map_both {A B C} (f : A -> B) (g : A -> C) (l : list A) :
  combine (map f l) (map g l) = map (fun x => (f x, g x)) l.
Proof. induction l as [|x l IH]; [reflexivity|]. cbn [map combine]. now rewrite IH. Qed.

(** The log-likelihood of a frame in terms of the cells its loops
    read. *)
Lemma frame_logp_segments (lview : list R) (f : Kernels.frames) (init : R)
    (scales : list R) (d : Z) :
  frame_logp lview f init scales d
  = init * rd scales d
    + rsum (map (rd lview)
              (frame_segment (Kernels.p_o f) (Kernels.o_acc f) (Kernels.ones f) d))
    + rsum (map (fun pc => rd lview (fst pc) * IZR (snd pc))
              (combine
                 (frame_segment (Kernels.p_m f) (Kernels.m_acc f) (Kernels.multi f) d)
                 (frame_segment (Kernels.c_m f) (Kernels.m_acc f) (Kernels.multi f) d))).
Proof.
  unfold frame_logp, frame_segment.
  rewrite (fold_add_rsum (fun t => rd lview (rdz (Kernels.p_m f) t)
                                   * IZR (rdz (Kernels.c_m f) t))).
  rewrite (fold_add_rsum (fun t => rd lview (rdz (Kernels.p_o f) t))).
  rewrite combine_map_both, !map_map. reflexivity.
Qed.

(** X9.  What [calc_prob_all] computes on a photon file.  Launched with
    the grid [bsize_data] of the engine on the dataset the constructor
    built, it leaves in [prob_r[d]], for every frame [d], the value
    [init * scales[d]] plus the view values at the frame's one-photon
    pixels plus the view values at its multi-photon pixels times their
    counts, as the file lists them. *)
Theorem calc_prob_all_on_photon_file (f : Init.photons_file) (num_pix : Z)
    (need_scaling : bool) (rest : list Z) (lview : list R) (init : R)
    (scales prob_r : list R) (d : nat) :
  Init.file_ones f = None -> Init.file_multi f = None ->
  Init.file_num_pix f = num_pix :: rest ->
  length (Init.file_place_multi f) = length (Init.file_place_ones f) ->
  map (@length Z) (Init.file_count_multi f) = map (@length Z) (Init.file_place_multi f) ->
  (Z.of_nat (length (concat (Init.file_place_ones f))) < 2 ^ 31)%Z ->
  (Z.of_nat (length (concat (Init.file_place_multi f))) < 2 ^ 31)%Z ->
  (Z.of_nat (length (Init.file_place_ones f)) <= 2 ^ 32 - 32)%Z ->
  (d < length (Init.file_place_ones f))%nat -> (d < length prob_r)%nat ->
  exists ds,
    Init.Dataset_init f num_pix need_scaling = Some ds /\
    nth d (Kernels.calc_prob_all (Kernels.bsize (Legacy.num_data (Init.data ds)))
             lview (Legacy.num_data (Init.data ds)) (Legacy.frames (Init.data ds))
             init scales prob_r) 0
    = init * rd scales (Z.of_nat d)
      + rsum (map (rd lview) (nth d (Init.file_place_ones f) []))
      + rsum (map (fun pc => rd lview (fst pc) * IZR (snd pc))
                (combine (nth d (Init.file_place_multi f) [])
                         (nth d (Init.file_count_multi f) []))).
Proof.
  intros Ho Hm Hpix Hlm Hlc Hbo Hbm Hn Hd Hp.
  assert (Hne : Init.file_place_ones f <> []).
  { destruct (Init.file_place_ones f); [simpl in Hd; lia|discriminate]. }
  assert (Hlc' : length (Init.file_count_multi f) = length (Init.file_place_ones f)).
  { apply (f_equal (@length _)) in Hlc. rewrite !length_map in Hlc. lia. }
  destruct (Dataset_init_from_rows f num_pix need_scaling rest Ho Hm Hpix Hne Hlm Hlc')
    as (oacc & macc & Hacc & _ & ->).
  eexists. split; [reflexivity|].
  cbn [Init.data Legacy.num_data Legacy.frames].
  destruct (Hacc d Hd) as [Hod Hmd].
  pose proof (bsize_bounds (Z.of_nat (length (Init.file_place_ones f))) ltac:(lia)) as Hb.
  rewrite calc_prob_all_nth by lia.
  destruct (Z.ltb_spec (Z.of_nat d) (Z.of_nat (length (Init.file_place_ones f)))); [|lia].
  rewrite frame_logp_segments.
  cbn [Kernels.ones Kernels.multi Kernels.o_acc Kernels.m_acc Kernels.p_o Kernels.p_m
       Kernels.c_m].
  rewrite !pooled_segment by (auto; lia). reflexivity.
Qed.

End FrameLikelihood.

Section FrameLikelihoodWitness.

Import Arr.
Open Scope R_scope.

(** Frame 0 of [two_frame_file] against the view [[1; 2; 3; 4]]. *)
Lemma calc_prob_all_on_photon_file_witness :
  exists ds,
    Init.Dataset_init two_frame_file 4 false = Some ds /\
    nth 0 (Kernels.calc_prob_all (Kernels.bsize (Legacy.num_data (Init.data ds)))
             [1; 2; 3; 4] (Legacy.num_data (Init.data ds)) (Legacy.frames (Init.data ds))
             (- 10) [1; 1] [0; 0]) 0
    = - 10 * rd [1; 1] (Z.of_nat 0)
      + rsum (map (rd [1; 2; 3; 4]) (nth 0 (Init.file_place_ones two_frame_file) []))
      + rsum (map (fun pc => rd [1; 2; 3; 4] (fst pc) * IZR (snd pc))
                (combine (nth 0 (Init.file_place_multi two_frame_file) [])
                         (nth 0 (Init.file_count_multi two_frame_file) []))).
Proof.
  apply (calc_prob_all_on_photon_file two_frame_file 4 false [] [1; 2; 3; 4] (- 10)
           [1; 1] [0; 0] 0%nat); try reflexivity; simpl; lia.
Defined.

End FrameLikelihoodWitness.

Section ScaleFactorsOfFile.

Import Arr.
Open Scope Z_scope.

Lemma zsum_map2_add (a b : list Z) :
  length a = length b -> Py.zsum (map2 Z.add a b) = Py.zsum a + Py.zsum b.
Proof.
  revert b. induction a as [|x a IH]; intros [|y b] Hl; try discriminate; [reflexivity|].
  unfold map2 in *. cbn [combine map fst snd].
  change (Py.zsum (x + y :: map (fun ab => fst ab + snd ab) (combine a b)))
    with (x + y + Py.zsum (map (fun ab => fst ab + snd ab) (combine a b))).
  change (Py.zsum (x :: a)) with (x + Py.zsum a).
  change (Py.zsum (y :: b)) with (y + Py.zsum b).
  rewrite IH by (simpl in Hl; lia). lia.
Qed.

Lemma zsum_concat (rows : list (list Z)) : Py.zsum (concat rows) = Py.zsum (map Py.zsum rows).
Proof.
  induction rows as [|r rows IH]; [reflexivity|].
  cbn [concat map]. rewrite zsum_app, IH. reflexivity.
Qed.

Lemma zsum_row_lengths (rows : list (list Z)) :
  Z.of_nat (length (concat rows)) < 2 ^ 31 ->
  Py.zsum (Init.row_lengths rows) = Z.of_nat (length (concat rows)).
Proof.
  intros Hb.
  rewrite <- (firstn_all (Init.row_lengths rows)), length_row_lengths.
  rewrite zsum_firstn_row_lengths by (assumption || lia).
  now rewrite firstn_all.
Qed.

(** A slice with bounds inside the array. *)
Lemma py_slice_inside {A} (a b c : list A) :
  Init.py_slice (Z.of_nat (length a)) (Z.of_nat (length a) + Z.of_nat (length b))
    (a ++ b ++ c) = b.
Proof.
  unfold Init.py_slice, Init.clamp_index.
  destruct (Z.ltb_spec (Z.of_nat (length a)) 0); [lia|].
  destruct (Z.ltb_spec (Z.of_nat (length a) + Z.of_nat (length b)) 0); [lia|].
  rewrite !length_app.
  replace (Nat.min (Z.to_nat (Z.of_nat (length a))) (length a + (length b + length c)))
    with (length a) by lia.
  replace (Nat.min (Z.to_nat (Z.of_nat (length a) + Z.of_nat (length b)))
             (length a + (length b + length c)))
    with (length a + length b)%nat by lia.
  rewrite skipn_app, skipn_all, Nat.sub_diag. cbn [skipn app].
  replace (length a + length b - length a)%nat with (length b) by lia.
  rewrite firstn_app, firstn_all, Nat.sub_diag. cbn [firstn]. apply app_nil_r.
Qed.

(** The sums of the multi-photon counts of the frames, as the
    constructor slices them from the pooled [count_multi]. *)
Lemma multi_counts_of_rows (pm cm : list (list Z)) (macc : list Z) :
  Z.of_nat (length (concat pm)) < 2 ^ 31 ->
  map (@length Z) cm = map (@length Z) pm ->
  length macc = length pm ->
  (forall d, (d < length pm)%nat ->
     nth d macc 0 = Py.zsum (firstn d (Init.row_lengths pm))) ->
  map (fun mm => Py.zsum (Init.py_slice (snd mm) (snd mm + fst mm) (concat cm)))
      (combine (Init.row_lengths pm) macc)
  = map Py.zsum cm.
Proof.
  intros Hb Hl Hlen Hacc.
  assert (Hlc : length cm = length pm).
  { apply (f_equal (@length _)) in Hl. now rewrite !length_map in Hl. }
  apply nth_ext with (d := 0) (d' := 0).
  { rewrite !length_map, length_combine, length_row_lengths. lia. }
  intros d Hd. rewrite length_map, length_combine, length_row_lengths in Hd.
  rewrite (nth_map_lt _ _ d _ (0, 0))
    by (rewrite length_combine, length_row_lengths; lia).
  rewrite combine_nth by (rewrite length_row_lengths; lia). cbn [fst snd].
  rewrite (nth_map_lt _ _ d _ []) by lia.
  rewrite Hacc, zsum_firstn_row_lengths, nth_row_lengths by (assumption || lia).
  rewrite <- (length_concat_firstn pm cm d Hl), <- (length_nth_aligned pm cm d Hl).
  rewrite (concat_split cm d) at 1 by lia.
  now rewrite py_slice_inside.
Qed.

Lemma rsum_map_IZR_div (m : R) (l : list Z) :
  rsum (map (fun c => (IZR c / m)%R) l) = (IZR (Py.zsum l) / m)%R.
Proof.
  induction l as [|x l IH].
  - cbn [map]. rewrite rsum_nil. change (Py.zsum []) with 0. unfold Rdiv. now rewrite Rmult_0_l.
  - cbn [map]. rewrite rsum_cons, IH.
    change (Py.zsum (x :: l)) with (x + Py.zsum l). rewrite plus_IZR.
    unfold Rdiv. ring.
Qed.

(** X10.  With scaling, the scale factors [EMC.__init__] derives from
    the file average to one: there is one factor per frame, the photon
    count of the frame over the mean photon count, and they sum to the
    number of frames.  (The file is as in the round trip above and
    records at least one photon.) *)
Theorem scale_factors_average_one (num_proc size num_rot : Z) (f : Init.photons_file)
    (rest : list Z) :
  Init.file_ones f = None -> Init.file_multi f = None ->
  Init.file_num_pix f = size ^ 2 :: rest ->
  Init.file_place_ones f <> [] ->
  length (Init.file_place_multi f) = length (Init.file_place_ones f) ->
  map (@length Z) (Init.file_count_multi f) = map (@length Z) (Init.file_place_multi f) ->
  Z.of_nat (length (concat (Init.file_place_ones f))) < 2 ^ 31 ->
  Z.of_nat (length (concat (Init.file_place_multi f))) < 2 ^ 31 ->
  Z.of_nat (length (concat (Init.file_place_ones f)))
  + Py.zsum (concat (Init.file_count_multi f)) <> 0 ->
  exists e,
    Init.EMC_init num_proc size num_rot f true = Some e /\
    Legacy.num_data (Legacy.dset e) = Z.of_nat (length (Init.file_place_ones f)) /\
    length (Legacy.scales e) = length (Init.file_place_ones f) /\
    rsum (Legacy.scales e) = IZR (Legacy.num_data (Legacy.dset e)).
Proof.
  intros Ho Hm Hpix Hne Hlm Hlc Hbo Hbm HT.
  assert (Hlc' : length (Init.file_count_multi f) = length (Init.file_place_ones f)).
  { apply (f_equal (@length _)) in Hlc. rewrite !length_map in Hlc. lia. }
  unfold Init.EMC_init.
  destruct (Dataset_init_from_rows f (size ^ 2) true rest Ho Hm Hpix Hne Hlm Hlc')
    as (oacc & macc & Hacc & Hml & ->).
  cbn [Init.counts Init.mean_count Init.data].
  eexists. split; [reflexivity|].
  cbn [Legacy.dset Legacy.num_data Legacy.scales].
  split; [reflexivity|].
  rewrite multi_counts_of_rows; try assumption; try lia;
    [|intros d Hd; apply Hacc; lia].
  split.
  - rewrite length_map, length_map2, length_row_lengths, length_map. lia.
  - rewrite rsum_map_IZR_div, zsum_map2_add
      by (rewrite length_row_lengths, length_map; lia).
    rewrite zsum_row_lengths, <- zsum_concat by assumption.
    set (T := Z.of_nat (length (concat (Init.file_place_ones f)))
              + Py.zsum (concat (Init.file_count_multi f))) in *.
    set (n := Z.of_nat (length (Init.file_place_ones f))).
    assert (Hn : IZR n <> 0%R).
    { apply not_0_IZR. unfold n.
      destruct (Init.file_place_ones f); [congruence|simpl; lia]. }
    assert (HT' : IZR T <> 0%R) by now apply not_0_IZR.
    field. split; assumption.
Qed.

(** The file [two_frame_file], with four photons in frame 0 and one in
    frame 1. *)
Lemma scale_factors_average_one_witness :
  exists e,
    Init.EMC_init 1 2 8 two_frame_file true = Some e /\
    Legacy.num_data (Legacy.dset e) = 2 /\
    length (Legacy.scales e) = 2%nat /\
    rsum (Legacy.scales e) = IZR (Legacy.num_data (Legacy.dset e)).
Proof.
  apply (scale_factors_average_one 1 2 8 two_frame_file []); try reflexivity;
    discriminate.
Defined.

End ScaleFactorsOfFile.

(** ** The threads of a launch *)

Section LaunchThreads.

Import Arr.
Open Scope Z_scope.

Lemma zrange_succ (lo : Z) (n : nat) :
  zrange lo (Z.of_nat (S n)) = zrange lo (Z.of_nat n) ++ [lo + Z.of_nat n].
Proof.
  unfold zrange. rewrite !Nat2Z.id, seq_S, map_app. reflexivity.
Qed.

Lemma map_seq_shift {A} (f : nat -> A) (a m : nat) :
  map f (seq a m) = map (fun k => f (a + k)%nat) (seq 0 m).
Proof.
  revert f a. induction m as [|m IH]; intros f a; [reflexivity|].
  cbn [seq map]. rewrite Nat.add_0_r. f_equal.
  rewrite (IH f (S a)), (IH (fun k => f (a + k)%nat) 1%nat).
  apply map_ext. intros k. f_equal. lia.
Qed.

Lemma zrange_app (lo : Z) (n m : nat) :
  zrange lo (Z.of_nat (n + m))
  = zrange lo (Z.of_nat n) ++ zrange (lo + Z.of_nat n) (Z.of_nat m).
Proof.
  unfold zrange. rewrite !Nat2Z.id, seq_app, map_app. f_equal.
  cbn [Nat.add]. rewrite map_seq_shift. apply map_ext. intros k. lia.
Qed.

(** Without wrap-around the threads of a launch of [grid] blocks of 32
    are [0, ..., 32 * grid - 1], in order. *)
Lemma thread_ids_zrange_nat (g : nat) :
  32 * Z.of_nat g <= 2 ^ 32 -> thread_ids (Z.of_nat g) 32 = zrange 0 (32 * Z.of_nat g).
Proof.
  unfold thread_ids. induction g as [|g IH]; intros Hg; [reflexivity|].
  rewrite zrange_succ, flat_map_app, IH by lia.
  cbn [flat_map]. rewrite app_nil_r.
  replace (32 * Z.of_nat (S g)) with (Z.of_nat (32 * g + 32)) by lia.
  rewrite zrange_app. replace (Z.of_nat (32 * g)) with (32 * Z.of_nat g) by lia.
  f_equal. unfold zrange. rewrite !map_map. apply map_ext_in.
  intros k Hk. apply in_seq in Hk. unfold Kernels.thread_index.
  rewrite Z.mod_small by lia. lia.
Qed.

Lemma thread_ids_zrange (grid : Z) :
  32 * grid <= 2 ^ 32 -> thread_ids grid 32 = zrange 0 (32 * grid).
Proof.
  intros Hg. destruct (Z.le_gt_cases grid 0) as [Hle|Hpos].
  - unfold thread_ids, zrange. replace (Z.to_nat grid) with O by lia.
    replace (Z.to_nat (32 * grid)) with O by lia. reflexivity.
  - rewrite <- (Z2Nat.id grid) by lia. apply thread_ids_zrange_nat. lia.
Qed.

End LaunchThreads.

Section TwoDimensionalLaunch.

Import Arr.
Open Scope Z_scope.

(** A two-dimensional launch runs its thread function over
    [thread_pairs]. *)
Lemma launch2_pairs {S} (grid : Z) (thread : Z -> Z -> S -> S) (s : S) :
  Kernels.launch2 grid 32 thread s
  = fold_left (fun s p => thread (fst p) (snd p) s) (thread_pairs grid) s.
Proof.
  unfold Kernels.launch2, thread_pairs.
  rewrite launch_fold, fold_left_flat_map.
  apply fold_left_pointwise. intros s' x.
  rewrite launch_fold, fold_left_map. reflexivity.
Qed.

(** Below 2^31 threads per dimension the coordinates are the thread
    indices themselves, each pair once. *)
Lemma thread_pairs_In (grid x y : Z) :
  32 * grid <= 2 ^ 31 ->
  (In (x, y) (thread_pairs grid) <-> 0 <= x < 32 * grid /\ 0 <= y < 32 * grid).
Proof.
  intros Hg. unfold thread_pairs. rewrite thread_ids_zrange by lia.
  rewrite in_flat_map. split.
  - intros (x' & Hx' & Hin). apply in_map_iff in Hin. destruct Hin as (y' & Hp & Hy').
    apply zrange_In in Hx', Hy'. injection Hp as <- <-.
    rewrite !astype_i4_small by lia. lia.
  - intros (Hx & Hy). exists x. split; [apply zrange_In; lia|].
    apply in_map_iff. exists y. split; [|apply zrange_In; lia].
    now rewrite !astype_i4_small by lia.
Qed.

End TwoDimensionalLaunch.

(** ** The render kernel *)

Section RenderKernel.

Import Arr.
Open Scope R_scope.

Lemma upd_upd (t : Z) (v1 v2 : R) (a : list R) : upd t v2 (upd t v1 a) = upd t v2 a.
Proof.
  unfold upd. destruct (t <? 0)%Z; [reflexivity|]. apply set_nth_set_nth.
Qed.

Lemma nth_upd (t : Z) (v : R) (a : list R) (c : nat) :
  (c < length a)%nat ->
  nth c (upd t v a) 0 = if (t =? Z.of_nat c)%Z then v else nth c a 0.
Proof.
  intros Hc. destruct (Z.eqb_spec t (Z.of_nat c)) as [->|Hn].
  - rewrite upd_set_nth, nth_set_nth, Nat2Z.id, Nat.eqb_refl by lia.
    now replace (c <? length a)%nat with true by (symmetry; apply Nat.ltb_lt; lia).
  - apply nth_upd_other. congruence.
Qed.

Lemma rd_upd_same (t : Z) (v : R) (a : list R) :
  (0 <= t < Z.of_nat (length a))%Z -> rd (upd t v a) t = v.
Proof.
  intros Ht. rewrite rd_nth by lia. rewrite nth_upd by lia.
  now rewrite Z2Nat.id, Z.eqb_refl by lia.
Qed.

(** The stores of one thread into its pixel, in sequence. *)
Lemma store_sequence (t : Z) (v0 interp scale b eps : R) (log_flag : Z) (view : list R) :
  (0 <= t < Z.of_nat (length view))%Z ->
  (let view := upd t v0 view in
   let view := upd t interp view in
   let view := upd t (rd view t * scale) view in
   let view := upd t (rd view t + b) view in
   if (log_flag =? 0)%Z then view
   else if Rlt_dec (rd view t) eps then upd t (- 1000) view
        else upd t (ln (rd view t)) view)
  = upd t (let v := interp * scale + b in
           if (log_flag =? 0)%Z then v
           else if Rlt_dec v eps then - 1000 else ln v) view.
Proof.
  intros Ht. cbv zeta.
  assert (H1 : (0 <= t < Z.of_nat (length (upd t v0 view)))%Z)
    by (now rewrite length_upd).
  rewrite (rd_upd_same t interp (upd t v0 view) H1), (upd_upd t v0 interp).
  assert (H2 : (0 <= t < Z.of_nat (length (upd t interp view)))%Z)
    by (now rewrite length_upd).
  rewrite (upd_upd t interp (interp * scale)).
  rewrite (rd_upd_same t (interp * scale) view Ht).
  rewrite (upd_upd t (interp * scale)).
  rewrite (rd_upd_same t (interp * scale + b) view Ht).
  destruct (log_flag =? 0)%Z; [reflexivity|].
  destruct (Rlt_dec _ _); now rewrite upd_upd.
Qed.

(** A thread inside the view, whose pixel index fits [int t], stores its
    pixel value, whatever the pixel held. *)
Lemma slice_gen_thread_upd (model : list R) (angle scale : R) (size : Z)
    (bg : list R) (log_flag : Z) (x y : Z) (view : list R) :
  (x <= size - 1)%Z -> (y <= size - 1)%Z ->
  (0 <= x * size + y < Z.of_nat (length view))%Z -> (x * size + y < 2 ^ 31)%Z ->
  Render.slice_gen_thread model angle scale size bg log_flag x y view
  = upd (x * size + y) (rendered_pixel model angle scale size bg log_flag x y) view.
Proof.
  intros Hx Hy Ht H31. unfold Render.slice_gen_thread, rendered_pixel.
  replace ((size - 1 <? x) || (size - 1 <? y))%Z with false
    by (symmetry; apply orb_false_iff; split; apply Z.ltb_ge; lia).
  cbv zeta. rewrite (astype_i4_small (x * size + y)) by lia.
  destruct ((_ <? 0) || _ || _ || _)%Z; [reflexivity|].
  exact (store_sequence (x * size + y) _ _ scale (rd bg (x * size + y)) (1 / 10 ^ 20)
           log_flag view Ht).
Qed.

Lemma slice_gen_thread_idle (model : list R) (angle scale : R) (size : Z)
    (bg : list R) (log_flag : Z) (x y : Z) (view : list R) :
  ((x <=? size - 1) && (y <=? size - 1))%Z = false ->
  Render.slice_gen_thread model angle scale size bg log_flag x y view = view.
Proof.
  intros Hg. unfold Render.slice_gen_thread.
  replace ((size - 1 <? x) || (size - 1 <? y))%Z with true; [reflexivity|].
  symmetry. apply andb_false_iff in Hg. apply orb_true_iff.
  destruct Hg as [Hg|Hg]; apply Z.leb_gt in Hg; [left|right]; apply Z.ltb_lt; lia.
Qed.

(** What a sequence of threads with non-negative coordinates leaves in
    cell [c] of a view of [size * size] pixels, the pixel indices fitting
    [int t]. *)
Lemma slice_gen_fold_nth (model : list R) (angle scale : R) (size : Z)
    (bg : list R) (log_flag : Z) (L : list (Z * Z)) (view : list R) (c : nat) :
  (forall p, In p L -> 0 <= fst p /\ 0 <= snd p)%Z -> (size * size <= 2 ^ 31)%Z ->
  length view = Z.to_nat (size * size) -> (c < length view)%nat ->
  let res :=
    fold_left (fun v p => Render.slice_gen_thread model angle scale size bg log_flag
                            (fst p) (snd p) v) L view in
  length res = length view /\
  nth c res 0
  = if existsb (fun p => (fst p <=? size - 1) && (snd p <=? size - 1)
                         && (fst p * size + snd p =? Z.of_nat c))%Z L
    then rendered_pixel model angle scale size bg log_flag
           (Z.of_nat c / size) (Z.of_nat c mod size)
    else nth c view 0.
Proof.
  intros Hpos H31. revert view Hpos.
  induction L as [|[x y] L IH]; intros view Hpos Hlen Hc; cbv zeta.
  { cbn [fold_left existsb]. split; reflexivity. }
  cbn [fold_left existsb fst snd].
  assert (Hxy : (0 <= x /\ 0 <= y)%Z) by (apply (Hpos (x, y)); now left).
  assert (HposL : (forall p, In p L -> 0 <= fst p /\ 0 <= snd p)%Z)
    by (intros p Hp; apply Hpos; now right).
  destruct ((x <=? size - 1) && (y <=? size - 1))%Z eqn:Hg.
  - apply andb_true_iff in Hg. destruct Hg as [Hgx Hgy].
    apply Z.leb_le in Hgx, Hgy.
    assert (Ht : (0 <= x * size + y < Z.of_nat (length view))%Z) by (rewrite Hlen; nia).
    rewrite slice_gen_thread_upd by (try assumption; nia).
    destruct (IH (upd (x * size + y)
                      (rendered_pixel model angle scale size bg log_flag x y) view)
                HposL) as [Hl Hn];
      [now rewrite length_upd|now rewrite length_upd|].
    cbv zeta in Hl, Hn. rewrite Hl, Hn, length_upd. split; [reflexivity|].
    cbn [andb]. rewrite nth_upd by assumption.
    destruct (Z.eqb_spec (x * size + y) (Z.of_nat c)) as [Heq|Hne].
    + cbn [orb].
      assert (Hq : (Z.of_nat c / size = x)%Z)
        by (symmetry; apply (Z.div_unique _ _ x y); lia).
      assert (Hr : (Z.of_nat c mod size = y)%Z)
        by (symmetry; apply (Z.mod_unique _ _ x y); lia).
      rewrite Hq, Hr. now destruct (existsb _ L).
    + reflexivity.
  - rewrite slice_gen_thread_idle by assumption. cbn [andb orb]. now apply IH.
Qed.

(** The launch stores its pixel value into every cell of the view. *)
Lemma slice_gen_nth (grid : Z) (model : list R) (angle scale : R) (size : Z)
    (bg : list R) (log_flag : Z) (view : list R) (x y : Z) :
  (size <= 32 * grid <= 2 ^ 31)%Z -> (size * size <= 2 ^ 31)%Z ->
  length view = Z.to_nat (size * size) ->
  (0 <= x < size)%Z -> (0 <= y < size)%Z ->
  nth (Z.to_nat (x * size + y))
      (Render.slice_gen grid model angle scale size bg log_flag view) 0
  = rendered_pixel model angle scale size bg log_flag x y.
Proof.
  intros Hg H31 Hlen Hx Hy. unfold Render.slice_gen. rewrite launch2_pairs.
  destruct (slice_gen_fold_nth model angle scale size bg log_flag (thread_pairs grid)
              view (Z.to_nat (x * size + y))) as [_ Hn].
  - intros [x' y'] Hp. apply thread_pairs_In in Hp; [|lia]. cbn [fst snd]. lia.
  - exact H31.
  - exact Hlen.
  - rewrite Hlen. nia.
  - cbv zeta in Hn. rewrite Hn.
    replace (existsb _ (thread_pairs grid)) with true.
    + rewrite Z2Nat.id by nia.
      replace ((x * size + y) / size)%Z with x
        by (apply (Z.div_unique _ _ x y); lia).
      replace ((x * size + y) mod size)%Z with y
        by (apply (Z.mod_unique _ _ x y); lia).
      reflexivity.
    + symmetry. apply existsb_exists. exists (x, y). split.
      * apply thread_pairs_In; lia.
      * cbn [fst snd]. rewrite Z2Nat.id by nia.
        rewrite Z.eqb_refl, andb_true_r. apply andb_true_iff.
        split; apply Z.leb_le; lia.
Qed.

Lemma length_slice_gen (grid : Z) (model : list R) (angle scale : R) (size : Z)
    (bg : list R) (log_flag : Z) (view : list R) :
  length (Render.slice_gen grid model angle scale size bg log_flag view) = length view.
Proof.
  unfold Render.slice_gen. rewrite launch2_pairs.
  generalize (thread_pairs grid). intros L. revert view.
  induction L as [|p L IH]; intros view; [reflexivity|].
  cbn [fold_left]. rewrite IH. unfold Render.slice_gen_thread.
  destruct (_ || _)%bool; [reflexivity|]. cbv zeta.
  destruct (_ || _ || _ || _)%bool; [apply length_upd|].
  destruct (_ =? _)%Z; [now rewrite !length_upd|].
  destruct (Rlt_dec _ _); now rewrite !length_upd.
Qed.

End RenderKernel.

Section RenderTheorems.

Import Arr.
Open Scope R_scope.

(** X11.  [slice_gen] overwrites its view.  Launched on a grid that
    covers [size] (with at most 2^31 threads per dimension) over a view
    of [size * size] pixels, at most 2^31 of them so that every pixel
    index fits [int t], it leaves in every pixel [x * size + y] the
    value computed from the model, the angle, the scale and the
    background alone; so two launches that differ in what the view held
    return the same view, and a view from [cp.empty] needs no
    initialisation. *)
Theorem slice_gen_overwrites_view (grid : Z) (model : list R) (angle scale : R)
    (size : Z) (bg : list R) (log_flag : Z) (view view' : list R) :
  (0 <= size <= 32 * grid)%Z -> (32 * grid <= 2 ^ 31)%Z -> (size * size <= 2 ^ 31)%Z ->
  length view = Z.to_nat (size * size) -> length view' = Z.to_nat (size * size) ->
  (forall x y, (0 <= x < size)%Z -> (0 <= y < size)%Z ->
     nth (Z.to_nat (x * size + y))
         (Render.slice_gen grid model angle scale size bg log_flag view) 0
     = rendered_pixel model angle scale size bg log_flag x y) /\
  Render.slice_gen grid model angle scale size bg log_flag view'
  = Render.slice_gen grid model angle scale size bg log_flag view.
Proof.
  intros Hg0 Hg1 H31 Hlen Hlen'.
  assert (Hg : (size <= 32 * grid <= 2 ^ 31)%Z) by lia. split.
  - intros x y Hx Hy. now apply slice_gen_nth.
  - apply nth_ext with (d := 0) (d' := 0).
    { rewrite !length_slice_gen. congruence. }
    intros c Hc. rewrite length_slice_gen, Hlen' in Hc.
    assert (Hs : (0 < size)%Z) by nia.
    pose proof (Z.div_mod (Z.of_nat c) size ltac:(lia)) as Hdm.
    pose proof (Z.mod_pos_bound (Z.of_nat c) size Hs) as Hm.
    assert (Hq : (0 <= Z.of_nat c / size < size)%Z).
    { split; [apply Z.div_pos; lia|]. apply Z.div_lt_upper_bound; nia. }
    assert (Hc' : c = Z.to_nat (Z.of_nat c / size * size + Z.of_nat c mod size)).
    { rewrite (Z.mul_comm _ size), <- Hdm. now rewrite Nat2Z.id. }
    rewrite Hc'.
    rewrite !slice_gen_nth by assumption. reflexivity.
Qed.

(** A 2 x 2 view on one block of threads. *)
Lemma slice_gen_overwrites_view_witness :
  (forall x y, (0 <= x < 2)%Z -> (0 <= y < 2)%Z ->
     nth (Z.to_nat (x * 2 + y))
         (Render.slice_gen 1 [1; 2; 3; 4] 0 1 2 [0; 0; 0; 0] 0 [9; 9; 9; 9]) 0
     = rendered_pixel [1; 2; 3; 4] 0 1 2 [0; 0; 0; 0] 0 x y) /\
  Render.slice_gen 1 [1; 2; 3; 4] 0 1 2 [0; 0; 0; 0] 0 [7; 7; 7; 7]
  = Render.slice_gen 1 [1; 2; 3; 4] 0 1 2 [0; 0; 0; 0] 0 [9; 9; 9; 9].
Proof.
  apply (slice_gen_overwrites_view 1 [1; 2; 3; 4] 0 1 2 [0; 0; 0; 0] 0
           [9; 9; 9; 9] [7; 7; 7; 7]).
  - lia.
  - lia.
  - lia.
  - reflexivity.
  - reflexivity.
Defined.




(** The rotated position of a pixel at angle 0 is the pixel itself. *)
Lemma rotate_by_zero (a b cen : Z) :
  IZR (a - cen) * cos 0 - IZR (b - cen) * sin 0 + IZR cen = IZR a /\
  IZR (a - cen) * sin 0 + IZR (b - cen) * cos 0 + IZR cen = IZR b.
Proof. rewrite cos_0, sin_0, !minus_IZR. split; ring. Qed.

(** X13.  At angle 0 [slice_gen] copies the model, but for the last row
    and the last column: without the logarithm, on a view of at most
    2^31 pixels, pixel [(x, y)] receives [model[t] * scale + bg[t]] when
    both coordinates are at most [size - 2], and 0 otherwise: the test
    [ix > size - 2 || iy > size - 2] of the interpolation returns on the
    last row and the last column. *)
Theorem slice_gen_at_angle_zero (grid : Z) (model : list R) (scale : R) (size : Z)
    (bg view : list R) (x y : Z) :
  (size <= 32 * grid <= 2 ^ 31)%Z -> (size * size <= 2 ^ 31)%Z ->
  length view = Z.to_nat (size * size) ->
  (0 <= x < size)%Z -> (0 <= y < size)%Z ->
  nth (Z.to_nat (x * size + y))
      (Render.slice_gen grid model 0 scale size bg 0 view) 0
  = if ((x <=? size - 2) && (y <=? size - 2))%Z
    then rd model (x * size + y) * scale + rd bg (x * size + y)
    else 0.
Proof.
  intros Hg H31 Hlen Hx Hy. rewrite slice_gen_nth by assumption.
  unfold rendered_pixel. cbv zeta. cbn [Z.eqb].
  rewrite (astype_i4_small (x * size + y)) by nia.
  destruct (rotate_by_zero x y (size ÷ 2)) as [-> ->].
  unfold Kernels.double2int_rd. rewrite !Int_part_IZR.
  destruct (Z.leb_spec x (size - 2)), (Z.leb_spec y (size - 2)); cbn [andb].
  - replace ((x <? 0) || (size - 2 <? x) || (y <? 0) || (size - 2 <? y))%Z with false.
    + ring.
    + symmetry. repeat (apply orb_false_iff; split); apply Z.ltb_ge; lia.
  - replace (size - 2 <? y)%Z with true by (symmetry; apply Z.ltb_lt; lia).
    now rewrite orb_true_r.
  - replace (size - 2 <? x)%Z with true by (symmetry; apply Z.ltb_lt; lia).
    now rewrite orb_true_r.
  - replace (size - 2 <? x)%Z with true by (symmetry; apply Z.ltb_lt; lia).
    now rewrite orb_true_r.
Qed.

(** A 2 x 2 model: the corner pixel (0, 0) is copied. *)
Lemma slice_gen_at_angle_zero_witness :
  nth (Z.to_nat (0 * 2 + 0))
      (Render.slice_gen 1 [1; 2; 3; 4] 0 3 2 [1; 1; 1; 1] 0 [9; 9; 9; 9]) 0
  = if ((0 <=? 2 - 2) && (0 <=? 2 - 2))%Z
    then rd [1; 2; 3; 4] (0 * 2 + 0) * 3 + rd [1; 1; 1; 1] (0 * 2 + 0)
    else 0.
Proof.
  apply (slice_gen_at_angle_zero 1 [1; 2; 3; 4] 3 2 [1; 1; 1; 1] [9; 9; 9; 9] 0 0).
  - lia.
  - lia.
  - reflexivity.
  - lia.
  - lia.
Defined.

End RenderTheorems.

(** ** The back-projection kernel *)

Section BackProjection.

Import Arr.
Open Scope R_scope.

Lemma flat_map_flat_map {A B C} (f : A -> list B) (g : B -> list C) (l : list A) :
  flat_map g (flat_map f l) = flat_map (fun x => flat_map g (f x)) l.
Proof.
  induction l as [|x l IH]; [reflexivity|].
  cbn [flat_map]. now rewrite flat_map_app, IH.
Qed.

Lemma flat_map_map {A B C} (h : A -> B) (g : B -> list C) (l : list A) :
  flat_map g (map h l) = flat_map (fun x => g (h x)) l.
Proof. induction l as [|x l IH]; [reflexivity|]. cbn [map flat_map]. now rewrite IH. Qed.

(** The additions of a launch, thread by thread. *)
Lemma slice_adds_pairs (grid : Z) (view : list R) (angle : R) (size : Z) :
  slice_adds grid view angle size
  = flat_map (fun p => thread_adds view angle size (fst p) (snd p)) (thread_pairs grid).
Proof.
  unfold slice_adds, thread_pairs. rewrite flat_map_flat_map.
  apply flat_map_ext. intros x. now rewrite flat_map_map.
Qed.

Lemma rsum_flat_map {A B} (f : B -> R) (g : A -> list B) (l : list A) :
  rsum (map f (flat_map g l)) = rsum (map (fun p => rsum (map f (g p))) l).
Proof.
  induction l as [|x l IH]; [reflexivity|].
  cbn [flat_map map]. now rewrite map_app, rsum_app, rsum_cons, IH.
Qed.

Lemma rsum_set_nth (i : nat) (v : R) (a : list R) :
  (i < length a)%nat -> rsum (set_nth i v a) = rsum a - nth i a 0 + v.
Proof.
  revert i. induction a as [|x a IH]; intros i Hi; [simpl in Hi; lia|].
  destruct i as [|i]; cbn [set_nth nth].
  - rewrite !rsum_cons. lra.
  - simpl in Hi. rewrite !rsum_cons, IH by lia. lra.
Qed.

Lemma rsum_atomicAdd (i : Z) (v : R) (a : list R) :
  (0 <= i < Z.of_nat (length a))%Z -> rsum (atomicAdd i v a) = rsum a + v.
Proof.
  intros Hi. unfold atomicAdd.
  rewrite upd_set_nth, rd_nth, rsum_set_nth by lia. lra.
Qed.


Lemma unit_product (a b : R) : 0 <= a <= 1 -> 0 <= b <= 1 -> 0 <= a * b <= 1.
Proof. intros Ha Hb. split; [apply Rmult_le_pos; lra|nra]. Qed.

(** A thread that passes the guards adds to four cells of the grid, with
    weights that add up to one; the others add nothing. *)
Lemma thread_adds_lands (view : list R) (angle : R) (size x y : Z) :
  (forall a, In a (thread_adds view angle size x y) ->
     (0 <= fst (fst a) < size * size)%Z /\ 0 <= snd a <= 1) /\
  rsum (map (fun a => snd a) (thread_adds view angle size x y))
  = (if lands angle size x y then 1 else 0) /\
  rsum (map (fun a => snd (fst a) * snd a) (thread_adds view angle size x y))
  = (if lands angle size x y then rd view (Py.astype_i4 (x * size + y)) else 0).
Proof.
  unfold thread_adds, lands.
  destruct ((size - 1 <? x) || (size - 1 <? y))%Z.
  { cbn [negb andb map]. rewrite rsum_nil. split; [intros a []|split; reflexivity]. }
  cbv zeta. cbn [negb andb].
  set (tx := _ - _ + _). set (ty := _ + _ + IZR (size ÷ 2)).
  unfold Kernels.double2int_rd.
  destruct ((Int_part tx <? 0) || (size - 2 <? Int_part tx) || (Int_part ty <? 0)
            || (size - 2 <? Int_part ty))%Z eqn:Hoob.
  { cbn [negb map]. rewrite rsum_nil. split; [intros a []|split; reflexivity]. }
  apply orb_false_iff in Hoob. destruct Hoob as [Hoob H4].
  apply orb_false_iff in Hoob. destruct Hoob as [Hoob H3].
  apply orb_false_iff in Hoob. destruct Hoob as [H1 H2].
  apply Z.ltb_ge in H1, H2, H3, H4.
  destruct (base_Int_part tx) as [Hx1 Hx2]. destruct (base_Int_part ty) as [Hy1 Hy2].
  cbn [negb map fst snd]. rewrite !rsum_cons, rsum_nil.
  split; [|split; ring].
  intros a [<-|[<-|[<-|[<-|[]]]]]; cbn [fst snd];
    (split; [nia|apply unit_product; lra]).
Qed.

End BackProjection.

Section BackProjectionTheorems.

Import Arr.
Open Scope R_scope.

Lemma slice_adds_lands (grid : Z) (view : list R) (angle : R) (size : Z)
    (a : Z * R * R) :
  In a (slice_adds grid view angle size) ->
  (0 <= fst (fst a) < size * size)%Z /\ 0 <= snd a <= 1.
Proof.
  rewrite slice_adds_pairs. intros Ha. apply in_flat_map in Ha.
  destruct Ha as (p & _ & Ha).
  now apply (proj1 (thread_adds_lands view angle size (fst p) (snd p))).
Qed.

(** X14.  [slice_merge] stays inside the grid and only adds weight.  A
    launch leaves every cell beyond the first [size * size] of the model
    and of the weights as it was, and lowers no weight: the four cells a
    thread adds to are inside the grid, with weights between 0 and 1. *)
Theorem slice_merge_stays_in_grid (grid : Z) (view : list R) (angle : R) (size : Z)
    (model mweights : list R) (c : nat) :
  nth c mweights 0
  <= nth c (snd (Kernels.slice_merge grid view angle size model mweights)) 0 /\
  ((size * size <= Z.of_nat c)%Z ->
   nth c (fst (Kernels.slice_merge grid view angle size model mweights)) 0
   = nth c model 0 /\
   nth c (snd (Kernels.slice_merge grid view angle size model mweights)) 0
   = nth c mweights 0).
Proof.
  rewrite slice_merge_adds.
  set (adds := slice_adds grid view angle size).
  destruct (length_apply_adds adds (model, mweights)) as [Hl1 Hl2]. cbn [fst snd] in Hl1, Hl2.
  destruct (apply_adds_nth adds (model, mweights) c) as [Hm Hw]. cbn [fst snd] in Hm, Hw.
  assert (Hout : (size * size <= Z.of_nat c)%Z ->
            rsum (map (model_part c) adds) = 0 /\ rsum (map (weight_part c) adds) = 0).
  { intros Hc. split; apply rsum_all_zero; intros v Hv; apply in_map_iff in Hv;
      destruct Hv as (a & <- & Ha); apply slice_adds_lands in Ha;
      unfold model_part, weight_part;
      (destruct (Z.eqb_spec (fst (fst a)) (Z.of_nat c)); [lia|reflexivity]). }
  split.
  - destruct (Nat.lt_ge_cases c (length mweights)) as [Hc|Hc].
    + rewrite Hw by assumption.
      assert (0 <= rsum (map (weight_part c) adds)); [|lra].
      apply rsum_nonneg. intros v Hv. apply in_map_iff in Hv.
      destruct Hv as (a & <- & Ha). apply slice_adds_lands in Ha.
      unfold weight_part. destruct (_ =? _)%Z; lra.
    + rewrite !nth_overflow by lia. lra.
  - intros Hc. destruct (Hout Hc) as [Hom How]. split.
    + destruct (Nat.lt_ge_cases c (length model)) as [Hlt|Hge].
      * rewrite Hm by assumption. lra.
      * now rewrite !nth_overflow by lia.
    + destruct (Nat.lt_ge_cases c (length mweights)) as [Hlt|Hge].
      * rewrite Hw by assumption. lra.
      * now rewrite !nth_overflow by lia.
Qed.





End BackProjectionTheorems.

(** ** The photon merge kernel *)

Section PhotonMerge.

Import Arr.
Open Scope R_scope.

Lemma length_fold_atomicAdd {A} (idx : A -> Z) (val : A -> R) (l : list A) (a : list R) :
  length (fold_left (fun a t => atomicAdd (idx t) (val t) a) l a) = length a.
Proof.
  revert a. induction l as [|t l IH]; intros a; [reflexivity|].
  cbn [fold_left]. now rewrite IH, length_atomicAdd.
Qed.

Lemma rsum_fold_atomicAdd {A} (idx : A -> Z) (val : A -> R) (l : list A) (a : list R) :
  (forall t, In t l -> (0 <= idx t < Z.of_nat (length a))%Z) ->
  rsum (fold_left (fun a t => atomicAdd (idx t) (val t) a) l a)
  = rsum a + rsum (map val l).
Proof.
  revert a. induction l as [|t l IH]; intros a Hin.
  - cbn [fold_left map]. rewrite rsum_nil. lra.
  - cbn [fold_left map]. rewrite IH.
    + rewrite rsum_atomicAdd, rsum_cons by (apply Hin; now left). lra.
    + intros t' Ht'. rewrite length_atomicAdd. apply Hin. now right.
Qed.

Lemma rsum_map_const {A} (v : R) (l : list A) :
  rsum (map (fun _ => v) l) = v * INR (length l).
Proof.
  induction l as [|x l IH]; [cbn [map length INR]; rewrite rsum_nil; lra|].
  cbn [map]. rewrite rsum_cons, IH. change (length (x :: l)) with (S (length l)).
  rewrite S_INR. lra.
Qed.

Lemma rsum_map_scaled_counts (v : R) (l : list Z) :
  rsum (map (fun c => v * IZR c) l) = v * IZR (Py.zsum l).
Proof.
  induction l as [|x l IH].
  - cbn [map]. rewrite rsum_nil. change (Py.zsum []) with 0%Z. lra.
  - cbn [map]. rewrite rsum_cons, IH.
    change (Py.zsum (x :: l)) with (x + Py.zsum l)%Z. rewrite plus_IZR. lra.
Qed.

(** The photons of frame [d]: its one-photon pixels and the counts of
    its multi-photon pixels. *)
Lemma merge_all_thread_rsum (prob_r : list R) (ndata : Z) (f : Kernels.frames)
    (d : Z) (view : list R) :
  (d < ndata)%Z ->
  (forall p, In p (frame_segment (Kernels.p_o f) (Kernels.o_acc f) (Kernels.ones f) d) ->
     (0 <= p < Z.of_nat (length view))%Z) ->
  (forall p, In p (frame_segment (Kernels.p_m f) (Kernels.m_acc f) (Kernels.multi f) d) ->
     (0 <= p < Z.of_nat (length view))%Z) ->
  rsum (Kernels.merge_all_thread prob_r ndata f d view)
  = rsum view
    + rd prob_r d
      * (INR (length (frame_segment (Kernels.p_o f) (Kernels.o_acc f) (Kernels.ones f) d))
         + IZR (Py.zsum (frame_segment (Kernels.c_m f) (Kernels.m_acc f)
                           (Kernels.multi f) d))).
Proof.
  intros Hd Ho Hm. unfold Kernels.merge_all_thread.
  replace (ndata <=? d)%Z with false by (symmetry; apply Z.leb_gt; lia).
  rewrite (rsum_fold_atomicAdd (fun t => rdz (Kernels.p_m f) t)
             (fun t => rd prob_r d * IZR (rdz (Kernels.c_m f) t))).
  - rewrite (rsum_fold_atomicAdd (fun t => rdz (Kernels.p_o f) t) (fun _ => rd prob_r d)).
    + rewrite rsum_map_const. unfold frame_segment.
      rewrite length_map, <- (map_map (rdz (Kernels.c_m f)) (fun c => rd prob_r d * IZR c)).
      rewrite rsum_map_scaled_counts. lra.
    + intros t Ht. apply Ho. unfold frame_segment. now apply in_map.
  - intros t Ht. rewrite length_fold_atomicAdd. apply Hm. unfold frame_segment.
    now apply in_map.
Qed.

Lemma length_merge_all_thread (prob_r : list R) (ndata : Z) (f : Kernels.frames)
    (d : Z) (view : list R) :
  length (Kernels.merge_all_thread prob_r ndata f d view) = length view.
Proof.
  unfold Kernels.merge_all_thread. destruct (ndata <=? d)%Z; [reflexivity|].
  now rewrite !length_fold_atomicAdd.
Qed.

Lemma merge_all_fold_rsum (prob_r : list R) (ndata : Z) (f : Kernels.frames)
    (ds : list Z) (view : list R) :
  (forall d, In d ds ->
     (d < ndata)%Z /\
     (forall p, In p (frame_segment (Kernels.p_o f) (Kernels.o_acc f) (Kernels.ones f) d)
                \/ In p (frame_segment (Kernels.p_m f) (Kernels.m_acc f)
                           (Kernels.multi f) d) ->
        (0 <= p < Z.of_nat (length view))%Z)) ->
  rsum (fold_left (fun v d => Kernels.merge_all_thread prob_r ndata f d v) ds view)
  = rsum view
    + rsum (map (fun d =>
                   rd prob_r d
                   * (INR (length (frame_segment (Kernels.p_o f) (Kernels.o_acc f)
                                     (Kernels.ones f) d))
                      + IZR (Py.zsum (frame_segment (Kernels.c_m f) (Kernels.m_acc f)
                                        (Kernels.multi f) d)))) ds).
Proof.
  revert view. induction ds as [|d ds IH]; intros view Hin.
  - cbn [fold_left map]. rewrite rsum_nil. lra.
  - cbn [fold_left map]. destruct (Hin d (or_introl eq_refl)) as [Hd Hb].
    rewrite IH.
    + rewrite merge_all_thread_rsum, rsum_cons by auto. lra.
    + intros d' Hd'. rewrite length_merge_all_thread. apply Hin. now right.
Qed.

Lemma fold_idle {S} (thread : Z -> S -> S) (ds : list Z) (s : S) :
  (forall d s', In d ds -> thread d s' = s') ->
  fold_left (fun s d => thread d s) ds s = s.
Proof.
  induction ds as [|d ds IH]; intros Hid; [reflexivity|].
  cbn [fold_left]. rewrite Hid by now left. apply IH.
  intros d' s' Hd'. apply Hid. now right.
Qed.

(** The threads of a rounded-up grid, split at the frame count. *)
Lemma thread_ids_split (grid ndata : Z) :
  (0 <= ndata <= 32 * grid)%Z -> (32 * grid <= 2 ^ 32)%Z ->
  thread_ids grid 32 = zrange 0 ndata ++ zrange ndata (32 * grid - ndata).
Proof.
  intros Hn Hg. rewrite thread_ids_zrange by assumption.
  replace (32 * grid)%Z with (Z.of_nat (Z.to_nat ndata + Z.to_nat (32 * grid - ndata)))
    at 1 by lia.
  rewrite zrange_app, !Z2Nat.id by lia. reflexivity.
Qed.

End PhotonMerge.

Section PhotonMergeTheorem.

Import Arr.
Open Scope R_scope.

(** X16.  [merge_all] conserves the photons.  When the pixel indices of
    the frames below [ndata] are inside the view, a launch on a grid that
    covers [ndata] raises the sum of the view by the sum, over these
    frames, of the frame's responsibility times its photon count (its
    number of one-photon pixels plus the counts of its multi-photon
    pixels). *)
Theorem merge_all_conserves_photons (grid : Z) (prob_r : list R) (ndata : Z)
    (f : Kernels.frames) (view : list R) :
  (0 <= ndata <= 32 * grid)%Z -> (32 * grid <= 2 ^ 32)%Z ->
  (forall d p, (0 <= d < ndata)%Z ->
     In p (frame_segment (Kernels.p_o f) (Kernels.o_acc f) (Kernels.ones f) d)
     \/ In p (frame_segment (Kernels.p_m f) (Kernels.m_acc f) (Kernels.multi f) d) ->
     (0 <= p < Z.of_nat (length view))%Z) ->
  rsum (Kernels.merge_all grid prob_r ndata f view)
  = rsum view
    + rsum (map (fun d =>
                   rd prob_r d
                   * (INR (length (frame_segment (Kernels.p_o f) (Kernels.o_acc f)
                                     (Kernels.ones f) d))
                      + IZR (Py.zsum (frame_segment (Kernels.c_m f) (Kernels.m_acc f)
                                        (Kernels.multi f) d))))
              (zrange 0 ndata)).
Proof.
  intros Hn Hg Hb. unfold Kernels.merge_all.
  rewrite launch_fold, (thread_ids_split grid ndata Hn Hg), fold_left_app.
  rewrite fold_idle.
  - apply merge_all_fold_rsum. intros d Hd. apply zrange_In in Hd.
    split; [lia|]. intros p Hp. apply (Hb d p); [lia|exact Hp].
  - intros d s' Hd. apply zrange_In in Hd. apply merge_all_thread_idle. lia.
Qed.

(** One frame with a single photon in pixel 2 and three photons in
    pixel 0. *)
Lemma merge_all_conserves_photons_witness :
  rsum (Kernels.merge_all 1 [1 / 2] 1
          {| Kernels.ones := [1%Z]; Kernels.multi := [1%Z]; Kernels.o_acc := [0%Z];
             Kernels.m_acc := [0%Z]; Kernels.p_o := [2%Z]; Kernels.p_m := [0%Z];
             Kernels.c_m := [3%Z] |} [0; 0; 0; 0])
  = rsum [0; 0; 0; 0]
    + rsum (map (fun d =>
                   rd [1 / 2] d
                   * (INR (length (frame_segment [2%Z] [0%Z] [1%Z] d))
                      + IZR (Py.zsum (frame_segment [3%Z] [0%Z] [1%Z] d))))
              (zrange 0 1)).
Proof.
  apply (merge_all_conserves_photons 1 [1 / 2] 1
           {| Kernels.ones := [1%Z]; Kernels.multi := [1%Z]; Kernels.o_acc := [0%Z];
              Kernels.m_acc := [0%Z]; Kernels.p_o := [2%Z]; Kernels.p_m := [0%Z];
              Kernels.c_m := [3%Z] |} [0; 0; 0; 0]).
  - lia.
  - lia.
  - intros d p Hd Hp. assert (d = 0%Z) by lia. subst d.
    vm_compute in Hp. destruct Hp as [[<-|[]]|[<-|[]]]; simpl; lia.
Defined.

End PhotonMergeTheorem.

(** ** One block when the matrix fits *)

Section SingleBlock.

Open Scope Z_scope.

(** [num_blocks] against the ratio of ten times the matrix cells to the
    free bytes. *)
Lemma num_blocks_bounds (n a : Z) :
  0 < a ->
  let nb := Qceiling ((inject_Z (n * 8) / inject_Z a) / Partition.MEM_THRESH)%Q in
  10 * n <= nb * a /\ (nb - 1) * a < 10 * n.
Proof.
  intros Ha. cbv zeta. unfold Partition.MEM_THRESH.
  set (x := ((inject_Z (n * 8) / inject_Z a) / (8 # 10))%Q).
  pose proof (Qle_ceiling x) as Hle. pose proof (Qceiling_lt x) as Hlt.
  set (nb := Qceiling x) in *. unfold x in Hle, Hlt.
  destruct a as [|p|p]; [lia| |lia].
  unfold Qle, Qlt, Qdiv, Qmult, Qinv, inject_Z in *; cbn [Qnum Qden] in *.
  rewrite ?Pos2Z.inj_mul in *. lia.
Qed.

(** X18.  One block when the matrix fits.  With free memory, an owned
    orientation and a frame, the partitioner yields the single block
    [(0, num_data)] exactly when the probability matrix of all frames,
    [num_rot_p * num_data * 8] bytes, is within the budget of 0.8 times
    the free memory; a larger matrix is split. *)
Theorem single_block_iff_matrix_fits (num_rot_p num_data mem_size dset_mem : Z) :
  0 < num_rot_p -> 0 < num_data -> dset_mem < mem_size ->
  (Partition.schedule num_rot_p num_data mem_size dset_mem
   = Some ([num_data], [(0, num_data)])
   <-> 10 * (num_rot_p * num_data) <= mem_size - dset_mem).
Proof.
  intros HR HD Hm. unfold Partition.schedule, Partition.num_blocks, Partition.mem_frac.
  set (a := mem_size - dset_mem).
  destruct (Z.eqb_spec a 0) as [Ha|_]; [unfold a in Ha; lia|].
  pose proof (num_blocks_bounds (num_rot_p * num_data) a ltac:(unfold a; lia)) as Hb.
  cbv zeta in Hb.
  set (nb := Qceiling ((inject_Z (num_rot_p * num_data * 8) / inject_Z a)
                       / Partition.MEM_THRESH)%Q) in *.
  assert (Hpos : 0 < nb) by nia.
  rewrite block_sizes_closed by assumption.
  split.
  - intros H. injection H as Hs _.
    apply (f_equal (@length _)) in Hs.
    rewrite length_app, !repeat_length in Hs. simpl in Hs.
    pose proof (Z.mod_pos_bound num_data nb Hpos).
    assert (nb = 1) by lia. subst nb. lia.
  - intros Hfit. assert (Hnb : nb = 1) by nia. rewrite Hnb.
    rewrite Z.mod_1_r, Z.div_1_r. reflexivity.
Qed.

(** Two orientations and 100 frames, 1600 bytes, in 16000 free bytes. *)
Lemma single_block_iff_matrix_fits_witness :
  Partition.schedule 2 100 20000 4000 = Some ([100], [(0, 100)])
  <-> 10 * (2 * 100) <= 20000 - 4000.
Proof. apply (single_block_iff_matrix_fits 2 100 20000 4000); lia. Defined.

End SingleBlock.

(** ** The running sums of the photon file *)

Section RunningSum.

Import Arr.
Open Scope Z_scope.

(** X19.  [accum] is the exclusive running sum.  Rolling the running
    sum by one and storing 0 in front turns it into the offsets of the
    frames in the pooled arrays: the first offset is 0, and each next
    offset is the previous one plus the previous length, so the segments
    follow each other without gap (the total, which the roll moves to
    the front, is overwritten).  On an empty array the store raises. *)
Theorem accum_is_exclusive_running_sum (a : list Z) :
  (a = [] -> Init.accum a = None) /\
  (a <> [] ->
   exists acc,
     Init.accum a = Some acc /\ length acc = length a /\ nth 0 acc 0 = 0 /\
     forall d, (S d < length a)%nat -> nth (S d) acc 0 = nth d acc 0 + nth d a 0).
Proof.
  split; [apply accum_none|]. intros Ha.
  destruct (accum_some a Ha) as (acc & Hacc & Hlen & Hn).
  exists acc. split; [exact Hacc|]. split; [exact Hlen|]. split.
  - rewrite Hn; [reflexivity|]. destruct a; [congruence|simpl; lia].
  - intros d Hd. rewrite !Hn by lia. apply zsum_firstn_S. lia.
Qed.

End RunningSum.

(** ** Responsibilities are probabilities *)

Section Probabilities.

Import Arr.
Open Scope R_scope.

Lemma In_le_rsum (l : list R) (x : R) :
  (forall y, In y l -> 0 <= y) -> In x l -> x <= rsum l.
Proof.
  induction l as [|y l IH]; intros Hpos Hin; [destruct Hin|].
  rewrite rsum_cons.
  assert (0 <= rsum l) by (apply rsum_nonneg; intros z Hz; apply Hpos; now right).
  destruct Hin as [->|Hin].
  - lra.
  - assert (0 <= y) by (apply Hpos; now left).
    specialize (IH (fun z Hz => Hpos z (or_intror Hz)) Hin). lra.
Qed.

(** Before the floor every responsibility lies between 0 and 1. *)
Lemma divided_entry_bounds (ncol : nat) (probs : list matrix) (m : matrix)
    (row : list R) (q : R) :
  probs <> [] ->
  (forall m, In m probs -> m <> [] /\ well_shaped ncol m) ->
  In m (map (Normalize.divide (normaliser ncol probs)) (shifted ncol probs)) ->
  In row m -> In q row -> 0 < q <= 1.
Proof.
  intros Hp Hall Hm Hrow Hq.
  assert (Hne : forall m, In m probs -> m <> []) by (intros m' Hm'; now apply Hall).
  assert (Hs : forall m, In m probs -> well_shaped ncol m)
    by (intros m' Hm'; now apply Hall).
  pose proof (divided_shape ncol probs m Hs Hm row Hrow) as Hlen.
  destruct (In_nth row q 0 Hq) as (d & Hd & Hnth). rewrite Hlen in Hd.
  assert (Hin : In q (col d (concat (map (Normalize.divide (normaliser ncol probs))
                                          (shifted ncol probs))))).
  { unfold col. apply in_map_iff. exists row. split; [exact Hnth|].
    apply in_concat. exists m. split; assumption. }
  split.
  - exact (divided_positive ncol d probs q Hs Hp Hne Hd Hin).
  - rewrite <- (divided_sums_to_one ncol d probs Hs Hp Hne Hd).
    apply In_le_rsum; [|exact Hin].
    intros y Hy. left. exact (divided_positive ncol d probs y Hs Hp Hne Hd Hy).
Qed.

(** X20.  Responsibilities are probabilities.  When every rank holds a
    row, [_normalize_prob] returns and no entry of any rank's matrix
    exceeds 1: in the package engine every entry lies between [P_MIN]
    and 1, in the stand-alone script between 0 and 1. *)
Theorem responsibilities_at_most_one (e : Engine.EMC) (l : Legacy.EMC) (ncol : nat)
    (probs : list matrix) :
  probs <> [] ->
  (forall m, In m probs -> m <> [] /\ well_shaped ncol m) ->
  Z.to_nat (Legacy.num_data (Legacy.dset l)) = ncol ->
  (exists out rmax,
     Engine.normalize_prob e ncol probs = Some (out, rmax) /\
     forall m row p, In m out -> In row m -> In p row -> Normalize.P_MIN <= p <= 1) /\
  (exists out rmax,
     Legacy.normalize_prob l probs = Some (out, rmax) /\
     forall m row p, In m out -> In row m -> In p row -> 0 <= p <= 1).
Proof.
  intros Hp Hall Hncol.
  assert (Hne : forall m, In m probs -> m <> []) by (intros m' Hm'; now apply Hall).
  pose proof P_MIN_pos as HP.
  assert (HP1 : Normalize.P_MIN <= 1) by (unfold Normalize.P_MIN; lra).
  split.
  - unfold Engine.normalize_prob, Normalize.normalize_prob.
    destruct (normalize_upto_divide_some (Engine.num_proc e) ncol probs Hne) as [rmax ->].
    eexists. exists rmax. split; [reflexivity|].
    intros m row p Hm Hrow Hq.
    apply in_map_iff in Hm. destruct Hm as (m0 & <- & Hm0).
    apply in_map_iff in Hrow. destruct Hrow as (row0 & <- & Hrow0).
    apply in_map_iff in Hq. destruct Hq as (q & <- & Hq0).
    destruct (divided_entry_bounds ncol probs m0 row0 q Hp Hall Hm0 Hrow0 Hq0) as [H0 H1].
    unfold Normalize.floor_clip. split; [apply Rmax_r|apply Rmax_lub; assumption].
  - unfold Legacy.normalize_prob, Normalize.normalize_prob. rewrite Hncol.
    destruct (normalize_upto_divide_some (Legacy.num_proc l) ncol probs Hne) as [rmax ->].
    eexists. exists rmax. split; [reflexivity|].
    intros m row p Hm Hrow Hq.
    apply in_map_iff in Hm. destruct Hm as (m0 & <- & Hm0).
    apply in_map_iff in Hrow. destruct Hrow as (row0 & <- & Hrow0).
    apply in_map_iff in Hq. destruct Hq as (q & <- & Hq0).
    destruct (divided_entry_bounds ncol probs m0 row0 q Hp Hall Hm0 Hrow0 Hq0) as [H0 H1].
    unfold Normalize.floor_zero. destruct (Rlt_dec q Normalize.P_MIN); lra.
Qed.

(** Scenario B's shape, as in the witness of the sum. *)
Lemma responsibilities_at_most_one_witness :
  (exists out rmax,
     Engine.normalize_prob small_engine_run 1 two_rank_columns = Some (out, rmax) /\
     forall m row p, In m out -> In row m -> In p row -> Normalize.P_MIN <= p <= 1) /\
  (exists out rmax,
     Legacy.normalize_prob small_legacy_run two_rank_columns = Some (out, rmax) /\
     forall m row p, In m out -> In row m -> In p row -> 0 <= p <= 1).
Proof.
  apply (responsibilities_at_most_one small_engine_run small_legacy_run 1
           two_rank_columns).
  - discriminate.
  - intros m [<-|[<-|[]]]; (split; [discriminate|]);
      intros row [<-|[<-|[]]]; reflexivity.
  - reflexivity.
Defined.

End Probabilities.

(** ** The number of streams *)

Section Streams.

Import Arr.
Open Scope R_scope.

Variable slice_gen : list R -> Z -> list R.
Variable slice_merge : list R -> Z -> list R * list R -> list R * list R.
Variable e : Engine.EMC.
Variable model : list R.
Variable npix : nat.

Hypothesis streams : (1 <= Engine.num_streams e)%Z.
Hypothesis rendered : forall m r, length (slice_gen m r) = npix.
Hypothesis background : length (Engine.bg (Engine.dset e)) = npix.

Lemma stream_slot (i : nat) :
  (Z.to_nat (Z.of_nat i mod Engine.num_streams e) < Z.to_nat (Engine.num_streams e))%nat.
Proof.
  pose proof (Z.mod_pos_bound (Z.of_nat i) (Engine.num_streams e) ltac:(lia)). lia.
Qed.

Lemma views_ready_set (views : matrix) (i : nat) (view : list R) :
  views_ready npix (Engine.num_streams e) views -> length view = npix ->
  views_ready npix (Engine.num_streams e)
    (set_nth (Z.to_nat (Z.of_nat i mod Engine.num_streams e)) view views) /\
  nth (Z.to_nat (Z.of_nat i mod Engine.num_streams e))
      (set_nth (Z.to_nat (Z.of_nat i mod Engine.num_streams e)) view views) [] = view.
Proof.
  intros [Hlen Hrows] Hv. pose proof (stream_slot i) as Hs.
  set (snum := Z.to_nat (Z.of_nat i mod Engine.num_streams e)) in *.
  split; [split|].
  - now rewrite length_set_nth.
  - intros row Hrow. destruct (In_nth _ _ [] Hrow) as (j & Hj & <-).
    rewrite length_set_nth in Hj. rewrite nth_set_nth.
    destruct ((j =? snum)%nat && (snum <? length views)%nat); [exact Hv|].
    apply Hrows. apply nth_In. exact Hj.
  - rewrite nth_set_nth, Nat.eqb_refl.
    now replace (snum <? length views)%nat with true
      by (symmetry; apply Nat.ltb_lt; lia).
Qed.

(** The loop of [_calculate_prob] on the probability buffer, without the
    view buffers. *)
Lemma estep_loop_streams (drange : Z * Z) (dmodel : list R) (l : list Z)
    (vp : matrix * matrix) :
  views_ready npix (Engine.num_streams e) (fst vp) ->
  views_ready npix (Engine.num_streams e)
    (fst (estep_loop slice_gen e model drange dmodel l vp)) /\
  snd (estep_loop slice_gen e model drange dmodel l vp)
  = fold_left (estep_prob_step slice_gen e model drange dmodel) (Py.enumerate l) (snd vp).
Proof.
  intros Hv. induction l as [|r l IH] using rev_ind.
  - split; [exact Hv|reflexivity].
  - destruct IH as [IHv IHp].
    rewrite estep_loop_snoc, enumerate_app, fold_left_app. cbn [fold_left].
    rewrite <- IHp. unfold estep_step, estep_prob_step. cbn [fst snd].
    destruct (views_ready_set (fst (estep_loop slice_gen e model drange dmodel l vp))
                (length l) (slice_gen dmodel r) IHv (rendered dmodel r)) as [Hr Hn].
    split; [exact Hr|]. now rewrite Hn.
Qed.

(** The loop of [_update_model] on the accumulators, without the view
    buffers. *)
Lemma mstep_loop_streams (drange : Z * Z) (prob : matrix) (p_norm : list R)
    (l : list (nat * Z)) (st : matrix * (list R * list R)) :
  views_ready npix (Engine.num_streams e) (fst st) ->
  views_ready npix (Engine.num_streams e)
    (fst (fold_left (Engine.update_model_step slice_merge e drange prob p_norm) l st)) /\
  snd (fold_left (Engine.update_model_step slice_merge e drange prob p_norm) l st)
  = fold_left (mstep_acc_step slice_merge e npix drange prob p_norm) l (snd st).
Proof.
  revert st. induction l as [|ir l IH]; intros st Hv; [split; [exact Hv|reflexivity]|].
  cbn [fold_left].
  assert (Hstep : views_ready npix (Engine.num_streams e)
                    (fst (Engine.update_model_step slice_merge e drange prob p_norm st ir)) /\
                  snd (Engine.update_model_step slice_merge e drange prob p_norm st ir)
                  = mstep_acc_step slice_merge e npix drange prob p_norm (snd st) ir).
  { unfold Engine.update_model_step, mstep_acc_step.
    destruct (Req_dec_T (nth (fst ir) p_norm 0) 0); [split; [exact Hv|reflexivity]|].
    cbv zeta. cbn [fst snd].
    pose proof (stream_slot (fst ir)) as Hs.
    set (snum := Z.to_nat (Z.of_nat (fst ir) mod Engine.num_streams e)) in *.
    assert (Hrow : length (nth snum (fst st) []) = npix).
    { destruct Hv as [Hlen Hrows]. apply Hrows. apply nth_In. lia. }
    rewrite zero_fill_zeros, Hrow.
    split; [|reflexivity].
    apply views_ready_set; [exact Hv|].
    rewrite length_map2, length_merge_all, background. unfold zeros.
    rewrite repeat_length. apply Nat.min_id. }
  destruct Hstep as [Hv' Hs']. destruct (IH _ Hv') as [IHv IHp].
  split; [exact IHv|]. now rewrite IHp, Hs'.
Qed.

End Streams.

Section StreamsCompared.

Import Arr.
Open Scope R_scope.

Variable slice_gen : list R -> Z -> list R.
Variable slice_merge : list R -> Z -> list R * list R -> list R * list R.
Variable e : Engine.EMC.
Variable k : Z.
Variable model : list R.
Variable npix : nat.

Hypothesis streams : (1 <= Engine.num_streams e)%Z.
Hypothesis streams' : (1 <= k)%Z.
Hypothesis rendered : forall m r, length (slice_gen m r) = npix.
Hypothesis background : length (Engine.bg (Engine.dset e)) = npix.

Lemma calculate_prob_streams (rank : Z) (drange : Z * Z) (st1 st2 : Engine.rank_state) :
  same_but_views npix (Engine.num_streams e) k st1 st2 ->
  same_but_views npix (Engine.num_streams e) k
    (Engine.calculate_prob slice_gen e rank model drange st1)
    (Engine.calculate_prob slice_gen (with_num_streams e k) rank model drange st2).
Proof.
  intros (Hp & Hm & Hw & Hv1 & Hv2). rewrite !calculate_prob_loop. cbv zeta.
  destruct (estep_loop_streams slice_gen e model npix streams rendered background drange
              (Engine.dmodel st1)
              (Striping.owned (Engine.num_rot e) (Engine.num_proc e) rank)
              (Engine.views st1, Engine.prob st1) Hv1) as [Hr1 He1].
  destruct (estep_loop_streams slice_gen (with_num_streams e k) model npix streams'
              rendered background drange (Engine.dmodel st2)
              (Striping.owned (Engine.num_rot e) (Engine.num_proc e) rank)
              (Engine.views st2, Engine.prob st2) Hv2) as [Hr2 He2].
  unfold same_but_views. cbn [Engine.prob Engine.views Engine.dmodel Engine.dmweights].
  cbn [with_num_streams Engine.num_rot Engine.num_proc].
  split; [|split; [exact Hm|split; [exact Hw|split; [exact Hr1|exact Hr2]]]].
  rewrite He1, He2. cbn [snd]. rewrite Hp, Hm. reflexivity.
Qed.

Lemma update_model_streams (rank : Z) (drange : Z * Z) (st1 st2 : Engine.rank_state) :
  same_but_views npix (Engine.num_streams e) k st1 st2 ->
  same_but_views npix (Engine.num_streams e) k
    (Engine.update_model slice_merge e rank drange st1)
    (Engine.update_model slice_merge (with_num_streams e k) rank drange st2).
Proof.
  intros (Hp & Hm & Hw & Hv1 & Hv2). unfold Engine.update_model. cbv zeta.
  destruct (mstep_loop_streams slice_merge e npix streams background drange
              (Engine.prob st1) (sum1 (Engine.prob st1))
              (Py.enumerate (Striping.owned (Engine.num_rot e) (Engine.num_proc e) rank))
              (Engine.views st1,
               (zero_fill (Engine.dmodel st1), zero_fill (Engine.dmweights st1))) Hv1)
    as [Hr1 He1].
  destruct (mstep_loop_streams slice_merge (with_num_streams e k) npix streams'
              background drange
              (Engine.prob st2) (sum1 (Engine.prob st2))
              (Py.enumerate (Striping.owned (Engine.num_rot e) (Engine.num_proc e) rank))
              (Engine.views st2,
               (zero_fill (Engine.dmodel st2), zero_fill (Engine.dmweights st2))) Hv2)
    as [Hr2 He2].
  unfold same_but_views. cbn [Engine.prob Engine.views Engine.dmodel Engine.dmweights].
  cbn [with_num_streams Engine.num_rot Engine.num_proc].
  split; [exact Hp|].
  cbn [with_num_streams Engine.num_rot Engine.num_proc] in He2, Hr2.
  split; [|split; [|split; [exact Hr1|exact Hr2]]].
  - rewrite He1, He2. cbn [snd]. now rewrite Hp, Hm, Hw.
  - rewrite He1, He2. cbn [snd]. now rewrite Hp, Hm, Hw.
Qed.

Lemma Forall2_map_combine {A B C} (P : A -> A -> Prop) (Q : B -> B -> Prop)
    (f1 f2 : C * A -> B) (l1 l2 : list A) :
  (forall c a b, P a b -> Q (f1 (c, a)) (f2 (c, b))) ->
  Forall2 P l1 l2 ->
  forall cs : list C, Forall2 Q (map f1 (combine cs l1)) (map f2 (combine cs l2)).
Proof.
  intros Hf H. induction H as [|a b l1 l2 Hab _ IH]; intros cs.
  - rewrite !combine_nil. constructor.
  - destruct cs as [|c cs]; [constructor|].
    cbn [combine map]. constructor; [now apply Hf|apply IH].
Qed.

Lemma Forall2_map_combine3 {A B C D} (P : A -> A -> Prop) (Q : B -> B -> Prop)
    (f1 f2 : C * A * D -> B) (l1 l2 : list A) :
  (forall c a b d, P a b -> Q (f1 (c, a, d)) (f2 (c, b, d))) ->
  Forall2 P l1 l2 ->
  forall (cs : list C) (ds : list D),
    Forall2 Q (map f1 (combine (combine cs l1) ds)) (map f2 (combine (combine cs l2) ds)).
Proof.
  intros Hf H. induction H as [|a b l1 l2 Hab _ IH]; intros cs ds.
  - rewrite !combine_nil. constructor.
  - destruct cs as [|c cs]; [constructor|].
    destruct ds as [|d ds]; [constructor|].
    cbn [combine map]. constructor; [now apply Hf|apply IH].
Qed.

Lemma Forall2_map_eq {A B} (P : A -> A -> Prop) (f : A -> B) (l1 l2 : list A) :
  (forall a b, P a b -> f a = f b) -> Forall2 P l1 l2 -> map f l1 = map f l2.
Proof.
  intros Hf H. induction H as [|a b l1 l2 Hab _ IH]; [reflexivity|].
  cbn [map]. now rewrite (Hf a b Hab), IH.
Qed.

(** A turn of the block loop on [k] streams raises when it does on
    [num_streams], and leaves the same buffers, model and weights. *)
Lemma block_step_streams (ncol : nat) (drange : Z * Z)
    (sts1 sts2 : list Engine.rank_state) :
  Forall2 (same_but_views npix (Engine.num_streams e) k) sts1 sts2 ->
  match Engine.block_step slice_gen slice_merge e model ncol sts1 drange,
        Engine.block_step slice_gen slice_merge (with_num_streams e k) model ncol sts2
          drange with
  | Some a, Some b => Forall2 (same_but_views npix (Engine.num_streams e) k) a b
  | None, None => True
  | _, _ => False
  end.
Proof.
  intros H. unfold Engine.block_step.
  change (Engine.ranks (with_num_streams e k)) with (Engine.ranks e).
  change (Engine.normalize_prob (with_num_streams e k)) with (Engine.normalize_prob e).
  pose proof (Forall2_map_combine _
                (same_but_views npix (Engine.num_streams e) k)
                (fun rs => Engine.calculate_prob slice_gen e (fst rs) model drange (snd rs))
                (fun rs => Engine.calculate_prob slice_gen (with_num_streams e k) (fst rs)
                             model drange (snd rs))
                sts1 sts2
                (fun c a b Hab => calculate_prob_streams c drange a b Hab) H
                (Engine.ranks e)) as Hc.
  rewrite (Forall2_map_eq _ Engine.prob _ _ (fun a b Hab => proj1 Hab) Hc).
  destruct (Engine.normalize_prob e ncol _) as [[probs rmax]|]; [|exact I].
  apply (Forall2_map_combine3 (same_but_views npix (Engine.num_streams e) k)); [|exact Hc].
  intros c a b d Hab. cbn [fst snd]. apply update_model_streams.
  destruct Hab as (Hp & Hm & Hw & Hv1 & Hv2).
  repeat split; cbn [Engine.prob Engine.dmodel Engine.dmweights Engine.views];
    try assumption; try apply Hv1; try apply Hv2.
Qed.

Lemma run_blocks_streams (ncol : nat) (dranges : list (Z * Z))
    (sts1 sts2 : list Engine.rank_state) :
  Forall2 (same_but_views npix (Engine.num_streams e) k) sts1 sts2 ->
  match Engine.run_blocks slice_gen slice_merge e model ncol sts1 dranges,
        Engine.run_blocks slice_gen slice_merge (with_num_streams e k) model ncol sts2
          dranges with
  | Some a, Some b => Forall2 (same_but_views npix (Engine.num_streams e) k) a b
  | None, None => True
  | _, _ => False
  end.
Proof.
  revert sts1 sts2. induction dranges as [|dr rest IH]; intros sts1 sts2 H.
  - exact H.
  - cbn [Engine.run_blocks]. pose proof (block_step_streams ncol dr sts1 sts2 H) as Hb.
    destruct (Engine.block_step slice_gen slice_merge e model ncol sts1 dr) as [a|],
             (Engine.block_step slice_gen slice_merge (with_num_streams e k) model ncol
                sts2 dr) as [b|]; try contradiction; [|exact I].
    now apply IH.
Qed.

End StreamsCompared.

Section StreamsTheorem.

Import Arr.
Open Scope R_scope.

Lemma empty_rows_columns (junk : nat -> nat -> R) (nrow ncol : nat) :
  length (empty junk nrow ncol) = nrow /\
  forall row, In row (empty junk nrow ncol) -> length row = ncol.
Proof.
  unfold empty. split.
  - now rewrite length_map, length_seq.
  - intros row Hrow. apply in_map_iff in Hrow. destruct Hrow as (i & <- & _).
    now rewrite length_map, length_seq.
Qed.

Lemma Forall2_map_same {A B} (P : B -> B -> Prop) (f1 f2 : A -> B) (l : list A) :
  (forall a, P (f1 a) (f2 a)) -> Forall2 P (map f1 l) (map f2 l).
Proof.
  intros Hf. induction l as [|a l IH]; [constructor|].
  cbn [map]. constructor; [apply Hf|exact IH].
Qed.

(** X21.  The number of streams does not change an iteration of the
    package engine, with the kernels run in the order of the loops.
    [_calculate_prob] and [_update_model] hand orientation [i] to stream
    and view buffer [i % num_streams]; each turn of either loop fills
    that buffer before it reads it.  With at least one stream, a render
    kernel that fills a view of [size^2] pixels and a background of
    [size^2] pixels, [run_iteration] with any other positive number of
    streams, and any contents of the fresh view buffers, raises in the
    same runs and returns the same model, weights and probability
    buffers. *)
Theorem run_iteration_independent_of_num_streams
    (slice_gen : list R -> Z -> list R)
    (slice_merge : list R -> Z -> list R * list R -> list R * list R)
    (e : Engine.EMC) (k : Z) (model : list R) (mweights : Z -> list R)
    (old : Z -> Engine.buffer) (junk vjunk vjunk' : Z -> nat -> nat -> R) :
  (1 <= Engine.num_streams e)%Z -> (1 <= k)%Z ->
  (forall m r, length (slice_gen m r) = Z.to_nat (Engine.size e ^ 2)) ->
  length (Engine.bg (Engine.dset e)) = Z.to_nat (Engine.size e ^ 2) ->
  Engine.run_iteration slice_gen slice_merge (with_num_streams e k) model mweights old
    junk vjunk'
  = Engine.run_iteration slice_gen slice_merge e model mweights old junk vjunk.
Proof.
  intros Hs Hk Hrender Hbg. unfold Engine.run_iteration.
  change (Engine.rank_schedule (with_num_streams e k)) with (Engine.rank_schedule e).
  change (Engine.ranks (with_num_streams e k)) with (Engine.ranks e).
  cbn [with_num_streams Engine.num_rot Engine.num_proc Engine.size Engine.num_streams].
  destruct (Normalize.mapM (Engine.rank_schedule e) (Engine.ranks e))
    as [[|[n0 [dranges width]] others]|]; try reflexivity.
  destruct (forallb _ others); [|reflexivity].
  cbv zeta.
  set (bufs := map (fun rank =>
                      Engine.ensure_buffer (old rank) (junk rank)
                        (Striping.num_rot_p (Engine.num_rot e) (Engine.num_proc e) rank)
                        width)
                   (Engine.ranks e)).
  match goal with
  | |- match Engine.run_blocks _ _ _ _ _ ?s2 _ with _ => _ end
       = match Engine.run_blocks _ _ _ _ _ ?s1 _ with _ => _ end =>
      pose proof (run_blocks_streams slice_gen slice_merge e k model
                    (Z.to_nat (Engine.size e ^ 2)) Hs Hk Hrender Hbg
                    (Z.to_nat width) dranges s1 s2) as Hrun
  end.
  match type of Hrun with
  | ?P -> _ => assert (Hinit : P)
  end.
  { apply Forall2_map_same. intros [rank b].
    repeat split; cbn [Engine.views]; apply empty_rows_columns. }
  specialize (Hrun Hinit). clear Hinit.
  destruct (Engine.run_blocks slice_gen slice_merge e model (Z.to_nat width) _ dranges)
    as [sts1|],
    (Engine.run_blocks slice_gen slice_merge (with_num_streams e k) model
       (Z.to_nat width) _ dranges) as [sts2|]; try contradiction; [|reflexivity].
  rewrite (Forall2_map_eq _ (fun st => (Engine.dmodel st, Engine.dmweights st)) _ _
             (fun a b Hab => f_equal2 pair (proj1 (proj2 Hab))
                                           (proj1 (proj2 (proj2 Hab)))) Hrun).
  do 2 f_equal.
  clearbody bufs. clear -Hrun. revert bufs. induction Hrun as [|a b l1 l2 Hab _ IH]; intros bufs.
  - now rewrite !combine_nil.
  - destruct bufs as [|bf bufs]; [reflexivity|].
    cbn [combine map fst snd]. rewrite (proj1 Hab). f_equal. apply IH.
Qed.

(** [small_engine_run] on one stream instead of four. *)
Lemma run_iteration_independent_of_num_streams_witness :
  Engine.run_iteration (fun _ _ => [0; 0; 0; 0]) (fun _ _ mw => mw)
    (with_num_streams small_engine_run 1)
    [5; 5; 5; 5] (fun _ => [0; 0; 0; 0]) (fun _ => Engine.initial_buffer)
    (fun _ _ _ => 0) (fun _ _ _ => 1)
  = Engine.run_iteration (fun _ _ => [0; 0; 0; 0]) (fun _ _ mw => mw) small_engine_run
      [5; 5; 5; 5] (fun _ => [0; 0; 0; 0]) (fun _ => Engine.initial_buffer)
      (fun _ _ _ => 0) (fun _ _ _ => 0).
Proof.
  apply (run_iteration_independent_of_num_streams (fun _ _ => [0; 0; 0; 0])
           (fun _ _ mw => mw) small_engine_run 1 [5; 5; 5; 5] (fun _ => [0; 0; 0; 0])
           (fun _ => Engine.initial_buffer) (fun _ _ _ => 0) (fun _ _ _ => 0)
           (fun _ _ _ => 1)).
  - simpl. lia.
  - lia.
  - intros m r. reflexivity.
  - reflexivity.
Defined.

End StreamsTheorem.

(** ** Rendering and back-projection *)

Section Pairing.

Import Arr.
Open Scope R_scope.

Lemma dot_cons (x y : R) (a b : list R) : dot (x :: a) (y :: b) = x * y + dot a b.
Proof. unfold dot, map2. cbn [combine map fst snd]. apply rsum_cons. Qed.

Lemma dot_nil_r (a : list R) : dot a [] = 0.
Proof. unfold dot, map2. rewrite combine_nil. apply rsum_nil. Qed.

Lemma dot_set_nth (m a : list R) (i : nat) (v : R) :
  length m = length a -> (i < length a)%nat ->
  dot m (set_nth i v a) = dot m a + nth i m 0 * (v - nth i a 0).
Proof.
  revert m i. induction a as [|y a IH]; intros m i Hlen Hi; [simpl in Hi; lia|].
  destruct m as [|x m]; [discriminate|]. simpl in Hlen, Hi.
  destruct i as [|i]; cbn [set_nth nth]; rewrite !dot_cons.
  - lra.
  - rewrite IH by lia. lra.
Qed.

Lemma dot_atomicAdd (m a : list R) (i : Z) (v : R) :
  length m = length a -> (0 <= i < Z.of_nat (length a))%Z ->
  dot m (atomicAdd i v a) = dot m a + rd m i * v.
Proof.
  intros Hlen Hi. unfold atomicAdd.
  rewrite upd_set_nth, !rd_nth, dot_set_nth by lia. lra.
Qed.

(** Additions inside the model raise its product with [m] by the
    products of what they add with the cells of [m] they add to. *)
Lemma dot_apply_adds (m : list R) (l : list (Z * R * R)) (mw : list R * list R) :
  length m = length (fst mw) ->
  (forall a, In a l -> (0 <= fst (fst a) < Z.of_nat (length (fst mw)))%Z) ->
  dot m (fst (apply_adds l mw))
  = dot m (fst mw) + rsum (map (fun a => rd m (fst (fst a)) * (snd (fst a) * snd a)) l).
Proof.
  revert mw. induction l as [|a l IH]; intros mw Hlen Hin.
  - cbn [apply_adds fold_left map]. rewrite rsum_nil. lra.
  - unfold apply_adds in *. cbn [fold_left map].
    rewrite IH.
    + unfold apply_add. cbn [fst snd].
      rewrite dot_atomicAdd, rsum_cons by (try assumption; apply Hin; now left). lra.
    + unfold apply_add. cbn [fst snd]. now rewrite length_atomicAdd.
    + intros b Hb. unfold apply_add. cbn [fst snd]. rewrite length_atomicAdd.
      apply Hin. now right.
Qed.

Lemma rd_zeros (n : nat) (i : Z) : rd (zeros n) i = 0.
Proof. unfold rd, zeros. destruct (i <? 0)%Z; [reflexivity|apply nth_repeat]. Qed.

(** What a thread of [slice_merge] adds, weighed by the cells of [m], is
    its view pixel times the pixel [slice_gen] renders from [m]. *)
Lemma thread_adds_rendered (m view : list R) (angle : R) (size x y : Z) (n : nat) :
  rsum (map (fun a => rd m (fst (fst a)) * (snd (fst a) * snd a))
            (thread_adds view angle size x y))
  = if ((size - 1 <? x) || (size - 1 <? y))%Z then 0
    else rd view (Py.astype_i4 (x * size + y))
         * rendered_pixel m angle 1 size (zeros n) 0 x y.
Proof.
  unfold thread_adds, rendered_pixel.
  destruct ((size - 1 <? x) || (size - 1 <? y))%Z; [apply rsum_nil|].
  cbv zeta. cbn [Z.eqb].
  destruct (_ || _ || _ || _)%bool.
  - cbn [map]. rewrite rsum_nil. ring.
  - cbn [map fst snd]. rewrite !rsum_cons, rsum_nil, rd_zeros. ring.
Qed.

Lemma dot_seq (a b : list R) :
  length a = length b ->
  dot a b = rsum (map (fun c => nth c a 0 * nth c b 0) (seq 0 (length a))).
Proof.
  revert b. induction a as [|x a IH]; intros b Hlen.
  - destruct b; [|discriminate]. rewrite dot_nil_r. symmetry. apply rsum_nil.
  - destruct b as [|y b]; [discriminate|]. simpl in Hlen.
    rewrite dot_cons, IH by lia. cbn [length seq map nth].
    rewrite rsum_cons, <- seq_shift, map_map. reflexivity.
Qed.

(** A sum over the cells of a grid of [k] rows of [s] cells, row by
    row. *)
Lemma rsum_seq_rows (f : nat -> R) (k s : nat) :
  rsum (map f (seq 0 (k * s)))
  = rsum (map (fun x => rsum (map (fun y => f (x * s + y)%nat) (seq 0 s))) (seq 0 k)).
Proof.
  induction k as [|k IH]; [reflexivity|].
  replace (S k * s)%nat with (k * s + s)%nat by lia.
  rewrite seq_app, map_app, rsum_app, IH, seq_S, map_app, rsum_app.
  cbn [map Nat.add]. rewrite rsum_cons, rsum_nil, Rplus_0_r.
  now rewrite (map_seq_shift f).
Qed.

(** The threads beyond [size] add nothing to a sum over a launch. *)
Lemma rsum_guarded_zrange (g : Z -> R) (size G : Z) :
  (0 <= size <= G)%Z ->
  rsum (map (fun x => if (size - 1 <? x)%Z then 0 else g x) (zrange 0 G))
  = rsum (map g (zrange 0 size)).
Proof.
  intros HG.
  replace G with (Z.of_nat (Z.to_nat size + Z.to_nat (G - size))) by lia.
  rewrite zrange_app, map_app, rsum_app, Z2Nat.id by lia.
  rewrite (rsum_all_zero (map _ (zrange (0 + size) _))).
  - rewrite Rplus_0_r. f_equal. apply map_ext_in. intros x Hx.
    apply zrange_In in Hx.
    now replace (size - 1 <? x)%Z with false by (symmetry; apply Z.ltb_ge; lia).
  - intros v Hv. apply in_map_iff in Hv. destruct Hv as (x & <- & Hx).
    apply zrange_In in Hx.
    now replace (size - 1 <? x)%Z with true by (symmetry; apply Z.ltb_lt; lia).
Qed.

(** A sum over the threads of a two-dimensional launch. *)
Lemma rsum_thread_pairs (F : Z -> Z -> R) (grid : Z) :
  (32 * grid <= 2 ^ 31)%Z ->
  rsum (map (fun p => F (fst p) (snd p)) (thread_pairs grid))
  = rsum (map (fun x => rsum (map (fun y => F x y) (zrange 0 (32 * grid))))
              (zrange 0 (32 * grid))).
Proof.
  intros Hg. unfold thread_pairs. rewrite thread_ids_zrange by lia.
  rewrite rsum_flat_map. f_equal. apply map_ext_in. intros x Hx.
  apply zrange_In in Hx. rewrite map_map. f_equal. apply map_ext_in. intros y Hy.
  apply zrange_In in Hy. cbn [fst snd]. now rewrite !astype_i4_small by lia.
Qed.

End Pairing.

Section PairingTheorem.

Import Arr.
Open Scope R_scope.

(** X22.  Back-projection is the transpose of rendering.  For a view, a
    model and an array [m] of [size * size] cells, at most 2^31 of them
    so that every pixel index fits [int t], the product of [m] with the
    model grows under [slice_merge] by the product of the view with the
    render of [m] by [slice_gen] at the same angle (scale 1, no
    background, no logarithm): both kernels rotate a pixel to the same
    position and use the same four interpolation weights. *)
Theorem slice_merge_transposes_slice_gen (grid : Z) (view m : list R) (angle : R)
    (size : Z) (model mweights out : list R) :
  (0 <= size <= 32 * grid)%Z -> (32 * grid <= 2 ^ 31)%Z -> (size * size <= 2 ^ 31)%Z ->
  length view = Z.to_nat (size * size) -> length m = Z.to_nat (size * size) ->
  length model = Z.to_nat (size * size) -> length out = Z.to_nat (size * size) ->
  dot m (fst (Kernels.slice_merge grid view angle size model mweights))
  = dot m model
    + dot view (Render.slice_gen grid m angle 1 size (zeros (Z.to_nat (size * size))) 0
                  out).
Proof.
  intros Hs Hg H31 Hview Hm Hmodel Hout.
  set (n := Z.to_nat (size * size)) in *. set (s := Z.to_nat size).
  assert (Hn : n = (s * s)%nat) by (unfold n, s; apply Z2Nat.inj_mul; lia).
  rewrite slice_merge_adds, dot_apply_adds.
  2:{ cbn [fst]. congruence. }
  2:{ intros a Ha. apply slice_adds_lands in Ha. cbn [fst]. rewrite Hmodel. unfold n. lia. }
  cbn [fst]. f_equal.
  rewrite slice_adds_pairs, rsum_flat_map.
  set (F := fun x y => if (size - 1 <? x)%Z then 0
                        else if (size - 1 <? y)%Z then 0
                        else rd view (Py.astype_i4 (x * size + y))
                             * rendered_pixel m angle 1 size (zeros n) 0 x y).
  rewrite (map_ext _ (fun p => F (fst p) (snd p))).
  2:{ intros p. rewrite (thread_adds_rendered m view angle size (fst p) (snd p) n).
      unfold F. now destruct (size - 1 <? fst p)%Z, (size - 1 <? snd p)%Z. }
  rewrite (rsum_thread_pairs F) by lia. unfold F. clear F.
  rewrite (map_ext _ (fun x => if (size - 1 <? x)%Z then 0
                               else rsum (map (fun y =>
                                 rd view (Py.astype_i4 (x * size + y))
                                 * rendered_pixel m angle 1 size (zeros n) 0 x y)
                                 (zrange 0 size)))).
  2:{ intros x. destruct (size - 1 <? x)%Z.
      - apply rsum_all_zero. intros v Hv. apply in_map_iff in Hv.
        now destruct Hv as (y & <- & _).
      - apply rsum_guarded_zrange. lia. }
  rewrite rsum_guarded_zrange by lia.
  rewrite dot_seq by (rewrite length_slice_gen; congruence).
  rewrite Hview, Hn, rsum_seq_rows.
  unfold zrange. fold s. rewrite map_map. f_equal.
  apply map_ext_in. intros x Hx. apply in_seq in Hx.
  rewrite map_map. f_equal. apply map_ext_in. intros y Hy. apply in_seq in Hy.
  assert (Hc : Z.to_nat ((0 + Z.of_nat x) * size + (0 + Z.of_nat y)) = (x * s + y)%nat)
    by (unfold s; nia).
  rewrite astype_i4_small by (unfold s in *; nia).
  rewrite rd_nth, Hc by (unfold s in *; nia). f_equal.
  rewrite <- Hc. symmetry. apply slice_gen_nth; unfold s in *; lia.
Qed.

(** A 2 x 2 view merged at angle 0 into a zeroed model, paired with
    [[1; 2; 3; 4]]. *)
Lemma slice_merge_transposes_slice_gen_witness :
  dot [1; 2; 3; 4]
      (fst (Kernels.slice_merge 1 [5; 6; 7; 8] 0 2 [0; 0; 0; 0] [0; 0; 0; 0]))
  = dot [1; 2; 3; 4] [0; 0; 0; 0]
    + dot [5; 6; 7; 8]
          (Render.slice_gen 1 [1; 2; 3; 4] 0 1 2 (zeros (Z.to_nat (2 * 2))) 0
             [0; 0; 0; 0]).
Proof.
  apply (slice_merge_transposes_slice_gen 1 [5; 6; 7; 8] [1; 2; 3; 4] 0 2 [0; 0; 0; 0]
           [0; 0; 0; 0] [0; 0; 0; 0]); try reflexivity; lia.
Defined.

End PairingTheorem.
